(** * Hash Array Mapped Trie of foc_libraries: a shallow embedding

    The development follows [hash_array_mapped_trie.h]: the sizing oracle
    [hamt_trie_allocation_size], the bitmap-compressed [BitmapTrieTemplate],
    the tagged [NodeTemplate], the container [HashArrayMappedTrie] with its
    hash schedule, and the forward iterator.

    Conventions.
    - Fixed-width unsigned integers are [Z] values; every wrap-around is
      written out ([wrap32], [wrap64]).
    - A [Node*] is a path of physical indices from the trie the call was
      entered with ([handle]); [nullptr] is [None].
    - The parent back-link of a node is only stored and handed on by the
      operations embedded here, never branched on, so it is left out; the
      Leaf/Interior tag it carries is the constructor of [Node].
    - The recursion of [insertEntry] and the loop of [findNode] are bounded
      by a fuel argument; [OutOfFuel] is the outcome of a run that needs
      more steps than the fuel allows. *)

From stdpp Require Import base list.
From Stdlib Require Import ZArith Lia.

Local Open Scope Z_scope.

(** ** Outcomes of a call

    [Ret a]: the call returns [a].  [Undefined]: the call has no defined
    result; it reads a cell that holds no node, goes through a null
    pointer or fails an assertion.  [OutOfFuel]: see above. *)

Inductive result (A : Type) : Type :=
| Ret (a : A)
| Undefined
| OutOfFuel.

Arguments Ret {A} a.
Arguments Undefined {A}.
Arguments OutOfFuel {A}.

#[global] Instance result_bind : MBind result := fun A B k m =>
  match m with
  | Ret a => k a
  | Undefined => Undefined
  | OutOfFuel => OutOfFuel
  end.

(** An access that is only defined when the option holds a value. *)
Definition defined {A : Type} (o : option A) : result A :=
  match o with
  | Some a => Ret a
  | None => Undefined
  end.

(** ** Machine integers *)

Definition wrap32 (x : Z) : Z := x mod 2 ^ 32.
Definition wrap64 (x : Z) : Z := x mod 2 ^ 64.

(** Number of set bits among the [n] low bits of [x]. *)
Fixpoint count_bits (n : nat) (x : Z) : Z :=
  match n with
  | O => 0
  | S n => Z.b2z (Z.testbit x (Z.of_nat n)) + count_bits n x
  end.

(** [__builtin_popcount] of a 32-bit value. *)
Definition popcount (x : Z) : Z := count_bits 32 x.

(** [__builtin_clzll] of a non-zero 64-bit value. *)
Definition clzll (x : Z) : Z := 63 - Z.log2 x.

(** ** Sizing oracle *)

(** [level][generation] *)
Definition alloc_sizes_by_level : list (list Z) :=
  [ [2; 3; 5; 8; 13; 21; 29; 32; 32; 32; 32; 32; 32; 32; 32; 32; 32; 32; 32; 32; 32; 32; 32];
    [1; 1; 1; 1;  1;  2;  3;  5;  8; 13; 21; 29; 32; 32; 32; 32; 32; 32; 32; 32; 32; 32; 32];
    [1; 1; 1; 1;  1;  1;  1;  1;  1;  1;  2;  3;  5;  8; 13; 21; 29; 32; 32; 32; 32; 32; 32];
    [1; 1; 1; 1;  1;  1;  1;  1;  1;  1;  1;  1;  1;  1;  1;  2;  3;  5;  8; 13; 21; 29; 32];
    [1; 1; 1; 1;  1;  1;  1;  1;  1;  1;  1;  1;  1;  1;  1;  1;  1;  1;  1;  1;  1;  1;  1] ].

Definition alloc_sizes : list Z :=
  [1; 1; 2; 3; 5; 5; 8; 8; 8; 13; 13; 13; 13; 13; 21; 21; 21; 21; 21; 21; 21; 21;
   29; 29; 29; 29; 29; 29; 29; 29; 32; 32; 32].

(** [hamt_trie_allocation_size(required, expected_hamt_size, level)].
    The result is [None] when one of the two assertions fails or a table is
    indexed outside its bounds. *)
Definition hamt_trie_allocation_size (required expected_hamt_size level : Z) : option Z :=
  if negb ((0 <? required) && (required <=? 32)) then None else
  if negb (0 <? expected_hamt_size) then None else
  let '(level, generation) :=
    if 4 <? level then (4, 0)
    else if wrap64 (expected_hamt_size - 1) =? 0 then (level, 0)
    else
      let generation := 64 - clzll (wrap64 (expected_hamt_size - 1)) in
      (level, if 22 <? generation then 22 else generation) in
  row ← alloc_sizes_by_level !! Z.to_nat level;
  guess ← row !! Z.to_nat generation;
  if guess <? required then alloc_sizes !! Z.to_nat required else Some guess.

(** The oracle as the specification words it: the larger of the
    [by_required] stop and the per-level guess, with the level clamped to 4
    and the generation [ceil(log2(expected_size))] clamped to 22. *)
Definition generation_of (expected_size : Z) : Z :=
  Z.min 22 (Z.log2_up expected_size).

Definition sizing_oracle_spec (required expected_size level : Z) : option Z :=
  by_required ← alloc_sizes !! Z.to_nat required;
  row ← alloc_sizes_by_level !! Z.to_nat (Z.min level 4);
  guess ← row !! Z.to_nat (generation_of expected_size);
  Some (Z.max by_required guess).

(** Boolean check of the oracle on one cell of the tables. *)
Definition oracle_cell_ok (required level generation : nat) : bool :=
  match alloc_sizes !! required,
        (row ← alloc_sizes_by_level !! level; row !! generation) with
  | Some by_required, Some guess =>
      let r := Z.of_nat required in
      let c := if guess <? r then by_required else guess in
      (c =? Z.max by_required guess) && (r <=? c) && (c <=? 32)
  | _, _ => false
  end.

(** ** Template parameters *)

(** [Hash]: the functor returns a [size_t]. *)
Class Hash (Key : Type) := hasher : Key -> Z.

(** [KeyEqual]. *)
Class KeyEqual (Key : Type) := key_equal : Key -> Key -> bool.

(** [Allocator]: [allocate (bytes, alignment)] answers whether the pointer it
    returns is non-null; [deallocate] is given the capacity of the array. *)
Module Alloc.
Class Ops (Allocator : Type) := {
  allocate : Allocator -> Z -> Z -> bool * Allocator;
  deallocate : Allocator -> Z -> Allocator
}.
End Alloc.

(** [sizeof(Node)] and [alignof(Node)]. *)
Class NodeLayout := {
  sizeof_Node : Z;
  alignof_Node : Z
}.

(** ** Nodes and bitmap tries *)

(** [_base] is [None] for [nullptr]; otherwise it lists the initialised
    cells of the array, which are the cells below [popcount _bitmap]. *)
Record BitmapTrieTemplate (Node : Type) : Type := mkBitmapTrie {
  _bitmap : Z;
  _capacity : Z;
  _base : option (list Node)
}.

Arguments mkBitmapTrie {Node} _ _ _.
Arguments _bitmap {Node} _.
Arguments _capacity {Node} _.
Arguments _base {Node} _.

(** The low bit of [_parent] tells the two shapes of a node apart. *)
Inductive NodeTemplate (Entry : Type) : Type :=
| EntryNode (entry : Entry)
| TrieNode (trie : BitmapTrieTemplate (NodeTemplate Entry)).

Arguments EntryNode {Entry} entry.
Arguments TrieNode {Entry} trie.

(** A [Node*]: physical indices leading from a trie down to the node. *)
Abbreviation handle := (list nat).

(** A raw array of nodes; [None] is a cell that holds no node yet. *)
Abbreviation cells Entry := (list (option (NodeTemplate Entry))).

(** Counted loops: [for (j = from; ...; j++)] and [for (j = from; ...; j--)],
    run for [n] iterations. *)
Fixpoint for_up {St : Type} (n from : nat) (body : nat -> St -> result St) (s : St)
  : result St :=
  match n with
  | O => Ret s
  | S n => s ← body from s; for_up n (S from) body s
  end.

Fixpoint for_down {St : Type} (n from : nat) (body : nat -> St -> result St) (s : St)
  : result St :=
  match n with
  | O => Ret s
  | S n => s ← body from s; for_down n (Nat.pred from) body s
  end.

Module Node.
Section Node.
Context {Entry : Type}.
Local Abbreviation Node := (NodeTemplate Entry).

Definition isEntry (n : Node) : bool :=
  match n with EntryNode _ => true | TrieNode _ => false end.

Definition isTrie (n : Node) : bool := negb (isEntry n).

Definition asEntry (n : Node) : option Entry :=
  match n with EntryNode entry => Some entry | TrieNode _ => None end.

Definition asTrie (n : Node) : option (BitmapTrieTemplate Node) :=
  match n with EntryNode _ => None | TrieNode trie => Some trie end.

(** [nextEntryNode]: [return this;] *)
Definition nextEntryNode (this : handle) : handle := this.
End Node.
End Node.

Module BitmapTrie.
Section BitmapTrie.
Context {Entry Allocator : Type} {Memory : Alloc.Ops Allocator} {Layout : NodeLayout}.
Local Abbreviation Node := (NodeTemplate Entry).
Local Abbreviation BitmapTrie := (BitmapTrieTemplate (NodeTemplate Entry)).

Definition physicalIndex (this : BitmapTrie) (logical_index : Z) : Z :=
  let _bitmask := wrap32 (Z.shiftl 1 logical_index) in
  popcount (Z.land (_bitmap this) (wrap32 (_bitmask - 1))).

Definition size (this : BitmapTrie) : Z := popcount (_bitmap this).

Definition capacity (this : BitmapTrie) : Z := _capacity this.

Definition physicalGet (this : BitmapTrie) (i : Z) : option Node :=
  base ← _base this; base !! Z.to_nat i.

Definition logicalGet (this : BitmapTrie) (i : Z) : option Node :=
  physicalGet this (physicalIndex this i).

Definition logicalPositionTaken (this : BitmapTrie) (logical_index : Z) : bool :=
  negb (Z.land (_bitmap this) (wrap32 (Z.shiftl 1 logical_index)) =? 0).

(** [_base[i] = node] on an initialised cell. *)
Definition physicalSet (this : BitmapTrie) (i : Z) (node : Node) : BitmapTrie :=
  mkBitmapTrie (_bitmap this) (_capacity this) (base ← _base this; Some (<[Z.to_nat i := node]> base)).

(** The array behind [_base] with its [capacity] cells. *)
Definition cells_of (base : list Node) (capacity : Z) : cells Entry :=
  (Some <$> base) ++ replicate (Z.to_nat capacity - length base) None.

(** The first [n] cells of an array, all of which have to be initialised. *)
Definition live_of (n : nat) (array : cells Entry) : option (list Node) :=
  mapM id (take n array).

Definition load (array : cells Entry) (j : nat) : result Node :=
  defined (mjoin (array !! j)).

Definition store (array : cells Entry) (j : nat) (node : Node) : result (cells Entry) :=
  if decide (j < length array)%nat then Ret (<[j := Some node]> array) else Undefined.

(** [dst[to] = std::move(src[from])] *)
Definition move (src : cells Entry) (from to : nat) (dst : cells Entry)
  : result (cells Entry) :=
  node ← load src from; store dst to node.

Definition allocate (allocator : Allocator) (capacity : Z) : BitmapTrie * Allocator :=
  if capacity =? 0 then (mkBitmapTrie 0 capacity None, allocator)
  else
    let '(ok, allocator) :=
      Alloc.allocate allocator (wrap64 (capacity * sizeof_Node)) alignof_Node in
    (mkBitmapTrie 0 capacity (if ok then Some [] else None), allocator).

(** [insertEntry]: the pointer returned is the physical index of the new
    leaf in the array of [this]. *)
Definition insertEntry (allocator : Allocator) (this : BitmapTrie) (logical_index : Z)
    (new_entry : Entry) (expected_hamt_size level : Z)
  : result (option nat * BitmapTrie * Allocator) :=
  let i := Z.to_nat (physicalIndex this logical_index) in
  let sz := Z.to_nat (size this) in
  let required := wrap32 (size this + 1) in
  (* Mark position as used, insert at allocated position *)
  let finish (allocator : Allocator) (array : cells Entry) (capacity : Z) :=
    array ← store array i (EntryNode new_entry);
    base ← defined (live_of (S sz) array);
    Ret (Some i,
         mkBitmapTrie (Z.lor (_bitmap this) (wrap32 (Z.shiftl 1 logical_index)))
                      capacity (Some base),
         allocator) in
  if _capacity this <? required then
    alloc_size ← defined (hamt_trie_allocation_size required expected_hamt_size level);
    let '(new_base_ok, allocator) :=
      Alloc.allocate allocator (wrap64 (alloc_size * sizeof_Node)) alignof_Node in
    if negb new_base_ok then Ret (None, this, allocator)
    else
      let new_base : cells Entry := replicate (Z.to_nat alloc_size) None in
      match _base this with
      | None => finish allocator new_base alloc_size
      | Some base =>
          let old := cells_of base (_capacity this) in
          new_base ← for_up i 0 (fun j => move old j j) new_base;
          new_base ← for_up (sz - i) (S i) (fun j => move old (j - 1) j) new_base;
          finish (Alloc.deallocate allocator (_capacity this)) new_base alloc_size
      end
  else
    base ← defined (_base this);
    array ← for_down (sz - i) sz (fun j array => move array (j - 1) j array)
                     (cells_of base (_capacity this));
    finish allocator array (_capacity this).

(** [deallocate]: releases the array unless [_base] is null. *)
Definition deallocate (this : BitmapTrie) (allocator : Allocator) : Allocator :=
  match _base this with
  | None => allocator
  | Some _ => Alloc.deallocate allocator (_capacity this)
  end.

(** [deallocateRecursively], as a traversal of the node it is called on.
    The work list of the source pops a trie, pushes its sub-tries from the
    last to the first and releases its array, so the arrays are released
    parent first, then the sub-tries from the first to the last. *)
Fixpoint deallocateNode (node : Node) (allocator : Allocator) {struct node}
  : Allocator :=
  match node with
  | EntryNode _ => allocator
  | TrieNode trie =>
      let allocator := deallocate trie allocator in
      match _base trie with
      | None => allocator
      | Some base =>
          (fix children (n : nat) (l : list Node) (allocator : Allocator) {struct l}
             : Allocator :=
             match n, l with
             | S n, node :: l => children n l (deallocateNode node allocator)
             | _, _ => allocator
             end) (Z.to_nat (size trie)) base allocator
      end
  end.

Definition deallocateRecursively (this : BitmapTrie) (allocator : Allocator) : Allocator :=
  deallocateNode (TrieNode this) allocator.

Definition clear (this : BitmapTrie) (allocator : Allocator) : BitmapTrie * Allocator :=
  (mkBitmapTrie 0 0 None, deallocateRecursively this allocator).

(** [firstEntryNodeRecursively]: the loop goes down through the first cell
    of each trie until that cell holds an entry; it is written as a
    recursion on the node, which is finite.  The pointer returned is a
    handle relative to the node the descent started from. *)
Fixpoint firstEntryNode (node : Node) {struct node} : result handle :=
  match node with
  | EntryNode _ => Ret []
  | TrieNode trie =>
      match _base trie with
      | Some (child :: _) => p ← firstEntryNode child; Ret (0%nat :: p)
      | _ => Undefined
      end
  end.

Definition firstEntryNodeRecursively (this : BitmapTrie) : result handle :=
  if 0 <? size this then firstEntryNode (TrieNode this) else Undefined.
End BitmapTrie.
End BitmapTrie.

(** [NodeTemplate::BitmapTrie(allocator, parent, capacity)]: the node becomes
    an interior node whose trie is set up by [allocate]. *)
Definition Node_BitmapTrie {Entry Allocator : Type} {Memory : Alloc.Ops Allocator} {Layout : NodeLayout}
    (allocator : Allocator) (capacity : Z) : NodeTemplate Entry * Allocator :=
  let '(trie, allocator) := BitmapTrie.allocate allocator capacity in
  (TrieNode trie, allocator).

(** [follow root p]: the node a handle taken from [root] points to. *)
Fixpoint follow {Entry : Type} (root : NodeTemplate Entry) (p : handle)
  : option (NodeTemplate Entry) :=
  match p with
  | [] => Some root
  | i :: p =>
      trie ← Node.asTrie root;
      base ← _base trie;
      node ← base !! i;
      follow node p
  end.

(** ** Iterator *)

Record HAMTConstForwardIterator : Type := mkIterator {
  _node : option handle
}.

Module Iterator.
(** [operator++()] *)
Definition operator_inc (this : HAMTConstForwardIterator)
  : result HAMTConstForwardIterator :=
  node ← defined (_node this);
  Ret (mkIterator (Some (Node.nextEntryNode node))).

(** [operator++(int)]: the iterator after the call and the returned copy. *)
Definition operator_post_inc (this : HAMTConstForwardIterator)
  : result (HAMTConstForwardIterator * HAMTConstForwardIterator) :=
  let _this := mkIterator (_node this) in
  this ← operator_inc this;
  Ret (this, _this).

(** [operator==] *)
Definition operator_eq (x y : HAMTConstForwardIterator) : bool :=
  bool_decide (_node x = _node y).

(** [operator*] on an iterator into the trie below [root]. *)
Definition operator_deref {Entry : Type} (root : NodeTemplate Entry)
    (this : HAMTConstForwardIterator) : result Entry :=
  p ← defined (_node this);
  node ← defined (follow root p);
  defined (Node.asEntry node).
End Iterator.

(** ** The container *)

Definition FOC_GET_HASH_SEED : Z := 0xff51afd7ed558ccd.

(** [_hasher] and [_key_equal] are the [Hash] and [KeyEqual] instances. *)
Record HashArrayMappedTrie (Key T Allocator : Type) : Type := mkHAMT {
  _count : Z;
  _root : NodeTemplate (Key * T);
  _seed : Z;
  _allocator : Allocator
}.

Arguments mkHAMT {Key T Allocator} _ _ _ _.
Arguments _count {Key T Allocator} _.
Arguments _root {Key T Allocator} _.
Arguments _seed {Key T Allocator} _.
Arguments _allocator {Key T Allocator} _.

Module HAMT.
Section HAMT.
Context {Key T Allocator : Type}.
Context {Hasher : Hash Key} {Equal : KeyEqual Key} {Memory : Alloc.Ops Allocator} {Layout : NodeLayout}.
Local Abbreviation Entry := (Key * T)%type.
Local Abbreviation Node := (NodeTemplate (Key * T)).
Local Abbreviation BitmapTrie := (BitmapTrieTemplate (NodeTemplate (Key * T))).
Local Abbreviation HAMT := (HashArrayMappedTrie Key T Allocator).

Definition next_seed (seed : Z) : Z :=
  let seed := Z.lxor seed (wrap32 (Z.shiftl seed 13)) in
  let seed := Z.lxor seed (Z.shiftr seed 17) in
  let seed := Z.lxor seed (wrap32 (Z.shiftl seed 5)) in
  seed.

Definition hash32 (key : Key) (seed : Z) : Z :=
  wrap32 (Z.lxor seed (wrap64 (hasher key))).

Definition empty (this : HAMT) : bool := _count this =? 0.

Definition size (this : HAMT) : Z := _count this.

(** The [while] loop of [findNode]; one unit of fuel per test of the loop
    condition.  The handle is relative to [trie]. *)
Fixpoint findNode_loop (fuel : nat) (key : Key) (trie : BitmapTrie)
    (seed hash hash_offset t : Z) {struct fuel} : result (option handle) :=
  match fuel with
  | O => OutOfFuel
  | S fuel =>
      if BitmapTrie.logicalPositionTaken trie t then
        node ← defined (BitmapTrie.logicalGet trie t);
        let i := Z.to_nat (BitmapTrie.physicalIndex trie t) in
        match node with
        | EntryNode entry =>
            if key_equal entry.1 key then Ret (Some [i]) else Ret None
        | TrieNode trie =>
            let '(seed, hash, hash_offset) :=
              if hash_offset <? 25 then (seed, hash, hash_offset + 5)
              else
                let seed := next_seed seed in
                (seed, hash32 key seed, 0) in
            let t := Z.land (Z.shiftr hash hash_offset) 0x1f in
            found ← findNode_loop fuel key trie seed hash hash_offset t;
            Ret (option_map (cons i) found)
        end
      else Ret None
  end.

Definition findNode (fuel : nat) (this : HAMT) (key : Key) : result (option handle) :=
  trie ← defined (Node.asTrie (_root this));
  let seed := _seed this in
  let hash := hash32 key (_seed this) in
  let hash_offset := 0 in
  let t := Z.land hash 0x1f in
  findNode_loop fuel key trie seed hash hash_offset t.

(** [find]: the value the returned pointer refers to. *)
Definition find (fuel : nat) (this : HAMT) (key : Key) : result (option T) :=
  node ← findNode fuel this key;
  match node with
  | Some p =>
      node ← defined (follow (_root this) p);
      entry ← defined (Node.asEntry node);
      Ret (Some entry.2)
  | None => Ret None
  end.

(** [insertEntry]: the updated [*trie_node] and allocator are returned
    next to the pointer; [_count] is the member read for the size hint. *)
Fixpoint insertEntry (fuel : nat) (allocator : Allocator) (_count : Z)
    (trie_node : Node) (new_entry : Entry) (seed hash hash_offset level : Z)
    {struct fuel} : result (option handle * Node * Allocator) :=
  match fuel with
  | O => OutOfFuel
  | S fuel =>
      (* Insert the entry directly in the trie if the hash_slice slot is empty. *)
      let hash_slice := Z.land (Z.shiftr hash hash_offset) 0x1f in
      trie ← defined (Node.asTrie trie_node);
      if negb (BitmapTrie.logicalPositionTaken trie hash_slice) then
        '(leaf, trie, allocator) ←
          BitmapTrie.insertEntry allocator trie hash_slice new_entry
                                 (wrap64 (_count + 1)) level;
        Ret (option_map (fun i => [i]) leaf, TrieNode trie, allocator)
      else
        (* If the Node in hash_slice is a trie, insert recursively. *)
        let i := BitmapTrie.physicalIndex trie hash_slice in
        node ← defined (BitmapTrie.logicalGet trie hash_slice);
        match node with
        | TrieNode _ =>
            let '(seed, hash, hash_offset) :=
              if hash_offset <? 25 then (seed, hash, hash_offset + 5)
              else
                let seed := next_seed seed in
                (seed, hash32 new_entry.1 seed, 0) in
            '(leaf, node, allocator) ←
              insertEntry fuel allocator _count node new_entry seed hash hash_offset
                          (wrap32 (level + 1));
            Ret (option_map (cons (Z.to_nat i)) leaf,
                 TrieNode (BitmapTrie.physicalSet trie i node), allocator)
        | EntryNode old_entry =>
            (* If the Node is an entry and the key matches, override the value. *)
            if key_equal old_entry.1 new_entry.1 then
              Ret (Some [Z.to_nat i],
                   TrieNode (BitmapTrie.physicalSet trie i
                               (EntryNode (old_entry.1, new_entry.2))),
                   allocator)
            else
              (* Has to replace the entry with a trie. *)
              let schedule :=
                if hash_offset <? 25 then
                  Some (seed, hash, hash_offset + 5, hash32 old_entry.1 seed)
                else
                  let seed := next_seed seed in
                  let hash := hash32 new_entry.1 seed in
                  let old_entry_hash := hash32 old_entry.1 seed in
                  if hash =? old_entry_hash then None
                  else Some (seed, hash, 0, old_entry_hash) in
              match schedule with
              | None => Ret (None, trie_node, allocator)
              | Some (seed, hash, hash_offset, old_entry_hash) =>
                  (* This new trie will contain the replaced_entry and the new_entry. *)
                  let replaced_entry := old_entry in
                  let '(trie_node, allocator) := Node_BitmapTrie allocator 2 in
                  '(replaced_node, trie_node, allocator) ←
                    insertEntry fuel allocator _count trie_node replaced_entry seed
                                old_entry_hash hash_offset (wrap32 (level + 1));
                  match replaced_node with
                  | None =>
                      Ret (None,
                           TrieNode (BitmapTrie.physicalSet trie i (EntryNode replaced_entry)),
                           allocator)
                  | Some _ =>
                      '(leaf, trie_node, allocator) ←
                        insertEntry fuel allocator _count trie_node new_entry seed hash
                                    hash_offset (wrap32 (level + 1));
                      Ret (option_map (cons (Z.to_nat i)) leaf,
                           TrieNode (BitmapTrie.physicalSet trie i trie_node), allocator)
                  end
              end
        end
  end.

Definition insert (fuel : nat) (this : HAMT) (entry : Entry)
  : result (HAMTConstForwardIterator * HAMT) :=
  let hash := hash32 entry.1 (_seed this) in
  '(node, root, allocator) ←
    insertEntry fuel (_allocator this) (_count this) (_root this) entry
                (_seed this) hash 0 0;
  match node with
  | None => Ret (mkIterator None, mkHAMT (_count this) root (_seed this) allocator)
  | Some p =>
      Ret (mkIterator (Some p),
           mkHAMT (wrap64 (_count this + 1)) root (_seed this) allocator)
  end.

Definition clear (this : HAMT) : result HAMT :=
  trie ← defined (Node.asTrie (_root this));
  let '(trie, allocator) := BitmapTrie.clear trie (_allocator this) in
  Ret (mkHAMT 0 (TrieNode trie) (_seed this) allocator).

(** [HashArrayMappedTrie(n, hf, eql, a)] *)
Definition construct (n : Z) (a : Allocator) : result HAMT :=
  let seed := wrap32 FOC_GET_HASH_SEED in
  alloc_size ← defined (hamt_trie_allocation_size 1 (if 0 <? n then n else 1) 0);
  let '(trie, allocator) := BitmapTrie.allocate a alloc_size in
  Ret (mkHAMT 0 (TrieNode trie) seed allocator).

(** [HashArrayMappedTrie()] *)
Definition construct_default (a : Allocator) : result HAMT := construct 1 a.

(** The copy constructor and [operator=(const HashArrayMappedTrie &)] have
    no definition here.  Neither can be instantiated as written: the copy
    constructor leaves [_root] without an initialiser although
    [NodeTemplate] has no default constructor, and copy-assignment assigns
    [_root = other._root] ([NodeTemplate] has move-assignment only) and
    calls [_root.cloneRecursively], a member of [BitmapTrieTemplate] and not
    of [NodeTemplate], whose own body calls [stack.push] with two
    arguments. *)

(** [~HashArrayMappedTrie()]: what is left of the allocator. *)
Definition destroy (this : HAMT) : result Allocator :=
  trie ← defined (Node.asTrie (_root this));
  Ret (BitmapTrie.deallocateRecursively trie (_allocator this)).

(** [for (uint32_t i = 0; i < n; i++)] over the first cells of an array,
    adding to [inner_nodes_count] what [count] answers for each cell, in
    [size_t] arithmetic. *)
Fixpoint sum_cells (count : Node -> result Z) (n : nat) (l : list Node)
    (inner_nodes_count : Z) {struct l} : result Z :=
  match n, l with
  | O, _ => Ret inner_nodes_count
  | S n, node :: l =>
      c ← count node;
      sum_cells count n l (wrap64 (inner_nodes_count + c))
  | S _, [] => Undefined
  end.

(** [countInnerNodes]; [countInnerNode node] is what the loop of the caller
    adds for the cell [node]: [1 + countInnerNodes(node.asTrie())] for a
    trie, nothing for an entry. *)
Fixpoint countInnerNode (node : Node) {struct node} : result Z :=
  match node with
  | EntryNode _ => Ret 0
  | TrieNode trie =>
      inner ←
        match _base trie with
        | Some base => sum_cells countInnerNode (Z.to_nat (BitmapTrie.size trie)) base 0
        | None => if BitmapTrie.size trie =? 0 then Ret 0 else Undefined
        end;
      Ret (wrap64 (1 + inner))
  end.

Definition countInnerNodes (trie : BitmapTrie) : result Z :=
  match _base trie with
  | Some base => sum_cells countInnerNode (Z.to_nat (BitmapTrie.size trie)) base 0
  | None => if BitmapTrie.size trie =? 0 then Ret 0 else Undefined
  end.

(** A run of [insert] calls, one per entry, in order. *)
Fixpoint insert_all (fuel : nat) (this : HAMT) (entries : list Entry) : result HAMT :=
  match entries with
  | [] => Ret this
  | entry :: entries =>
      '(_, this) ← insert fuel this entry;
      insert_all fuel this entries
  end.
End HAMT.
End HAMT.

(** ** Invariants and observations *)

Section Observations.
Context {Entry : Type}.
Local Abbreviation Node := (NodeTemplate Entry).
Local Abbreviation BitmapTrie := (BitmapTrieTemplate (NodeTemplate Entry)).

(** The data-model invariant of one trie: a 32-bit bitmap, as many
    initialised cells as set bits, no more of them than the capacity, and a
    null [_base] only for the cleared trie. *)
Definition wf_trie (trie : BitmapTrie) : Prop :=
  0 <= _bitmap trie < 2 ^ 32 /\
  match _base trie with
  | Some base =>
      Z.of_nat (length base) = popcount (_bitmap trie) /\
      popcount (_bitmap trie) <= _capacity trie
  | None => _bitmap trie = 0 /\ _capacity trie = 0
  end.

Inductive wf_node : Node -> Prop :=
| wf_entry (entry : Entry) : wf_node (EntryNode entry)
| wf_interior (trie : BitmapTrie) :
    wf_trie trie ->
    (forall base, _base trie = Some base -> Forall wf_node base) ->
    wf_node (TrieNode trie).

(** The entries of the Leaf nodes reachable from a node, in the order of
    the child arrays. *)
Fixpoint leaves (node : Node) : list Entry :=
  match node with
  | EntryNode entry => [entry]
  | TrieNode trie =>
      match _base trie with
      | None => []
      | Some base => concat (map leaves base)
      end
  end.

(** The structure of a trie without its capacities: bitmaps, the order of
    the children, and the entries at their positions. *)
Inductive Shape : Type :=
| Leaf (entry : Entry)
| Interior (bitmap : Z) (children : list Shape).

Fixpoint shape (node : Node) : Shape :=
  match node with
  | EntryNode entry => Leaf entry
  | TrieNode trie =>
      Interior (_bitmap trie)
               (match _base trie with
                | None => []
                | Some base => map shape base
                end)
  end.
End Observations.

(** [returns run a]: the call [run] returns [a] once it is given enough fuel. *)
Definition returns {A : Type} (run : nat -> result A) (a : A) : Prop :=
  exists fuel, run fuel = Ret a.

(** The hash schedule as one step: what a descent does to
    [(seed, hash, hash_offset)]. *)
Definition schedule_step (rehash : Z -> Z) (next_seed : Z -> Z) (boundary : Z)
    (state : Z * Z * Z) : Z * Z * Z :=
  let '(seed, hash, hash_offset) := state in
  if hash_offset <? boundary then (seed, hash, hash_offset + 5)
  else (next_seed seed, rehash (next_seed seed), 0).

(** ** The returning runs of [insertEntry]

    [insertEntry_returns fuel allocator count trie_node entry seed hash
    hash_offset level leaf trie_node' allocator'] lists, case by case, the
    ways in which [HAMT.insertEntry] returns; the proofs go by induction on
    it. *)

Section Returns.
Context {Key T Allocator : Type}.
Context {Hasher : Hash Key} {Equal : KeyEqual Key} {Memory : Alloc.Ops Allocator} {Layout : NodeLayout}.
Local Abbreviation Entry := (Key * T)%type.
Local Abbreviation Node := (NodeTemplate (Key * T)).
Local Abbreviation BitmapTrie := (BitmapTrieTemplate (NodeTemplate (Key * T))).

(** The descent of one level, for the key [key]. *)
Definition descend (key : Key) (state : Z * Z * Z) : Z * Z * Z :=
  schedule_step (HAMT.hash32 key) HAMT.next_seed 25 state.

Inductive insertEntry_returns :
  nat -> Allocator -> Z -> Node -> Entry -> Z -> Z -> Z -> Z ->
  option handle -> Node -> Allocator -> Prop :=
| returns_free fuel allocator count trie new_entry seed hash hash_offset level
    leaf trie' allocator' :
    BitmapTrie.logicalPositionTaken trie (Z.land (Z.shiftr hash hash_offset) 31) = false ->
    BitmapTrie.insertEntry allocator trie (Z.land (Z.shiftr hash hash_offset) 31)
                           new_entry (wrap64 (count + 1)) level
      = Ret (leaf, trie', allocator') ->
    insertEntry_returns (S fuel) allocator count (TrieNode trie) new_entry
                        seed hash hash_offset level
                        (option_map (fun i => [i]) leaf) (TrieNode trie') allocator'
| returns_descend fuel allocator count trie new_entry seed hash hash_offset level
    child seed' hash' hash_offset' leaf node' allocator' :
    BitmapTrie.logicalPositionTaken trie (Z.land (Z.shiftr hash hash_offset) 31) = true ->
    BitmapTrie.logicalGet trie (Z.land (Z.shiftr hash hash_offset) 31)
      = Some (TrieNode child) ->
    descend new_entry.1 (seed, hash, hash_offset) = (seed', hash', hash_offset') ->
    insertEntry_returns fuel allocator count (TrieNode child) new_entry
                        seed' hash' hash_offset' (wrap32 (level + 1))
                        leaf node' allocator' ->
    insertEntry_returns (S fuel) allocator count (TrieNode trie) new_entry
                        seed hash hash_offset level
                        (option_map
                           (cons (Z.to_nat (BitmapTrie.physicalIndex trie
                                    (Z.land (Z.shiftr hash hash_offset) 31))))
                           leaf)
                        (TrieNode
                           (BitmapTrie.physicalSet trie
                              (BitmapTrie.physicalIndex trie
                                 (Z.land (Z.shiftr hash hash_offset) 31))
                              node'))
                        allocator'
| returns_override fuel allocator count trie new_entry seed hash hash_offset level
    old_entry :
    BitmapTrie.logicalPositionTaken trie (Z.land (Z.shiftr hash hash_offset) 31) = true ->
    BitmapTrie.logicalGet trie (Z.land (Z.shiftr hash hash_offset) 31)
      = Some (EntryNode old_entry) ->
    key_equal old_entry.1 new_entry.1 = true ->
    insertEntry_returns (S fuel) allocator count (TrieNode trie) new_entry
                        seed hash hash_offset level
                        (Some [Z.to_nat (BitmapTrie.physicalIndex trie
                                 (Z.land (Z.shiftr hash hash_offset) 31))])
                        (TrieNode
                           (BitmapTrie.physicalSet trie
                              (BitmapTrie.physicalIndex trie
                                 (Z.land (Z.shiftr hash hash_offset) 31))
                              (EntryNode (old_entry.1, new_entry.2))))
                        allocator
| returns_collision fuel allocator count trie new_entry seed hash hash_offset level
    old_entry :
    BitmapTrie.logicalPositionTaken trie (Z.land (Z.shiftr hash hash_offset) 31) = true ->
    BitmapTrie.logicalGet trie (Z.land (Z.shiftr hash hash_offset) 31)
      = Some (EntryNode old_entry) ->
    key_equal old_entry.1 new_entry.1 = false ->
    25 <= hash_offset ->
    HAMT.hash32 new_entry.1 (HAMT.next_seed seed)
      = HAMT.hash32 old_entry.1 (HAMT.next_seed seed) ->
    insertEntry_returns (S fuel) allocator count (TrieNode trie) new_entry
                        seed hash hash_offset level
                        None (TrieNode trie) allocator
| returns_restore fuel allocator count trie new_entry seed hash hash_offset level
    old_entry seed' hash' hash_offset' trie_node allocator1 trie_node1 allocator2 :
    BitmapTrie.logicalPositionTaken trie (Z.land (Z.shiftr hash hash_offset) 31) = true ->
    BitmapTrie.logicalGet trie (Z.land (Z.shiftr hash hash_offset) 31)
      = Some (EntryNode old_entry) ->
    key_equal old_entry.1 new_entry.1 = false ->
    descend new_entry.1 (seed, hash, hash_offset) = (seed', hash', hash_offset') ->
    hash_offset < 25 \/ hash' <> HAMT.hash32 old_entry.1 seed' ->
    Node_BitmapTrie allocator 2 = (trie_node, allocator1) ->
    insertEntry_returns fuel allocator1 count trie_node old_entry
                        seed' (HAMT.hash32 old_entry.1 seed') hash_offset'
                        (wrap32 (level + 1))
                        None trie_node1 allocator2 ->
    insertEntry_returns (S fuel) allocator count (TrieNode trie) new_entry
                        seed hash hash_offset level
                        None
                        (TrieNode
                           (BitmapTrie.physicalSet trie
                              (BitmapTrie.physicalIndex trie
                                 (Z.land (Z.shiftr hash hash_offset) 31))
                              (EntryNode old_entry)))
                        allocator2
| returns_split fuel allocator count trie new_entry seed hash hash_offset level
    old_entry seed' hash' hash_offset' trie_node allocator1
    replaced_node trie_node1 allocator2 leaf trie_node2 allocator3 :
    BitmapTrie.logicalPositionTaken trie (Z.land (Z.shiftr hash hash_offset) 31) = true ->
    BitmapTrie.logicalGet trie (Z.land (Z.shiftr hash hash_offset) 31)
      = Some (EntryNode old_entry) ->
    key_equal old_entry.1 new_entry.1 = false ->
    descend new_entry.1 (seed, hash, hash_offset) = (seed', hash', hash_offset') ->
    hash_offset < 25 \/ hash' <> HAMT.hash32 old_entry.1 seed' ->
    Node_BitmapTrie allocator 2 = (trie_node, allocator1) ->
    insertEntry_returns fuel allocator1 count trie_node old_entry
                        seed' (HAMT.hash32 old_entry.1 seed') hash_offset'
                        (wrap32 (level + 1))
                        (Some replaced_node) trie_node1 allocator2 ->
    insertEntry_returns fuel allocator2 count trie_node1 new_entry
                        seed' hash' hash_offset' (wrap32 (level + 1))
                        leaf trie_node2 allocator3 ->
    insertEntry_returns (S fuel) allocator count (TrieNode trie) new_entry
                        seed hash hash_offset level
                        (option_map
                           (cons (Z.to_nat (BitmapTrie.physicalIndex trie
                                    (Z.land (Z.shiftr hash hash_offset) 31))))
                           leaf)
                        (TrieNode
                           (BitmapTrie.physicalSet trie
                              (BitmapTrie.physicalIndex trie
                                 (Z.land (Z.shiftr hash hash_offset) 31))
                              trie_node2))
                        allocator3.
End Returns.

(** ** The value found below a node

    [find_in] is [HAMT.find] started at a node of the trie with the seed and
    offset in effect there; [finds] says what it returns once the fuel is
    enough, for the hash of the key under that seed. *)

Section FindIn.
Context {Key T : Type} {Hasher : Hash Key} {Equal : KeyEqual Key}.
Local Abbreviation Node := (NodeTemplate (Key * T)).

Definition find_in (fuel : nat) (key : Key) (trie_node : Node)
    (seed hash hash_offset : Z) : result (option T) :=
  trie ← defined (Node.asTrie trie_node);
  node ← HAMT.findNode_loop fuel key trie seed hash hash_offset
            (Z.land (Z.shiftr hash hash_offset) 31);
  match node with
  | Some p =>
      node ← defined (follow trie_node p);
      entry ← defined (Node.asEntry node);
      Ret (Some entry.2)
  | None => Ret None
  end.

Definition finds (key : Key) (trie_node : Node) (seed hash_offset : Z)
    (found : option T) : Prop :=
  returns (fun fuel => find_in fuel key trie_node seed (HAMT.hash32 key seed) hash_offset)
          found.
End FindIn.

(** ** Reachable containers

    The containers that the public operations produce, starting from a
    construction whose array was allocated. *)

Section Reachable.
Context {Key T Allocator : Type}.
Context {Hasher : Hash Key} {Equal : KeyEqual Key} {Memory : Alloc.Ops Allocator} {Layout : NodeLayout}.
Local Abbreviation HAMT := (HashArrayMappedTrie Key T Allocator).

Inductive reachable : HAMT -> Prop :=
| reachable_construct (n : Z) (a : Allocator) (h : HAMT) :
    HAMT.construct n a = Ret h ->
    (forall trie, Node.asTrie (_root h) = Some trie -> _base trie <> None) ->
    reachable h
| reachable_insert (fuel : nat) (h : HAMT) (entry : Key * T)
    (it : HAMTConstForwardIterator) (h' : HAMT) :
    reachable h ->
    HAMT.insert fuel h entry = Ret (it, h') ->
    reachable h'
| reachable_clear (h h' : HAMT) :
    reachable h ->
    HAMT.clear h = Ret h' ->
    reachable h'.
End Reachable.

(** ** Instances used for the examples

    [int64_t] keys and values, the functors of
    [hash_array_mapped_trie_test_helpers.h], and two allocators. *)

Definition IdentityFunction : Hash Z := fun key => wrap64 key.

Definition ConstantFunction : Hash Z := fun _ => 0x383f9f3a3b3c3d3f.

Definition BadHashFunction : Hash Z :=
  fun key => wrap64 ((wrap64 key mod 1024) * 0x3f3f3f3f).

(** [std::equal_to<int64_t>] *)
Definition int64_equal_to : KeyEqual Z := Z.eqb.

(** An allocator that always returns memory. *)
Definition generous_allocator : Alloc.Ops unit :=
  {| Alloc.allocate a _ _ := (true, a); Alloc.deallocate a _ := a |}.

(** An allocator that returns memory for the next [a] requests only. *)
Definition budget_allocator : Alloc.Ops nat :=
  {| Alloc.allocate a _ _ := match a with O => (false, O) | S a => (true, a) end;
     Alloc.deallocate a _ := a |}.

(** An allocator that always returns memory and keeps the number of arrays
    that it handed out and did not get back. *)
Definition counting_allocator : Alloc.Ops Z :=
  {| Alloc.allocate a _ _ := (true, a + 1); Alloc.deallocate a _ := a - 1 |}.

(** Layout of a node holding a pair of [int64_t]. *)
Definition int64_layout : NodeLayout := {| sizeof_Node := 24; alignof_Node := 8 |}.

(** A trie whose slots 0 and 2 are taken and whose array of two cells is full. *)
Definition two_of_three : BitmapTrieTemplate (NodeTemplate (Z * Z)) :=
  mkBitmapTrie 5 2 (Some [EntryNode (0, 10); EntryNode (2, 12)]).

(** What [allocate(allocator, 2)] leaves of a trie when the allocator
    returns null: the capacity is set, the array is missing. *)
Definition failed_allocation : BitmapTrieTemplate (NodeTemplate (Z * Z)) :=
  mkBitmapTrie 0 2 None.

(** Containers of [int64_t] keys and values as they stand after a few
    calls, written out.  The seed is the low half of the default
    [FOC_GET_HASH_SEED]. *)

Definition default_seed : Z := 3981806797.

(** After [HashArrayMappedTrie()]. *)
Definition hamt_empty : HashArrayMappedTrie Z Z unit :=
  mkHAMT 0 (TrieNode (mkBitmapTrie 0 2 (Some []))) default_seed tt.

(** After [clear()]. *)
Definition hamt_cleared : HashArrayMappedTrie Z Z unit :=
  mkHAMT 0 (TrieNode (mkBitmapTrie 0 0 None)) default_seed tt.

(** After [insert((7, 1))]. *)
Definition hamt_seven : HashArrayMappedTrie Z Z unit :=
  mkHAMT 1 (TrieNode (mkBitmapTrie 1024 2 (Some [EntryNode (7, 1)]))) default_seed tt.

(** After [insert((7, 1))] and [insert((7, 2))]. *)
Definition hamt_seven_twice : HashArrayMappedTrie Z Z unit :=
  mkHAMT 2 (TrieNode (mkBitmapTrie 1024 2 (Some [EntryNode (7, 2)]))) default_seed tt.

(** After [insert((0, 1))]. *)
Definition hamt_zero : HashArrayMappedTrie Z Z unit :=
  mkHAMT 1 (TrieNode (mkBitmapTrie 8192 2 (Some [EntryNode (0, 1)]))) default_seed tt.

(** After [insert((0, 1))] and [insert((32, 5))]: the two keys share the
    slice at offset 0 and part at offset 5. *)
Definition hamt_zero_32 : HashArrayMappedTrie Z Z unit :=
  mkHAMT 2
    (TrieNode (mkBitmapTrie 8192 2
       (Some [TrieNode (mkBitmapTrie 192 2
                (Some [EntryNode (0, 1); EntryNode (32, 5)]))])))
    default_seed tt.


(** After [insert((0, 1))] and a failed [insert((4294967296, 5))]: the two
    keys have the same 32-bit hash under every seed. *)
Definition hamt_zero_pushed : HashArrayMappedTrie Z Z unit :=
  mkHAMT 1
    (TrieNode (mkBitmapTrie 8192 2
      (Some [TrieNode (mkBitmapTrie 64 2
        (Some [TrieNode (mkBitmapTrie 8 2
          (Some [TrieNode (mkBitmapTrie 2048 2
            (Some [TrieNode (mkBitmapTrie 2097152 2
              (Some [TrieNode (mkBitmapTrie 4194304 2
                (Some [EntryNode (0, 1)]))]))]))]))]))])))
    default_seed tt.

(** On an allocator that serves one request, the one of the constructor:
    after [HashArrayMappedTrie()] and [insert((0, 1))]. *)
Definition hamt_zero_exhausted : HashArrayMappedTrie Z Z nat :=
  mkHAMT 1 (TrieNode (mkBitmapTrie 8192 2 (Some [EntryNode (0, 1)]))) default_seed 0%nat.

(** On the same allocator, after [HashArrayMappedTrie()] and the insertions
    of [(0, 1)], [(1, 2)] and [(2, 3)]: the third one found the array of two
    cells full and the allocator returned null. *)
Definition hamt_tight : HashArrayMappedTrie Z Z nat :=
  mkHAMT 2 (TrieNode (mkBitmapTrie 12288 2 (Some [EntryNode (1, 2); EntryNode (0, 1)])))
         default_seed 0%nat.


(** A trie with an interior node in the slot that the hash of key 0 selects
    at offset 25 (slot 22); the interior node holds the entry of key 0 in
    the slot that the hash under the next seed selects at offset 0 (slot
    11).  The slot of the bits from 30 on (slot 3) is free. *)
Definition probe_trie : BitmapTrieTemplate (NodeTemplate (Z * Z)) :=
  mkBitmapTrie 4194304 1
    (Some [TrieNode (mkBitmapTrie 2048 1 (Some [EntryNode (0, 1)]))]).

Definition probe_child : BitmapTrieTemplate (NodeTemplate (Z * Z)) :=
  mkBitmapTrie 2048 1 (Some [EntryNode (0, 1)]).

(** ** The container as an association list

    The entries a run of the public operations has stored, oldest first,
    with the lookups and updates of the container read on the list:
    [assoc_find] compares the stored key with the key looked for, as
    [findNode] does, and [assoc_insert] keeps the key that was stored first
    and takes the value of the new entry, as the overwrite in [insertEntry]
    does. *)

Section Assoc.
Context {Key T : Type} {Equal : KeyEqual Key}.

Fixpoint assoc_find (m : list (Key * T)) (key : Key) : option T :=
  match m with
  | [] => None
  | entry :: m => if key_equal entry.1 key then Some entry.2 else assoc_find m key
  end.

Fixpoint assoc_insert (m : list (Key * T)) (new_entry : Key * T) : list (Key * T) :=
  match m with
  | [] => [new_entry]
  | entry :: m =>
      if key_equal entry.1 new_entry.1 then (entry.1, new_entry.2) :: m
      else entry :: assoc_insert m new_entry
  end.

(** No entry of the list has a key equal to the key of an earlier one. *)
Fixpoint distinct_keys (m : list (Key * T)) : Prop :=
  match m with
  | [] => True
  | entry :: m =>
      Forall (fun later => key_equal entry.1 later.1 = false) m /\ distinct_keys m
  end.
End Assoc.

(** [built h m]: the container [h] is the outcome of a construction
    followed by [insert] and [clear] calls, and [m] lists what those calls
    stored: an [insert] that returned a node stored its entry, one that
    returned null stored nothing, [clear] dropped everything. *)

Section Built.
Context {Key T Allocator : Type}.
Context {Hasher : Hash Key} {Equal : KeyEqual Key} {Memory : Alloc.Ops Allocator} {Layout : NodeLayout}.
Local Abbreviation HAMT := (HashArrayMappedTrie Key T Allocator).

Inductive built : HAMT -> list (Key * T) -> Prop :=
| built_construct (n : Z) (a : Allocator) (h : HAMT) :
    HAMT.construct n a = Ret h ->
    (forall trie, Node.asTrie (_root h) = Some trie -> _base trie <> None) ->
    built h []
| built_insert (fuel : nat) (h : HAMT) (m : list (Key * T)) (entry : Key * T)
    (p : handle) (h' : HAMT) :
    built h m ->
    HAMT.insert fuel h entry = Ret (mkIterator (Some p), h') ->
    built h' (assoc_insert m entry)
| built_insert_null (fuel : nat) (h : HAMT) (m : list (Key * T)) (entry : Key * T)
    (h' : HAMT) :
    built h m ->
    HAMT.insert fuel h entry = Ret (mkIterator None, h') ->
    built h' m
| built_clear (h : HAMT) (m : list (Key * T)) (h' : HAMT) :
    built h m ->
    HAMT.clear h = Ret h' ->
    built h' [].
End Built.

(** The number of tries on the longest path from a node down to a leaf. *)
Fixpoint height {Entry : Type} (node : NodeTemplate Entry) : nat :=
  match node with
  | EntryNode _ => 0
  | TrieNode trie =>
      S (match _base trie with
         | None => 0
         | Some base => foldr (fun child => Nat.max (height child)) 0%nat base
         end)
  end.

(** ** Where the entries lie

    [same_slices a b]: the hashes of the two keys have the same 30 low
    bits, the bits that the slices at the offsets 0 to 25 read.
    [collide a b]: they have the same 32 low bits, so that [hash32] gives
    the two keys the same hash. *)

Section Placed.
Context {Key T : Type} {Hasher : Hash Key}.
Local Abbreviation Node := (NodeTemplate (Key * T)).
Local Abbreviation BitmapTrie := (BitmapTrieTemplate (NodeTemplate (Key * T))).

Definition same_slices (a b : Key) : Prop := hasher a mod 2 ^ 30 = hasher b mod 2 ^ 30.

Definition collide (a b : Key) : Prop := hasher a mod 2 ^ 32 = hasher b mod 2 ^ 32.

(** [placed seed hash_offset node]: below [node], whose slots are selected
    by the slice at [hash_offset], every entry lies in the slot that the
    slices of its own hash under [seed] select, level by level, and there
    are interior nodes for the offsets 0 to 25 only. *)
Inductive placed (seed : Z) : Z -> Node -> Prop :=
| placed_entry (hash_offset : Z) (entry : Key * T) :
    placed seed hash_offset (EntryNode entry)
| placed_trie (hash_offset : Z) (trie : BitmapTrie) :
    In hash_offset [0; 5; 10; 15; 20; 25] ->
    (forall t child entry,
       0 <= t < 32 -> BitmapTrie.logicalGet trie t = Some child ->
       BitmapTrie.logicalPositionTaken trie t = true ->
       In entry (leaves child) ->
       Z.land (Z.shiftr (HAMT.hash32 entry.1 seed) hash_offset) 31 = t) ->
    (forall t child,
       0 <= t < 32 -> BitmapTrie.logicalGet trie t = Some child ->
       BitmapTrie.logicalPositionTaken trie t = true ->
       Node.isTrie child = true -> hash_offset < 25) ->
    (forall t child,
       0 <= t < 32 -> BitmapTrie.logicalGet trie t = Some child ->
       BitmapTrie.logicalPositionTaken trie t = true ->
       placed seed (hash_offset + 5) child) ->
    placed seed hash_offset (TrieNode trie).
End Placed.

(** ** The sizing oracle on one cell

    The answer of [hamt_trie_allocation_size] once the row and the column
    of the per-level table are fixed. *)
Definition oracle_cell (required level generation : nat) : Z :=
  default 0
    (row ← alloc_sizes_by_level !! level;
     guess ← row !! generation;
     if guess <? Z.of_nat required then alloc_sizes !! required else Some guess).

(** Boolean check of the steps between neighbouring cells: the answer does
    not shrink with [required] nor with the generation, does not grow with
    the level, and is the same in every column of the last row. *)
Definition oracle_cell_steps_ok (required level generation : nat) : bool :=
  (if (required <? 32)%nat
   then oracle_cell required level generation <=? oracle_cell (S required) level generation
   else true) &&
  (if (generation <? 22)%nat
   then oracle_cell required level generation <=? oracle_cell required level (S generation)
   else true) &&
  (if (level <? 4)%nat
   then oracle_cell required (S level) generation <=? oracle_cell required level generation
   else true) &&
  (oracle_cell required 4 generation =? oracle_cell required 4 0).

(** [populated node]: every trie from [node] down has a taken slot. *)
Inductive populated {Entry : Type} : NodeTemplate Entry -> Prop :=
| populated_entry (entry : Entry) : populated (EntryNode entry)
| populated_trie (trie : BitmapTrieTemplate (NodeTemplate Entry)) :
    0 < BitmapTrie.size trie ->
    (forall base, _base trie = Some base -> Forall populated base) ->
    populated (TrieNode trie).

(** The children of a trie are populated. *)
Definition populated_below {Entry : Type} (node : NodeTemplate Entry) : Prop :=
  forall trie base, node = TrieNode trie -> _base trie = Some base -> Forall populated base.

(** The number of arrays that a node and the tries below it hold. *)
Fixpoint arrays {Entry : Type} (node : NodeTemplate Entry) : Z :=
  match node with
  | EntryNode _ => 0
  | TrieNode trie =>
      match _base trie with
      | None => 0
      | Some base => 1 + foldr (fun child => Z.add (arrays child)) 0 base
      end
  end.

(** * Theorems *)

(** ** Bit counting *)

Lemma count_bits_range (n : nat) (x : Z) : 0 <= count_bits n x <= Z.of_nat n.
Proof.
  induction n as [|n IH]; simpl count_bits; [lia|].
  destruct (Z.testbit x (Z.of_nat n)); simpl Z.b2z; lia.
Qed.

Lemma count_bits_mono (n m : nat) (x : Z) :
  (n <= m)%nat -> count_bits n x <= count_bits m x.
Proof.
  induction 1 as [|m _ IH]; [lia|].
  simpl count_bits. destruct (Z.testbit x (Z.of_nat m)); simpl Z.b2z; lia.
Qed.

Lemma count_bits_ext (n : nat) (x y : Z) :
  (forall k, (k < n)%nat -> Z.testbit x (Z.of_nat k) = Z.testbit y (Z.of_nat k)) ->
  count_bits n x = count_bits n y.
Proof.
  induction n as [|n IH]; intros Hxy; simpl; [reflexivity|].
  rewrite Hxy by lia. rewrite IH; [reflexivity|]. intros k Hk. apply Hxy. lia.
Qed.

Lemma count_bits_set (n : nat) (x : Z) (t : nat) :
  Z.testbit x (Z.of_nat t) = true -> (t < n)%nat ->
  count_bits t x < count_bits n x.
Proof.
  intros Hbit Hlt.
  pose proof (count_bits_mono (S t) n x ltac:(lia)) as Hm.
  simpl count_bits in Hm. rewrite Hbit in Hm. simpl Z.b2z in Hm. lia.
Qed.

Lemma count_bits_below_ones (n m : nat) (x : Z) :
  (m <= n)%nat ->
  count_bits n (Z.land x (Z.ones (Z.of_nat m))) = count_bits m x.
Proof.
  induction 1 as [|n Hle IH].
  - apply count_bits_ext. intros k Hk.
    rewrite Z.land_spec, Z.ones_spec_low by lia. apply andb_true_r.
  - simpl count_bits. rewrite IH.
    rewrite Z.land_spec, Z.ones_spec_high by lia.
    rewrite andb_false_r. reflexivity.
Qed.

Lemma testbit_lor_pow2 (x : Z) (t k : nat) :
  Z.testbit (Z.lor x (2 ^ Z.of_nat t)) (Z.of_nat k) =
  Z.testbit x (Z.of_nat k) || bool_decide (t = k).
Proof.
  rewrite Z.lor_spec, Z.pow2_bits_eqb by lia.
  f_equal. case_bool_decide; [apply Z.eqb_eq|apply Z.eqb_neq]; lia.
Qed.

Lemma count_bits_lor_pow2 (n : nat) (x : Z) (t : nat) :
  Z.testbit x (Z.of_nat t) = false ->
  count_bits n (Z.lor x (2 ^ Z.of_nat t)) =
  count_bits n x + (if decide (t < n)%nat then 1 else 0).
Proof.
  intros Hbit. induction n as [|n IH]; simpl count_bits.
  - case_decide; lia.
  - rewrite IH, testbit_lor_pow2.
    case_bool_decide as Heq.
    + subst n. rewrite Hbit. simpl. repeat case_decide; lia.
    + rewrite orb_false_r. repeat case_decide; lia.
Qed.

(** ** The masks of a logical index *)

Lemma slice_range (hash hash_offset : Z) :
  0 <= Z.land (Z.shiftr hash hash_offset) 31 < 32.
Proof.
  change 31 with (Z.ones 5). rewrite Z.land_ones by lia.
  apply Z.mod_pos_bound. lia.
Qed.

Lemma bitmask_pow2 (t : Z) : 0 <= t < 32 -> wrap32 (Z.shiftl 1 t) = 2 ^ t.
Proof.
  intros Ht. unfold wrap32. rewrite Z.shiftl_1_l.
  apply Z.mod_small. split; [lia|]. apply Z.pow_lt_mono_r; lia.
Qed.

Lemma bitmask_pred_ones (t : Z) :
  0 <= t < 32 -> wrap32 (wrap32 (Z.shiftl 1 t) - 1) = Z.ones t.
Proof.
  intros Ht. rewrite bitmask_pow2 by assumption.
  rewrite Z.ones_equiv. unfold wrap32.
  assert (2 ^ t < 2 ^ 32) by (apply Z.pow_lt_mono_r; lia).
  assert (0 < 2 ^ t) by lia.
  apply Z.mod_small. lia.
Qed.

Lemma land_pow2_testbit (x t : Z) :
  0 <= t -> negb (Z.land x (2 ^ t) =? 0) = Z.testbit x t.
Proof.
  intros Ht.
  assert (Hland : Z.land x (2 ^ t) = if Z.testbit x t then 2 ^ t else 0).
  { apply Z.bits_inj'. intros k Hk.
    rewrite Z.land_spec, Z.pow2_bits_eqb by lia.
    destruct (Z.eqb_spec t k) as [->|Hne].
    - destruct (Z.testbit x k); [rewrite Z.pow2_bits_true by lia|rewrite Z.bits_0]; reflexivity.
    - rewrite andb_false_r.
      destruct (Z.testbit x t); [rewrite Z.pow2_bits_false by lia|rewrite Z.bits_0]; reflexivity. }
  rewrite Hland. destruct (Z.testbit x t); [|reflexivity].
  assert (0 < 2 ^ t) by lia.
  destruct (Z.eqb_spec (2 ^ t) 0); [lia|reflexivity].
Qed.

(** ** The sizing oracle *)

Lemma oracle_cells_ok :
  forallb (fun r => forallb (fun l => forallb (fun g => oracle_cell_ok (S r) l g)
                                              (seq 0 23)) (seq 0 5)) (seq 0 32) = true.
Proof. vm_compute. reflexivity. Qed.

Lemma oracle_cell_ok_at (required level generation : nat) :
  (1 <= required <= 32)%nat -> (level <= 4)%nat -> (generation <= 22)%nat ->
  oracle_cell_ok required level generation = true.
Proof.
  intros Hr Hl Hg.
  pose proof oracle_cells_ok as Hall.
  rewrite forallb_forall in Hall.
  destruct required as [|r]; [lia|].
  assert (Hin : In r (seq 0 32)) by (apply in_seq; lia).
  specialize (Hall r Hin). rewrite forallb_forall in Hall.
  assert (Hin' : In level (seq 0 5)) by (apply in_seq; lia).
  specialize (Hall level Hin'). rewrite forallb_forall in Hall.
  apply Hall, in_seq. lia.
Qed.

Lemma generation_bits (e : Z) :
  1 < e -> 64 - clzll (e - 1) = Z.log2_up e.
Proof.
  intros He. unfold clzll. rewrite Z.log2_up_eqn by lia.
  replace (Z.pred e) with (e - 1) by lia. lia.
Qed.

(** What the oracle computes once the level and the generation it indexes
    the table with are known. *)
Lemma oracle_at_cell (required : Z) (level generation : nat) :
  1 <= required <= 32 -> (level <= 4)%nat -> (generation <= 22)%nat ->
  exists by_required row guess,
    alloc_sizes !! Z.to_nat required = Some by_required /\
    alloc_sizes_by_level !! level = Some row /\
    row !! generation = Some guess /\
    (if guess <? required then by_required else guess) = Z.max by_required guess /\
    required <= Z.max by_required guess <= 32.
Proof.
  intros Hr Hl Hg.
  assert (Hrn : (1 <= Z.to_nat required <= 32)%nat) by lia.
  pose proof (oracle_cell_ok_at (Z.to_nat required) level generation Hrn Hl Hg) as Hok.
  unfold oracle_cell_ok in Hok.
  destruct (alloc_sizes !! Z.to_nat required) as [by_required|] eqn:Hb; [|discriminate].
  destruct (alloc_sizes_by_level !! level) as [row|] eqn:Hrow; simpl in Hok; [|discriminate].
  destruct (row !! generation) as [guess|] eqn:Hguess; [|discriminate].
  rewrite Z2Nat.id in Hok by lia.
  apply andb_prop in Hok as [Hok Hhi]. apply andb_prop in Hok as [Heq Hlo].
  apply Z.eqb_eq in Heq. apply Z.leb_le in Hlo, Hhi.
  exists by_required, row, guess. repeat split; try assumption; try reflexivity; lia.
Qed.

(** The two assertions pass for [required] in 1..32 and a positive size
    hint, and the second one fails for a size hint of 0. *)
Lemma oracle_asserts_pass (required expected_hamt_size : Z) :
  1 <= required <= 32 -> 0 < expected_hamt_size ->
  negb ((0 <? required) && (required <=? 32)) = false /\
  negb (0 <? expected_hamt_size) = false.
Proof.
  intros Hr He.
  replace (0 <? required) with true by (symmetry; apply Z.ltb_lt; lia).
  replace (required <=? 32) with true by (symmetry; apply Z.leb_le; lia).
  replace (0 <? expected_hamt_size) with true by (symmetry; apply Z.ltb_lt; lia).
  split; reflexivity.
Qed.

Lemma size_hint_positive (n : Z) : 0 < (if 0 <? n then n else 1).
Proof. destruct (Z.ltb_spec 0 n); lia. Qed.

Lemma oracle_asserts_size (required expected_hamt_size level : Z) :
  expected_hamt_size <= 0 ->
  hamt_trie_allocation_size required expected_hamt_size level = None.
Proof.
  intros He. unfold hamt_trie_allocation_size.
  destruct (negb ((0 <? required) && (required <=? 32))); [reflexivity|].
  replace (0 <? expected_hamt_size) with false by (symmetry; apply Z.ltb_ge; lia).
  reflexivity.
Qed.

(** Once the assertions have passed, the level and generation picked by
    the oracle are always inside the table, whatever the size hint and the
    level are. *)
Lemma oracle_total (required expected_hamt_size level : Z) :
  1 <= required <= 32 -> 0 < expected_hamt_size ->
  exists c, hamt_trie_allocation_size required expected_hamt_size level = Some c /\
            required <= c <= 32.
Proof.
  intros Hr He. unfold hamt_trie_allocation_size.
  destruct (oracle_asserts_pass required expected_hamt_size Hr He) as [-> ->].
  assert (Hcell : forall l g : Z, l <= 4 -> g <= 22 ->
    exists c,
      (row ← alloc_sizes_by_level !! Z.to_nat l;
       guess ← row !! Z.to_nat g;
       if guess <? required then alloc_sizes !! Z.to_nat required else Some guess) = Some c /\
      required <= c <= 32).
  { intros l g Hl Hg.
    assert (Hln : (Z.to_nat l <= 4)%nat) by lia.
    assert (Hgn : (Z.to_nat g <= 22)%nat) by lia.
    destruct (oracle_at_cell required (Z.to_nat l) (Z.to_nat g) Hr Hln Hgn)
      as (by_required & row & guess & Hb & Hrow & Hguess & Hpick & Hrange).
    rewrite Hrow. cbn [mbind option_bind]. rewrite Hguess. cbn [mbind option_bind].
    destruct (guess <? required); [rewrite Hb|]; eexists; (split; [reflexivity|]); lia. }
  destruct (4 <? level) eqn:Hlevel; [apply Hcell; lia|].
  apply Z.ltb_ge in Hlevel.
  destruct (wrap64 (expected_hamt_size - 1) =? 0); [apply Hcell; lia|].
  destruct (22 <? 64 - clzll (wrap64 (expected_hamt_size - 1))) eqn:Hgen;
    [apply Hcell; lia|].
  apply Z.ltb_ge in Hgen. apply Hcell; lia.
Qed.

(** C8: for [required] in 1..32, a size hint of at least 1 (a [size_t]) and
    any level, the oracle returns the larger of [by_required[required]] and
    [per_level[min(level,4)][generation]], with
    [generation = min(22, ceil(log2(expected_size)))], and the capacity it
    returns lies between [required] and 32. *)
Theorem sizing_oracle_refines_spec (required expected_size level : Z) :
  1 <= required <= 32 -> 1 <= expected_size < 2 ^ 64 -> 0 <= level ->
  exists c,
    hamt_trie_allocation_size required expected_size level = Some c /\
    sizing_oracle_spec required expected_size level = Some c /\
    required <= c <= 32.
Proof.
  intros Hr He Hl.
  assert (Hcell : forall l g l' g' : Z,
    0 <= l <= 4 -> 0 <= g <= 22 ->
    (alloc_sizes_by_level !! Z.to_nat l' ≫= (.!! Z.to_nat g')) =
    (alloc_sizes_by_level !! Z.to_nat l ≫= (.!! Z.to_nat g)) ->
    exists c,
      (row ← alloc_sizes_by_level !! Z.to_nat l;
       guess ← row !! Z.to_nat g;
       if guess <? required then alloc_sizes !! Z.to_nat required else Some guess) = Some c /\
      (by_required ← alloc_sizes !! Z.to_nat required;
       row ← alloc_sizes_by_level !! Z.to_nat l';
       guess ← row !! Z.to_nat g';
       Some (Z.max by_required guess)) = Some c /\
      required <= c <= 32).
  { intros l g l' g' Hl4 Hg22 Hsame.
    assert (Hln : (Z.to_nat l <= 4)%nat) by lia.
    assert (Hgn : (Z.to_nat g <= 22)%nat) by lia.
    destruct (oracle_at_cell required (Z.to_nat l) (Z.to_nat g) Hr Hln Hgn)
      as (by_required & row & guess & Hb & Hrow & Hguess & Hpick & Hrange).
    rewrite Hrow in Hsame. cbn [mbind option_bind] in Hsame.
    rewrite Hguess in Hsame.
    exists (Z.max by_required guess). split; [|split; [|lia]].
    - rewrite Hrow. cbn [mbind option_bind]. rewrite Hguess. cbn [mbind option_bind].
      destruct (guess <? required); [rewrite Hb|]; congruence.
    - rewrite Hb. cbn [mbind option_bind].
      destruct (alloc_sizes_by_level !! Z.to_nat l') as [row'|];
        cbn [mbind option_bind] in Hsame |- *; [|discriminate].
      rewrite Hsame. reflexivity. }
  unfold hamt_trie_allocation_size, sizing_oracle_spec, generation_of.
  destruct (oracle_asserts_pass required expected_size Hr ltac:(lia)) as [-> ->].
  assert (Hlog : 0 <= Z.log2_up expected_size) by apply Z.log2_up_nonneg.
  destruct (4 <? level) eqn:Hlevel.
  - (* deeper than 4: the row of level 4 is constant *)
    apply Z.ltb_lt in Hlevel.
    apply Hcell; [lia|lia|].
    replace (Z.min level 4) with 4 by lia.
    assert (Hg : (Z.to_nat (Z.min 22 (Z.log2_up expected_size)) <= 22)%nat) by lia.
    revert Hg. generalize (Z.to_nat (Z.min 22 (Z.log2_up expected_size))).
    intros g Hg. do 23 (destruct g as [|g]; [reflexivity|]). lia.
  - apply Z.ltb_ge in Hlevel.
    replace (Z.min level 4) with level by lia.
    unfold wrap64. rewrite (Z.mod_small (expected_size - 1)) by lia.
    destruct (Z.eqb_spec (expected_size - 1) 0) as [H1|Hn1].
    + apply Hcell; [lia|lia|].
      replace expected_size with 1 by lia. reflexivity.
    + rewrite generation_bits by lia.
      destruct (22 <? Z.log2_up expected_size) eqn:Hgen.
      * apply Z.ltb_lt in Hgen. apply Hcell; [lia|lia|].
        replace (Z.min 22 (Z.log2_up expected_size)) with 22 by lia. reflexivity.
      * apply Z.ltb_ge in Hgen. apply Hcell; [lia|lia|].
        replace (Z.min 22 (Z.log2_up expected_size)) with (Z.log2_up expected_size) by lia.
        reflexivity.
Qed.

(** Witness of C8 at [required = 9], a hint of 1000 entries, level 1. *)
Lemma sizing_oracle_refines_spec_witness :
  exists c,
    hamt_trie_allocation_size 9 1000 1 = Some c /\
    sizing_oracle_spec 9 1000 1 = Some c /\
    9 <= c <= 32.
Proof. apply sizing_oracle_refines_spec; lia. Defined.

(** ** Accessors of a bitmap trie *)

Section BitmapTrieFacts.
Context {Entry : Type}.
Local Abbreviation Node := (NodeTemplate Entry).
Local Abbreviation BitmapTrie := (BitmapTrieTemplate (NodeTemplate Entry)).
Implicit Types (trie : BitmapTrie) (node : Node) (base : list Node).

Lemma taken_testbit trie t :
  0 <= t < 32 ->
  BitmapTrie.logicalPositionTaken trie t = Z.testbit (_bitmap trie) t.
Proof.
  intros Ht. unfold BitmapTrie.logicalPositionTaken.
  rewrite bitmask_pow2 by assumption. apply land_pow2_testbit. lia.
Qed.

Lemma physicalIndex_count trie t :
  0 <= t < 32 ->
  BitmapTrie.physicalIndex trie t = count_bits (Z.to_nat t) (_bitmap trie).
Proof.
  intros Ht. unfold BitmapTrie.physicalIndex, popcount.
  rewrite bitmask_pred_ones by assumption.
  rewrite <- (Z2Nat.id t) at 1 by lia.
  apply count_bits_below_ones. lia.
Qed.

Lemma physicalIndex_le_size trie t :
  0 <= t < 32 -> 0 <= BitmapTrie.physicalIndex trie t <= BitmapTrie.size trie.
Proof.
  intros Ht. rewrite physicalIndex_count by assumption.
  unfold BitmapTrie.size, popcount. split.
  - apply count_bits_range.
  - apply count_bits_mono. lia.
Qed.

Lemma physicalIndex_lt_size trie t :
  0 <= t < 32 -> BitmapTrie.logicalPositionTaken trie t = true ->
  BitmapTrie.physicalIndex trie t < BitmapTrie.size trie.
Proof.
  intros Ht Htaken. rewrite taken_testbit in Htaken by assumption.
  rewrite physicalIndex_count by assumption.
  unfold BitmapTrie.size, popcount.
  apply count_bits_set; [|lia]. rewrite Z2Nat.id by lia. assumption.
Qed.

(** Two taken logical slots share a physical index only if they are the
    same slot. *)
Lemma physicalIndex_inj trie t t' :
  0 <= t < 32 -> 0 <= t' < 32 ->
  BitmapTrie.logicalPositionTaken trie t = true ->
  BitmapTrie.logicalPositionTaken trie t' = true ->
  BitmapTrie.physicalIndex trie t = BitmapTrie.physicalIndex trie t' ->
  t = t'.
Proof.
  intros Ht Ht' Htaken Htaken' Heq.
  rewrite taken_testbit in Htaken, Htaken' by assumption.
  rewrite !physicalIndex_count in Heq by assumption.
  destruct (Z.lt_trichotomy t t') as [Hlt|[?|Hlt]]; [|assumption|].
  - pose proof (count_bits_set (Z.to_nat t') (_bitmap trie) (Z.to_nat t)) as Hset.
    rewrite Z2Nat.id in Hset by lia. specialize (Hset Htaken). lia.
  - pose proof (count_bits_set (Z.to_nat t) (_bitmap trie) (Z.to_nat t')) as Hset.
    rewrite Z2Nat.id in Hset by lia. specialize (Hset Htaken'). lia.
Qed.

Lemma size_range trie : 0 <= BitmapTrie.size trie <= 32.
Proof. apply (count_bits_range 32). Qed.

Lemma size_free_slot trie t :
  0 <= t < 32 -> BitmapTrie.logicalPositionTaken trie t = false ->
  BitmapTrie.size trie <= 31.
Proof.
  intros Ht Hfree. rewrite taken_testbit in Hfree by assumption.
  pose proof (count_bits_lor_pow2 32 (_bitmap trie) (Z.to_nat t)) as Hset.
  rewrite Z2Nat.id in Hset by lia. specialize (Hset Hfree).
  pose proof (count_bits_range 32 (Z.lor (_bitmap trie) (2 ^ t))) as Hrange.
  unfold BitmapTrie.size, popcount.
  destruct (decide (Z.to_nat t < 32)%nat); lia.
Qed.

Lemma popcount_mark (bitmap t : Z) :
  0 <= t < 32 -> Z.testbit bitmap t = false ->
  popcount (Z.lor bitmap (wrap32 (Z.shiftl 1 t))) = popcount bitmap + 1.
Proof.
  intros Ht Hfree. rewrite bitmask_pow2 by assumption.
  pose proof (count_bits_lor_pow2 32 bitmap (Z.to_nat t)) as Hset.
  rewrite Z2Nat.id in Hset by lia. specialize (Hset Hfree).
  unfold popcount. destruct (decide (Z.to_nat t < 32)%nat); lia.
Qed.

Lemma physicalIndex_mark (bitmap capacity capacity' t : Z) o o' :
  0 <= t < 32 -> Z.testbit bitmap t = false ->
  BitmapTrie.physicalIndex
    (mkBitmapTrie (Z.lor bitmap (wrap32 (Z.shiftl 1 t))) capacity' o' : BitmapTrie) t =
  BitmapTrie.physicalIndex (mkBitmapTrie bitmap capacity o : BitmapTrie) t.
Proof.
  intros Ht Hfree. rewrite !physicalIndex_count by assumption. simpl.
  rewrite bitmask_pow2 by assumption.
  pose proof (count_bits_lor_pow2 (Z.to_nat t) bitmap (Z.to_nat t)) as Hset.
  rewrite Z2Nat.id in Hset by lia. specialize (Hset Hfree).
  destruct (decide (Z.to_nat t < Z.to_nat t)%nat); lia.
Qed.

Lemma taken_mark (bitmap capacity t : Z) o :
  0 <= t < 32 ->
  BitmapTrie.logicalPositionTaken
    (mkBitmapTrie (Z.lor bitmap (wrap32 (Z.shiftl 1 t))) capacity o : BitmapTrie) t = true.
Proof.
  intros Ht. rewrite taken_testbit by assumption. simpl.
  rewrite bitmask_pow2 by assumption.
  rewrite Z.lor_spec, Z.pow2_bits_true by lia. apply orb_true_r.
Qed.

Lemma bitmap_mark_range (bitmap t : Z) :
  0 <= t < 32 -> 0 <= bitmap < 2 ^ 32 ->
  0 <= Z.lor bitmap (wrap32 (Z.shiftl 1 t)) < 2 ^ 32.
Proof.
  intros Ht Hb. rewrite bitmask_pow2 by assumption.
  assert (H0 : 0 <= Z.lor bitmap (2 ^ t)) by (apply Z.lor_nonneg; lia).
  split; [assumption|].
  destruct (Z.eq_dec (Z.lor bitmap (2 ^ t)) 0) as [->|Hne]; [lia|].
  apply Z.log2_lt_pow2; [lia|].
  rewrite Z.log2_lor by lia.
  assert (Z.log2 (2 ^ t) = t) by (apply Z.log2_pow2; lia).
  destruct (Z.eq_dec bitmap 0) as [->|Hb0]; [simpl Z.log2 at 1; lia|].
  assert (Z.log2 bitmap < 32) by (apply Z.log2_lt_pow2; lia).
  lia.
Qed.

(** ** Lists with one element put in *)

Lemma lookup_put_in base (i : nat) node (j : nat) :
  (i <= length base)%nat ->
  (take i base ++ node :: drop i base) !! j =
  if decide (j < i)%nat then base !! j
  else if decide (j = i) then Some node else base !! (j - 1)%nat.
Proof.
  intros Hi.
  assert (Hlen : length (take i base) = i) by (rewrite length_take; lia).
  destruct (decide (j < i)%nat) as [Hlt|Hge].
  - rewrite lookup_app_l by lia. apply lookup_take_lt. assumption.
  - rewrite lookup_app_r by lia. rewrite Hlen.
    destruct (decide (j = i)) as [->|Hne].
    + rewrite Nat.sub_diag. reflexivity.
    + rewrite lookup_cons_ne_0 by lia. rewrite lookup_drop. f_equal. lia.
Qed.

Lemma length_put_in base (i : nat) node :
  (i <= length base)%nat ->
  length (take i base ++ node :: drop i base) = S (length base).
Proof.
  intros Hi. rewrite length_app, length_take. simpl. rewrite length_drop. lia.
Qed.

(** ** The raw array *)

Lemma live_of_initialised (n : nat) (array : cells Entry) base :
  take n array = Some <$> base -> BitmapTrie.live_of n array = Some base.
Proof.
  unfold BitmapTrie.live_of. intros ->.
  apply mapM_fmap_Some. reflexivity.
Qed.

Lemma lookup_cells_of base capacity (j : nat) :
  (j < length base)%nat ->
  BitmapTrie.cells_of base capacity !! j = Some (base !! j).
Proof.
  intros Hj. unfold BitmapTrie.cells_of.
  rewrite lookup_app_l by (rewrite length_fmap; assumption).
  rewrite list_lookup_fmap.
  destruct (lookup_lt_is_Some_2 base j Hj) as [x ->]. reflexivity.
Qed.

Lemma length_cells_of base capacity :
  Z.of_nat (length base) <= capacity ->
  length (BitmapTrie.cells_of base capacity) = Z.to_nat capacity.
Proof.
  intros Hcap. unfold BitmapTrie.cells_of.
  rewrite length_app, length_fmap, length_replicate. lia.
Qed.

Lemma move_initialised (src dst : cells Entry) (from to : nat) node :
  src !! from = Some (Some node) -> (to < length dst)%nat ->
  BitmapTrie.move src from to dst = Ret (<[to := Some node]> dst).
Proof.
  intros Hsrc Hto. unfold BitmapTrie.move, BitmapTrie.load, BitmapTrie.store.
  rewrite Hsrc. cbn [mjoin option_join defined mbind result_bind].
  case_decide; [reflexivity|lia].
Qed.

(** The copy loops of the growing branch. *)
Lemma for_up_move (old : cells Entry) (f : nat -> nat) (k from : nat)
    (new : cells Entry) :
  (from + k <= length new)%nat ->
  (forall j, (from <= j < from + k)%nat -> exists x, old !! f j = Some (Some x)) ->
  exists new',
    for_up k from (fun j => BitmapTrie.move old (f j) j) new = Ret new' /\
    length new' = length new /\
    forall j, new' !! j =
              if decide (from <= j < from + k)%nat then old !! f j else new !! j.
Proof.
  revert from new. induction k as [|k IH]; intros from new Hlen Hinit.
  - exists new. repeat split. intros j. case_decide; [lia|reflexivity].
  - destruct (Hinit from ltac:(lia)) as [x Hx].
    cbn [for_up]. rewrite (move_initialised _ _ _ _ x Hx) by lia.
    cbn [mbind result_bind].
    destruct (IH (S from) (<[from := Some x]> new)) as (new' & Hrun & Hlen' & Hget).
    + rewrite length_insert. lia.
    + intros j Hj. apply Hinit. lia.
    + exists new'. split; [exact Hrun|]. split.
      * rewrite Hlen', length_insert. reflexivity.
      * intros j. rewrite Hget.
        destruct (decide (j = from)) as [->|Hne].
        -- rewrite list_lookup_insert_eq by lia.
           repeat case_decide; try lia. symmetry. exact Hx.
        -- rewrite list_lookup_insert_ne by lia.
           repeat case_decide; try lia; reflexivity.
Qed.

(** The shifting loop of the branch that keeps the array. *)
Lemma for_down_shift (k m : nat) (array : cells Entry) :
  (k <= m)%nat -> (m < length array)%nat ->
  (forall j, (j < m)%nat -> exists x, array !! j = Some (Some x)) ->
  exists array',
    for_down k m (fun j array => BitmapTrie.move array (j - 1) j array) array
      = Ret array' /\
    length array' = length array /\
    forall j, array' !! j =
              if decide (m - k < j <= m)%nat then array !! (j - 1)%nat
              else array !! j.
Proof.
  revert m array. induction k as [|k IH]; intros m array Hk Hlen Hinit.
  - exists array. repeat split. intros j. case_decide; [lia|reflexivity].
  - destruct (Hinit (m - 1)%nat ltac:(lia)) as [x Hx].
    cbn [for_down]. rewrite (move_initialised _ _ _ _ x Hx) by lia.
    cbn [mbind result_bind].
    destruct (IH (Nat.pred m) (<[m := Some x]> array)) as (array' & Hrun & Hlen' & Hget).
    + lia.
    + rewrite length_insert. lia.
    + intros j Hj. rewrite list_lookup_insert_ne by lia. apply Hinit. lia.
    + exists array'. split; [exact Hrun|]. split.
      * rewrite Hlen', length_insert. reflexivity.
      * intros j. rewrite Hget.
        destruct (decide (j = m)) as [->|Hne].
        -- rewrite list_lookup_insert_eq by lia.
           repeat case_decide; try lia. symmetry. exact Hx.
        -- repeat case_decide; try lia;
             rewrite list_lookup_insert_ne by lia; reflexivity.
Qed.
End BitmapTrieFacts.

(** ** [BitmapTrie::insertEntry] *)

Section BitmapTrieInsert.
Context {Entry Allocator : Type} {Memory : Alloc.Ops Allocator} {Layout : NodeLayout}.
Local Abbreviation Node := (NodeTemplate Entry).
Local Abbreviation BitmapTrie := (BitmapTrieTemplate (NodeTemplate Entry)).
Implicit Types (this : BitmapTrie) (base : list Node) (allocator : Allocator).

Lemma store_in_range (array : cells Entry) (i : nat) (node : Node) :
  (i < length array)%nat ->
  BitmapTrie.store array i node = Ret (<[i := Some node]> array).
Proof. intros Hi. unfold BitmapTrie.store. case_decide; [reflexivity|lia]. Qed.

(** Once every cell below [i] holds its old node and every cell above it,
    up to [sz], holds the old node of the cell before, placing the new
    node at [i] gives the old nodes in order with the new one put in. *)
Lemma live_of_placed (array : cells Entry) base (i : nat) (node : Node) :
  (i <= length base)%nat -> (length base < length array)%nat ->
  (forall j, (j <= length base)%nat -> j <> i ->
             array !! j = Some (if decide (j < i)%nat then base !! j
                                else base !! (j - 1)%nat)) ->
  BitmapTrie.live_of (S (length base)) (<[i := Some node]> array) =
  Some (take i base ++ node :: drop i base).
Proof.
  intros Hi Hlen Hget. apply live_of_initialised, list_eq. intros j.
  rewrite list_lookup_fmap, lookup_put_in by assumption.
  destruct (decide (j < S (length base))%nat) as [Hj|Hj].
  - rewrite lookup_take_lt by assumption.
    destruct (decide (j = i)) as [->|Hne].
    + rewrite list_lookup_insert_eq by lia.
      repeat case_decide; try lia. reflexivity.
    + rewrite list_lookup_insert_ne by lia. rewrite Hget by lia.
      destruct (decide (j < i)%nat).
      * destruct (lookup_lt_is_Some_2 base j ltac:(lia)) as [x ->]. reflexivity.
      * destruct (lookup_lt_is_Some_2 base (j - 1) ltac:(lia)) as [x ->]. reflexivity.
  - rewrite lookup_take_ge by lia.
    repeat case_decide; try lia.
    rewrite (lookup_ge_None_2 base (j - 1)) by lia. reflexivity.
Qed.

(** With a size hint of 0 the growing branch stops at the assertion of the
    sizing oracle. *)
Lemma insertEntry_asserts_size allocator this t new_entry expected_hamt_size level :
  BitmapTrie.logicalPositionTaken this t = false -> 0 <= t < 32 ->
  _capacity this < BitmapTrie.size this + 1 -> expected_hamt_size <= 0 ->
  BitmapTrie.insertEntry allocator this t new_entry expected_hamt_size level = Undefined.
Proof.
  intros Hfree Ht Hgrow Hexpected.
  pose proof (size_free_slot this t Ht Hfree) as Hsz31.
  pose proof (size_range this) as Hsz.
  unfold BitmapTrie.insertEntry.
  replace (wrap32 (BitmapTrie.size this + 1)) with (BitmapTrie.size this + 1)
    by (unfold wrap32; symmetry; apply Z.mod_small; lia).
  replace (_capacity this <? BitmapTrie.size this + 1) with true
    by (symmetry; apply Z.ltb_lt; lia).
  rewrite oracle_asserts_size by assumption. reflexivity.
Qed.

Lemma insertEntry_spec allocator this t new_entry expected_hamt_size level :
  wf_trie this -> 0 <= t < 32 ->
  BitmapTrie.logicalPositionTaken this t = false ->
  let i := Z.to_nat (BitmapTrie.physicalIndex this t) in
  let base := default [] (_base this) in
  let marked capacity : BitmapTrie :=
    mkBitmapTrie (Z.lor (_bitmap this) (wrap32 (Z.shiftl 1 t))) capacity
                 (Some (take i base ++ EntryNode new_entry :: drop i base)) in
  if _capacity this <? BitmapTrie.size this + 1 then
    0 < expected_hamt_size ->
    exists alloc_size,
      hamt_trie_allocation_size (BitmapTrie.size this + 1) expected_hamt_size level
        = Some alloc_size /\
      BitmapTrie.size this + 1 <= alloc_size <= 32 /\
      BitmapTrie.insertEntry allocator this t new_entry expected_hamt_size level =
      let '(ok, allocator') :=
        Alloc.allocate allocator (wrap64 (alloc_size * sizeof_Node)) alignof_Node in
      if ok then
        Ret (Some i, marked alloc_size,
             match _base this with
             | Some _ => Alloc.deallocate allocator' (_capacity this)
             | None => allocator'
             end)
      else Ret (None, this, allocator')
  else
    BitmapTrie.insertEntry allocator this t new_entry expected_hamt_size level =
    Ret (Some i, marked (_capacity this), allocator).
Proof.
  intros [Hbits Hbase] Ht Hfree i base marked. subst marked. cbv beta.
  pose proof (size_free_slot this t Ht Hfree) as Hsz31.
  pose proof (size_range this) as Hsz.
  pose proof (physicalIndex_le_size this t Ht) as Hi.
  assert (Hreq : wrap32 (BitmapTrie.size this + 1) = BitmapTrie.size this + 1).
  { unfold wrap32. apply Z.mod_small. lia. }
  unfold BitmapTrie.insertEntry. rewrite Hreq. fold i.
  destruct (_capacity this <? BitmapTrie.size this + 1) eqn:Hgrow.
  - (* a larger array is needed *)
    apply Z.ltb_lt in Hgrow. intros Hexpected.
    destruct (oracle_total (BitmapTrie.size this + 1) expected_hamt_size level
                ltac:(lia) Hexpected) as (alloc_size & Horacle & Hrange).
    exists alloc_size. split; [exact Horacle|]. split; [exact Hrange|].
    rewrite Horacle. cbn [defined mbind result_bind].
    destruct (Alloc.allocate allocator (wrap64 (alloc_size * sizeof_Node)) alignof_Node)
      as [[|] allocator']; cbn [negb]; [|reflexivity].
    destruct (_base this) as [old_base|] eqn:Hold; subst base; cbn [default].
    + destruct Hbase as [Hlen Hcap]. fold (BitmapTrie.size this) in Hlen, Hcap.
      assert (Hcells : BitmapTrie.cells_of old_base (_capacity this) = Some <$> old_base).
      { unfold BitmapTrie.cells_of.
        replace (Z.to_nat (_capacity this) - length old_base)%nat with 0%nat by lia.
        apply app_nil_r. }
      rewrite Hcells.
      destruct (for_up_move (Some <$> old_base) (fun j => j) i 0
                  (replicate (Z.to_nat alloc_size) None))
        as (new1 & Hrun1 & Hlen1 & Hget1).
      { rewrite length_replicate. lia. }
      { intros j Hj. rewrite list_lookup_fmap.
        destruct (lookup_lt_is_Some_2 old_base j ltac:(lia)) as [x ->]. eauto. }
      rewrite Hrun1. cbn [mbind result_bind].
      destruct (for_up_move (Some <$> old_base) (fun j => (j - 1)%nat)
                  (Z.to_nat (BitmapTrie.size this) - i) (S i) new1)
        as (new2 & Hrun2 & Hlen2 & Hget2).
      { rewrite Hlen1, length_replicate. lia. }
      { intros j Hj. rewrite list_lookup_fmap.
        destruct (lookup_lt_is_Some_2 old_base (j - 1) ltac:(lia)) as [x ->]. eauto. }
      rewrite Hrun2. cbn [mbind result_bind].
      rewrite store_in_range by (rewrite Hlen2, Hlen1, length_replicate; lia).
      cbn [mbind result_bind].
      replace (Z.to_nat (BitmapTrie.size this)) with (length old_base) by lia.
      rewrite (live_of_placed new2 old_base i).
      * reflexivity.
      * lia.
      * rewrite Hlen2, Hlen1, length_replicate. lia.
      * intros j Hj Hne. rewrite Hget2, Hget1, list_lookup_fmap.
        repeat case_decide; try lia; rewrite ?list_lookup_fmap.
        -- destruct (lookup_lt_is_Some_2 old_base (j - 1) ltac:(lia)) as [x ->].
           reflexivity.
        -- destruct (lookup_lt_is_Some_2 old_base j ltac:(lia)) as [x ->].
           reflexivity.
    + destruct Hbase as [Hb0 Hc0].
      assert (Hi0 : i = 0%nat).
      { unfold BitmapTrie.size in Hi. rewrite Hb0 in Hi.
        change (popcount 0) with 0 in Hi. lia. }
      assert (Hsz0 : Z.to_nat (BitmapTrie.size this) = 0%nat).
      { unfold BitmapTrie.size. rewrite Hb0. reflexivity. }
      rewrite Hi0, Hsz0.
      rewrite store_in_range by (rewrite length_replicate; lia).
      cbn [mbind result_bind].
      rewrite (live_of_placed (replicate (Z.to_nat alloc_size) None) [] 0).
      * reflexivity.
      * simpl. lia.
      * rewrite length_replicate. simpl. lia.
      * intros j Hj Hne. simpl in Hj. lia.
  - (* the array has room *)
    apply Z.ltb_ge in Hgrow.
    destruct (_base this) as [old_base|] eqn:Hold; subst base; cbn [default].
    + destruct Hbase as [Hlen Hcap]. fold (BitmapTrie.size this) in Hlen, Hcap.
      cbn [defined mbind result_bind].
      destruct (for_down_shift (Z.to_nat (BitmapTrie.size this) - i)
                  (Z.to_nat (BitmapTrie.size this))
                  (BitmapTrie.cells_of old_base (_capacity this)))
        as (array' & Hrun & Hlen' & Hget).
      { lia. }
      { rewrite length_cells_of by lia. lia. }
      { intros j Hj. rewrite lookup_cells_of by lia.
        destruct (lookup_lt_is_Some_2 old_base j ltac:(lia)) as [x ->]. eauto. }
      rewrite Hrun. cbn [mbind result_bind].
      rewrite store_in_range by (rewrite Hlen', length_cells_of by lia; lia).
      cbn [mbind result_bind].
      replace (Z.to_nat (BitmapTrie.size this)) with (length old_base) in * by lia.
      rewrite (live_of_placed array' old_base i).
      * reflexivity.
      * lia.
      * rewrite Hlen', length_cells_of by lia. lia.
      * intros j Hj Hne. rewrite Hget.
        repeat case_decide; try lia; rewrite lookup_cells_of by lia; reflexivity.
    + destruct Hbase as [Hb0 Hc0]. lia.
Qed.
Lemma wf_trie_marked this t capacity node :
  wf_trie this -> 0 <= t < 32 ->
  BitmapTrie.logicalPositionTaken this t = false ->
  BitmapTrie.size this + 1 <= capacity ->
  let i := Z.to_nat (BitmapTrie.physicalIndex this t) in
  let base := default [] (_base this) in
  wf_trie (mkBitmapTrie (Z.lor (_bitmap this) (wrap32 (Z.shiftl 1 t))) capacity
                        (Some (take i base ++ node :: drop i base))).
Proof.
  intros [Hbits Hbase] Ht Hfree Hcap i base.
  pose proof (physicalIndex_le_size this t Ht) as Hi.
  rewrite taken_testbit in Hfree by assumption.
  assert (Hlen : Z.of_nat (length base) = BitmapTrie.size this).
  { subst base. unfold BitmapTrie.size.
    destruct (_base this); cbn [default]; [tauto|].
    destruct Hbase as [-> _]. reflexivity. }
  split; cbn [_bitmap _base _capacity].
  - apply bitmap_mark_range; assumption.
  - rewrite popcount_mark by assumption.
    rewrite length_put_in by lia. unfold BitmapTrie.size in *. lia.
Qed.

End BitmapTrieInsert.

Section BitmapTrieInsertTheorem.
Context {Entry Allocator : Type} {Memory : Alloc.Ops Allocator} {Layout : NodeLayout}.
Local Abbreviation Node := (NodeTemplate Entry).
Local Abbreviation BitmapTrie := (BitmapTrieTemplate (NodeTemplate Entry)).
Implicit Types (this : BitmapTrie) (base : list Node) (allocator : Allocator).

(** C7, as the code has it: on a trie that satisfies the data-model
    invariant (one initialised cell per bit of the bitmap, no more of them
    than the capacity, and a null array only together with bitmap 0 and
    capacity 0), whose bit at [logical_index] is clear, and with a size hint
    above 0, [insertEntry] either returns the new leaf, placed at physical
    index [popcount(bitmap & ((1 << logical_index) - 1))], with the bit set
    and the nodes that were live kept in order around it, or, the allocator
    having returned null to the request made on [allocator], returns null
    and leaves the trie as it was. *)
Theorem bitmap_trie_insertEntry_outcome allocator this logical_index new_entry
    expected_hamt_size level :
  wf_trie this -> 0 <= logical_index < 32 -> 0 < expected_hamt_size ->
  Z.testbit (_bitmap this) logical_index = false ->
  let i := Z.to_nat (popcount (Z.land (_bitmap this) (2 ^ logical_index - 1))) in
  let base := default [] (_base this) in
  exists leaf this' allocator',
    BitmapTrie.insertEntry allocator this logical_index new_entry
                           expected_hamt_size level
      = Ret (leaf, this', allocator') /\
    ((leaf = Some i /\
      _bitmap this' = Z.lor (_bitmap this) (2 ^ logical_index) /\
      Z.testbit (_bitmap this') logical_index = true /\
      _base this' = Some (take i base ++ EntryNode new_entry :: drop i base) /\
      (take i base ++ EntryNode new_entry :: drop i base) !! i
        = Some (EntryNode new_entry) /\
      wf_trie this')
     \/
     (leaf = None /\ this' = this /\
      exists bytes, Alloc.allocate allocator bytes alignof_Node = (false, allocator'))).
Proof.
  intros Hwf Ht Hexpected Hbit i base.
  assert (Hfree : BitmapTrie.logicalPositionTaken this logical_index = false)
    by (rewrite taken_testbit by assumption; exact Hbit).
  assert (Hi : i = Z.to_nat (BitmapTrie.physicalIndex this logical_index)).
  { subst i. unfold BitmapTrie.physicalIndex.
    rewrite bitmask_pred_ones, Z.ones_equiv by assumption. reflexivity. }
  pose proof (physicalIndex_le_size this logical_index Ht) as Hile.
  assert (Hlen : Z.of_nat (length base) = BitmapTrie.size this).
  { subst base. unfold BitmapTrie.size. destruct Hwf as [_ Hbase].
    destruct (_base this); cbn [default]; [tauto|].
    destruct Hbase as [-> _]. reflexivity. }
  assert (Hsuccess : forall capacity,
    BitmapTrie.size this + 1 <= capacity ->
    let this' : BitmapTrie :=
      mkBitmapTrie (Z.lor (_bitmap this) (wrap32 (Z.shiftl 1 logical_index))) capacity
                   (Some (take i base ++ EntryNode new_entry :: drop i base)) in
    _bitmap this' = Z.lor (_bitmap this) (2 ^ logical_index) /\
    Z.testbit (_bitmap this') logical_index = true /\
    _base this' = Some (take i base ++ EntryNode new_entry :: drop i base) /\
    (take i base ++ EntryNode new_entry :: drop i base) !! i
      = Some (EntryNode new_entry) /\
    wf_trie this').
  { intros capacity Hcap this'. subst this'. cbn [_bitmap _base].
    rewrite bitmask_pow2 by assumption.
    split; [reflexivity|]. split.
    { rewrite Z.lor_spec, Z.pow2_bits_true by lia. apply orb_true_r. }
    split; [reflexivity|]. split.
    { rewrite lookup_put_in by lia. repeat case_decide; try lia. reflexivity. }
    rewrite <- (bitmask_pow2 logical_index) by assumption.
    rewrite Hi. apply wf_trie_marked; assumption. }
  pose proof (insertEntry_spec allocator this logical_index new_entry
                expected_hamt_size level Hwf Ht Hfree) as Hspec.
  cbv zeta in Hspec. rewrite <- Hi in Hspec. fold base in Hspec.
  destruct (_capacity this <? BitmapTrie.size this + 1) eqn:Hgrow.
  - destruct (Hspec Hexpected) as (alloc_size & _ & Hrange & Hrun).
    destruct (Alloc.allocate allocator (wrap64 (alloc_size * sizeof_Node)) alignof_Node)
      as [[|] allocator'] eqn:Halloc.
    + eexists _, _, _. split; [exact Hrun|]. left.
      split; [reflexivity|]. apply Hsuccess. lia.
    + eexists _, _, _. split; [exact Hrun|]. right.
      split; [reflexivity|]. split; [reflexivity|].
      exists (wrap64 (alloc_size * sizeof_Node)). exact Halloc.
  - apply Z.ltb_ge in Hgrow.
    eexists _, _, _. split; [exact Hspec|]. left.
    split; [reflexivity|]. apply Hsuccess. lia.
Qed.
End BitmapTrieInsertTheorem.


(** ** The container: unfolding [insertEntry] *)

Section InsertEntryReturns.
Context {Key T Allocator : Type}.
Context {Hasher : Hash Key} {Equal : KeyEqual Key} {Memory : Alloc.Ops Allocator} {Layout : NodeLayout}.
Local Abbreviation Entry := (Key * T)%type.
Local Abbreviation Node := (NodeTemplate (Key * T)).
Local Abbreviation BitmapTrie := (BitmapTrieTemplate (NodeTemplate (Key * T))).
Implicit Types (trie : BitmapTrie) (node trie_node : Node) (allocator : Allocator).
Implicit Types (new_entry old_entry : Entry) (leaf : option handle).

Lemma descend_lt key seed hash hash_offset :
  hash_offset < 25 ->
  descend key (seed, hash, hash_offset) = (seed, hash, hash_offset + 5).
Proof.
  intros Hlt. unfold descend, schedule_step.
  apply Z.ltb_lt in Hlt. rewrite Hlt. reflexivity.
Qed.

Lemma descend_ge key seed hash hash_offset :
  25 <= hash_offset ->
  descend key (seed, hash, hash_offset) =
  (HAMT.next_seed seed, HAMT.hash32 key (HAMT.next_seed seed), 0).
Proof.
  intros Hge. unfold descend, schedule_step.
  apply Z.ltb_ge in Hge. rewrite Hge. reflexivity.
Qed.

(** Every returning call of [insertEntry] is one of the listed runs. *)
Lemma insertEntry_returns_intro fuel allocator count trie_node new_entry
    seed hash hash_offset level leaf trie_node' allocator' :
  HAMT.insertEntry fuel allocator count trie_node new_entry seed hash hash_offset level
    = Ret (leaf, trie_node', allocator') ->
  insertEntry_returns fuel allocator count trie_node new_entry seed hash hash_offset level
                      leaf trie_node' allocator'.
Proof.
  revert allocator trie_node new_entry seed hash hash_offset level leaf trie_node' allocator'.
  induction fuel as [|fuel IH];
    intros allocator trie_node new_entry seed hash hash_offset level leaf trie_node'
           allocator' Hrun;
    [discriminate|].
  cbn [HAMT.insertEntry] in Hrun.
  destruct trie_node as [entry|trie]; [discriminate|].
  cbn [Node.asTrie defined mbind result_bind] in Hrun.
  destruct (BitmapTrie.logicalPositionTaken trie (Z.land (Z.shiftr hash hash_offset) 31))
    eqn:Htaken; cbn [negb] in Hrun.
  2:{ destruct (BitmapTrie.insertEntry allocator trie _ new_entry _ level)
        as [[[leaf0 trie0] allocator0]| |] eqn:Hinsert; try discriminate.
      cbn [mbind result_bind] in Hrun. injection Hrun as <- <- <-.
      eapply returns_free; eassumption. }
  destruct (BitmapTrie.logicalGet trie (Z.land (Z.shiftr hash hash_offset) 31))
    as [[old_entry|child]|] eqn:Hget; try discriminate;
    cbn [defined mbind result_bind] in Hrun.
  - (* the slot holds an entry *)
    destruct (key_equal old_entry.1 new_entry.1) eqn:Hequal.
    { injection Hrun as <- <- <-. eapply returns_override; eassumption. }
    destruct (hash_offset <? 25) eqn:Hoffset.
    + apply Z.ltb_lt in Hoffset.
      destruct (Node_BitmapTrie allocator 2) as [fresh allocator1] eqn:Hfresh.
      destruct (HAMT.insertEntry fuel allocator1 count fresh old_entry seed
                  (HAMT.hash32 old_entry.1 seed) (hash_offset + 5) (wrap32 (level + 1)))
        as [[[replaced_node trie_node1] allocator2]| |] eqn:Hold; try discriminate.
      cbn [mbind result_bind] in Hrun. apply IH in Hold.
      destruct replaced_node as [replaced_node|].
      * destruct (HAMT.insertEntry fuel allocator2 count trie_node1 new_entry seed
                    hash (hash_offset + 5) (wrap32 (level + 1)))
          as [[[leaf2 trie_node2] allocator3]| |] eqn:Hnew; try discriminate.
        cbn [mbind result_bind] in Hrun. injection Hrun as <- <- <-.
        apply IH in Hnew.
        eapply returns_split; try eassumption.
        -- apply descend_lt. assumption.
        -- left. assumption.
      * injection Hrun as <- <- <-.
        eapply returns_restore; try eassumption.
        -- apply (descend_lt _ _ hash). assumption.
        -- left. assumption.
    + apply Z.ltb_ge in Hoffset.
      destruct (HAMT.hash32 new_entry.1 (HAMT.next_seed seed) =?
                HAMT.hash32 old_entry.1 (HAMT.next_seed seed)) eqn:Hsame.
      { apply Z.eqb_eq in Hsame. injection Hrun as <- <- <-.
        eapply returns_collision; eassumption. }
      apply Z.eqb_neq in Hsame.
      destruct (Node_BitmapTrie allocator 2) as [fresh allocator1] eqn:Hfresh.
      destruct (HAMT.insertEntry fuel allocator1 count fresh old_entry
                  (HAMT.next_seed seed)
                  (HAMT.hash32 old_entry.1 (HAMT.next_seed seed)) 0 (wrap32 (level + 1)))
        as [[[replaced_node trie_node1] allocator2]| |] eqn:Hold; try discriminate.
      cbn [mbind result_bind] in Hrun. apply IH in Hold.
      destruct replaced_node as [replaced_node|].
      * destruct (HAMT.insertEntry fuel allocator2 count trie_node1 new_entry
                    (HAMT.next_seed seed) (HAMT.hash32 new_entry.1 (HAMT.next_seed seed))
                    0 (wrap32 (level + 1)))
          as [[[leaf2 trie_node2] allocator3]| |] eqn:Hnew; try discriminate.
        cbn [mbind result_bind] in Hrun. injection Hrun as <- <- <-.
        apply IH in Hnew.
        eapply returns_split; try eassumption.
        -- apply descend_ge. assumption.
        -- right. assumption.
      * injection Hrun as <- <- <-.
        eapply returns_restore; try eassumption.
        -- apply (descend_ge _ _ hash). assumption.
        -- right. assumption.
  - (* the slot holds a trie *)
    destruct (hash_offset <? 25) eqn:Hoffset.
    + apply Z.ltb_lt in Hoffset.
      destruct (HAMT.insertEntry fuel allocator count (TrieNode child) new_entry seed
                  hash (hash_offset + 5) (wrap32 (level + 1)))
        as [[[leaf1 node1] allocator1]| |] eqn:Hchild; try discriminate.
      cbn [mbind result_bind] in Hrun. injection Hrun as <- <- <-.
      apply IH in Hchild.
      eapply returns_descend; try eassumption. apply descend_lt. assumption.
    + apply Z.ltb_ge in Hoffset.
      destruct (HAMT.insertEntry fuel allocator count (TrieNode child) new_entry
                  (HAMT.next_seed seed) (HAMT.hash32 new_entry.1 (HAMT.next_seed seed))
                  0 (wrap32 (level + 1)))
        as [[[leaf1 node1] allocator1]| |] eqn:Hchild; try discriminate.
      cbn [mbind result_bind] in Hrun. injection Hrun as <- <- <-.
      apply IH in Hchild.
      eapply returns_descend; try eassumption. apply descend_ge. assumption.
Qed.
End InsertEntryReturns.

(** ** Well-formed tries stay well-formed *)

Section WellFormed.
Context {Key T Allocator : Type}.
Context {Hasher : Hash Key} {Equal : KeyEqual Key} {Memory : Alloc.Ops Allocator} {Layout : NodeLayout}.
Local Abbreviation Entry := (Key * T)%type.
Local Abbreviation Node := (NodeTemplate (Key * T)).
Local Abbreviation BitmapTrie := (BitmapTrieTemplate (NodeTemplate (Key * T))).
Implicit Types (trie this : BitmapTrie) (node trie_node : Node) (allocator : Allocator).
Implicit Types (new_entry old_entry : Entry) (leaf : option handle).

(** The two outcomes of [BitmapTrie::insertEntry] on a free slot. *)
Lemma bitmap_insert_cases allocator this t new_entry expected_hamt_size level
    placed this' allocator' :
  wf_trie this -> 0 <= t < 32 ->
  BitmapTrie.logicalPositionTaken this t = false ->
  BitmapTrie.insertEntry allocator this t new_entry expected_hamt_size level
    = Ret (placed, this', allocator') ->
  (placed = None /\ this' = this /\
   exists bytes, (Alloc.allocate allocator bytes alignof_Node).1 = false) \/
  (exists capacity,
     BitmapTrie.size this + 1 <= capacity /\
     placed = Some (Z.to_nat (BitmapTrie.physicalIndex this t)) /\
     this' = mkBitmapTrie
               (Z.lor (_bitmap this) (wrap32 (Z.shiftl 1 t))) capacity
               (Some (take (Z.to_nat (BitmapTrie.physicalIndex this t))
                           (default [] (_base this))
                      ++ EntryNode new_entry
                      :: drop (Z.to_nat (BitmapTrie.physicalIndex this t))
                              (default [] (_base this))))).
Proof.
  intros Hwf Ht Hfree Hrun.
  pose proof (insertEntry_spec allocator this t new_entry expected_hamt_size level
                Hwf Ht Hfree) as Hspec.
  cbv zeta in Hspec.
  destruct (_capacity this <? BitmapTrie.size this + 1) eqn:Hgrow.
  - destruct (Z.le_gt_cases expected_hamt_size 0) as [Hexpected|Hexpected].
    { apply Z.ltb_lt in Hgrow.
      rewrite (insertEntry_asserts_size _ _ _ _ _ _ Hfree Ht Hgrow Hexpected) in Hrun.
      discriminate. }
    destruct (Hspec ltac:(lia)) as (alloc_size & _ & Hrange & Hspec').
    clear Hspec. rename Hspec' into Hspec.
    rewrite Hspec in Hrun.
    destruct (Alloc.allocate allocator (wrap64 (alloc_size * sizeof_Node)) alignof_Node)
      as [[|] allocator1] eqn:Halloc; injection Hrun as <- <- <-.
    + right. exists alloc_size. split; [lia|]. split; reflexivity.
    + left. split; [reflexivity|]. split; [reflexivity|].
      eexists. rewrite Halloc. reflexivity.
  - apply Z.ltb_ge in Hgrow. rewrite Hspec in Hrun. injection Hrun as <- <- <-.
    right. exists (_capacity this). split; [lia|]. split; reflexivity.
Qed.

Lemma wf_node_children trie base :
  wf_node (TrieNode trie) -> _base trie = Some base -> Forall wf_node base.
Proof. intros Hwf. inversion Hwf; subst. auto. Qed.

Lemma wf_node_trie trie : wf_node (TrieNode trie) -> wf_trie trie.
Proof. intros Hwf. inversion Hwf; subst. assumption. Qed.

Lemma wf_node_logicalGet trie t node :
  wf_node (TrieNode trie) -> BitmapTrie.logicalGet trie t = Some node -> wf_node node.
Proof.
  intros Hwf Hget. unfold BitmapTrie.logicalGet, BitmapTrie.physicalGet in Hget.
  destruct (_base trie) as [base|] eqn:Hbase; [|discriminate].
  cbn [mbind option_bind] in Hget.
  pose proof (wf_node_children trie base Hwf Hbase) as Hall.
  rewrite Forall_lookup in Hall. eapply Hall. exact Hget.
Qed.

Lemma wf_node_physicalSet trie i node :
  wf_node (TrieNode trie) -> wf_node node ->
  wf_node (TrieNode (BitmapTrie.physicalSet trie i node)).
Proof.
  intros Hwf Hnode. inversion Hwf as [|? [Hbits Hbase] Hchildren]; subst.
  unfold BitmapTrie.physicalSet.
  destruct (_base trie) as [base|] eqn:Hold; cbn [mbind option_bind].
  - constructor.
    + split; [exact Hbits|]. cbn [_base _bitmap _capacity].
      rewrite length_insert. exact Hbase.
    + cbn [_base]. intros base' [= <-]. apply Forall_insert; auto.
  - constructor.
    + split; [exact Hbits|]. exact Hbase.
    + cbn [_base]. intros base' [=].
Qed.

Lemma wf_node_marked this t capacity new_entry :
  wf_node (TrieNode this) -> 0 <= t < 32 ->
  BitmapTrie.logicalPositionTaken this t = false ->
  BitmapTrie.size this + 1 <= capacity ->
  wf_node (TrieNode (mkBitmapTrie
            (Z.lor (_bitmap this) (wrap32 (Z.shiftl 1 t))) capacity
            (Some (take (Z.to_nat (BitmapTrie.physicalIndex this t))
                        (default [] (_base this))
                   ++ EntryNode new_entry
                   :: drop (Z.to_nat (BitmapTrie.physicalIndex this t))
                           (default [] (_base this)))))).
Proof.
  intros Hwf Ht Hfree Hcap. constructor.
  - apply wf_trie_marked; try assumption. apply wf_node_trie. assumption.
  - cbn [_base]. intros base' [= <-].
    assert (Hall : Forall wf_node (default [] (_base this))).
    { destruct (_base this) as [base|] eqn:Hold; cbn [default]; [|constructor].
      apply (wf_node_children this); assumption. }
    apply Forall_app. split; [apply Forall_take; assumption|].
    constructor; [constructor|apply Forall_drop; assumption].
Qed.

Lemma Node_BitmapTrie_cases allocator capacity (trie_node : Node) allocator' :
  capacity <> 0 ->
  Node_BitmapTrie allocator capacity = (trie_node, allocator') ->
  trie_node = TrieNode (mkBitmapTrie 0 capacity (Some [])) \/
  (trie_node = TrieNode (mkBitmapTrie 0 capacity None) /\
   (Alloc.allocate allocator (wrap64 (capacity * sizeof_Node)) alignof_Node).1 = false).
Proof.
  intros Hcap. unfold Node_BitmapTrie, BitmapTrie.allocate.
  destruct (Z.eqb_spec capacity 0) as [?|_]; [contradiction|].
  destruct (Alloc.allocate allocator (wrap64 (capacity * sizeof_Node)) alignof_Node)
    as [[|] allocator1]; intros [= <- <-]; [left|right]; auto.
Qed.

Lemma wf_fresh capacity : 0 <= capacity -> wf_node (TrieNode (mkBitmapTrie 0 capacity (Some []) : BitmapTrie)).
Proof.
  intros Hcap. constructor.
  - split; cbn [_bitmap _base _capacity]; [lia|]. split; [reflexivity|].
    change (popcount 0) with 0. lia.
  - cbn [_base]. intros base [= <-]. constructor.
Qed.

Lemma taken_empty capacity o t :
  BitmapTrie.logicalPositionTaken (mkBitmapTrie 0 capacity o : BitmapTrie) t = false.
Proof. reflexivity. Qed.

(** A trie whose array could not be allocated is written through a null
  pointer by the next insertion: no run returns. *)
Lemma no_return_on_null_base fuel allocator count new_entry seed hash hash_offset level
    leaf trie_node' allocator' :
  ~ insertEntry_returns fuel allocator count
      (TrieNode (mkBitmapTrie 0 2 None)) new_entry seed hash hash_offset level
      leaf trie_node' allocator'.
Proof.
  intros Hrun. inversion Hrun; subst;
    try (rewrite taken_empty in *; discriminate).
Qed.

(** The first insertion into the trie made for a split. *)
Lemma return_on_fresh fuel allocator count new_entry seed hash hash_offset level
    leaf trie_node' allocator' :
  insertEntry_returns fuel allocator count
    (TrieNode (mkBitmapTrie 0 2 (Some []))) new_entry seed hash hash_offset level
    leaf trie_node' allocator' ->
  leaf = Some [0%nat] /\
  trie_node' = TrieNode (mkBitmapTrie
                           (wrap32 (Z.shiftl 1 (Z.land (Z.shiftr hash hash_offset) 31)))
                           2 (Some [EntryNode new_entry])) /\
  allocator' = allocator.
Proof.
  intros Hrun. inversion Hrun; subst;
    try (rewrite taken_empty in *; discriminate).
  match goal with
  | Hinsert : BitmapTrie.insertEntry _ _ _ _ _ _ = Ret _ |- _ =>
      rename Hinsert into Hbitmap
  end.
  pose proof (slice_range hash hash_offset) as Ht.
  pose proof (insertEntry_spec allocator (mkBitmapTrie 0 2 (Some []))
                (Z.land (Z.shiftr hash hash_offset) 31) new_entry (wrap64 (count + 1))
                level (wf_node_trie _ (wf_fresh 2 ltac:(lia))) Ht (taken_empty _ _ _))
    as Hspec.
  cbv zeta in Hspec. change (_capacity _ <? _) with false in Hspec.
  cbv iota in Hspec. rewrite Hspec in Hbitmap.
  injection Hbitmap as <- <- <-.
  repeat split.
Qed.

Lemma insertEntry_on_fresh fuel allocator count new_entry seed hash hash_offset level :
  HAMT.insertEntry (S fuel) allocator count (TrieNode (mkBitmapTrie 0 2 (Some [])))
                   new_entry seed hash hash_offset level =
  Ret (Some [0%nat],
       TrieNode (mkBitmapTrie
                   (wrap32 (Z.shiftl 1 (Z.land (Z.shiftr hash hash_offset) 31)))
                   2 (Some [EntryNode new_entry])),
       allocator).
Proof.
  pose proof (slice_range hash hash_offset) as Ht.
  pose proof (insertEntry_spec allocator (mkBitmapTrie 0 2 (Some []))
                (Z.land (Z.shiftr hash hash_offset) 31) new_entry (wrap64 (count + 1))
                level (wf_node_trie _ (wf_fresh 2 ltac:(lia))) Ht (taken_empty _ _ _))
    as Hspec.
  cbv zeta in Hspec. change (_capacity _ <? _) with false in Hspec.
  cbv iota in Hspec.
  cbn [HAMT.insertEntry Node.asTrie defined mbind result_bind].
  rewrite taken_empty. cbn [negb]. rewrite Hspec. reflexivity.
Qed.

Lemma insertEntry_returns_wf fuel allocator count trie_node new_entry
    seed hash hash_offset level leaf trie_node' allocator' :
  insertEntry_returns fuel allocator count trie_node new_entry seed hash hash_offset level
                      leaf trie_node' allocator' ->
  wf_node trie_node -> wf_node trie_node'.
Proof.
  induction 1 as
    [ fuel allocator count trie new_entry seed hash hash_offset level leaf trie'
        allocator' Hfree Hinsert
    | fuel allocator count trie new_entry seed hash hash_offset level child seed' hash'
        hash_offset' leaf node' allocator' Htaken Hget Hdescend Hrun IH
    | fuel allocator count trie new_entry seed hash hash_offset level old_entry
        Htaken Hget Hequal
    | fuel allocator count trie new_entry seed hash hash_offset level old_entry
        Htaken Hget Hequal Hoffset Hsame
    | fuel allocator count trie new_entry seed hash hash_offset level old_entry seed' hash'
        hash_offset' trie_node allocator1 trie_node1 allocator2
        Htaken Hget Hequal Hdescend Hdiffer Hfresh Hold IHold
    | fuel allocator count trie new_entry seed hash hash_offset level old_entry seed' hash'
        hash_offset' trie_node allocator1 replaced_node trie_node1 allocator2 leaf
        trie_node2 allocator3
        Htaken Hget Hequal Hdescend Hdiffer Hfresh Hold IHold Hnew IHnew ];
    intros Hwf.
  - pose proof (slice_range hash hash_offset) as Ht.
    destruct (bitmap_insert_cases _ _ _ _ _ _ _ _ _ (wf_node_trie _ Hwf) Ht Hfree Hinsert)
      as [(_ & -> & _)|(capacity & Hcap & _ & ->)]; [assumption|].
    apply wf_node_marked; assumption.
  - apply wf_node_physicalSet; [assumption|].
    apply IH. eapply wf_node_logicalGet; eassumption.
  - apply wf_node_physicalSet; [assumption|constructor].
  - assumption.
  - apply wf_node_physicalSet; [assumption|constructor].
  - apply wf_node_physicalSet; [assumption|].
    apply IHnew, IHold.
    destruct (Node_BitmapTrie_cases allocator 2 trie_node allocator1 ltac:(lia) Hfresh)
      as [->|[-> _]].
    + apply wf_fresh. lia.
    + exfalso. eapply no_return_on_null_base. exact Hold.
Qed.
End WellFormed.

(** ** Lookup *)

Section Lookup.
Context {Key T Allocator : Type}.
Context {Hasher : Hash Key} {Equal : KeyEqual Key} {Memory : Alloc.Ops Allocator} {Layout : NodeLayout}.
Local Abbreviation Entry := (Key * T)%type.
Local Abbreviation Node := (NodeTemplate (Key * T)).
Local Abbreviation BitmapTrie := (BitmapTrieTemplate (NodeTemplate (Key * T))).
Local Abbreviation HAMT := (HashArrayMappedTrie Key T Allocator).
Implicit Types (trie this : BitmapTrie) (node trie_node : Node) (allocator : Allocator).
Implicit Types (new_entry old_entry entry : Entry) (leaf found : option handle).
Implicit Types (key : Key).

Lemma findNode_loop_free fuel key trie seed hash hash_offset t :
  BitmapTrie.logicalPositionTaken trie t = false ->
  HAMT.findNode_loop (S fuel) key trie seed hash hash_offset t = Ret None.
Proof. intros Hfree. cbn [HAMT.findNode_loop]. rewrite Hfree. reflexivity. Qed.

Lemma findNode_loop_entry fuel key trie seed hash hash_offset t entry :
  BitmapTrie.logicalPositionTaken trie t = true ->
  BitmapTrie.logicalGet trie t = Some (EntryNode entry) ->
  HAMT.findNode_loop (S fuel) key trie seed hash hash_offset t =
  Ret (if key_equal entry.1 key
       then Some [Z.to_nat (BitmapTrie.physicalIndex trie t)] else None).
Proof.
  intros Htaken Hget. cbn [HAMT.findNode_loop]. rewrite Htaken, Hget.
  cbn [defined mbind result_bind]. destruct (key_equal entry.1 key); reflexivity.
Qed.

Lemma findNode_loop_trie fuel key trie seed hash hash_offset t child
    seed' hash' hash_offset' :
  BitmapTrie.logicalPositionTaken trie t = true ->
  BitmapTrie.logicalGet trie t = Some (TrieNode child) ->
  descend key (seed, hash, hash_offset) = (seed', hash', hash_offset') ->
  HAMT.findNode_loop (S fuel) key trie seed hash hash_offset t =
  (found ← HAMT.findNode_loop fuel key child seed' hash' hash_offset'
             (Z.land (Z.shiftr hash' hash_offset') 31);
   Ret (option_map (cons (Z.to_nat (BitmapTrie.physicalIndex trie t))) found)).
Proof.
  intros Htaken Hget Hdescend. cbn [HAMT.findNode_loop]. rewrite Htaken, Hget.
  cbn [defined mbind result_bind].
  unfold descend, schedule_step in Hdescend.
  destruct (hash_offset <? 25); injection Hdescend as <- <- <-; reflexivity.
Qed.

(** More fuel does not change what the loop returns. *)
Lemma findNode_loop_mono fuel fuel' key trie seed hash hash_offset t found :
  HAMT.findNode_loop fuel key trie seed hash hash_offset t = Ret found ->
  (fuel <= fuel')%nat ->
  HAMT.findNode_loop fuel' key trie seed hash hash_offset t = Ret found.
Proof.
  revert fuel' trie seed hash hash_offset t found.
  induction fuel as [|fuel IH]; intros fuel' trie seed hash hash_offset t found Hrun Hle;
    [discriminate|].
  destruct fuel' as [|fuel']; [lia|].
  cbn [HAMT.findNode_loop] in Hrun |- *.
  destruct (BitmapTrie.logicalPositionTaken trie t); [|exact Hrun].
  destruct (BitmapTrie.logicalGet trie t) as [[entry|child]|]; try exact Hrun.
  cbn [defined mbind result_bind] in Hrun |- *.
  destruct (hash_offset <? 25).
  - destruct (HAMT.findNode_loop fuel key child seed hash (hash_offset + 5) _)
      as [found0| |] eqn:Hchild; try discriminate.
    rewrite (IH fuel' _ _ _ _ _ _ Hchild) by lia. exact Hrun.
  - destruct (HAMT.findNode_loop fuel key child (HAMT.next_seed seed) _ 0 _)
      as [found0| |] eqn:Hchild; try discriminate.
    rewrite (IH fuel' _ _ _ _ _ _ Hchild) by lia. exact Hrun.
Qed.

(** [physicalSet] keeps the bitmap, so slots are resolved as before. *)
Lemma taken_physicalSet trie i node t :
  BitmapTrie.logicalPositionTaken (BitmapTrie.physicalSet trie i node) t =
  BitmapTrie.logicalPositionTaken trie t.
Proof. reflexivity. Qed.

Lemma physicalIndex_physicalSet trie i node t :
  BitmapTrie.physicalIndex (BitmapTrie.physicalSet trie i node) t =
  BitmapTrie.physicalIndex trie t.
Proof. reflexivity. Qed.

Lemma logicalGet_physicalSet trie t node node' :
  0 <= BitmapTrie.physicalIndex trie t ->
  BitmapTrie.logicalGet trie t = Some node ->
  BitmapTrie.logicalGet
    (BitmapTrie.physicalSet trie (BitmapTrie.physicalIndex trie t) node') t = Some node'.
Proof.
  intros Hi Hget. unfold BitmapTrie.logicalGet, BitmapTrie.physicalGet in *.
  rewrite physicalIndex_physicalSet. unfold BitmapTrie.physicalSet. cbn [_base].
  destruct (_base trie) as [base|]; [|discriminate].
  cbn [mbind option_bind] in *.
  apply list_lookup_insert_eq. eapply lookup_lt_Some. exact Hget.
Qed.

Lemma logicalGet_physicalSet_ne trie t t' node' :
  BitmapTrie.physicalIndex trie t' <> BitmapTrie.physicalIndex trie t ->
  0 <= BitmapTrie.physicalIndex trie t -> 0 <= BitmapTrie.physicalIndex trie t' ->
  BitmapTrie.logicalGet
    (BitmapTrie.physicalSet trie (BitmapTrie.physicalIndex trie t) node') t' =
  BitmapTrie.logicalGet trie t'.
Proof.
  intros Hne Hi Hi'. unfold BitmapTrie.logicalGet, BitmapTrie.physicalGet.
  rewrite physicalIndex_physicalSet. unfold BitmapTrie.physicalSet. cbn [_base].
  destruct (_base trie) as [base|]; [|reflexivity].
  cbn [mbind option_bind].
  apply list_lookup_insert_ne. lia.
Qed.

Lemma follow_physicalSet trie t node node' p :
  0 <= BitmapTrie.physicalIndex trie t ->
  BitmapTrie.logicalGet trie t = Some node ->
  follow (TrieNode (BitmapTrie.physicalSet trie (BitmapTrie.physicalIndex trie t) node'))
         (Z.to_nat (BitmapTrie.physicalIndex trie t) :: p) =
  follow node' p.
Proof.
  intros Hi Hget.
  pose proof (logicalGet_physicalSet trie t node node' Hi Hget) as Hget'.
  unfold BitmapTrie.logicalGet, BitmapTrie.physicalGet in Hget'.
  rewrite physicalIndex_physicalSet in Hget'.
  cbn [follow Node.asTrie mbind option_bind].
  destruct (_base (BitmapTrie.physicalSet trie _ node')) as [base'|]; [|discriminate].
  cbn [mbind option_bind] in Hget' |- *. rewrite Hget'. reflexivity.
Qed.

Lemma logicalGet_marked this t capacity new_entry :
  wf_trie this -> 0 <= t < 32 ->
  BitmapTrie.logicalPositionTaken this t = false ->
  BitmapTrie.logicalGet
    (mkBitmapTrie
       (Z.lor (_bitmap this) (wrap32 (Z.shiftl 1 t))) capacity
       (Some (take (Z.to_nat (BitmapTrie.physicalIndex this t)) (default [] (_base this))
              ++ EntryNode new_entry
              :: drop (Z.to_nat (BitmapTrie.physicalIndex this t))
                      (default [] (_base this))))) t =
  Some (EntryNode new_entry).
Proof.
  intros [Hbits Hbase] Ht Hfree.
  pose proof (physicalIndex_le_size this t Ht) as Hi.
  assert (Hlen : Z.of_nat (length (default [] (_base this))) = BitmapTrie.size this).
  { unfold BitmapTrie.size. destruct (_base this); cbn [default]; [tauto|].
    destruct Hbase as [-> _]. reflexivity. }
  unfold BitmapTrie.logicalGet, BitmapTrie.physicalGet. cbn [_base mbind option_bind].
  rewrite taken_testbit in Hfree by assumption.
  destruct this as [bitmap capacity0 base0]. cbn [_bitmap _base] in *.
  rewrite (physicalIndex_mark bitmap capacity0 capacity t base0) by assumption.
  rewrite lookup_put_in by lia. repeat case_decide; try lia. reflexivity.
Qed.
End Lookup.

(** ** Find after insert *)

Section FindAfterInsert.
Context {Key T Allocator : Type}.
Context {Hasher : Hash Key} {Equal : KeyEqual Key} {Memory : Alloc.Ops Allocator} {Layout : NodeLayout}.
Local Abbreviation Entry := (Key * T)%type.
Local Abbreviation Node := (NodeTemplate (Key * T)).
Local Abbreviation BitmapTrie := (BitmapTrieTemplate (NodeTemplate (Key * T))).
Local Abbreviation HAMT := (HashArrayMappedTrie Key T Allocator).
Implicit Types (trie this : BitmapTrie) (node trie_node : Node) (allocator : Allocator).
Implicit Types (new_entry old_entry entry : Entry) (leaf found : option handle).
Implicit Types (key : Key).

Lemma wf_split_trie allocator (trie_node : Node) allocator1 fuel count entry seed hash
    hash_offset level leaf trie_node1 allocator2 :
  Node_BitmapTrie allocator 2 = (trie_node, allocator1) ->
  insertEntry_returns fuel allocator1 count trie_node entry seed hash hash_offset level
                      leaf trie_node1 allocator2 ->
  trie_node = TrieNode (mkBitmapTrie 0 2 (Some [])).
Proof.
  intros Hfresh Hold.
  destruct (Node_BitmapTrie_cases allocator 2 trie_node allocator1 ltac:(lia) Hfresh)
    as [->|[-> _]]; [reflexivity|].
  exfalso. eapply no_return_on_null_base. exact Hold.
Qed.

(** The leaf a successful [insertEntry] returns is the node the lookup loop
    reaches for the key of the entry, under the same seed, hash and offset,
    and it holds the value of the entry. *)
Lemma insertEntry_returns_found fuel allocator count trie_node new_entry
    seed hash hash_offset level leaf trie_node' allocator' :
  insertEntry_returns fuel allocator count trie_node new_entry seed hash hash_offset level
                      leaf trie_node' allocator' ->
  (forall key, key_equal key key = true) ->
  wf_node trie_node ->
  forall p, leaf = Some p ->
  exists trie' key,
    trie_node' = TrieNode trie' /\
    HAMT.findNode_loop fuel new_entry.1 trie' seed hash hash_offset
                       (Z.land (Z.shiftr hash hash_offset) 31) = Ret (Some p) /\
    follow trie_node' p = Some (EntryNode (key, new_entry.2)).
Proof.
  intros Hrun Hrefl.
  induction Hrun as
    [ fuel allocator count trie new_entry seed hash hash_offset level placed trie'
        allocator' Hfree Hinsert
    | fuel allocator count trie new_entry seed hash hash_offset level child seed' hash'
        hash_offset' leaf node' allocator' Htaken Hget Hdescend Hrun IH
    | fuel allocator count trie new_entry seed hash hash_offset level old_entry
        Htaken Hget Hequal
    | fuel allocator count trie new_entry seed hash hash_offset level old_entry
        Htaken Hget Hequal Hoffset Hsame
    | fuel allocator count trie new_entry seed hash hash_offset level old_entry seed' hash'
        hash_offset' trie_node allocator1 trie_node1 allocator2
        Htaken Hget Hequal Hdescend Hdiffer Hfresh Hold IHold
    | fuel allocator count trie new_entry seed hash hash_offset level old_entry seed' hash'
        hash_offset' trie_node allocator1 replaced_node trie_node1 allocator2 leaf
        trie_node2 allocator3
        Htaken Hget Hequal Hdescend Hdiffer Hfresh Hold IHold Hnew IHnew ];
    intros Hwf p Hleaf;
    pose proof (slice_range hash hash_offset) as Ht;
    pose proof (physicalIndex_le_size trie _ Ht) as Hi.
  - (* a free slot *)
    destruct (bitmap_insert_cases _ _ _ _ _ _ _ _ _ (wf_node_trie _ Hwf) Ht Hfree Hinsert)
      as [(-> & _)|(capacity & Hcap & -> & ->)]; [discriminate|].
    injection Hleaf as <-.
    pose proof (logicalGet_marked trie _ capacity new_entry (wf_node_trie _ Hwf) Ht Hfree)
      as Hget.
    assert (Hindex : BitmapTrie.physicalIndex
                       (mkBitmapTrie
                          (Z.lor (_bitmap trie)
                                 (wrap32 (Z.shiftl 1 (Z.land (Z.shiftr hash hash_offset) 31))))
                          capacity
                          (Some (take (Z.to_nat (BitmapTrie.physicalIndex trie
                                         (Z.land (Z.shiftr hash hash_offset) 31)))
                                      (default [] (_base trie))
                                 ++ EntryNode new_entry
                                 :: drop (Z.to_nat (BitmapTrie.physicalIndex trie
                                            (Z.land (Z.shiftr hash hash_offset) 31)))
                                         (default [] (_base trie)))))
                       (Z.land (Z.shiftr hash hash_offset) 31)
                     = BitmapTrie.physicalIndex trie (Z.land (Z.shiftr hash hash_offset) 31)).
    { rewrite taken_testbit in Hfree by assumption.
      destruct trie as [bitmap capacity0 base0]. cbn [_bitmap _base] in *.
      apply physicalIndex_mark; assumption. }
    eexists _, new_entry.1. split; [reflexivity|]. split.
    + rewrite (findNode_loop_entry _ _ _ _ _ _ _ new_entry).
      * rewrite Hrefl, Hindex. reflexivity.
      * apply taken_mark. assumption.
      * exact Hget.
    + unfold BitmapTrie.logicalGet, BitmapTrie.physicalGet in Hget.
      rewrite Hindex in Hget. cbn [_base mbind option_bind] in Hget.
      cbn [follow Node.asTrie _base mbind option_bind]. rewrite Hget.
      cbn [mbind option_bind]. destruct new_entry; reflexivity.
  - (* an interior node *)
    destruct leaf as [p0|]; [|discriminate]. injection Hleaf as <-.
    destruct (IH (wf_node_logicalGet _ _ _ Hwf Hget) p0 eq_refl)
      as (trie'' & key & -> & Hfind & Hfollow).
    eexists _, key. split; [reflexivity|]. split.
    + rewrite (findNode_loop_trie _ _ _ _ _ _ _ trie'' seed' hash' hash_offset').
      * rewrite physicalIndex_physicalSet, Hfind. reflexivity.
      * rewrite taken_physicalSet. exact Htaken.
      * eapply logicalGet_physicalSet; [lia|exact Hget].
      * exact Hdescend.
    + erewrite follow_physicalSet; [exact Hfollow|lia|exact Hget].
  - (* the key is there already *)
    injection Hleaf as <-.
    eexists _, old_entry.1. split; [reflexivity|]. split.
    + rewrite (findNode_loop_entry _ _ _ _ _ _ _ (old_entry.1, new_entry.2)).
      * cbn [fst]. rewrite Hequal, physicalIndex_physicalSet. reflexivity.
      * rewrite taken_physicalSet. exact Htaken.
      * eapply logicalGet_physicalSet; [lia|exact Hget].
    + erewrite follow_physicalSet; [reflexivity|lia|exact Hget].
  - discriminate.
  - discriminate.
  - (* a split *)
    destruct leaf as [p0|]; [|discriminate]. injection Hleaf as <-.
    pose proof (wf_split_trie _ _ _ _ _ _ _ _ _ _ _ _ _ Hfresh Hold) as ->.
    assert (Hwf1 : wf_node trie_node1).
    { eapply insertEntry_returns_wf; [exact Hold|]. apply wf_fresh. lia. }
    destruct (IHnew Hwf1 p0 eq_refl) as (trie'' & key & -> & Hfind & Hfollow).
    eexists _, key. split; [reflexivity|]. split.
    + rewrite (findNode_loop_trie _ _ _ _ _ _ _ trie'' seed' hash' hash_offset').
      * rewrite physicalIndex_physicalSet, Hfind. reflexivity.
      * rewrite taken_physicalSet. exact Htaken.
      * eapply logicalGet_physicalSet; [lia|exact Hget].
      * exact Hdescend.
    + erewrite follow_physicalSet; [exact Hfollow|lia|exact Hget].
Qed.

(** C2: when [insert((k, v))] returns a non-null iterator, [find(k)] on the
    container it leaves returns a non-null pointer whose value is [v].  The
    fuel that sufficed for the insertion suffices for the lookup. *)
Theorem find_after_insert fuel (this : HAMT) key (value : T) p (this' : HAMT) :
  (forall key, key_equal key key = true) ->
  wf_node (_root this) ->
  HAMT.insert fuel this (key, value) = Ret (mkIterator (Some p), this') ->
  forall fuel', (fuel <= fuel')%nat ->
  HAMT.find fuel' this' key = Ret (Some value).
Proof.
  intros Hrefl Hwf Hinsert fuel' Hfuel.
  unfold HAMT.insert in Hinsert. cbn [fst] in Hinsert.
  destruct (HAMT.insertEntry fuel (_allocator this) (_count this) (_root this)
              (key, value) (_seed this) (HAMT.hash32 key (_seed this)) 0 0)
    as [[[leaf root] allocator]| |] eqn:Hrun; try discriminate.
  cbn [mbind result_bind] in Hinsert.
  destruct leaf as [p0|]; [|discriminate]. injection Hinsert as <- <-.
  apply insertEntry_returns_intro in Hrun.
  destruct (insertEntry_returns_found _ _ _ _ _ _ _ _ _ _ _ _ Hrun Hrefl Hwf p0 eq_refl)
    as (trie' & key' & -> & Hfind & Hfollow).
  eapply findNode_loop_mono in Hfind; [|exact Hfuel].
  unfold HAMT.find, HAMT.findNode. cbn [_root _seed Node.asTrie defined mbind result_bind].
  cbn [fst] in Hfind. rewrite Z.shiftr_0_r in Hfind. rewrite Hfind.
  cbn [mbind result_bind]. rewrite Hfollow. reflexivity.
Qed.
End FindAfterInsert.

(** ** The invariant holds in every reachable container *)

Section ReachableFacts.
Context {Key T Allocator : Type}.
Context {Hasher : Hash Key} {Equal : KeyEqual Key} {Memory : Alloc.Ops Allocator} {Layout : NodeLayout}.
Local Abbreviation Node := (NodeTemplate (Key * T)).
Local Abbreviation BitmapTrie := (BitmapTrieTemplate (NodeTemplate (Key * T))).
Local Abbreviation HAMT := (HashArrayMappedTrie Key T Allocator).

Lemma insert_wf fuel (h h' : HAMT) entry it :
  wf_node (_root h) -> HAMT.insert fuel h entry = Ret (it, h') -> wf_node (_root h').
Proof.
  intros Hwf Hinsert. unfold HAMT.insert in Hinsert.
  destruct (HAMT.insertEntry fuel _ _ (_root h) _ _ _ _ _)
    as [[[leaf root] allocator]| |] eqn:Hrun; try discriminate.
  cbn [mbind result_bind] in Hinsert.
  apply insertEntry_returns_intro, insertEntry_returns_wf in Hrun; [|exact Hwf].
  destruct leaf; injection Hinsert as <- <-; exact Hrun.
Qed.

Lemma clear_wf (h h' : HAMT) : HAMT.clear h = Ret h' -> wf_node (_root h').
Proof.
  unfold HAMT.clear, BitmapTrie.clear.
  destruct (Node.asTrie (_root h)); [|discriminate].
  cbn [defined mbind result_bind]. intros [= <-]. cbn [_root].
  constructor.
  - split; cbn [_bitmap _base _capacity]; [lia|]. split; reflexivity.
  - cbn [_base]. intros base [=].
Qed.

Lemma construct_wf (n : Z) (a : Allocator) (h : HAMT) :
  HAMT.construct n a = Ret h ->
  (forall trie, Node.asTrie (_root h) = Some trie -> _base trie <> None) ->
  wf_node (_root h).
Proof.
  unfold HAMT.construct.
  destruct (oracle_total 1 (if 0 <? n then n else 1) 0 ltac:(lia)
              (size_hint_positive n))
    as (capacity & -> & Hrange).
  cbn [defined mbind result_bind]. unfold BitmapTrie.allocate.
  destruct (Z.eqb_spec capacity 0) as [?|_]; [lia|].
  destruct (Alloc.allocate a (wrap64 (capacity * sizeof_Node)) alignof_Node)
    as [[|] allocator']; intros [= <-] Hbase; cbn [_root] in *.
  - apply wf_fresh. lia.
  - exfalso. eapply Hbase; reflexivity.
Qed.

Lemma reachable_wf (h : HAMT) : reachable h -> wf_node (_root h).
Proof.
  induction 1 as [n a h Hconstruct Hbase|fuel h entry it h' _ IH Hinsert|h h' _ _ Hclear].
  - eapply construct_wf; eassumption.
  - eapply insert_wf; eassumption.
  - eapply clear_wf; eassumption.
Qed.
End ReachableFacts.

(** ** What a lookup returns, level by level *)

Section Finds.
Context {Key T Allocator : Type}.
Context {Hasher : Hash Key} {Equal : KeyEqual Key} {Memory : Alloc.Ops Allocator} {Layout : NodeLayout}.
Local Abbreviation Entry := (Key * T)%type.
Local Abbreviation Node := (NodeTemplate (Key * T)).
Local Abbreviation BitmapTrie := (BitmapTrieTemplate (NodeTemplate (Key * T))).
Local Abbreviation HAMT := (HashArrayMappedTrie Key T Allocator).
Implicit Types (trie this : BitmapTrie) (node trie_node : Node) (allocator : Allocator).
Implicit Types (new_entry old_entry entry : Entry) (leaf : option handle).
Implicit Types (key : Key) (found : option T).

Lemma find_find_in fuel (h : HAMT) key :
  HAMT.find fuel h key =
  find_in fuel key (_root h) (_seed h) (HAMT.hash32 key (_seed h)) 0.
Proof.
  unfold HAMT.find, HAMT.findNode, find_in. rewrite Z.shiftr_0_r.
  destruct (Node.asTrie (_root h)); reflexivity.
Qed.

Lemma follow_child trie t node p :
  BitmapTrie.logicalGet trie t = Some node ->
  follow (TrieNode trie) (Z.to_nat (BitmapTrie.physicalIndex trie t) :: p) = follow node p.
Proof.
  intros Hget. unfold BitmapTrie.logicalGet, BitmapTrie.physicalGet in Hget.
  cbn [follow Node.asTrie mbind option_bind].
  destruct (_base trie) as [base|]; [|discriminate].
  cbn [mbind option_bind] in Hget |- *. rewrite Hget. reflexivity.
Qed.

(** One turn of the lookup, on values. *)
Lemma find_in_S fuel key trie seed hash hash_offset :
  find_in (S fuel) key (TrieNode trie) seed hash hash_offset =
  if BitmapTrie.logicalPositionTaken trie (Z.land (Z.shiftr hash hash_offset) 31) then
    match BitmapTrie.logicalGet trie (Z.land (Z.shiftr hash hash_offset) 31) with
    | None => Undefined
    | Some (EntryNode entry) => Ret (if key_equal entry.1 key then Some entry.2 else None)
    | Some (TrieNode child) =>
        let '(seed', hash', hash_offset') := descend key (seed, hash, hash_offset) in
        find_in fuel key (TrieNode child) seed' hash' hash_offset'
    end
  else Ret None.
Proof.
  unfold find_in at 1. cbn [Node.asTrie defined mbind result_bind].
  destruct (BitmapTrie.logicalPositionTaken trie _) eqn:Htaken.
  2:{ rewrite findNode_loop_free by assumption. reflexivity. }
  destruct (BitmapTrie.logicalGet trie _) as [[entry|child]|] eqn:Hget.
  - rewrite (findNode_loop_entry _ _ _ _ _ _ _ entry) by assumption.
    cbn [mbind result_bind].
    destruct (key_equal entry.1 key); [|reflexivity].
    rewrite (follow_child _ _ _ [] Hget). reflexivity.
  - destruct (descend key (seed, hash, hash_offset)) as [[seed' hash'] hash_offset']
      eqn:Hdescend.
    rewrite (findNode_loop_trie _ _ _ _ _ _ _ child seed' hash' hash_offset')
      by assumption.
    unfold find_in. cbn [Node.asTrie defined mbind result_bind].
    destruct (HAMT.findNode_loop fuel key child seed' hash' hash_offset' _)
      as [[p|]| |]; cbn [mbind result_bind option_map]; try reflexivity.
    rewrite (follow_child _ _ _ p Hget). reflexivity.
  - cbn [HAMT.findNode_loop]. rewrite Htaken, Hget. reflexivity.
Qed.

Lemma descend_hash key seed hash_offset :
  descend key (seed, HAMT.hash32 key seed, hash_offset) =
  let seed' := if hash_offset <? 25 then seed else HAMT.next_seed seed in
  (seed', HAMT.hash32 key seed', if hash_offset <? 25 then hash_offset + 5 else 0).
Proof. unfold descend, schedule_step. destruct (hash_offset <? 25); reflexivity. Qed.

(** What a lookup finds below a trie, in terms of what it finds one level
    down. *)
Lemma finds_step key trie seed hash_offset found :
  finds key (TrieNode trie) seed hash_offset found <->
  if BitmapTrie.logicalPositionTaken trie
       (Z.land (Z.shiftr (HAMT.hash32 key seed) hash_offset) 31) then
    match BitmapTrie.logicalGet trie
            (Z.land (Z.shiftr (HAMT.hash32 key seed) hash_offset) 31) with
    | None => False
    | Some (EntryNode entry) => found = if key_equal entry.1 key then Some entry.2 else None
    | Some (TrieNode child) =>
        finds key (TrieNode child)
              (if hash_offset <? 25 then seed else HAMT.next_seed seed)
              (if hash_offset <? 25 then hash_offset + 5 else 0) found
    end
  else found = None.
Proof.
  unfold finds, returns. split.
  - intros [[|fuel] Hrun]; [discriminate|].
    rewrite find_in_S, descend_hash in Hrun. cbv zeta in Hrun.
    destruct (BitmapTrie.logicalPositionTaken trie _); [|congruence].
    destruct (BitmapTrie.logicalGet trie _) as [[entry|child]|];
      [congruence|eauto|discriminate].
  - intros Hstep.
    destruct (BitmapTrie.logicalPositionTaken trie _) eqn:Htaken.
    2:{ exists 1%nat. rewrite find_in_S, Htaken. congruence. }
    destruct (BitmapTrie.logicalGet trie _) as [[entry|child]|] eqn:Hget;
      [| |contradiction].
    + exists 1%nat. rewrite find_in_S, Htaken, Hget. congruence.
    + destruct Hstep as [fuel Hrun]. exists (S fuel).
      rewrite find_in_S, Htaken, Hget, descend_hash. exact Hrun.
Qed.

Lemma finds_entry key entry seed hash_offset found :
  ~ finds key (EntryNode entry) seed hash_offset found.
Proof. intros [[|fuel] Hrun]; discriminate. Qed.
End Finds.

(** ** An insertion that returns null *)

Section NullInsert.
Context {Key T Allocator : Type}.
Context {Hasher : Hash Key} {Equal : KeyEqual Key} {Memory : Alloc.Ops Allocator} {Layout : NodeLayout}.
Local Abbreviation Entry := (Key * T)%type.
Local Abbreviation Node := (NodeTemplate (Key * T)).
Local Abbreviation BitmapTrie := (BitmapTrieTemplate (NodeTemplate (Key * T))).
Local Abbreviation HAMT := (HashArrayMappedTrie Key T Allocator).
Implicit Types (trie this : BitmapTrie) (node trie_node : Node) (allocator : Allocator).
Implicit Types (new_entry old_entry entry : Entry) (leaf : option handle).
Implicit Types (key : Key) (found : option T).

Lemma returns_trie fuel allocator count trie_node new_entry seed hash hash_offset level
    leaf trie_node' allocator' :
  insertEntry_returns fuel allocator count trie_node new_entry seed hash hash_offset level
                      leaf trie_node' allocator' ->
  exists trie', trie_node' = TrieNode trie'.
Proof. destruct 1; eauto. Qed.

(** The trie a split starts from, after the old entry went in. *)
Lemma taken_single (s t : Z) entry :
  0 <= s < 32 -> 0 <= t < 32 ->
  BitmapTrie.logicalPositionTaken
    (mkBitmapTrie (wrap32 (Z.shiftl 1 s)) 2 (Some [EntryNode entry]) : BitmapTrie) t =
  bool_decide (s = t).
Proof.
  intros Hs Ht. rewrite taken_testbit by assumption. cbn [_bitmap].
  rewrite bitmask_pow2, Z.pow2_bits_eqb by lia.
  case_bool_decide; [apply Z.eqb_eq|apply Z.eqb_neq]; assumption.
Qed.

Lemma logicalGet_single (s : Z) entry :
  0 <= s < 32 ->
  BitmapTrie.logicalGet
    (mkBitmapTrie (wrap32 (Z.shiftl 1 s)) 2 (Some [EntryNode entry]) : BitmapTrie) s =
  Some (EntryNode entry).
Proof.
  intros Hs.
  exact (logicalGet_marked (mkBitmapTrie 0 2 (Some [])) s 2 entry
           (wf_node_trie _ (wf_fresh 2 ltac:(lia))) Hs (taken_empty _ _ _)).
Qed.

Lemma slice_congr (hash hash' hash_offset : Z) :
  hash = hash' ->
  Z.land (Z.shiftr hash hash_offset) 31 = Z.land (Z.shiftr hash' hash_offset) 31.
Proof. congruence. Qed.

(** A null return leaves every lookup as it was, for a hasher that agrees
    on equal keys: where the old entry was pushed down, the interior nodes
    above it are on the path of its own hash. *)
Lemma insertEntry_returns_null_finds fuel allocator count trie_node new_entry
    seed hash hash_offset level leaf trie_node' allocator' :
  insertEntry_returns fuel allocator count trie_node new_entry seed hash hash_offset level
                      leaf trie_node' allocator' ->
  (forall a b : Key, key_equal a b = true -> hasher a = hasher b) ->
  leaf = None -> wf_node trie_node ->
  forall key found,
    finds key trie_node seed hash_offset found <->
    finds key trie_node' seed hash_offset found.
Proof.
  intros Hrun Hhash.
  induction Hrun as
    [ fuel allocator count trie new_entry seed hash hash_offset level placed trie'
        allocator' Hfree Hinsert
    | fuel allocator count trie new_entry seed hash hash_offset level child seed' hash'
        hash_offset' leaf node' allocator' Htaken Hget Hdescend Hrun IH
    | fuel allocator count trie new_entry seed hash hash_offset level old_entry
        Htaken Hget Hequal
    | fuel allocator count trie new_entry seed hash hash_offset level old_entry
        Htaken Hget Hequal Hoffset Hsame
    | fuel allocator count trie new_entry seed hash hash_offset level old_entry seed' hash'
        hash_offset' trie_node allocator1 trie_node1 allocator2
        Htaken Hget Hequal Hdescend Hdiffer Hfresh Hold IHold
    | fuel allocator count trie new_entry seed hash hash_offset level old_entry seed' hash'
        hash_offset' trie_node allocator1 replaced_node trie_node1 allocator2 leaf
        trie_node2 allocator3
        Htaken Hget Hequal Hdescend Hdiffer Hfresh Hold IHold Hnew IHnew ];
    intros Hleaf Hwf key found;
    pose proof (slice_range hash hash_offset) as Ht;
    pose proof (slice_range (HAMT.hash32 key seed) hash_offset) as Htk;
    pose proof (physicalIndex_le_size trie _ Ht) as Hi;
    pose proof (physicalIndex_le_size trie _ Htk) as Hik.
  - destruct (bitmap_insert_cases _ _ _ _ _ _ _ _ _ (wf_node_trie _ Hwf) Ht Hfree Hinsert)
      as [(_ & -> & _)|(capacity & Hcap & -> & _)]; [reflexivity|discriminate].
  - destruct leaf; [discriminate|].
    destruct (returns_trie _ _ _ _ _ _ _ _ _ _ _ _ Hrun) as [trie'' ->].
    rewrite !finds_step, taken_physicalSet.
    destruct (BitmapTrie.logicalPositionTaken trie
                (Z.land (Z.shiftr (HAMT.hash32 key seed) hash_offset) 31)) eqn:Htakenk;
      [|reflexivity].
    destruct (Z.eq_dec
                (BitmapTrie.physicalIndex trie
                   (Z.land (Z.shiftr (HAMT.hash32 key seed) hash_offset) 31))
                (BitmapTrie.physicalIndex trie (Z.land (Z.shiftr hash hash_offset) 31)))
      as [Hsame|Hother].
    + apply physicalIndex_inj in Hsame; try assumption. rewrite Hsame.
      rewrite Hget. erewrite logicalGet_physicalSet; [|lia|exact Hget].
      unfold descend, schedule_step in Hdescend.
      destruct (hash_offset <? 25); injection Hdescend as <- <- <-;
        apply IH; try reflexivity; eapply wf_node_logicalGet; eassumption.
    + rewrite logicalGet_physicalSet_ne by lia. reflexivity.
  - discriminate.
  - reflexivity.
  - pose proof (wf_split_trie _ _ _ _ _ _ _ _ _ _ _ _ _ Hfresh Hold) as ->.
    apply return_on_fresh in Hold as [[=] _].
  - destruct leaf; [discriminate|].
    pose proof (wf_split_trie _ _ _ _ _ _ _ _ _ _ _ _ _ Hfresh Hold) as ->.
    destruct (returns_trie _ _ _ _ _ _ _ _ _ _ _ _ Hnew) as [trie'' ->].
    pose proof (insertEntry_returns_wf _ _ _ _ _ _ _ _ _ _ _ _ Hold
                  (wf_fresh 2 ltac:(lia))) as Hwf1.
    apply return_on_fresh in Hold as (_ & -> & _).
    specialize (IHnew eq_refl Hwf1 key found).
    rewrite !finds_step, taken_physicalSet.
    destruct (BitmapTrie.logicalPositionTaken trie
                (Z.land (Z.shiftr (HAMT.hash32 key seed) hash_offset) 31)) eqn:Htakenk;
      [|reflexivity].
    destruct (Z.eq_dec
                (BitmapTrie.physicalIndex trie
                   (Z.land (Z.shiftr (HAMT.hash32 key seed) hash_offset) 31))
                (BitmapTrie.physicalIndex trie (Z.land (Z.shiftr hash hash_offset) 31)))
      as [Hsame|Hother].
    2:{ rewrite logicalGet_physicalSet_ne by lia. reflexivity. }
    apply physicalIndex_inj in Hsame; try assumption. rewrite Hsame.
    rewrite Hget. erewrite logicalGet_physicalSet; [|lia|exact Hget].
    assert (Hseed : seed' = if hash_offset <? 25 then seed else HAMT.next_seed seed).
    { unfold descend, schedule_step in Hdescend.
      destruct (hash_offset <? 25); congruence. }
    assert (Hoff : hash_offset' = if hash_offset <? 25 then hash_offset + 5 else 0).
    { unfold descend, schedule_step in Hdescend.
      destruct (hash_offset <? 25); congruence. }
    rewrite <- Hseed, <- Hoff, <- IHnew, finds_step.
    pose proof (slice_range (HAMT.hash32 old_entry.1 seed') hash_offset') as Hs.
    pose proof (slice_range (HAMT.hash32 key seed') hash_offset') as Hsk.
    rewrite taken_single by assumption.
    case_bool_decide as Hslot.
    + rewrite <- Hslot, logicalGet_single by assumption. reflexivity.
    + destruct (key_equal old_entry.1 key) eqn:Hkey; [|reflexivity].
      exfalso. apply Hslot, slice_congr. unfold HAMT.hash32.
      rewrite (Hhash _ _ Hkey). reflexivity.
Qed.

Lemma leaves_logicalGet trie t node entry :
  BitmapTrie.logicalGet trie t = Some node ->
  In entry (leaves node) -> In entry (leaves (TrieNode trie)).
Proof.
  intros Hget Hin. unfold BitmapTrie.logicalGet, BitmapTrie.physicalGet in Hget.
  cbn [leaves]. destruct (_base trie) as [base|]; [|discriminate].
  cbn [mbind option_bind] in Hget.
  apply in_concat. exists (leaves node). split; [|exact Hin].
  apply in_map, list_elem_of_In. eapply list_elem_of_lookup_2. exact Hget.
Qed.

End NullInsert.

Section NullInsertTheorem.
Context {Key T Allocator : Type}.
Context {Hasher : Hash Key} {Equal : KeyEqual Key} {Memory : Alloc.Ops Allocator} {Layout : NodeLayout}.
Local Abbreviation Entry := (Key * T)%type.
Local Abbreviation Node := (NodeTemplate (Key * T)).
Local Abbreviation BitmapTrie := (BitmapTrieTemplate (NodeTemplate (Key * T))).
Local Abbreviation HAMT := (HashArrayMappedTrie Key T Allocator).
Implicit Types (trie this : BitmapTrie) (node trie_node : Node) (allocator : Allocator).
Implicit Types (new_entry old_entry entry : Entry) (leaf : option handle).
Implicit Types (key : Key) (found : option T).

Lemma leaves_physicalSet trie t node node' :
  BitmapTrie.logicalGet trie t = Some node ->
  leaves node' = leaves node ->
  leaves (TrieNode (BitmapTrie.physicalSet trie (BitmapTrie.physicalIndex trie t) node')) =
  leaves (TrieNode trie).
Proof.
  intros Hget Hsame. unfold BitmapTrie.logicalGet, BitmapTrie.physicalGet in Hget.
  unfold BitmapTrie.physicalSet. cbn [leaves _base].
  destruct (_base trie) as [base|]; [|discriminate].
  cbn [mbind option_bind] in Hget |- *. f_equal.
  change (map leaves) with (fmap (M := list) (@leaves Entry)).
  rewrite list_fmap_insert, Hsame. apply list_insert_id.
  rewrite list_lookup_fmap, Hget. reflexivity.
Qed.

(** A null return keeps the entries of the trie, in their order. *)
Lemma insertEntry_returns_null_leaves fuel allocator count trie_node new_entry
    seed hash hash_offset level leaf trie_node' allocator' :
  insertEntry_returns fuel allocator count trie_node new_entry seed hash hash_offset level
                      leaf trie_node' allocator' ->
  leaf = None -> wf_node trie_node ->
  leaves trie_node' = leaves trie_node.
Proof.
  induction 1 as
    [ fuel allocator count trie new_entry seed hash hash_offset level placed trie'
        allocator' Hfree Hinsert
    | fuel allocator count trie new_entry seed hash hash_offset level child seed' hash'
        hash_offset' leaf node' allocator' Htaken Hget Hdescend Hrun IH
    | fuel allocator count trie new_entry seed hash hash_offset level old_entry
        Htaken Hget Hequal
    | fuel allocator count trie new_entry seed hash hash_offset level old_entry
        Htaken Hget Hequal Hoffset Hsame
    | fuel allocator count trie new_entry seed hash hash_offset level old_entry seed' hash'
        hash_offset' trie_node allocator1 trie_node1 allocator2
        Htaken Hget Hequal Hdescend Hdiffer Hfresh Hold IHold
    | fuel allocator count trie new_entry seed hash hash_offset level old_entry seed' hash'
        hash_offset' trie_node allocator1 replaced_node trie_node1 allocator2 leaf
        trie_node2 allocator3
        Htaken Hget Hequal Hdescend Hdiffer Hfresh Hold IHold Hnew IHnew ];
    intros Hleaf Hwf;
    pose proof (slice_range hash hash_offset) as Ht.
  - destruct (bitmap_insert_cases _ _ _ _ _ _ _ _ _ (wf_node_trie _ Hwf) Ht Hfree Hinsert)
      as [(_ & -> & _)|(capacity & Hcap & -> & _)]; [reflexivity|discriminate].
  - destruct leaf; [discriminate|].
    eapply leaves_physicalSet; [exact Hget|].
    apply IH; [reflexivity|]. eapply wf_node_logicalGet; eassumption.
  - discriminate.
  - reflexivity.
  - pose proof (wf_split_trie _ _ _ _ _ _ _ _ _ _ _ _ _ Hfresh Hold) as ->.
    apply return_on_fresh in Hold as [[=] _].
  - destruct leaf; [discriminate|].
    pose proof (wf_split_trie _ _ _ _ _ _ _ _ _ _ _ _ _ Hfresh Hold) as ->.
    pose proof (insertEntry_returns_wf _ _ _ _ _ _ _ _ _ _ _ _ Hold
                  (wf_fresh 2 ltac:(lia))) as Hwf1.
    apply return_on_fresh in Hold as (_ & -> & _).
    eapply leaves_physicalSet; [exact Hget|].
    rewrite (IHnew eq_refl Hwf1). reflexivity.
Qed.

End NullInsertTheorem.

(** ** Structure of the trie, apart from capacities *)

Section ShapeFacts.
Context {Entry : Type}.
Local Abbreviation Node := (NodeTemplate Entry).
Local Abbreviation BitmapTrie := (BitmapTrieTemplate (NodeTemplate Entry)).
Implicit Types (trie : BitmapTrie) (node : Node).

Lemma shape_trie trie :
  shape (TrieNode trie) =
  Interior (_bitmap trie) (shape <$> default [] (_base trie)).
Proof. cbn [shape]. destruct (_base trie); reflexivity. Qed.

Lemma shape_trie_inv trie1 trie2 :
  shape (TrieNode trie1) = shape (TrieNode trie2) ->
  _bitmap trie1 = _bitmap trie2 /\
  shape <$> default [] (_base trie1) = shape <$> default [] (_base trie2).
Proof. rewrite !shape_trie. intros [= ? ?]. auto. Qed.

Lemma shape_entry_inv node (entry : Entry) :
  shape node = Leaf entry -> node = EntryNode entry.
Proof. destruct node; cbn [shape]; congruence. Qed.




Lemma shape_size trie1 trie2 :
  shape (TrieNode trie1) = shape (TrieNode trie2) ->
  BitmapTrie.size trie1 = BitmapTrie.size trie2.
Proof.
  intros [Hbitmap _]%shape_trie_inv. unfold BitmapTrie.size.
  rewrite Hbitmap. reflexivity.
Qed.





(** A taken slot of a well-formed trie holds a node. *)
Lemma logicalGet_defined trie t :
  wf_trie trie -> 0 <= t < 32 ->
  BitmapTrie.logicalPositionTaken trie t = true ->
  exists node, BitmapTrie.logicalGet trie t = Some node.
Proof.
  intros [Hbits Hbase] Ht Htaken.
  pose proof (physicalIndex_lt_size trie t Ht Htaken) as Hlt.
  pose proof (physicalIndex_le_size trie t Ht) as Hle.
  unfold BitmapTrie.logicalGet, BitmapTrie.physicalGet.
  unfold BitmapTrie.size in Hlt.
  destruct (_base trie) as [base|]; cbn [mbind option_bind].
  - apply lookup_lt_is_Some_2. lia.
  - destruct Hbase as [Hzero _]. rewrite Hzero in Hlt.
    change (popcount 0) with 0 in Hlt. lia.
Qed.
End ShapeFacts.

(** ** Insertion depends on the structure only *)

Section Deterministic.
Context {Key T Allocator : Type}.
Context {Hasher : Hash Key} {Equal : KeyEqual Key} {Memory : Alloc.Ops Allocator} {Layout : NodeLayout}.
Local Abbreviation Entry := (Key * T)%type.
Local Abbreviation Node := (NodeTemplate (Key * T)).
Local Abbreviation BitmapTrie := (BitmapTrieTemplate (NodeTemplate (Key * T))).
Local Abbreviation HAMT := (HashArrayMappedTrie Key T Allocator).
Implicit Types (trie this : BitmapTrie) (node trie_node : Node) (allocator : Allocator).
Implicit Types (new_entry old_entry entry : Entry) (leaf : option handle).
Implicit Types (key : Key) (found : option T).

Hypothesis allocate_succeeds :
  forall allocator bytes alignment, (Alloc.allocate allocator bytes alignment).1 = true.






End Deterministic.

(** ** Inserting a key that is present *)

Section Override.
Context {Key T Allocator : Type}.
Context {Hasher : Hash Key} {Equal : KeyEqual Key} {Memory : Alloc.Ops Allocator} {Layout : NodeLayout}.
Local Abbreviation Entry := (Key * T)%type.
Local Abbreviation Node := (NodeTemplate (Key * T)).
Local Abbreviation BitmapTrie := (BitmapTrieTemplate (NodeTemplate (Key * T))).
Local Abbreviation HAMT := (HashArrayMappedTrie Key T Allocator).
Implicit Types (trie this : BitmapTrie) (node trie_node : Node) (allocator : Allocator).
Implicit Types (new_entry old_entry entry : Entry) (leaf : option handle).
Implicit Types (key : Key) (found : option T).

Lemma length_leaves_physicalSet trie t node node' :
  BitmapTrie.logicalGet trie t = Some node ->
  length (leaves node') = length (leaves node) ->
  length (leaves (TrieNode (BitmapTrie.physicalSet trie
                              (BitmapTrie.physicalIndex trie t) node'))) =
  length (leaves (TrieNode trie)).
Proof.
  intros Hget Hsame. unfold BitmapTrie.logicalGet, BitmapTrie.physicalGet in Hget.
  unfold BitmapTrie.physicalSet. cbn [leaves _base].
  destruct (_base trie) as [base|]; [|discriminate].
  cbn [mbind option_bind] in Hget |- *.
  rewrite !length_concat. f_equal.
  change (map leaves) with (fmap (M := list) (@leaves Entry)).
  change (map (@length Entry)) with (fmap (M := list) (@length Entry)).
  rewrite list_fmap_insert, list_fmap_insert, Hsame. apply list_insert_id.
  rewrite !list_lookup_fmap, Hget. reflexivity.
Qed.

(** When the lookup loop reaches a leaf for the key, [insertEntry] follows
    the same path, writes the value into that leaf and returns it; nothing
    else in the trie changes. *)
Lemma insertEntry_override fuel key (value : T) trie seed hash hash_offset p
    allocator count level :
  HAMT.findNode_loop fuel key trie seed hash hash_offset
                     (Z.land (Z.shiftr hash hash_offset) 31) = Ret (Some p) ->
  exists trie' stored,
    HAMT.insertEntry fuel allocator count (TrieNode trie) (key, value)
                     seed hash hash_offset level
      = Ret (Some p, TrieNode trie', allocator) /\
    HAMT.findNode_loop fuel key trie' seed hash hash_offset
                       (Z.land (Z.shiftr hash hash_offset) 31) = Ret (Some p) /\
    follow (TrieNode trie) p = Some (EntryNode stored) /\
    follow (TrieNode trie') p = Some (EntryNode (stored.1, value)) /\
    length (leaves (TrieNode trie')) = length (leaves (TrieNode trie)).
Proof.
  revert trie seed hash hash_offset p level.
  induction fuel as [|fuel IH]; intros trie seed hash hash_offset p level Hfind;
    [discriminate|].
  pose proof (slice_range hash hash_offset) as Ht.
  pose proof (physicalIndex_le_size trie _ Ht) as Hi.
  cbn [HAMT.findNode_loop] in Hfind.
  destruct (BitmapTrie.logicalPositionTaken trie _) eqn:Htaken; [|discriminate].
  destruct (BitmapTrie.logicalGet trie _) as [[entry|child]|] eqn:Hget;
    [| |discriminate]; cbn [defined mbind result_bind] in Hfind.
  - destruct (key_equal entry.1 key) eqn:Hequal; [|discriminate].
    injection Hfind as <-.
    exists (BitmapTrie.physicalSet trie
              (BitmapTrie.physicalIndex trie (Z.land (Z.shiftr hash hash_offset) 31))
              (EntryNode (entry.1, value))), entry.
    split; [|split; [|split; [|split]]].
    + cbn [HAMT.insertEntry Node.asTrie defined mbind result_bind].
      rewrite Htaken. cbn [negb]. rewrite Hget. cbn [defined mbind result_bind fst snd].
      rewrite Hequal. reflexivity.
    + rewrite (findNode_loop_entry _ _ _ _ _ _ _ (entry.1, value)).
      * cbn [fst]. rewrite Hequal. reflexivity.
      * exact Htaken.
      * eapply logicalGet_physicalSet; [lia|exact Hget].
    + rewrite (follow_child _ _ _ [] Hget). reflexivity.
    + erewrite follow_physicalSet; [reflexivity|lia|exact Hget].
    + apply (length_leaves_physicalSet _ _ _ _ Hget). reflexivity.
  - destruct (descend key (seed, hash, hash_offset)) as [[seed' hash'] hash_offset']
      eqn:Hdescend.
    assert (Hchild : exists p0,
      HAMT.findNode_loop fuel key child seed' hash' hash_offset'
                         (Z.land (Z.shiftr hash' hash_offset') 31) = Ret (Some p0) /\
      p = Z.to_nat (BitmapTrie.physicalIndex trie
                      (Z.land (Z.shiftr hash hash_offset) 31)) :: p0).
    { unfold descend, schedule_step in Hdescend.
      destruct (hash_offset <? 25); injection Hdescend as <- <- <-;
        match type of Hfind with
        | context [HAMT.findNode_loop ?f ?k ?c ?s ?h ?o ?t] =>
            destruct (HAMT.findNode_loop f k c s h o t) as [[p0|]| |];
              try discriminate; injection Hfind as <-; eauto
        end. }
    destruct Hchild as (p0 & Hchild & ->).
    destruct (IH child seed' hash' hash_offset' p0 (wrap32 (level + 1)) Hchild)
      as (child' & stored & Hinsert & Hfind' & Hfollow & Hfollow' & Hleaves).
    exists (BitmapTrie.physicalSet trie
              (BitmapTrie.physicalIndex trie (Z.land (Z.shiftr hash hash_offset) 31))
              (TrieNode child')), stored.
    split; [|split; [|split; [|split]]].
    + cbn [HAMT.insertEntry Node.asTrie defined mbind result_bind].
      rewrite Htaken. cbn [negb]. rewrite Hget. cbn [defined mbind result_bind fst snd].
      unfold descend, schedule_step in Hdescend.
      destruct (hash_offset <? 25); injection Hdescend as <- <- <-;
        rewrite Hinsert; reflexivity.
    + rewrite (findNode_loop_trie _ _ _ _ _ _ _ child' seed' hash' hash_offset').
      * rewrite physicalIndex_physicalSet, Hfind'. reflexivity.
      * exact Htaken.
      * eapply logicalGet_physicalSet; [lia|exact Hget].
      * exact Hdescend.
    + rewrite (follow_child _ _ _ p0 Hget). exact Hfollow.
    + erewrite follow_physicalSet; [exact Hfollow'|lia|exact Hget].
    + apply (length_leaves_physicalSet _ _ _ _ Hget). exact Hleaves.
Qed.

(** The overwrite through the public interface: the handle, the leaf and
    the number of leaves are those of before, the value is the new one, and
    [size()] has grown by one all the same. *)
Lemma insert_present fuel (h : HAMT) key (value : T) p :
  HAMT.findNode fuel h key = Ret (Some p) ->
  exists h' stored,
    HAMT.insert fuel h (key, value) = Ret (mkIterator (Some p), h') /\
    HAMT.findNode fuel h' key = Ret (Some p) /\
    follow (_root h) p = Some (EntryNode stored) /\
    HAMT.find fuel h' key = Ret (Some value) /\
    length (leaves (_root h')) = length (leaves (_root h)) /\
    HAMT.size h' = wrap64 (HAMT.size h + 1).
Proof.
  unfold HAMT.findNode. intros Hfind.
  destruct (_root h) as [entry|trie] eqn:Hroot; [discriminate|].
  cbn [Node.asTrie defined mbind result_bind] in Hfind.
  rewrite <- (Z.shiftr_0_r (HAMT.hash32 key (_seed h))) in Hfind at 2.
  destruct (insertEntry_override _ _ value _ _ _ _ _ (_allocator h) (_count h) 0 Hfind)
    as (trie' & stored & Hinsert & Hfind' & Hfollow & Hfollow' & Hleaves).
  exists (mkHAMT (wrap64 (_count h + 1)) (TrieNode trie') (_seed h) (_allocator h)), stored.
  unfold HAMT.insert, HAMT.find, HAMT.findNode. cbn [fst _root _seed].
  rewrite Hroot, Hinsert. cbn [mbind result_bind Node.asTrie defined].
  rewrite Z.shiftr_0_r in Hfind'. rewrite Hfind'. cbn [mbind result_bind].
  rewrite Hfollow'. repeat split; try assumption.
Qed.
End Override.

(** ** The hash schedule *)

Section Schedule.
Context {Key T Allocator : Type}.
Context {Hasher : Hash Key} {Equal : KeyEqual Key} {Memory : Alloc.Ops Allocator} {Layout : NodeLayout}.
Local Abbreviation Entry := (Key * T)%type.
Local Abbreviation Node := (NodeTemplate (Key * T)).
Local Abbreviation BitmapTrie := (BitmapTrieTemplate (NodeTemplate (Key * T))).
Implicit Types (trie child : BitmapTrie) (allocator : Allocator) (key : Key).

Lemma insertEntry_trie fuel allocator count trie (new_entry : Entry)
    seed hash hash_offset level child seed' hash' hash_offset' :
  BitmapTrie.logicalPositionTaken trie (Z.land (Z.shiftr hash hash_offset) 31) = true ->
  BitmapTrie.logicalGet trie (Z.land (Z.shiftr hash hash_offset) 31)
    = Some (TrieNode child) ->
  descend new_entry.1 (seed, hash, hash_offset) = (seed', hash', hash_offset') ->
  HAMT.insertEntry (S fuel) allocator count (TrieNode trie) new_entry
                   seed hash hash_offset level =
  ('(leaf, node, allocator') ←
     HAMT.insertEntry fuel allocator count (TrieNode child) new_entry
                      seed' hash' hash_offset' (wrap32 (level + 1));
   Ret (option_map
          (cons (Z.to_nat (BitmapTrie.physicalIndex trie
                   (Z.land (Z.shiftr hash hash_offset) 31)))) leaf,
        TrieNode (BitmapTrie.physicalSet trie
                    (BitmapTrie.physicalIndex trie
                       (Z.land (Z.shiftr hash hash_offset) 31)) node),
        allocator')).
Proof.
  intros Htaken Hget Hdescend.
  cbn [HAMT.insertEntry Node.asTrie defined mbind result_bind].
  rewrite Htaken. cbn [negb]. rewrite Hget. cbn [defined mbind result_bind].
  unfold descend, schedule_step in Hdescend.
  destruct (hash_offset <? 25); injection Hdescend as <- <- <-; reflexivity.
Qed.

(** C3, as the code has it: in lookup and in insertion alike, a descent
    past an interior node advances [hash_offset] by 5 while it is below 25;
    from 25 (or more) it reseeds: [hash_offset] restarts at 0, the seed
    becomes [xorshift32(seed)] and the hash is recomputed as the new seed
    XOR the hasher's value.  Under one seed the slices are therefore read at
    the offsets 0, 5, 10, 15, 20 and 25; no slice is read at offset 30. *)
Theorem hash_schedule fuel allocator count trie child key (value : T)
    seed hash hash_offset level :
  BitmapTrie.logicalPositionTaken trie (Z.land (Z.shiftr hash hash_offset) 31) = true ->
  BitmapTrie.logicalGet trie (Z.land (Z.shiftr hash hash_offset) 31)
    = Some (TrieNode child) ->
  let next := schedule_step (HAMT.hash32 key) HAMT.next_seed 25 (seed, hash, hash_offset) in
  let i := BitmapTrie.physicalIndex trie (Z.land (Z.shiftr hash hash_offset) 31) in
  (* lookup *)
  HAMT.findNode_loop (S fuel) key trie seed hash hash_offset
                     (Z.land (Z.shiftr hash hash_offset) 31) =
    (found ← HAMT.findNode_loop fuel key child next.1.1 next.1.2 next.2
               (Z.land (Z.shiftr next.1.2 next.2) 31);
     Ret (option_map (cons (Z.to_nat i)) found)) /\
  (* insertion *)
  HAMT.insertEntry (S fuel) allocator count (TrieNode trie) (key, value)
                   seed hash hash_offset level =
    ('(leaf, node, allocator') ←
       HAMT.insertEntry fuel allocator count (TrieNode child) (key, value)
                        next.1.1 next.1.2 next.2 (wrap32 (level + 1));
     Ret (option_map (cons (Z.to_nat i)) leaf,
          TrieNode (BitmapTrie.physicalSet trie i node), allocator')) /\
  (* the step *)
  (hash_offset < 25 -> next = (seed, hash, hash_offset + 5)) /\
  (25 <= hash_offset ->
   next = (HAMT.next_seed seed,
           wrap32 (Z.lxor (HAMT.next_seed seed) (wrap64 (hasher key))), 0)) /\
  HAMT.next_seed seed =
    (let s := Z.lxor seed (wrap32 (Z.shiftl seed 13)) in
     let s := Z.lxor s (Z.shiftr s 17) in
     Z.lxor s (wrap32 (Z.shiftl s 5))) /\
  (* the offsets read under one seed, and the reseed after them *)
  map (fun n => Nat.iter n (schedule_step (HAMT.hash32 key) HAMT.next_seed 25)
                         (seed, hash, 0))
      (seq 0 7) =
    [ (seed, hash, 0); (seed, hash, 5); (seed, hash, 10); (seed, hash, 15);
      (seed, hash, 20); (seed, hash, 25);
      (HAMT.next_seed seed, HAMT.hash32 key (HAMT.next_seed seed), 0) ].
Proof.
  intros Htaken Hget next i.
  destruct next as [[seed' hash'] hash_offset'] eqn:Hnext. cbn [fst snd].
  split; [|split; [|split; [|split; [|split]]]].
  - apply findNode_loop_trie; assumption.
  - apply (insertEntry_trie _ _ _ _ (key, value)); assumption.
  - intros Hlt. rewrite <- Hnext. subst next. apply (descend_lt key). exact Hlt.
  - intros Hge. rewrite <- Hnext. subst next. apply (descend_ge key). exact Hge.
  - reflexivity.
  - reflexivity.
Qed.
End Schedule.

(** ** The iterator *)

(** C10: incrementing a non-null iterator, such as the one a successful
    [insert] returns, gives an iterator equal to the original one, because
    [nextEntryNode] returns the node itself. *)
Theorem increment_returns_same_iterator (it : HAMTConstForwardIterator) (node : handle) :
  _node it = Some node ->
  Iterator.operator_inc it = Ret it /\
  (forall it', Iterator.operator_inc it = Ret it' -> Iterator.operator_eq it' it = true) /\
  Iterator.operator_post_inc it = Ret (it, it).
Proof.
  destruct it as [current]. cbn [_node]. intros ->.
  unfold Iterator.operator_post_inc, Iterator.operator_inc, Node.nextEntryNode.
  cbn [_node defined mbind result_bind].
  split; [reflexivity|]. split; [|reflexivity].
  intros it' [= <-]. unfold Iterator.operator_eq. apply bool_decide_eq_true. reflexivity.
Qed.

(** The iterator returned by a successful insertion does not move either. *)
Lemma increment_after_insert {Key T Allocator : Type}
    {Hasher : Hash Key} {Equal : KeyEqual Key} {Memory : Alloc.Ops Allocator}
    {Layout : NodeLayout}
    fuel (h h' : HashArrayMappedTrie Key T Allocator) (entry : Key * T) it :
  HAMT.insert fuel h entry = Ret (it, h') ->
  _node it <> None ->
  Iterator.operator_inc it = Ret it.
Proof.
  intros _ Hnode. destruct it as [[node|]]; [|contradiction]. reflexivity.
Qed.

(** * Examples on [int64_t] keys

    The identity hasher, [std::equal_to] and an allocator that never fails. *)

Section Int64Examples.
#[local] Existing Instance IdentityFunction.
#[local] Existing Instance int64_equal_to.
#[local] Existing Instance generous_allocator.
#[local] Existing Instance int64_layout.

Lemma wf_hamt_zero : wf_node (_root hamt_zero).
Proof.
  constructor.
  - split; [cbn; lia|]. split; [reflexivity|]. vm_compute. discriminate.
  - intros base [= <-]. repeat constructor.
Qed.

Lemma identity_hasher_agrees (a b : Z) : key_equal a b = true -> hasher a = hasher b.
Proof. intros Heq. apply Z.eqb_eq in Heq. subst b. reflexivity. Qed.

(** C1 at the failing input: with [(7, 1)] stored, [insert((7, 2))] writes
    the value into the same leaf and returns it, [find(7)] yields 2, one
    leaf is reachable, and [size()] has gone from 1 to 2. *)
Theorem overwrite_grows_size :
  HAMT.findNode 1 hamt_seven 7 = Ret (Some [0%nat]) /\
  HAMT.insert 1 hamt_seven (7, 2) = Ret (mkIterator (Some [0%nat]), hamt_seven_twice) /\
  HAMT.find 1 hamt_seven_twice 7 = Ret (Some 2) /\
  leaves (_root hamt_seven_twice) = [(7, 2)] /\
  HAMT.size hamt_seven = 1 /\
  HAMT.size hamt_seven_twice = 2.
Proof. vm_compute. repeat split. Qed.

(** C6 at the failing input: construction, [insert((7, 1))], [insert((7, 2))]
    leave one reachable leaf and [size() == 2]. *)
Theorem size_exceeds_leaf_count :
  (h ← HAMT.construct_default tt; HAMT.insert_all 1 h [(7, 1); (7, 2)])
    = Ret hamt_seven_twice /\
  HAMT.size hamt_seven_twice = 2 /\
  Z.of_nat (length (leaves (_root hamt_seven_twice))) = 1.
Proof. vm_compute. repeat split. Qed.

(** Witness of C2: [insert((32, 5))] next to [(0, 1)]. *)
Lemma find_after_insert_witness :
  (forall key : Z, key_equal key key = true) /\
  wf_node (_root hamt_zero) /\
  HAMT.insert 2 hamt_zero (32, 5) = Ret (mkIterator (Some [0%nat; 1%nat]), hamt_zero_32) /\
  HAMT.find 2 hamt_zero_32 32 = Ret (Some 5).
Proof.
  assert (Hinsert : HAMT.insert 2 hamt_zero (32, 5)
                    = Ret (mkIterator (Some [0%nat; 1%nat]), hamt_zero_32))
    by (vm_compute; reflexivity).
  split; [exact Z.eqb_refl|]. split; [exact wf_hamt_zero|].
  split; [exact Hinsert|].
  apply (find_after_insert 2 hamt_zero 32 5 [0%nat; 1%nat] hamt_zero_32).
  - exact Z.eqb_refl.
  - exact wf_hamt_zero.
  - exact Hinsert.
  - lia.
Defined.

(** C5 at the failing input: with [(0, 1)] stored, [insert((4294967296, 5))],
    a key with the 32-bit hash of key 0 under every seed, returns null;
    [size()] and [find(0)] are as before, but the entry of key 0 is not
    back in its slot of the root: that slot now holds an interior node, and
    the entry lies five interior nodes further down. *)
Lemma collision_leaves_entry_below :
  HAMT.insert 6 hamt_zero (4294967296, 5) = Ret (mkIterator None, hamt_zero_pushed) /\
  HAMT.size hamt_zero_pushed = HAMT.size hamt_zero /\
  HAMT.find 6 hamt_zero_pushed 0 = HAMT.find 6 hamt_zero 0 /\
  follow (_root hamt_zero) [0%nat] = Some (EntryNode (0, 1)) /\
  follow (_root hamt_zero_pushed) [0%nat] <> Some (EntryNode (0, 1)) /\
  follow (_root hamt_zero_pushed) [0%nat; 0%nat; 0%nat; 0%nat; 0%nat; 0%nat]
    = Some (EntryNode (0, 1)) /\
  _root hamt_zero_pushed <> _root hamt_zero.
Proof. vm_compute. repeat split; discriminate. Qed.

(** The keys 0 and 2^30 differ in bit 30 of their hashes only.  No slice
    reads that bit, and since the seed is mixed in by XOR the two hashes
    differ in that bit alone under every seed: the split recurses without
    end.  In the model, no amount of fuel lets the insertion return. *)
Lemma slices_agree_below_30 (seed hash_offset : Z) :
  0 <= hash_offset <= 25 ->
  Z.land (Z.shiftr (HAMT.hash32 1073741824 seed) hash_offset) 31 =
  Z.land (Z.shiftr (HAMT.hash32 0 seed) hash_offset) 31.
Proof.
  intros Hoffset. unfold HAMT.hash32.
  change (wrap64 (hasher 1073741824)) with (2 ^ 30).
  change (wrap64 (hasher 0)) with 0.
  rewrite Z.lxor_0_r. unfold wrap32.
  apply Z.bits_inj'. intros n Hn.
  rewrite !Z.land_spec, !Z.shiftr_spec by lia.
  change 31 with (Z.ones 5).
  destruct (Z.lt_ge_cases n 5) as [Hlow|Hhigh].
  - rewrite !Z.mod_pow2_bits_low by lia.
    rewrite Z.lxor_spec, Z.pow2_bits_false by lia. rewrite xorb_false_r. reflexivity.
  - rewrite Z.ones_spec_high by lia. rewrite !andb_false_r. reflexivity.
Qed.

Lemma hashes_differ_in_bit_30 (seed : Z) :
  HAMT.hash32 1073741824 seed <> HAMT.hash32 0 seed.
Proof.
  unfold HAMT.hash32.
  change (wrap64 (hasher 1073741824)) with (2 ^ 30).
  change (wrap64 (hasher 0)) with 0.
  rewrite Z.lxor_0_r. unfold wrap32. intros Heq.
  apply (f_equal (fun x => Z.testbit x 30)) in Heq.
  rewrite !Z.mod_pow2_bits_low in Heq by lia.
  rewrite Z.lxor_spec, Z.pow2_bits_true in Heq by lia.
  destruct (Z.testbit seed 30); discriminate.
Qed.

Lemma split_never_returns (fuel : nat) (seed hash_offset level count : Z) :
  In hash_offset [0; 5; 10; 15; 20; 25] ->
  HAMT.insertEntry fuel tt count
    (TrieNode (mkBitmapTrie
       (wrap32 (Z.shiftl 1 (Z.land (Z.shiftr (HAMT.hash32 0 seed) hash_offset) 31)))
       2 (Some [EntryNode (0, 1)])))
    (1073741824, 5) seed (HAMT.hash32 1073741824 seed) hash_offset level
  = OutOfFuel.
Proof.
  revert seed hash_offset level.
  induction fuel as [|fuel IH]; intros seed hash_offset level Hoffset; [reflexivity|].
  assert (Hrange : 0 <= hash_offset <= 25) by (cbn [In] in Hoffset; lia).
  pose proof (slice_range (HAMT.hash32 0 seed) hash_offset) as Hslice.
  cbn [HAMT.insertEntry Node.asTrie defined mbind result_bind].
  rewrite slices_agree_below_30 by exact Hrange.
  rewrite taken_single by assumption.
  rewrite bool_decide_eq_true_2 by reflexivity. cbn [negb].
  rewrite logicalGet_single by assumption.
  cbn [defined mbind result_bind fst snd].
  change (key_equal 0 1073741824) with false. cbv iota.
  change (Node_BitmapTrie tt 2) with
    (TrieNode (mkBitmapTrie 0 2 (Some [])) : NodeTemplate (Z * Z), tt).
  destruct (hash_offset <? 25) eqn:Hbelow.
  - apply Z.ltb_lt in Hbelow.
    destruct fuel as [|fuel]; [reflexivity|].
    rewrite insertEntry_on_fresh. cbn [mbind result_bind fst].
    rewrite IH; [reflexivity|].
    cbn [In] in Hoffset |- *. lia.
  - destruct (Z.eqb_spec (HAMT.hash32 1073741824 (HAMT.next_seed seed))
                         (HAMT.hash32 0 (HAMT.next_seed seed))) as [Hsame|_].
    { exfalso. exact (hashes_differ_in_bit_30 _ Hsame). }
    destruct fuel as [|fuel]; [reflexivity|].
    rewrite insertEntry_on_fresh. cbn [mbind result_bind fst].
    rewrite IH; [reflexivity|].
    cbn [In]. lia.
Qed.

Lemma insert_never_returns (fuel : nat) :
  HAMT.insert fuel hamt_zero (1073741824, 5) = OutOfFuel.
Proof.
  unfold HAMT.insert. cbn [fst _root _seed _count _allocator hamt_zero].
  change (mkBitmapTrie 8192 2 (Some [EntryNode (0, 1)])) with
    (mkBitmapTrie
       (wrap32 (Z.shiftl 1 (Z.land (Z.shiftr (HAMT.hash32 0 default_seed) 0) 31)))
       2 (Some [EntryNode (0, 1)]) : BitmapTrieTemplate (NodeTemplate (Z * Z))).
  rewrite split_never_returns; [reflexivity|].
  cbn [In]. lia.
Qed.


(** Counterexample to C3 as stated: from [hash_offset = 25] the code
    reseeds, where a boundary at 30 would read one more slice under the old
    seed.  The lookup of key 0 in [probe_trie], started at offset 25, finds
    the entry through slot 11 of the reseeded hash; slot 3, the one of bits
    30 and 31 of the old hash, is free. *)
Lemma reseed_at_25_not_30 :
  schedule_step (HAMT.hash32 0) HAMT.next_seed 25 (default_seed, default_seed, 25)
    <> schedule_step (HAMT.hash32 0) HAMT.next_seed 30 (default_seed, default_seed, 25) /\
  schedule_step (HAMT.hash32 0) HAMT.next_seed 25 (default_seed, default_seed, 25)
    = (3310114763, 3310114763, 0) /\
  schedule_step (HAMT.hash32 0) HAMT.next_seed 30 (default_seed, default_seed, 25)
    = (default_seed, default_seed, 30) /\
  HAMT.findNode_loop 2 0 probe_trie default_seed default_seed 25
                     (Z.land (Z.shiftr default_seed 25) 31)
    = Ret (Some [0%nat; 0%nat]) /\
  BitmapTrie.logicalPositionTaken probe_child (Z.land (Z.shiftr 3310114763 0) 31) = true /\
  BitmapTrie.logicalPositionTaken probe_child (Z.land (Z.shiftr default_seed 30) 31) = false.
Proof. vm_compute. repeat split. discriminate. Qed.

(** Witness of C3 as amended: the descent from the root of [hamt_zero_32]
    into the interior node of slot 13, for key 32. *)
Lemma hash_schedule_witness :
  HAMT.findNode_loop 2 32 (mkBitmapTrie 8192 2
       (Some [TrieNode (mkBitmapTrie 192 2
                (Some [EntryNode (0, 1); EntryNode (32, 5)]))]))
    default_seed (HAMT.hash32 32 default_seed) 0
    (Z.land (Z.shiftr (HAMT.hash32 32 default_seed) 0) 31)
  = (found ← HAMT.findNode_loop 1 32
               (mkBitmapTrie 192 2 (Some [EntryNode (0, 1); EntryNode (32, 5)]))
               default_seed (HAMT.hash32 32 default_seed) 5
               (Z.land (Z.shiftr (HAMT.hash32 32 default_seed) 5) 31);
     Ret (option_map (cons 0%nat) found)).
Proof.
  destruct (hash_schedule 1 tt 2
              (mkBitmapTrie 8192 2
                 (Some [TrieNode (mkBitmapTrie 192 2
                          (Some [EntryNode (0, 1); EntryNode (32, 5)]))]))
              (mkBitmapTrie 192 2 (Some [EntryNode (0, 1); EntryNode (32, 5)]))
              32 5 default_seed (HAMT.hash32 32 default_seed) 0 0)
    as [Hlookup _]; [vm_compute; reflexivity|vm_compute; reflexivity|].
  exact Hlookup.
Defined.

(** Witness of C10. *)
Lemma increment_returns_same_iterator_witness :
  Iterator.operator_inc (mkIterator (Some [0%nat; 1%nat]))
    = Ret (mkIterator (Some [0%nat; 1%nat])).
Proof.
  exact (proj1 (increment_returns_same_iterator
                  (mkIterator (Some [0%nat; 1%nat])) [0%nat; 1%nat] eq_refl)).
Defined.
(** Witness of C7: a trie with slots 0 and 2 taken and a full array of two
    cells receives an entry at slot 1. *)
Lemma bitmap_trie_insertEntry_outcome_witness :
  exists leaf this' allocator',
    BitmapTrie.insertEntry tt two_of_three 1 (1, 11) 3 0
      = Ret (leaf, this', allocator') /\
    ((leaf = Some 1%nat /\
      _bitmap this' = 7 /\
      Z.testbit (_bitmap this') 1 = true /\
      _base this' = Some [EntryNode (0, 10); EntryNode (1, 11); EntryNode (2, 12)] /\
      [EntryNode (0, 10); EntryNode (1, 11); EntryNode (2, 12)] !! 1%nat
        = Some (EntryNode (1, 11)) /\
      wf_trie this')
     \/
     (leaf = None /\ this' = two_of_three /\
      exists bytes, Alloc.allocate tt bytes alignof_Node = (false, allocator'))).
Proof.
  apply (bitmap_trie_insertEntry_outcome tt two_of_three 1 (1, 11) 3 0).
  - split; [cbn; lia|]. split; [reflexivity|]. vm_compute. discriminate.
  - lia.
  - lia.
  - reflexivity.
Defined.
End Int64Examples.

(** * Examples on an allocator that runs out

    The same keys, hasher and equality on [budget_allocator]. *)

Section Int64Budget.
#[local] Existing Instance IdentityFunction.
#[local] Existing Instance int64_equal_to.
#[local] Existing Instance generous_allocator.
#[local] Existing Instance budget_allocator.
#[local] Existing Instance int64_layout.

(** Counterexample to C7 as stated.  The bit of slot 0 is clear in the trie
    that [allocate] leaves when the allocator returns null, and [insertEntry]
    on that trie neither returns a leaf nor returns null: it writes through
    the null array.  [insert] reaches this when a split asks an exhausted
    allocator for the array of the new interior node.  Likewise, on a full
    trie and with a size hint of 0 the call stops at the assertion of the
    sizing oracle. *)
Lemma insertEntry_has_preconditions :
  BitmapTrie.allocate 0%nat 2 = (failed_allocation, 0%nat) /\
  Z.testbit (_bitmap failed_allocation) 0 = false /\
  BitmapTrie.insertEntry 0%nat failed_allocation 0 (0, 1) 1 0 = Undefined /\
  HAMT.insert 6 hamt_zero_exhausted (32, 5) = Undefined /\
  Z.testbit (_bitmap two_of_three) 1 = false /\
  BitmapTrie.insertEntry tt two_of_three 1 (1, 11) 0 0 = Undefined.
Proof. vm_compute. repeat split. Qed.

End Int64Budget.

(** * Further properties

    ** The other slots of a trie that received an entry *)

Section OtherSlots.
Context {Entry : Type}.
Local Abbreviation Node := (NodeTemplate Entry).
Local Abbreviation BitmapTrie := (BitmapTrieTemplate (NodeTemplate Entry)).
Implicit Types (this trie : BitmapTrie) (node : Node).

Lemma taken_marked_ne this t t' capacity o :
  0 <= t < 32 -> 0 <= t' < 32 -> t' <> t ->
  BitmapTrie.logicalPositionTaken
    (mkBitmapTrie (Z.lor (_bitmap this) (wrap32 (Z.shiftl 1 t))) capacity o : BitmapTrie) t' =
  BitmapTrie.logicalPositionTaken this t'.
Proof.
  intros Ht Ht' Hne. rewrite !taken_testbit by assumption. cbn [_bitmap].
  rewrite bitmask_pow2, Z.lor_spec, Z.pow2_bits_false by lia.
  apply orb_false_r.
Qed.

Lemma physicalIndex_taken_lt trie t t' :
  0 <= t < 32 -> 0 <= t' < 32 -> t' < t ->
  BitmapTrie.logicalPositionTaken trie t' = true ->
  BitmapTrie.physicalIndex trie t' < BitmapTrie.physicalIndex trie t.
Proof.
  intros Ht Ht' Hlt Htaken. rewrite taken_testbit in Htaken by assumption.
  rewrite !physicalIndex_count by assumption.
  pose proof (count_bits_set (Z.to_nat t) (_bitmap trie) (Z.to_nat t')) as Hset.
  rewrite Z2Nat.id in Hset by lia. apply Hset; [assumption|lia].
Qed.

Lemma physicalIndex_le trie t t' :
  0 <= t < 32 -> 0 <= t' < 32 -> t' <= t ->
  BitmapTrie.physicalIndex trie t' <= BitmapTrie.physicalIndex trie t.
Proof.
  intros Ht Ht' Hle. rewrite !physicalIndex_count by assumption.
  apply count_bits_mono. lia.
Qed.

Lemma physicalIndex_marked_ne this t t' capacity o :
  0 <= t < 32 -> 0 <= t' < 32 ->
  BitmapTrie.logicalPositionTaken this t = false ->
  BitmapTrie.physicalIndex
    (mkBitmapTrie (Z.lor (_bitmap this) (wrap32 (Z.shiftl 1 t))) capacity o : BitmapTrie) t' =
  BitmapTrie.physicalIndex this t' + (if decide (t < t') then 1 else 0).
Proof.
  intros Ht Ht' Hfree. rewrite taken_testbit in Hfree by assumption.
  rewrite !physicalIndex_count by assumption. cbn [_bitmap].
  rewrite bitmask_pow2 by assumption.
  pose proof (count_bits_lor_pow2 (Z.to_nat t') (_bitmap this) (Z.to_nat t)) as Hset.
  rewrite Z2Nat.id in Hset by lia. rewrite (Hset Hfree).
  repeat case_decide; lia.
Qed.

(** The node in another slot is the one that was there. *)
Lemma logicalGet_marked_ne this t t' capacity node :
  wf_trie this -> 0 <= t < 32 -> 0 <= t' < 32 ->
  BitmapTrie.logicalPositionTaken this t = false ->
  BitmapTrie.logicalPositionTaken this t' = true ->
  BitmapTrie.logicalGet
    (mkBitmapTrie
       (Z.lor (_bitmap this) (wrap32 (Z.shiftl 1 t))) capacity
       (Some (take (Z.to_nat (BitmapTrie.physicalIndex this t)) (default [] (_base this))
              ++ node
              :: drop (Z.to_nat (BitmapTrie.physicalIndex this t))
                      (default [] (_base this))))) t' =
  BitmapTrie.logicalGet this t'.
Proof.
  intros [Hbits Hbase] Ht Ht' Hfree Htaken.
  assert (Hne : t' <> t) by (intros ->; congruence).
  pose proof (physicalIndex_le_size this t Ht) as Hi.
  pose proof (physicalIndex_le_size this t' Ht') as Hi'.
  unfold BitmapTrie.logicalGet, BitmapTrie.physicalGet. cbn [_base mbind option_bind].
  rewrite physicalIndex_marked_ne by assumption.
  destruct (_base this) as [base|] eqn:Hbase'; cbn [default from_option id mbind option_bind].
  - assert (Hlen : Z.of_nat (length base) = BitmapTrie.size this)
      by (unfold BitmapTrie.size; tauto).
    rewrite lookup_put_in by lia.
    destruct (Z.lt_trichotomy t t') as [Hlt|[?|Hlt]]; [|congruence|].
    + pose proof (physicalIndex_le this t' t Ht' Ht ltac:(lia)).
      repeat case_decide; try lia. f_equal. lia.
    + pose proof (physicalIndex_taken_lt this t t' Ht Ht' Hlt Htaken).
      repeat case_decide; try lia. f_equal. lia.
  - exfalso. destruct Hbase as [Hzero _]. rewrite taken_testbit in Htaken by assumption.
    rewrite Hzero, Z.bits_0 in Htaken. discriminate.
Qed.
End OtherSlots.

(** ** Lookups of the other keys across an insertion *)

Section Frame.
Context {Key T Allocator : Type}.
Context {Hasher : Hash Key} {Equal : KeyEqual Key} {Memory : Alloc.Ops Allocator} {Layout : NodeLayout}.
Local Abbreviation Entry := (Key * T)%type.
Local Abbreviation Node := (NodeTemplate (Key * T)).
Local Abbreviation BitmapTrie := (BitmapTrieTemplate (NodeTemplate (Key * T))).
Local Abbreviation HAMT := (HashArrayMappedTrie Key T Allocator).
Implicit Types (trie this : BitmapTrie) (node trie_node : Node) (allocator : Allocator).
Implicit Types (new_entry old_entry entry : Entry) (leaf : option handle).
Implicit Types (key : Key) (found : option T).

(** What a lookup finds in a trie of one entry. *)
Lemma finds_single key entry (s : Z) seed hash_offset found :
  0 <= s < 32 ->
  finds key (TrieNode (mkBitmapTrie (wrap32 (Z.shiftl 1 s)) 2 (Some [EntryNode entry])))
        seed hash_offset found <->
  found = if bool_decide (s = Z.land (Z.shiftr (HAMT.hash32 key seed) hash_offset) 31)
          then if key_equal entry.1 key then Some entry.2 else None
          else None.
Proof.
  intros Hs.
  pose proof (slice_range (HAMT.hash32 key seed) hash_offset) as Hsk.
  rewrite finds_step, taken_single by assumption.
  case_bool_decide as Hslot; [|reflexivity].
  rewrite <- Hslot, logicalGet_single by assumption. reflexivity.
Qed.

Lemma insertEntry_returns_frame fuel allocator count trie_node new_entry
    seed hash hash_offset level leaf trie_node' allocator' :
  insertEntry_returns fuel allocator count trie_node new_entry seed hash hash_offset level
                      leaf trie_node' allocator' ->
  (forall a b : Key, key_equal a b = true -> hasher a = hasher b) ->
  (forall a b : Key, key_equal a b = true -> key_equal b a = true) ->
  (forall a b c : Key, key_equal a b = true -> key_equal b c = true ->
                       key_equal a c = true) ->
  wf_node trie_node ->
  forall key found,
    key_equal new_entry.1 key = false ->
    finds key trie_node seed hash_offset found <->
    finds key trie_node' seed hash_offset found.
Proof.
  intros Hrun Hhash Hsym Htrans.
  induction Hrun as
    [ fuel allocator count trie new_entry seed hash hash_offset level placed trie'
        allocator' Hfree Hinsert
    | fuel allocator count trie new_entry seed hash hash_offset level child seed' hash'
        hash_offset' leaf node' allocator' Htaken Hget Hdescend Hrun IH
    | fuel allocator count trie new_entry seed hash hash_offset level old_entry
        Htaken Hget Hequal
    | fuel allocator count trie new_entry seed hash hash_offset level old_entry
        Htaken Hget Hequal Hoffset Hsame
    | fuel allocator count trie new_entry seed hash hash_offset level old_entry seed' hash'
        hash_offset' trie_node allocator1 trie_node1 allocator2
        Htaken Hget Hequal Hdescend Hdiffer Hfresh Hold IHold
    | fuel allocator count trie new_entry seed hash hash_offset level old_entry seed' hash'
        hash_offset' trie_node allocator1 replaced_node trie_node1 allocator2 leaf
        trie_node2 allocator3
        Htaken Hget Hequal Hdescend Hdiffer Hfresh Hold IHold Hnew IHnew ];
    intros Hwf key found Hother;
    pose proof (slice_range hash hash_offset) as Ht;
    pose proof (slice_range (HAMT.hash32 key seed) hash_offset) as Htk;
    pose proof (physicalIndex_le_size trie _ Ht) as Hi;
    pose proof (physicalIndex_le_size trie _ Htk) as Hik.
  - destruct (bitmap_insert_cases _ _ _ _ _ _ _ _ _ (wf_node_trie _ Hwf) Ht Hfree Hinsert)
      as [(_ & -> & _)|(capacity & Hcap & _ & ->)]; [reflexivity|].
    rewrite !finds_step.
    destruct (Z.eq_dec (Z.land (Z.shiftr (HAMT.hash32 key seed) hash_offset) 31)
                       (Z.land (Z.shiftr hash hash_offset) 31)) as [Hsame|Hne].
    + rewrite Hsame, Hfree, taken_mark by assumption.
      rewrite (logicalGet_marked trie _ capacity new_entry (wf_node_trie _ Hwf) Ht Hfree).
      rewrite Hother. reflexivity.
    + rewrite taken_marked_ne by assumption.
      destruct (BitmapTrie.logicalPositionTaken trie
                  (Z.land (Z.shiftr (HAMT.hash32 key seed) hash_offset) 31)) eqn:Htakenk;
        [|reflexivity].
      rewrite (logicalGet_marked_ne trie _ _ capacity (EntryNode new_entry)
                 (wf_node_trie _ Hwf) Ht Htk Hfree Htakenk).
      reflexivity.
  - destruct (returns_trie _ _ _ _ _ _ _ _ _ _ _ _ Hrun) as [trie'' ->].
    rewrite !finds_step, taken_physicalSet.
    destruct (BitmapTrie.logicalPositionTaken trie
                (Z.land (Z.shiftr (HAMT.hash32 key seed) hash_offset) 31)) eqn:Htakenk;
      [|reflexivity].
    destruct (Z.eq_dec
                (BitmapTrie.physicalIndex trie
                   (Z.land (Z.shiftr (HAMT.hash32 key seed) hash_offset) 31))
                (BitmapTrie.physicalIndex trie (Z.land (Z.shiftr hash hash_offset) 31)))
      as [Hsame|Hne].
    + apply physicalIndex_inj in Hsame; try assumption. rewrite Hsame.
      rewrite Hget. erewrite logicalGet_physicalSet; [|lia|exact Hget].
      unfold descend, schedule_step in Hdescend.
      destruct (hash_offset <? 25); injection Hdescend as <- <- <-;
        apply IH; try assumption; eapply wf_node_logicalGet; eassumption.
    + rewrite logicalGet_physicalSet_ne by lia. reflexivity.
  - rewrite !finds_step, taken_physicalSet.
    destruct (BitmapTrie.logicalPositionTaken trie
                (Z.land (Z.shiftr (HAMT.hash32 key seed) hash_offset) 31)) eqn:Htakenk;
      [|reflexivity].
    destruct (Z.eq_dec
                (BitmapTrie.physicalIndex trie
                   (Z.land (Z.shiftr (HAMT.hash32 key seed) hash_offset) 31))
                (BitmapTrie.physicalIndex trie (Z.land (Z.shiftr hash hash_offset) 31)))
      as [Hsame|Hne].
    + apply physicalIndex_inj in Hsame; try assumption. rewrite Hsame.
      rewrite Hget. erewrite logicalGet_physicalSet; [|lia|exact Hget].
      cbn [fst snd].
      destruct (key_equal old_entry.1 key) eqn:Hkey; [|reflexivity].
      exfalso. rewrite (Htrans _ _ _ (Hsym _ _ Hequal) Hkey) in Hother. discriminate.
    + rewrite logicalGet_physicalSet_ne by lia. reflexivity.
  - reflexivity.
  - pose proof (wf_split_trie _ _ _ _ _ _ _ _ _ _ _ _ _ Hfresh Hold) as ->.
    apply return_on_fresh in Hold as [[=] _].
  - pose proof (wf_split_trie _ _ _ _ _ _ _ _ _ _ _ _ _ Hfresh Hold) as ->.
    destruct (returns_trie _ _ _ _ _ _ _ _ _ _ _ _ Hnew) as [trie'' ->].
    pose proof (insertEntry_returns_wf _ _ _ _ _ _ _ _ _ _ _ _ Hold
                  (wf_fresh 2 ltac:(lia))) as Hwf1.
    apply return_on_fresh in Hold as (_ & -> & _).
    specialize (IHnew Hwf1 key found Hother).
    rewrite !finds_step, taken_physicalSet.
    destruct (BitmapTrie.logicalPositionTaken trie
                (Z.land (Z.shiftr (HAMT.hash32 key seed) hash_offset) 31)) eqn:Htakenk;
      [|reflexivity].
    destruct (Z.eq_dec
                (BitmapTrie.physicalIndex trie
                   (Z.land (Z.shiftr (HAMT.hash32 key seed) hash_offset) 31))
                (BitmapTrie.physicalIndex trie (Z.land (Z.shiftr hash hash_offset) 31)))
      as [Hsame|Hne].
    2:{ rewrite logicalGet_physicalSet_ne by lia. reflexivity. }
    apply physicalIndex_inj in Hsame; try assumption. rewrite Hsame.
    rewrite Hget. erewrite logicalGet_physicalSet; [|lia|exact Hget].
    assert (Hseed : seed' = if hash_offset <? 25 then seed else HAMT.next_seed seed).
    { unfold descend, schedule_step in Hdescend.
      destruct (hash_offset <? 25); congruence. }
    assert (Hoff : hash_offset' = if hash_offset <? 25 then hash_offset + 5 else 0).
    { unfold descend, schedule_step in Hdescend.
      destruct (hash_offset <? 25); congruence. }
    rewrite <- Hseed, <- Hoff, <- IHnew.
    pose proof (slice_range (HAMT.hash32 old_entry.1 seed') hash_offset') as Hs.
    rewrite finds_single by assumption.
    case_bool_decide as Hslot; [reflexivity|].
    destruct (key_equal old_entry.1 key) eqn:Hkey; [|reflexivity].
    exfalso. apply Hslot, slice_congr. unfold HAMT.hash32.
    rewrite (Hhash _ _ Hkey). reflexivity.
Qed.
End Frame.

(** ** The container as a map *)

Section MapSemantics.
Context {Key T Allocator : Type}.
Context {Hasher : Hash Key} {Equal : KeyEqual Key} {Memory : Alloc.Ops Allocator} {Layout : NodeLayout}.
Local Abbreviation Entry := (Key * T)%type.
Local Abbreviation Node := (NodeTemplate (Key * T)).
Local Abbreviation BitmapTrie := (BitmapTrieTemplate (NodeTemplate (Key * T))).
Local Abbreviation HAMT := (HashArrayMappedTrie Key T Allocator).
Implicit Types (trie this : BitmapTrie) (node trie_node : Node) (allocator : Allocator).
Implicit Types (new_entry old_entry entry : Entry) (leaf : option handle).
Implicit Types (key : Key) (found : option T) (h : HAMT) (m : list Entry).

Lemma finds_find h key found :
  returns (fun fuel => HAMT.find fuel h key) found <->
  finds key (_root h) (_seed h) 0 found.
Proof.
  unfold finds, returns.
  split; intros [fuel Hfind]; exists fuel; rewrite find_find_in in *; exact Hfind.
Qed.

(** The run of [insertEntry] behind a call of [insert]. *)
Lemma insert_cases fuel h entry it h' :
  HAMT.insert fuel h entry = Ret (it, h') ->
  exists leaf root allocator,
    insertEntry_returns fuel (_allocator h) (_count h) (_root h) entry (_seed h)
                        (HAMT.hash32 entry.1 (_seed h)) 0 0 leaf root allocator /\
    it = mkIterator leaf /\
    h' = mkHAMT (match leaf with
                 | Some _ => wrap64 (_count h + 1)
                 | None => _count h
                 end) root (_seed h) allocator.
Proof.
  unfold HAMT.insert. intros Hinsert.
  destruct (HAMT.insertEntry fuel (_allocator h) (_count h) (_root h)
              entry (_seed h) (HAMT.hash32 entry.1 (_seed h)) 0 0)
    as [[[leaf root] allocator]| |] eqn:Hrun; try discriminate.
  cbn [mbind result_bind] in Hinsert.
  apply insertEntry_returns_intro in Hrun.
  exists leaf, root, allocator.
  destruct leaf; injection Hinsert as <- <-; auto.
Qed.

Lemma construct_root (n : Z) (a : Allocator) h :
  HAMT.construct n a = Ret h ->
  exists capacity base,
    1 <= capacity <= 32 /\
    _root h = TrieNode (mkBitmapTrie 0 capacity base) /\
    (base = None \/ base = Some []) /\
    _count h = 0 /\ _seed h = wrap32 FOC_GET_HASH_SEED.
Proof.
  unfold HAMT.construct.
  destruct (oracle_total 1 (if 0 <? n then n else 1) 0 ltac:(lia)
              (size_hint_positive n))
    as (capacity & -> & Hrange).
  cbn [defined mbind result_bind]. unfold BitmapTrie.allocate.
  destruct (Z.eqb_spec capacity 0) as [?|_]; [lia|].
  destruct (Alloc.allocate a (wrap64 (capacity * sizeof_Node)) alignof_Node)
    as [[|] allocator']; intros [= <-]; cbn [_root _count _seed];
    eexists _, _; (split; [exact Hrange|]); (split; [reflexivity|]); auto.
Qed.

Lemma finds_empty key capacity base seed hash_offset found :
  finds key (TrieNode (mkBitmapTrie 0 capacity base)) seed hash_offset found <->
  found = None.
Proof. rewrite finds_step, taken_empty. reflexivity. Qed.

Lemma reachable_built h m : built h m -> reachable h.
Proof.
  induction 1.
  - eapply reachable_construct; eassumption.
  - eapply reachable_insert; eassumption.
  - eapply reachable_insert; eassumption.
  - eapply reachable_clear; eassumption.
Qed.

Section Lawful.
Hypothesis hasher_agrees : forall a b : Key, key_equal a b = true -> hasher a = hasher b.
Hypothesis key_equal_refl : forall a : Key, key_equal a a = true.
Hypothesis key_equal_sym : forall a b : Key, key_equal a b = true -> key_equal b a = true.
Hypothesis key_equal_trans :
  forall a b c : Key, key_equal a b = true -> key_equal b c = true -> key_equal a c = true.

Lemma key_equal_congr (a key key' : Key) :
  key_equal key key' = true -> key_equal a key = key_equal a key'.
Proof.
  intros Hequal.
  destruct (key_equal a key) eqn:H1, (key_equal a key') eqn:H2; try reflexivity.
  - rewrite (key_equal_trans _ _ _ H1 Hequal) in H2. discriminate.
  - rewrite (key_equal_trans _ _ _ H2 (key_equal_sym _ _ Hequal)) in H1. discriminate.
Qed.

(** Equal keys are looked up alike. *)
Lemma find_in_congr fuel key key' trie_node seed hash_offset :
  key_equal key key' = true ->
  find_in fuel key trie_node seed (HAMT.hash32 key seed) hash_offset =
  find_in fuel key' trie_node seed (HAMT.hash32 key' seed) hash_offset.
Proof.
  intros Hequal.
  assert (Hhash : forall seed, HAMT.hash32 key seed = HAMT.hash32 key' seed).
  { intros s. unfold HAMT.hash32. rewrite (hasher_agrees _ _ Hequal). reflexivity. }
  revert trie_node seed hash_offset.
  induction fuel as [|fuel IH]; intros trie_node seed hash_offset.
  - destruct trie_node; reflexivity.
  - destruct trie_node as [entry|trie]; [reflexivity|].
    rewrite !find_in_S, !descend_hash, <- Hhash.
    destruct (BitmapTrie.logicalPositionTaken trie _); [|reflexivity].
    destruct (BitmapTrie.logicalGet trie _) as [[entry|child]|]; [| |reflexivity].
    + rewrite (key_equal_congr _ _ _ Hequal). reflexivity.
    + cbv zeta. apply IH.
Qed.

Lemma finds_congr key key' trie_node seed hash_offset found :
  key_equal key key' = true ->
  finds key trie_node seed hash_offset found <->
  finds key' trie_node seed hash_offset found.
Proof.
  intros Hequal. unfold finds, returns.
  split; intros [fuel Hfind]; exists fuel.
  - rewrite <- (find_in_congr _ _ _ _ _ _ Hequal). exact Hfind.
  - rewrite (find_in_congr _ _ _ _ _ _ Hequal). exact Hfind.
Qed.

(** After an [insert] that returned a node, the key is found with the
    value. *)
Lemma insert_finds_key fuel h entry p h' :
  wf_node (_root h) ->
  HAMT.insert fuel h entry = Ret (mkIterator (Some p), h') ->
  finds entry.1 (_root h') (_seed h') 0 (Some entry.2).
Proof.
  intros Hwf Hinsert.
  destruct (insert_cases _ _ _ _ _ Hinsert) as (leaf & root & allocator & Hrun & [= <-] & ->).
  destruct (insertEntry_returns_found _ _ _ _ _ _ _ _ _ _ _ _ Hrun key_equal_refl Hwf
              p eq_refl) as (trie' & key' & -> & Hfind & Hfollow).
  exists fuel. unfold find_in. cbn [_root _seed Node.asTrie defined mbind result_bind].
  rewrite Hfind. cbn [mbind result_bind]. rewrite Hfollow. reflexivity.
Qed.

(** An [insert], whatever it returns, leaves the other keys as they were. *)
Lemma insert_frame fuel h entry it h' key found :
  wf_node (_root h) ->
  HAMT.insert fuel h entry = Ret (it, h') ->
  key_equal entry.1 key = false ->
  finds key (_root h) (_seed h) 0 found <-> finds key (_root h') (_seed h') 0 found.
Proof.
  intros Hwf Hinsert Hother.
  destruct (insert_cases _ _ _ _ _ Hinsert) as (leaf & root & allocator & Hrun & _ & ->).
  cbn [_root _seed].
  exact (insertEntry_returns_frame _ _ _ _ _ _ _ _ _ _ _ _ Hrun hasher_agrees
           key_equal_sym key_equal_trans Hwf key found Hother).
Qed.

Lemma assoc_find_insert m entry key :
  key_equal entry.1 key = true ->
  assoc_find (assoc_insert m entry) key = Some entry.2.
Proof.
  intros Hequal. induction m as [|entry' m IH]; cbn [assoc_insert assoc_find].
  - rewrite Hequal. reflexivity.
  - destruct (key_equal entry'.1 entry.1) eqn:Hhead; cbn [assoc_find fst snd].
    + rewrite (key_equal_trans _ _ _ Hhead Hequal). reflexivity.
    + rewrite <- (key_equal_congr _ _ _ Hequal), Hhead. exact IH.
Qed.

Lemma assoc_find_insert_ne m entry key :
  key_equal entry.1 key = false ->
  assoc_find (assoc_insert m entry) key = assoc_find m key.
Proof.
  intros Hother. induction m as [|entry' m IH]; cbn [assoc_insert assoc_find].
  - rewrite Hother. reflexivity.
  - destruct (key_equal entry'.1 entry.1) eqn:Hhead; cbn [assoc_find fst snd].
    + destruct (key_equal entry'.1 key) eqn:Hkey; [|reflexivity].
      rewrite (key_equal_trans _ _ _ (key_equal_sym _ _ Hhead) Hkey) in Hother.
      discriminate.
    + rewrite IH. reflexivity.
Qed.

Lemma built_finds h m :
  built h m ->
  forall key, finds key (_root h) (_seed h) 0 (assoc_find m key).
Proof.
  induction 1 as [n a h Hconstruct Hbase|fuel h m entry p h' Hbuilt IH Hinsert
                 |fuel h m entry h' Hbuilt IH Hinsert|h m h' Hbuilt IH Hclear];
    intros key.
  - destruct (construct_root _ _ _ Hconstruct) as (capacity & base & _ & -> & _).
    apply finds_empty. reflexivity.
  - pose proof (reachable_wf _ (reachable_built _ _ Hbuilt)) as Hwf.
    destruct (key_equal entry.1 key) eqn:Hkey.
    + rewrite (assoc_find_insert _ _ _ Hkey).
      apply (finds_congr _ _ _ _ _ _ Hkey).
      eapply insert_finds_key; eassumption.
    + rewrite (assoc_find_insert_ne _ _ _ Hkey).
      apply (insert_frame _ _ _ _ _ key _ Hwf Hinsert Hkey). apply IH.
  - pose proof (reachable_wf _ (reachable_built _ _ Hbuilt)) as Hwf.
    destruct (insert_cases _ _ _ _ _ Hinsert) as (leaf & root & allocator & Hrun & [= <-] & ->).
    cbn [_root _seed].
    apply (insertEntry_returns_null_finds _ _ _ _ _ _ _ _ _ _ _ _ Hrun hasher_agrees
             eq_refl Hwf). apply IH.
  - unfold HAMT.clear, BitmapTrie.clear in Hclear.
    destruct (Node.asTrie (_root h)); [|discriminate].
    cbn [defined mbind result_bind] in Hclear. injection Hclear as <-. cbn [_root _seed].
    apply finds_empty. reflexivity.
Qed.
End Lawful.

(** An [insert], whether it returns a node or null, leaves the lookup of
    every key that is not equal to the inserted one as it was: [find]
    returns for it what it returned before.  The hasher has to agree on
    equal keys and [key_equal] has to be symmetric and transitive. *)
Theorem insert_keeps_other_keys fuel h key (value : T) it h' key' found :
  (forall a b : Key, key_equal a b = true -> hasher a = hasher b) ->
  (forall a b : Key, key_equal a b = true -> key_equal b a = true) ->
  (forall a b c : Key, key_equal a b = true -> key_equal b c = true ->
                       key_equal a c = true) ->
  wf_node (_root h) ->
  HAMT.insert fuel h (key, value) = Ret (it, h') ->
  key_equal key key' = false ->
  returns (fun fuel => HAMT.find fuel h key') found <->
  returns (fun fuel => HAMT.find fuel h' key') found.
Proof.
  intros Hhash Hsym Htrans Hwf Hinsert Hother.
  rewrite !finds_find.
  exact (insert_frame Hhash Hsym Htrans _ _ _ _ _ _ _ Hwf Hinsert Hother).
Qed.

(** The container is a map: after a construction followed by any [insert]
    and [clear] calls, [find] returns for every key what the association
    list of the stored entries holds for it, that is the value of the last
    [insert] of an equal key that returned a node since the last [clear],
    and null if there was none. *)
Theorem find_agrees_with_stored_entries h m key :
  (forall a b : Key, key_equal a b = true -> hasher a = hasher b) ->
  (forall a : Key, key_equal a a = true) ->
  (forall a b : Key, key_equal a b = true -> key_equal b a = true) ->
  (forall a b c : Key, key_equal a b = true -> key_equal b c = true ->
                       key_equal a c = true) ->
  built h m ->
  returns (fun fuel => HAMT.find fuel h key) (assoc_find m key).
Proof.
  intros Hhash Hrefl Hsym Htrans Hbuilt. apply finds_find.
  exact (built_finds Hhash Hrefl Hsym Htrans _ _ Hbuilt key).
Qed.
End MapSemantics.

(** ** Lookups return, and return stored values only *)

Section NodeInduction.
Context {Entry : Type}.
Local Abbreviation Node := (NodeTemplate Entry).
Local Abbreviation BitmapTrie := (BitmapTrieTemplate (NodeTemplate Entry)).

Lemma Node_children_ind (P : Node -> Prop) :
  (forall entry, P (EntryNode entry)) ->
  (forall trie : BitmapTrie,
     (forall base, _base trie = Some base -> Forall P base) -> P (TrieNode trie)) ->
  forall node, P node.
Proof.
  intros Hentry Htrie.
  refine (fix IH (node : Node) : P node :=
            match node with
            | EntryNode entry => Hentry entry
            | TrieNode trie => Htrie trie _
            end).
  destruct trie as [bitmap capacity [base|]]; cbn [_base]; intros base' [= <-].
  induction base as [|child base IHbase]; constructor; [apply IH|exact IHbase].
Qed.

Lemma height_child (trie : BitmapTrie) t (child : Node) :
  BitmapTrie.logicalGet trie t = Some child ->
  (height child < height (TrieNode trie))%nat.
Proof.
  unfold BitmapTrie.logicalGet, BitmapTrie.physicalGet. cbn [height].
  destruct (_base trie) as [base|]; [|discriminate]. cbn [mbind option_bind].
  generalize (Z.to_nat (BitmapTrie.physicalIndex trie t)). intros i.
  revert i. induction base as [|node base IH]; intros [|i] Hget; try discriminate.
  - injection Hget as ->. cbn [foldr]. lia.
  - specialize (IH i Hget). cbn [foldr]. lia.
Qed.
End NodeInduction.

Section FindReturns.
Context {Key T Allocator : Type}.
Context {Hasher : Hash Key} {Equal : KeyEqual Key} {Memory : Alloc.Ops Allocator} {Layout : NodeLayout}.
Local Abbreviation Entry := (Key * T)%type.
Local Abbreviation Node := (NodeTemplate (Key * T)).
Local Abbreviation BitmapTrie := (BitmapTrieTemplate (NodeTemplate (Key * T))).
Local Abbreviation HAMT := (HashArrayMappedTrie Key T Allocator).
Implicit Types (trie this : BitmapTrie) (node trie_node : Node) (allocator : Allocator).
Implicit Types (new_entry old_entry entry : Entry) (leaf : option handle).
Implicit Types (key : Key) (found : option T) (h : HAMT).

Lemma find_in_returns fuel key trie seed hash hash_offset :
  wf_node (TrieNode trie) ->
  (height (TrieNode trie) <= fuel)%nat ->
  exists found, find_in fuel key (TrieNode trie) seed hash hash_offset = Ret found.
Proof.
  revert trie seed hash hash_offset.
  induction fuel as [|fuel IH]; intros trie seed hash hash_offset Hwf Hfuel.
  - cbn [height] in Hfuel. lia.
  - pose proof (slice_range hash hash_offset) as Ht.
    rewrite find_in_S.
    destruct (BitmapTrie.logicalPositionTaken trie _) eqn:Htaken; [|eauto].
    destruct (logicalGet_defined trie _ (wf_node_trie _ Hwf) Ht Htaken) as [node Hget].
    rewrite Hget. destruct node as [entry|child]; [eauto|].
    pose proof (height_child _ _ _ Hget) as Hheight.
    destruct (descend key (seed, hash, hash_offset)) as [[seed' hash'] hash_offset'].
    apply IH; [eapply wf_node_logicalGet; eassumption|lia].
Qed.

Lemma find_in_mono fuel fuel' key trie_node seed hash hash_offset found :
  find_in fuel key trie_node seed hash hash_offset = Ret found ->
  (fuel <= fuel')%nat ->
  find_in fuel' key trie_node seed hash hash_offset = Ret found.
Proof.
  unfold find_in. intros Hfind Hfuel.
  destruct (Node.asTrie trie_node) as [trie|]; [|discriminate].
  cbn [defined mbind result_bind] in *.
  destruct (HAMT.findNode_loop fuel key trie seed hash hash_offset _)
    as [node| |] eqn:Hloop; try discriminate.
  rewrite (findNode_loop_mono _ _ _ _ _ _ _ _ _ Hloop Hfuel). exact Hfind.
Qed.

Lemma finds_functional key trie_node seed hash_offset found found' :
  finds key trie_node seed hash_offset found ->
  finds key trie_node seed hash_offset found' ->
  found = found'.
Proof.
  intros [fuel Hfind] [fuel' Hfind'].
  apply (find_in_mono _ (Nat.max fuel fuel')) in Hfind; [|lia].
  apply (find_in_mono _ (Nat.max fuel fuel')) in Hfind'; [|lia].
  congruence.
Qed.

Lemma find_in_sound fuel key trie_node seed hash hash_offset value :
  find_in fuel key trie_node seed hash hash_offset = Ret (Some value) ->
  exists entry,
    In entry (leaves trie_node) /\ key_equal entry.1 key = true /\ entry.2 = value.
Proof.
  revert trie_node seed hash hash_offset.
  induction fuel as [|fuel IH]; intros trie_node seed hash hash_offset Hfind.
  - destruct trie_node; discriminate.
  - destruct trie_node as [entry|trie]; [discriminate|].
    rewrite find_in_S in Hfind.
    destruct (BitmapTrie.logicalPositionTaken trie _); [|discriminate].
    destruct (BitmapTrie.logicalGet trie _) as [[entry|child]|] eqn:Hget; [| |discriminate].
    + destruct (key_equal entry.1 key) eqn:Hkey; [|discriminate].
      injection Hfind as <-. exists entry. split; [|auto].
      eapply leaves_logicalGet; [exact Hget|]. left. reflexivity.
    + destruct (descend key (seed, hash, hash_offset)) as [[seed' hash'] hash_offset'].
      destruct (IH _ _ _ _ Hfind) as (entry & Hin & Hkey & Hvalue).
      exists entry. split; [|auto]. eapply leaves_logicalGet; eassumption.
Qed.
End FindReturns.

(** ** The entries of the trie across an insertion *)

Section LeavesFacts.
Context {Entry : Type}.
Local Abbreviation Node := (NodeTemplate Entry).
Local Abbreviation BitmapTrie := (BitmapTrieTemplate (NodeTemplate Entry)).
Implicit Types (this trie : BitmapTrie) (node : Node).

Lemma leaves_trie trie :
  leaves (TrieNode trie) = concat (map leaves (default [] (_base trie))).
Proof. cbn [leaves]. destruct (_base trie); reflexivity. Qed.

(** The entries before and after the ones of a child. *)
Lemma leaves_around trie t node :
  BitmapTrie.logicalGet trie t = Some node ->
  exists pre post,
    leaves (TrieNode trie) = pre ++ leaves node ++ post /\
    forall node',
      leaves (TrieNode (BitmapTrie.physicalSet trie (BitmapTrie.physicalIndex trie t) node'))
      = pre ++ leaves node' ++ post.
Proof.
  unfold BitmapTrie.logicalGet, BitmapTrie.physicalGet, BitmapTrie.physicalSet.
  cbn [leaves _base].
  destruct (_base trie) as [base|]; [|discriminate]. cbn [mbind option_bind].
  generalize (Z.to_nat (BitmapTrie.physicalIndex trie t)). intros i Hget.
  exists (concat (map leaves (take i base))), (concat (map leaves (drop (S i) base))).
  split.
  - rewrite <- (take_drop_middle base i node Hget) at 1.
    rewrite map_app, concat_app. reflexivity.
  - intros node'. rewrite insert_take_drop by (eapply lookup_lt_Some; exact Hget).
    rewrite map_app, concat_app. reflexivity.
Qed.

Lemma leaves_marked this (i : nat) bitmap capacity (entry : Entry) :
  Permutation
    (leaves (TrieNode (mkBitmapTrie bitmap capacity
                         (Some (take i (default [] (_base this))
                                ++ EntryNode entry :: drop i (default [] (_base this)))))))
    (entry :: leaves (TrieNode this)).
Proof.
  rewrite (leaves_trie this). cbn [leaves _base].
  rewrite <- (take_drop i (default [] (_base this))) at 3.
  rewrite !map_app, !concat_app. cbn [map concat leaves app].
  symmetry. apply Permutation_middle.
Qed.
End LeavesFacts.

Section InsertLeaves.
Context {Key T Allocator : Type}.
Context {Hasher : Hash Key} {Equal : KeyEqual Key} {Memory : Alloc.Ops Allocator} {Layout : NodeLayout}.
Local Abbreviation Entry := (Key * T)%type.
Local Abbreviation Node := (NodeTemplate (Key * T)).
Local Abbreviation BitmapTrie := (BitmapTrieTemplate (NodeTemplate (Key * T))).
Local Abbreviation HAMT := (HashArrayMappedTrie Key T Allocator).
Implicit Types (trie this : BitmapTrie) (node trie_node : Node) (allocator : Allocator).
Implicit Types (new_entry old_entry entry : Entry) (leaf : option handle).
Implicit Types (key : Key) (found : option T) (h : HAMT).

(** An insertion that returns a node either adds one leaf, when the lookup
    of the key found nothing, or writes the value into the leaf that the
    lookup found, whose key stays. *)
Lemma insertEntry_returns_leaves fuel allocator count trie_node new_entry
    seed hash hash_offset level leaf trie_node' allocator' :
  insertEntry_returns fuel allocator count trie_node new_entry seed hash hash_offset level
                      leaf trie_node' allocator' ->
  wf_node trie_node ->
  hash = HAMT.hash32 new_entry.1 seed ->
  forall p, leaf = Some p ->
  (finds new_entry.1 trie_node seed hash_offset None /\
   Permutation (leaves trie_node') (new_entry :: leaves trie_node)) \/
  (exists old_entry pre post,
     finds new_entry.1 trie_node seed hash_offset (Some old_entry.2) /\
     key_equal old_entry.1 new_entry.1 = true /\
     leaves trie_node = pre ++ old_entry :: post /\
     leaves trie_node' = pre ++ (old_entry.1, new_entry.2) :: post).
Proof.
  induction 1 as
    [ fuel allocator count trie new_entry seed hash hash_offset level placed trie'
        allocator' Hfree Hinsert
    | fuel allocator count trie new_entry seed hash hash_offset level child seed' hash'
        hash_offset' leaf node' allocator' Htaken Hget Hdescend Hrun IH
    | fuel allocator count trie new_entry seed hash hash_offset level old_entry
        Htaken Hget Hequal
    | fuel allocator count trie new_entry seed hash hash_offset level old_entry
        Htaken Hget Hequal Hoffset Hsame
    | fuel allocator count trie new_entry seed hash hash_offset level old_entry seed' hash'
        hash_offset' trie_node allocator1 trie_node1 allocator2
        Htaken Hget Hequal Hdescend Hdiffer Hfresh Hold IHold
    | fuel allocator count trie new_entry seed hash hash_offset level old_entry seed' hash'
        hash_offset' trie_node allocator1 replaced_node trie_node1 allocator2 leaf
        trie_node2 allocator3
        Htaken Hget Hequal Hdescend Hdiffer Hfresh Hold IHold Hnew IHnew ];
    intros Hwf Hhash p Hleaf;
    pose proof (slice_range hash hash_offset) as Ht.
  - destruct (bitmap_insert_cases _ _ _ _ _ _ _ _ _ (wf_node_trie _ Hwf) Ht Hfree Hinsert)
      as [(-> & _)|(capacity & Hcap & _ & ->)]; [discriminate|].
    left. split.
    + apply finds_step. rewrite <- Hhash, Hfree. reflexivity.
    + apply leaves_marked.
  - destruct leaf as [p0|]; [|discriminate].
    assert (Hstate : (seed', hash', hash_offset') =
                     (if hash_offset <? 25 then seed else HAMT.next_seed seed,
                      HAMT.hash32 new_entry.1
                        (if hash_offset <? 25 then seed else HAMT.next_seed seed),
                      if hash_offset <? 25 then hash_offset + 5 else 0)).
    { rewrite <- Hdescend, Hhash. apply descend_hash. }
    injection Hstate as -> -> ->.
    destruct (leaves_around _ _ _ Hget) as (pre & post & Hbefore & Hafter).
    destruct (IH (wf_node_logicalGet _ _ _ Hwf Hget) eq_refl p0 eq_refl)
      as [[Hfinds Hperm]|(old_entry & pre0 & post0 & Hfinds & Hequal & Hleaves & Hleaves')].
    + left. split.
      * apply finds_step. rewrite <- Hhash, Htaken, Hget. exact Hfinds.
      * rewrite Hafter, Hbefore, Hperm. cbn [app]. symmetry. apply Permutation_middle.
    + right. exists old_entry, (pre ++ pre0), (post0 ++ post). split; [|split; [|split]].
      * apply finds_step. rewrite <- Hhash, Htaken, Hget. exact Hfinds.
      * exact Hequal.
      * rewrite Hbefore, Hleaves, <- !app_assoc. reflexivity.
      * rewrite Hafter, Hleaves', <- !app_assoc. reflexivity.
  - right. destruct (leaves_around _ _ _ Hget) as (pre & post & Hbefore & Hafter).
    exists old_entry, pre, post. split; [|split; [|split]].
    + apply finds_step. rewrite <- Hhash, Htaken, Hget, Hequal. reflexivity.
    + exact Hequal.
    + exact Hbefore.
    + apply Hafter.
  - discriminate.
  - discriminate.
  - destruct leaf as [p0|]; [|discriminate].
    pose proof (wf_split_trie _ _ _ _ _ _ _ _ _ _ _ _ _ Hfresh Hold) as ->.
    pose proof (insertEntry_returns_wf _ _ _ _ _ _ _ _ _ _ _ _ Hold
                  (wf_fresh 2 ltac:(lia))) as Hwf1.
    apply return_on_fresh in Hold as (_ & -> & _).
    assert (Hstate : hash' = HAMT.hash32 new_entry.1 seed').
    { rewrite Hhash, descend_hash in Hdescend. cbv zeta in Hdescend. congruence. }
    destruct (leaves_around _ _ _ Hget) as (pre & post & Hbefore & Hafter).
    left. split.
    { apply finds_step. rewrite <- Hhash, Htaken, Hget, Hequal. reflexivity. }
    rewrite Hafter, Hbefore. cbn [leaves app].
    destruct (IHnew Hwf1 Hstate p0 eq_refl)
      as [[_ Hperm]|(old_entry' & pre0 & post0 & _ & Hequal' & Hleaves & _)].
    + rewrite Hperm. cbn [leaves _base map concat app].
      symmetry. apply Permutation_middle.
    + exfalso. cbn [leaves _base map concat app] in Hleaves.
      destruct pre0 as [|? [|? ?]]; try discriminate.
      injection Hleaves as <- _. congruence.
Qed.

(** The node that a returning insertion hands back holds the value of the
    new entry, under the key of the new entry or under the equal key that
    was stored before. *)
Lemma insertEntry_returns_stored fuel allocator count trie_node new_entry
    seed hash hash_offset level leaf trie_node' allocator' :
  insertEntry_returns fuel allocator count trie_node new_entry seed hash hash_offset level
                      leaf trie_node' allocator' ->
  wf_node trie_node ->
  forall p, leaf = Some p ->
  exists stored,
    follow trie_node' p = Some (EntryNode (stored, new_entry.2)) /\
    (stored = new_entry.1 \/ key_equal stored new_entry.1 = true).
Proof.
  induction 1 as
    [ fuel allocator count trie new_entry seed hash hash_offset level placed trie'
        allocator' Hfree Hinsert
    | fuel allocator count trie new_entry seed hash hash_offset level child seed' hash'
        hash_offset' leaf node' allocator' Htaken Hget Hdescend Hrun IH
    | fuel allocator count trie new_entry seed hash hash_offset level old_entry
        Htaken Hget Hequal
    | fuel allocator count trie new_entry seed hash hash_offset level old_entry
        Htaken Hget Hequal Hoffset Hsame
    | fuel allocator count trie new_entry seed hash hash_offset level old_entry seed' hash'
        hash_offset' trie_node allocator1 trie_node1 allocator2
        Htaken Hget Hequal Hdescend Hdiffer Hfresh Hold IHold
    | fuel allocator count trie new_entry seed hash hash_offset level old_entry seed' hash'
        hash_offset' trie_node allocator1 replaced_node trie_node1 allocator2 leaf
        trie_node2 allocator3
        Htaken Hget Hequal Hdescend Hdiffer Hfresh Hold IHold Hnew IHnew ];
    intros Hwf p Hleaf;
    pose proof (slice_range hash hash_offset) as Ht;
    pose proof (physicalIndex_le_size trie _ Ht) as Hi.
  - destruct (bitmap_insert_cases _ _ _ _ _ _ _ _ _ (wf_node_trie _ Hwf) Ht Hfree Hinsert)
      as [(-> & _)|(capacity & Hcap & -> & ->)]; [discriminate|].
    injection Hleaf as <-.
    pose proof (logicalGet_marked trie _ capacity new_entry (wf_node_trie _ Hwf) Ht Hfree)
      as Hget.
    exists new_entry.1. split; [|left; reflexivity].
    match type of Hget with
    | BitmapTrie.logicalGet ?marked ?t = _ =>
        assert (Hindex : BitmapTrie.physicalIndex marked t = BitmapTrie.physicalIndex trie t)
    end.
    { rewrite taken_testbit in Hfree by assumption.
      destruct trie as [bitmap capacity0 base0]. cbn [_bitmap _base] in *.
      apply physicalIndex_mark; assumption. }
    pose proof (follow_child _ _ _ [] Hget) as Hfollow.
    rewrite Hindex in Hfollow. rewrite Hfollow.
    cbn [follow]. destruct new_entry; reflexivity.
  - destruct leaf as [p0|]; [|discriminate]. injection Hleaf as <-.
    destruct (IH (wf_node_logicalGet _ _ _ Hwf Hget) p0 eq_refl) as (stored & Hfollow & Hkey).
    exists stored. split; [|exact Hkey].
    erewrite follow_physicalSet; [exact Hfollow|lia|exact Hget].
  - injection Hleaf as <-. exists old_entry.1. split; [|right; exact Hequal].
    erewrite follow_physicalSet; [reflexivity|lia|exact Hget].
  - discriminate.
  - discriminate.
  - destruct leaf as [p0|]; [|discriminate]. injection Hleaf as <-.
    pose proof (wf_split_trie _ _ _ _ _ _ _ _ _ _ _ _ _ Hfresh Hold) as ->.
    assert (Hwf1 : wf_node trie_node1).
    { eapply insertEntry_returns_wf; [exact Hold|]. apply wf_fresh. lia. }
    destruct (IHnew Hwf1 p0 eq_refl) as (stored & Hfollow & Hkey).
    exists stored. split; [|exact Hkey].
    erewrite follow_physicalSet; [exact Hfollow|lia|exact Hget].
Qed.
End InsertLeaves.

(** ** Lookups, entries and size through the public interface *)

Section PublicLookups.
Context {Key T Allocator : Type}.
Context {Hasher : Hash Key} {Equal : KeyEqual Key} {Memory : Alloc.Ops Allocator} {Layout : NodeLayout}.
Local Abbreviation Entry := (Key * T)%type.
Local Abbreviation Node := (NodeTemplate (Key * T)).
Local Abbreviation BitmapTrie := (BitmapTrieTemplate (NodeTemplate (Key * T))).
Local Abbreviation HAMT := (HashArrayMappedTrie Key T Allocator).
Implicit Types (trie this : BitmapTrie) (node trie_node : Node) (allocator : Allocator).
Implicit Types (new_entry old_entry entry : Entry) (leaf : option handle).
Implicit Types (key : Key) (found : option T) (h : HAMT) (m : list Entry).

(** [find] returns on every container whose tries satisfy the data-model
    invariant: the loop of [findNode] needs no more steps than the trie is
    high, and it reads no cell that holds no node. *)
Theorem find_returns fuel h key :
  wf_node (_root h) -> Node.isTrie (_root h) = true ->
  (height (_root h) <= fuel)%nat ->
  exists found, HAMT.find fuel h key = Ret found.
Proof.
  intros Hwf Htrie Hfuel. rewrite find_find_in.
  destruct (_root h) as [entry|trie]; [discriminate|].
  apply find_in_returns; assumption.
Qed.

(** [find] never makes a value up: what it returns is the value of a leaf
    of the trie whose key [key_equal] accepts for the key looked for. *)
Theorem find_returns_stored_value fuel h key (value : T) :
  HAMT.find fuel h key = Ret (Some value) ->
  exists entry,
    In entry (leaves (_root h)) /\ key_equal entry.1 key = true /\ entry.2 = value.
Proof. rewrite find_find_in. apply find_in_sound. Qed.

(** An [insert] that returns a node does one of two things to the entries
    of the trie.  If [find] returned null for the key, the new entry is
    added and the others stay.  If [find] returned a value, the leaf that
    held it keeps its key and takes the new value, in its place among the
    others. *)
Theorem insert_adds_or_overwrites fuel h key (value : T) p h' :
  wf_node (_root h) ->
  HAMT.insert fuel h (key, value) = Ret (mkIterator (Some p), h') ->
  (returns (fun fuel => HAMT.find fuel h key) None /\
   Permutation (leaves (_root h')) ((key, value) :: leaves (_root h))) \/
  (exists old_entry pre post,
     returns (fun fuel => HAMT.find fuel h key) (Some old_entry.2) /\
     key_equal old_entry.1 key = true /\
     leaves (_root h) = pre ++ old_entry :: post /\
     leaves (_root h') = pre ++ (old_entry.1, value) :: post).
Proof.
  intros Hwf Hinsert.
  destruct (insert_cases _ _ _ _ _ Hinsert) as (leaf & root & allocator & Hrun & [= <-] & ->).
  cbn [_root].
  destruct (insertEntry_returns_leaves _ _ _ _ _ _ _ _ _ _ _ _ Hrun Hwf eq_refl p eq_refl)
    as [[Hfinds Hadded]|(old_entry & pre & post & Hfinds & Hequal & Hleaves & Hleaves')].
  - left. split; [apply finds_find; exact Hfinds|exact Hadded].
  - right. exists old_entry, pre, post.
    split; [apply finds_find; exact Hfinds|]. auto.
Qed.

(** The iterator that [insert] returns, when it is not null, dereferences
    to an entry with the inserted value; its key is the inserted key or, on
    an overwrite, the equal key that was stored first. *)
Theorem insert_iterator_dereferences fuel h key (value : T) it h' :
  wf_node (_root h) ->
  HAMT.insert fuel h (key, value) = Ret (it, h') ->
  _node it <> None ->
  exists stored,
    Iterator.operator_deref (_root h') it = Ret (stored, value) /\
    (stored = key \/ key_equal stored key = true).
Proof.
  intros Hwf Hinsert Hnode.
  destruct (insert_cases _ _ _ _ _ Hinsert) as (leaf & root & allocator & Hrun & -> & ->).
  destruct leaf as [p|]; [|contradiction]. clear Hnode.
  destruct (insertEntry_returns_stored _ _ _ _ _ _ _ _ _ _ _ _ Hrun Hwf p eq_refl)
    as (stored & Hfollow & Hkey).
  exists stored. split; [|exact Hkey].
  unfold Iterator.operator_deref. cbn [_node _root defined mbind result_bind].
  rewrite Hfollow. reflexivity.
Qed.

Lemma assoc_find_None m key :
  assoc_find m key = None -> Forall (fun entry => key_equal entry.1 key = false) m.
Proof.
  induction m as [|entry m IH]; cbn [assoc_find]; intros Hfind; constructor.
  - destruct (key_equal entry.1 key); [discriminate|reflexivity].
  - apply IH. destruct (key_equal entry.1 key); [discriminate|exact Hfind].
Qed.

Lemma assoc_insert_absent m new_entry :
  Forall (fun entry => key_equal entry.1 new_entry.1 = false) m ->
  assoc_insert m new_entry = m ++ [new_entry].
Proof.
  induction 1 as [|entry m Hhead _ IH]; cbn [assoc_insert app]; [reflexivity|].
  rewrite Hhead, IH. reflexivity.
Qed.

Lemma distinct_keys_app m new_entry :
  distinct_keys m ->
  Forall (fun entry => key_equal entry.1 new_entry.1 = false) m ->
  distinct_keys (m ++ [new_entry]).
Proof.
  induction m as [|entry m IH]; cbn [distinct_keys app]; intros Hdistinct Hnew.
  - split; constructor.
  - destruct Hdistinct as [Hhead Hdistinct]. inversion Hnew as [|? ? Hentry Hrest]; subst.
    split; [|apply IH; assumption].
    apply Forall_app. split; [exact Hhead|]. constructor; [exact Hentry|constructor].
Qed.

Lemma distinct_keys_fst m m' :
  map fst m = map fst m' -> distinct_keys m -> distinct_keys m'.
Proof.
  revert m'. induction m as [|entry m IH]; intros [|entry' m'] Hkeys; try discriminate;
    cbn [distinct_keys]; [auto|].
  cbn [map] in Hkeys. injection Hkeys as Hkey Hkeys. intros [Hhead Hdistinct].
  split; [|apply IH; assumption].
  rewrite <- Hkey. clear -Hhead Hkeys. revert m' Hkeys.
  induction Hhead as [|later m Hlater _ IHm]; intros [|later' m'] Hkeys; try discriminate;
    constructor.
  - cbn [map] in Hkeys. injection Hkeys as <- _. exact Hlater.
  - cbn [map] in Hkeys. injection Hkeys as _ Hkeys. apply IHm. exact Hkeys.
Qed.

Section LawfulKeys.
Hypothesis hasher_agrees : forall a b : Key, key_equal a b = true -> hasher a = hasher b.
Hypothesis key_equal_refl : forall a : Key, key_equal a a = true.
Hypothesis key_equal_sym : forall a b : Key, key_equal a b = true -> key_equal b a = true.
Hypothesis key_equal_trans :
  forall a b c : Key, key_equal a b = true -> key_equal b c = true -> key_equal a c = true.

Lemma assoc_insert_present m old_entry new_entry :
  distinct_keys m -> In old_entry m ->
  key_equal old_entry.1 new_entry.1 = true ->
  exists m1 m2,
    m = m1 ++ old_entry :: m2 /\
    assoc_insert m new_entry = m1 ++ (old_entry.1, new_entry.2) :: m2.
Proof.
  intros Hdistinct Hin Hequal.
  induction m as [|entry m IH]; [destruct Hin|].
  destruct Hdistinct as [Hhead Hdistinct]. cbn [assoc_insert].
  destruct (key_equal entry.1 new_entry.1) eqn:Hkey.
  - destruct Hin as [->|Hin]; [exists [], m; split; reflexivity|].
    exfalso. rewrite Forall_forall in Hhead. specialize (Hhead _ (proj2 (list_elem_of_In _ _) Hin)).
    rewrite (key_equal_trans _ _ _ Hkey (key_equal_sym _ _ Hequal)) in Hhead.
    discriminate.
  - destruct Hin as [->|Hin]; [congruence|].
    destruct (IH Hdistinct Hin) as (m1 & m2 & -> & ->).
    exists (entry :: m1), m2. split; reflexivity.
Qed.

Lemma built_leaves h m :
  built h m -> Permutation (leaves (_root h)) m /\ distinct_keys m.
Proof.
  induction 1 as [n a h Hconstruct Hbase|fuel h m entry p h' Hbuilt IH Hinsert
                 |fuel h m entry h' Hbuilt IH Hinsert|h m h' Hbuilt IH Hclear].
  - destruct (construct_root _ _ _ Hconstruct) as (capacity & base & _ & Hroot & Hnil & _).
    rewrite Hroot in *. cbn [leaves _base].
    destruct Hnil as [->| ->]; cbn [map concat distinct_keys]; auto.
  - destruct IH as [Hperm Hdistinct].
    pose proof (reachable_wf _ (reachable_built _ _ Hbuilt)) as Hwf.
    pose proof (built_finds hasher_agrees key_equal_refl key_equal_sym key_equal_trans
                  _ _ Hbuilt entry.1) as Hmodel.
    destruct (insert_cases _ _ _ _ _ Hinsert)
      as (leaf & root & allocator & Hrun & [= <-] & ->).
    cbn [_root].
    destruct (insertEntry_returns_leaves _ _ _ _ _ _ _ _ _ _ _ _ Hrun Hwf eq_refl p eq_refl)
      as [[Hfinds Hadded]
         |(old_entry & pre & post & Hfinds & Hequal & Hleaves & Hleaves')].
    + pose proof (finds_functional _ _ _ _ _ _ Hfinds Hmodel) as Habsent.
      symmetry in Habsent. apply assoc_find_None in Habsent.
      rewrite (assoc_insert_absent _ _ Habsent). split.
      * rewrite Hadded, Hperm. apply Permutation_cons_append.
      * apply distinct_keys_app; assumption.
    + assert (Hin : In old_entry m).
      { eapply Permutation_in; [exact Hperm|]. rewrite Hleaves.
        apply in_elt. }
      destruct (assoc_insert_present _ _ _ Hdistinct Hin Hequal) as (m1 & m2 & -> & ->).
      split.
      * rewrite Hleaves'. apply Permutation_elt.
        rewrite Hleaves in Hperm. eapply Permutation_app_inv. exact Hperm.
      * eapply distinct_keys_fst; [|exact Hdistinct].
        rewrite !map_app. reflexivity.
  - destruct IH as [Hperm Hdistinct].
    pose proof (reachable_wf _ (reachable_built _ _ Hbuilt)) as Hwf.
    destruct (insert_cases _ _ _ _ _ Hinsert)
      as (leaf & root & allocator & Hrun & [= <-] & ->).
    cbn [_root].
    rewrite (insertEntry_returns_null_leaves _ _ _ _ _ _ _ _ _ _ _ _ Hrun eq_refl Hwf).
    auto.
  - unfold HAMT.clear, BitmapTrie.clear in Hclear.
    destruct (Node.asTrie (_root h)); [|discriminate].
    cbn [defined mbind result_bind] in Hclear. injection Hclear as <-.
    cbn [_root leaves _base distinct_keys]. auto.
Qed.
End LawfulKeys.

(** The leaves of the trie are the stored entries: after a construction
    followed by any [insert] and [clear] calls, the entries of the leaves
    are, up to their order, those of the association list of the calls, in
    which no key is equal to an earlier one. *)
Theorem leaves_are_stored_entries h m :
  (forall a b : Key, key_equal a b = true -> hasher a = hasher b) ->
  (forall a : Key, key_equal a a = true) ->
  (forall a b : Key, key_equal a b = true -> key_equal b a = true) ->
  (forall a b c : Key, key_equal a b = true -> key_equal b c = true ->
                       key_equal a c = true) ->
  built h m ->
  Permutation (leaves (_root h)) m /\ distinct_keys m.
Proof.
  intros Hhash Hrefl Hsym Htrans Hbuilt.
  exact (built_leaves Hhash Hrefl Hsym Htrans _ _ Hbuilt).
Qed.

(** No insertion returns on a root whose array the constructor could not
    allocate: the new leaf would be written through the null [_base]. *)
Lemma no_return_on_null_root fuel allocator count capacity new_entry seed hash
    hash_offset level leaf trie_node' allocator' :
  1 <= capacity ->
  ~ insertEntry_returns fuel allocator count
      (TrieNode (mkBitmapTrie 0 capacity None)) new_entry seed hash hash_offset level
      leaf trie_node' allocator'.
Proof.
  intros Hcapacity Hrun. inversion Hrun; subst;
    try (rewrite taken_empty in *; discriminate).
  match goal with
  | Hinsert : BitmapTrie.insertEntry _ _ _ _ _ _ = Ret _ |- _ =>
      unfold BitmapTrie.insertEntry in Hinsert; cbn [_capacity _base] in Hinsert;
      change (BitmapTrie.size (mkBitmapTrie 0 capacity None)) with 0 in Hinsert;
      change (wrap32 (0 + 1)) with 1 in Hinsert;
      destruct (Z.ltb_spec capacity 1); [lia|discriminate]
  end.
Qed.

Lemma insert_all_counts fuel entries :
  forall h h',
    wf_node (_root h) ->
    HAMT.size h = wrap64 (Z.of_nat (length (leaves (_root h)))) ->
    Forall (fun entry =>
              Forall (fun stored => key_equal stored.1 entry.1 = false) (leaves (_root h)))
           entries ->
    distinct_keys entries ->
    HAMT.insert_all fuel h entries = Ret h' ->
    HAMT.size h' = wrap64 (Z.of_nat (length (leaves (_root h')))).
Proof.
  induction entries as [|entry entries IH]; intros h h' Hwf Hsize Hfresh Hdistinct Hall;
    cbn [HAMT.insert_all] in Hall.
  - injection Hall as <-. exact Hsize.
  - destruct (HAMT.insert fuel h entry) as [[it h1]| |] eqn:Hinsert; try discriminate.
    cbn [mbind result_bind] in Hall.
    pose proof (insert_wf _ _ _ _ _ Hwf Hinsert) as Hwf1.
    destruct Hdistinct as [Hhead Hdistinct].
    inversion Hfresh as [|? ? Hentry Hrest]; subst.
    destruct (insert_cases _ _ _ _ _ Hinsert) as (leaf & root & allocator & Hrun & -> & ->).
    cbn [_root] in *.
    refine (IH _ h' _ _ _ Hdistinct Hall); cbn [_root _count HAMT.size];
      [exact Hwf1| |]; destruct leaf as [p|].
    + destruct (insertEntry_returns_leaves _ _ _ _ _ _ _ _ _ _ _ _ Hrun Hwf eq_refl p eq_refl)
        as [[_ Hadded]|(old_entry & pre & post & [fuel' Hfind] & Hequal & Hleaves & _)].
      * rewrite Hadded. cbn [length]. unfold HAMT.size in Hsize. rewrite Hsize.
        unfold wrap64. rewrite Zplus_mod_idemp_l. f_equal. lia.
      * exfalso. rewrite Forall_forall in Hentry.
        assert (Hin : old_entry ∈ leaves (_root h)).
        { rewrite Hleaves. apply elem_of_app. right. left. }
        rewrite (Hentry _ Hin) in Hequal. discriminate.
    + rewrite (insertEntry_returns_null_leaves _ _ _ _ _ _ _ _ _ _ _ _ Hrun eq_refl Hwf).
      exact Hsize.
    + destruct (insertEntry_returns_leaves _ _ _ _ _ _ _ _ _ _ _ _ Hrun Hwf eq_refl p eq_refl)
        as [[_ Hadded]|(old_entry & pre & post & _ & Hequal & Hleaves & _)].
      * rewrite Forall_forall in Hrest, Hhead |- *. intros later Hlater.
        rewrite Hadded. constructor; [apply Hhead; exact Hlater|].
        apply Hrest. exact Hlater.
      * exfalso. rewrite Forall_forall in Hentry.
        assert (Hin : old_entry ∈ leaves (_root h)).
        { rewrite Hleaves. apply elem_of_app. right. left. }
        rewrite (Hentry _ Hin) in Hequal. discriminate.
    + rewrite (insertEntry_returns_null_leaves _ _ _ _ _ _ _ _ _ _ _ _ Hrun eq_refl Hwf).
      exact Hrest.
Qed.

(** When the keys inserted into a new container are pairwise different,
    [size()] is the number of leaves of the trie, whatever the insertions
    returned. *)
Theorem size_counts_leaves_of_distinct_keys fuel (n : Z) (a : Allocator) h entries h' :
  HAMT.construct n a = Ret h ->
  distinct_keys entries ->
  HAMT.insert_all fuel h entries = Ret h' ->
  HAMT.size h' = wrap64 (Z.of_nat (length (leaves (_root h')))).
Proof.
  intros Hconstruct Hdistinct Hall.
  destruct (construct_root _ _ _ Hconstruct)
    as (capacity & base & Hcapacity & Hroot & [-> | ->] & Hcount & _).
  - destruct entries as [|entry entries]; cbn [HAMT.insert_all] in Hall.
    + injection Hall as <-. unfold HAMT.size. rewrite Hcount, Hroot. reflexivity.
    + exfalso.
      destruct (HAMT.insert fuel h entry) as [[it h1]| |] eqn:Hinsert; try discriminate.
      destruct (insert_cases _ _ _ _ _ Hinsert) as (leaf & root & allocator & Hrun & _).
      rewrite Hroot in Hrun.
      eapply no_return_on_null_root; [|exact Hrun]. lia.
  - apply (insert_all_counts fuel entries h h'); try assumption.
    + rewrite Hroot. apply wf_fresh. lia.
    + unfold HAMT.size. rewrite Hcount, Hroot. reflexivity.
    + rewrite Hroot. cbn [leaves _base map concat].
      apply Forall_forall. intros; constructor.
Qed.
End PublicLookups.

(** ** The bits of the hash that the slices read *)

Section HashBits.
Context {Key : Type} {Hasher : Hash Key}.
Implicit Types (key a b : Key).

Lemma hash32_testbit key seed n :
  0 <= n < 32 ->
  Z.testbit (HAMT.hash32 key seed) n = xorb (Z.testbit seed n) (Z.testbit (hasher key) n).
Proof.
  intros Hn. unfold HAMT.hash32, wrap32, wrap64.
  rewrite Z.mod_pow2_bits_low, Z.lxor_spec, Z.mod_pow2_bits_low by lia. reflexivity.
Qed.

Lemma hash32_testbit_high key seed n :
  32 <= n -> Z.testbit (HAMT.hash32 key seed) n = false.
Proof.
  intros Hn. unfold HAMT.hash32, wrap32. apply Z.mod_pow2_bits_high. lia.
Qed.

Lemma slice_testbit (hash hash_offset n : Z) :
  0 <= hash_offset -> 0 <= n ->
  Z.testbit (Z.land (Z.shiftr hash hash_offset) 31) n =
  Z.testbit hash (n + hash_offset) && (n <? 5).
Proof.
  intros Hoffset Hn. change 31 with (Z.ones 5).
  rewrite Z.land_spec, Z.shiftr_spec, Z.testbit_ones_nonneg by lia. reflexivity.
Qed.

Lemma offsets_range (hash_offset : Z) :
  In hash_offset [0; 5; 10; 15; 20; 25] -> 0 <= hash_offset <= 25.
Proof. cbn [In]. lia. Qed.

Lemma offsets_next (hash_offset : Z) :
  In hash_offset [0; 5; 10; 15; 20; 25] -> hash_offset < 25 ->
  In (hash_offset + 5) [0; 5; 10; 15; 20; 25].
Proof. cbn [In]. lia. Qed.

Lemma same_slices_testbit a b :
  same_slices a b <->
  forall n, 0 <= n < 30 -> Z.testbit (hasher a) n = Z.testbit (hasher b) n.
Proof.
  unfold same_slices. split.
  - intros Hsame n Hn.
    rewrite <- (Z.mod_pow2_bits_low (hasher a) 30 n), <- (Z.mod_pow2_bits_low (hasher b) 30 n)
      by lia.
    rewrite Hsame. reflexivity.
  - intros Hbits. apply Z.bits_inj'. intros n Hn.
    destruct (Z.lt_ge_cases n 30).
    + rewrite !Z.mod_pow2_bits_low by lia. apply Hbits. lia.
    + rewrite !Z.mod_pow2_bits_high by lia. reflexivity.
Qed.

Lemma collide_testbit a b :
  collide a b <->
  forall n, 0 <= n < 32 -> Z.testbit (hasher a) n = Z.testbit (hasher b) n.
Proof.
  unfold collide. split.
  - intros Hsame n Hn.
    rewrite <- (Z.mod_pow2_bits_low (hasher a) 32 n), <- (Z.mod_pow2_bits_low (hasher b) 32 n)
      by lia.
    rewrite Hsame. reflexivity.
  - intros Hbits. apply Z.bits_inj'. intros n Hn.
    destruct (Z.lt_ge_cases n 32).
    + rewrite !Z.mod_pow2_bits_low by lia. apply Hbits. lia.
    + rewrite !Z.mod_pow2_bits_high by lia. reflexivity.
Qed.

Lemma collide_hash32 a b seed :
  collide a b <-> HAMT.hash32 a seed = HAMT.hash32 b seed.
Proof.
  rewrite collide_testbit. split.
  - intros Hbits. apply Z.bits_inj'. intros n Hn.
    destruct (Z.lt_ge_cases n 32).
    + rewrite !hash32_testbit, Hbits by lia. reflexivity.
    + rewrite !hash32_testbit_high by lia. reflexivity.
  - intros Hsame n Hn.
    apply (f_equal (fun x => Z.testbit x n)) in Hsame.
    rewrite !hash32_testbit in Hsame by lia.
    destruct (Z.testbit seed n), (Z.testbit (hasher a) n), (Z.testbit (hasher b) n);
      cbn in Hsame; congruence.
Qed.

Lemma same_slices_slice a b seed hash_offset :
  same_slices a b -> In hash_offset [0; 5; 10; 15; 20; 25] ->
  Z.land (Z.shiftr (HAMT.hash32 a seed) hash_offset) 31 =
  Z.land (Z.shiftr (HAMT.hash32 b seed) hash_offset) 31.
Proof.
  rewrite same_slices_testbit. intros Hbits Hoffset.
  apply offsets_range in Hoffset.
  apply Z.bits_inj'. intros n Hn. rewrite !slice_testbit by lia.
  destruct (Z.ltb_spec n 5); [|rewrite !andb_false_r; reflexivity].
  rewrite !hash32_testbit, Hbits by lia. reflexivity.
Qed.

(** Two hashes that agree below an offset and in the slice at the offset
    agree below the next offset. *)
Lemma agree_extend (x y hash_offset : Z) :
  0 <= hash_offset ->
  (forall n, 0 <= n < hash_offset -> Z.testbit x n = Z.testbit y n) ->
  Z.land (Z.shiftr x hash_offset) 31 = Z.land (Z.shiftr y hash_offset) 31 ->
  forall n, 0 <= n < hash_offset + 5 -> Z.testbit x n = Z.testbit y n.
Proof.
  intros Hoffset Hbelow Hslice n Hn.
  destruct (Z.lt_ge_cases n hash_offset); [apply Hbelow; lia|].
  apply (f_equal (fun s => Z.testbit s (n - hash_offset))) in Hslice.
  rewrite !slice_testbit in Hslice by lia.
  replace (n - hash_offset + hash_offset) with n in Hslice by lia.
  destruct (Z.ltb_spec (n - hash_offset) 5); [|lia].
  rewrite !andb_true_r in Hslice. exact Hslice.
Qed.

Lemma agree_same_slices a b seed :
  (forall n, 0 <= n < 30 ->
             Z.testbit (HAMT.hash32 a seed) n = Z.testbit (HAMT.hash32 b seed) n) ->
  same_slices a b.
Proof.
  intros Hbits. apply same_slices_testbit. intros n Hn.
  specialize (Hbits n Hn). rewrite !hash32_testbit in Hbits by lia.
  destruct (Z.testbit seed n), (Z.testbit (hasher a) n), (Z.testbit (hasher b) n);
    cbn in Hbits; congruence.
Qed.
End HashBits.

(** ** A split that cannot end *)

Section NeverReturns.
Context {Key T Allocator : Type}.
Context {Hasher : Hash Key} {Equal : KeyEqual Key} {Memory : Alloc.Ops Allocator} {Layout : NodeLayout}.
Local Abbreviation Entry := (Key * T)%type.
Local Abbreviation Node := (NodeTemplate (Key * T)).
Local Abbreviation BitmapTrie := (BitmapTrieTemplate (NodeTemplate (Key * T))).
Local Abbreviation HAMT := (HashArrayMappedTrie Key T Allocator).
Implicit Types (trie this : BitmapTrie) (node trie_node : Node) (allocator : Allocator).
Implicit Types (new_entry old_entry entry : Entry) (leaf : option handle).
Implicit Types (key : Key) (found : option T) (h : HAMT).

(** The ways in which an insertion returns when the slot of the new key
    holds a leaf with another key. *)
Lemma returns_on_other_key fuel allocator count trie new_entry seed hash hash_offset level
    leaf trie_node' allocator' old_entry :
  insertEntry_returns fuel allocator count (TrieNode trie) new_entry seed hash hash_offset
                      level leaf trie_node' allocator' ->
  BitmapTrie.logicalPositionTaken trie (Z.land (Z.shiftr hash hash_offset) 31) = true ->
  BitmapTrie.logicalGet trie (Z.land (Z.shiftr hash hash_offset) 31)
    = Some (EntryNode old_entry) ->
  key_equal old_entry.1 new_entry.1 = false ->
  (25 <= hash_offset /\
   HAMT.hash32 new_entry.1 (HAMT.next_seed seed)
     = HAMT.hash32 old_entry.1 (HAMT.next_seed seed) /\
   leaf = None /\ trie_node' = TrieNode trie) \/
  (exists fuel' seed' hash' hash_offset' allocator1 leaf1 trie_node1,
     fuel = S fuel' /\
     descend new_entry.1 (seed, hash, hash_offset) = (seed', hash', hash_offset') /\
     (hash_offset < 25 \/ hash' <> HAMT.hash32 old_entry.1 seed') /\
     insertEntry_returns fuel' allocator1 count
       (TrieNode (mkBitmapTrie
          (wrap32 (Z.shiftl 1
             (Z.land (Z.shiftr (HAMT.hash32 old_entry.1 seed') hash_offset') 31)))
          2 (Some [EntryNode old_entry])))
       new_entry seed' hash' hash_offset' (wrap32 (level + 1)) leaf1 trie_node1 allocator' /\
     leaf = option_map
              (cons (Z.to_nat (BitmapTrie.physicalIndex trie
                       (Z.land (Z.shiftr hash hash_offset) 31)))) leaf1 /\
     trie_node' = TrieNode (BitmapTrie.physicalSet trie
                              (BitmapTrie.physicalIndex trie
                                 (Z.land (Z.shiftr hash hash_offset) 31)) trie_node1)).
Proof.
  intros Hrun Htaken Hget Hother.
  inversion Hrun as
    [ fuel0 allocator0 count0 trie0 new_entry0 seed0 hash0 hash_offset0 level0 placed trie'
        allocator0' Hfree Hinsert
    | fuel0 allocator0 count0 trie0 new_entry0 seed0 hash0 hash_offset0 level0 child seed'
        hash' hash_offset' leaf0 node' allocator0' Htaken0 Hget0 Hdescend Hrun0
    | fuel0 allocator0 count0 trie0 new_entry0 seed0 hash0 hash_offset0 level0 old_entry0
        Htaken0 Hget0 Hequal
    | fuel0 allocator0 count0 trie0 new_entry0 seed0 hash0 hash_offset0 level0 old_entry0
        Htaken0 Hget0 Hequal Hoffset Hsame
    | fuel0 allocator0 count0 trie0 new_entry0 seed0 hash0 hash_offset0 level0 old_entry0
        seed' hash' hash_offset' trie_node allocator1 trie_node1 allocator2
        Htaken0 Hget0 Hequal Hdescend Hdiffer Hfresh Hold
    | fuel0 allocator0 count0 trie0 new_entry0 seed0 hash0 hash_offset0 level0 old_entry0
        seed' hash' hash_offset' trie_node allocator1 replaced_node trie_node1 allocator2
        leaf0 trie_node2 allocator3
        Htaken0 Hget0 Hequal Hdescend Hdiffer Hfresh Hold Hnew ]; subst.
  - congruence.
  - congruence.
  - congruence.
  - left. replace old_entry with old_entry0 by congruence. auto.
  - pose proof (wf_split_trie _ _ _ _ _ _ _ _ _ _ _ _ _ Hfresh Hold) as ->.
    apply return_on_fresh in Hold as [[=] _].
  - right. replace old_entry0 with old_entry in * by congruence.
    pose proof (wf_split_trie _ _ _ _ _ _ _ _ _ _ _ _ _ Hfresh Hold) as ->.
    apply return_on_fresh in Hold as (_ & -> & ->).
    exists fuel0, seed', hash', hash_offset', allocator1, leaf0, trie_node2.
    repeat split; try assumption.
Qed.

Lemma split_chain_never_returns fuel :
  forall allocator count old_entry new_entry seed hash_offset level leaf trie_node'
         allocator',
    key_equal old_entry.1 new_entry.1 = false ->
    same_slices old_entry.1 new_entry.1 ->
    ~ collide old_entry.1 new_entry.1 ->
    In hash_offset [0; 5; 10; 15; 20; 25] ->
    ~ insertEntry_returns fuel allocator count
        (TrieNode (mkBitmapTrie
           (wrap32 (Z.shiftl 1
              (Z.land (Z.shiftr (HAMT.hash32 old_entry.1 seed) hash_offset) 31)))
           2 (Some [EntryNode old_entry])))
        new_entry seed (HAMT.hash32 new_entry.1 seed) hash_offset level
        leaf trie_node' allocator'.
Proof.
  induction fuel as [|fuel IH];
    intros allocator count old_entry new_entry seed hash_offset level leaf trie_node'
           allocator' Hother Hslices Hdiffer Hoffset Hrun.
  - inversion Hrun.
  - pose proof (slice_range (HAMT.hash32 old_entry.1 seed) hash_offset) as Hs.
    pose proof (same_slices_slice _ _ seed _ Hslices Hoffset) as Hslot.
    apply (returns_on_other_key _ _ _ _ _ _ _ _ _ _ _ _ old_entry) in Hrun;
      [| rewrite <- Hslot, taken_single by assumption;
         apply bool_decide_eq_true_2; reflexivity
       | rewrite <- Hslot; apply logicalGet_single; assumption
       | exact Hother ].
    destruct Hrun as [(_ & Hsame & _)
                     |(fuel' & seed' & hash' & hash_offset' & allocator1 & leaf1
                       & trie_node1 & [= <-] & Hdescend & _ & Hrun & _)].
    + apply Hdiffer. apply (collide_hash32 _ _ (HAMT.next_seed seed)). symmetry. exact Hsame.
    + rewrite descend_hash in Hdescend. cbv zeta in Hdescend.
      injection Hdescend as <- <- <-.
      eapply IH; [exact Hother|exact Hslices|exact Hdiffer| |exact Hrun].
      destruct (Z.ltb_spec hash_offset 25); [apply offsets_next; assumption|].
      left. reflexivity.
Qed.
End NeverReturns.

(** ** Every physical cell belongs to a taken slot *)

Section Select.
Context {Entry : Type}.
Local Abbreviation Node := (NodeTemplate Entry).
Local Abbreviation BitmapTrie := (BitmapTrieTemplate (NodeTemplate Entry)).
Implicit Types (this trie : BitmapTrie) (node child : Node).

Lemma count_bits_select (n : nat) (x i : Z) :
  0 <= i < count_bits n x ->
  exists t : nat, (t < n)%nat /\ Z.testbit x (Z.of_nat t) = true /\ count_bits t x = i.
Proof.
  induction n as [|n IH]; cbn [count_bits]; intros Hi; [lia|].
  destruct (Z.lt_ge_cases i (count_bits n x)) as [Hlt|Hge].
  - destruct (IH ltac:(lia)) as (t & Ht & Hbit & Hcount). exists t. auto with lia.
  - exists n. destruct (Z.testbit x (Z.of_nat n)); cbn [Z.b2z] in Hi; [|lia].
    repeat split; lia.
Qed.

Lemma physical_slot trie base (i : nat) child :
  wf_trie trie -> _base trie = Some base -> base !! i = Some child ->
  exists t,
    0 <= t < 32 /\ BitmapTrie.logicalPositionTaken trie t = true /\
    BitmapTrie.physicalIndex trie t = Z.of_nat i /\
    BitmapTrie.logicalGet trie t = Some child.
Proof.
  intros [Hbits Hwf] Hbase Hget. rewrite Hbase in Hwf. destruct Hwf as [Hlen _].
  pose proof (lookup_lt_Some _ _ _ Hget) as Hi.
  destruct (count_bits_select 32 (_bitmap trie) (Z.of_nat i)) as (t & Ht & Hbit & Hcount).
  { unfold popcount in Hlen. lia. }
  exists (Z.of_nat t).
  assert (Hrange : 0 <= Z.of_nat t < 32) by lia.
  split; [exact Hrange|]. split; [rewrite taken_testbit by assumption; exact Hbit|].
  assert (Hindex : BitmapTrie.physicalIndex trie (Z.of_nat t) = Z.of_nat i).
  { rewrite physicalIndex_count, Nat2Z.id by assumption. exact Hcount. }
  split; [exact Hindex|].
  unfold BitmapTrie.logicalGet, BitmapTrie.physicalGet.
  rewrite Hbase, Hindex, Nat2Z.id. exact Hget.
Qed.

(** An entry below a trie lies below the child of a taken slot. *)
Lemma leaves_slot trie (entry : Entry) :
  wf_trie trie -> In entry (leaves (TrieNode trie)) ->
  exists t child,
    0 <= t < 32 /\ BitmapTrie.logicalPositionTaken trie t = true /\
    BitmapTrie.logicalGet trie t = Some child /\ In entry (leaves child).
Proof.
  intros Hwf Hin. cbn [leaves] in Hin.
  destruct (_base trie) as [base|] eqn:Hbase; [|destruct Hin].
  apply in_concat in Hin as (l & Hl & Hin).
  apply in_map_iff in Hl as (child & <- & Hchild).
  apply list_elem_of_In, list_elem_of_lookup_1 in Hchild as [i Hget].
  destruct (physical_slot _ _ _ _ Hwf Hbase Hget) as (t & Ht & Htaken & _ & Hlogical).
  exists t, child. auto.
Qed.
End Select.

(** ** Entries stay on the path of their hash *)

Section PlacedFacts.
Context {Key T Allocator : Type}.
Context {Hasher : Hash Key} {Equal : KeyEqual Key} {Memory : Alloc.Ops Allocator} {Layout : NodeLayout}.
Local Abbreviation Entry := (Key * T)%type.
Local Abbreviation Node := (NodeTemplate (Key * T)).
Local Abbreviation BitmapTrie := (BitmapTrieTemplate (NodeTemplate (Key * T))).
Local Abbreviation HAMT := (HashArrayMappedTrie Key T Allocator).
Implicit Types (trie this : BitmapTrie) (node trie_node child : Node) (allocator : Allocator).
Implicit Types (new_entry old_entry entry : Entry) (leaf : option handle).
Implicit Types (key : Key) (found : option T) (h : HAMT).

Lemma placed_empty seed capacity base :
  placed seed 0 (TrieNode (mkBitmapTrie 0 capacity base) : Node).
Proof.
  constructor; [left; reflexivity| | |];
    intros; rewrite taken_empty in *; discriminate.
Qed.

Lemma placed_single seed hash_offset entry :
  In hash_offset [0; 5; 10; 15; 20; 25] ->
  placed seed hash_offset
    (TrieNode (mkBitmapTrie
       (wrap32 (Z.shiftl 1 (Z.land (Z.shiftr (HAMT.hash32 entry.1 seed) hash_offset) 31)))
       2 (Some [EntryNode entry]))).
Proof.
  intros Hoffset.
  pose proof (slice_range (HAMT.hash32 entry.1 seed) hash_offset) as Hs.
  assert (Hslot : forall t child,
             0 <= t < 32 ->
             BitmapTrie.logicalGet
               (mkBitmapTrie
                  (wrap32 (Z.shiftl 1
                     (Z.land (Z.shiftr (HAMT.hash32 entry.1 seed) hash_offset) 31)))
                  2 (Some [EntryNode entry]) : BitmapTrie) t = Some child ->
             BitmapTrie.logicalPositionTaken
               (mkBitmapTrie
                  (wrap32 (Z.shiftl 1
                     (Z.land (Z.shiftr (HAMT.hash32 entry.1 seed) hash_offset) 31)))
                  2 (Some [EntryNode entry]) : BitmapTrie) t = true ->
             t = Z.land (Z.shiftr (HAMT.hash32 entry.1 seed) hash_offset) 31 /\
             child = EntryNode entry).
  { intros t child Ht Hget Htaken. rewrite taken_single in Htaken by assumption.
    apply bool_decide_eq_true_1 in Htaken. subst t.
    rewrite logicalGet_single in Hget by assumption. split; congruence. }
  constructor; [exact Hoffset| | |].
  - intros t child e Ht Hget Htaken Hin.
    destruct (Hslot t child Ht Hget Htaken) as [-> ->].
    destruct Hin as [<-|[]]. reflexivity.
  - intros t child Ht Hget Htaken Htrie.
    destruct (Hslot t child Ht Hget Htaken) as [_ ->]. discriminate.
  - intros t child Ht Hget Htaken.
    destruct (Hslot t child Ht Hget Htaken) as [_ ->]. constructor.
Qed.

Lemma placed_physicalSet seed hash_offset trie t node node' :
  placed seed hash_offset (TrieNode trie) ->
  0 <= t < 32 ->
  BitmapTrie.logicalPositionTaken trie t = true ->
  BitmapTrie.logicalGet trie t = Some node ->
  (forall entry, In entry (leaves node') ->
                 Z.land (Z.shiftr (HAMT.hash32 entry.1 seed) hash_offset) 31 = t) ->
  (Node.isTrie node' = true -> hash_offset < 25) ->
  placed seed (hash_offset + 5) node' ->
  placed seed hash_offset
    (TrieNode (BitmapTrie.physicalSet trie (BitmapTrie.physicalIndex trie t) node')).
Proof.
  intros Hplaced Ht Htaken Hget Hslice Hdepth Hbelow.
  inversion Hplaced as [|? ? Hoffset Hslots Hdepths Hbelows]; subst.
  pose proof (physicalIndex_le_size trie t Ht) as Hi.
  assert (Hcases : forall t' child,
             0 <= t' < 32 ->
             BitmapTrie.logicalGet
               (BitmapTrie.physicalSet trie (BitmapTrie.physicalIndex trie t) node') t'
               = Some child ->
             BitmapTrie.logicalPositionTaken trie t' = true ->
             (t' = t /\ child = node') \/
             BitmapTrie.logicalGet trie t' = Some child).
  { intros t' child Ht' Hget' Htaken'.
    pose proof (physicalIndex_le_size trie t' Ht') as Hi'.
    destruct (Z.eq_dec (BitmapTrie.physicalIndex trie t') (BitmapTrie.physicalIndex trie t))
      as [Hsame|Hne].
    - apply physicalIndex_inj in Hsame; try assumption. subst t'.
      erewrite logicalGet_physicalSet in Hget'; [|lia|exact Hget].
      left. split; congruence.
    - rewrite logicalGet_physicalSet_ne in Hget' by lia. right. exact Hget'. }
  constructor; [exact Hoffset| | |].
  - intros t' child entry Ht' Hget' Htaken' Hin. rewrite taken_physicalSet in Htaken'.
    destruct (Hcases t' child Ht' Hget' Htaken') as [[-> ->]|Hold]; [auto|].
    eapply Hslots; eassumption.
  - intros t' child Ht' Hget' Htaken' Htrie. rewrite taken_physicalSet in Htaken'.
    destruct (Hcases t' child Ht' Hget' Htaken') as [[-> ->]|Hold]; [auto|].
    eapply Hdepths; eassumption.
  - intros t' child Ht' Hget' Htaken'. rewrite taken_physicalSet in Htaken'.
    destruct (Hcases t' child Ht' Hget' Htaken') as [[-> ->]|Hold]; [auto|].
    eapply Hbelows; eassumption.
Qed.

Lemma placed_marked seed hash_offset this t capacity entry :
  placed seed hash_offset (TrieNode this) ->
  wf_trie this -> 0 <= t < 32 ->
  BitmapTrie.logicalPositionTaken this t = false ->
  Z.land (Z.shiftr (HAMT.hash32 entry.1 seed) hash_offset) 31 = t ->
  placed seed hash_offset
    (TrieNode (mkBitmapTrie
       (Z.lor (_bitmap this) (wrap32 (Z.shiftl 1 t))) capacity
       (Some (take (Z.to_nat (BitmapTrie.physicalIndex this t)) (default [] (_base this))
              ++ EntryNode entry
              :: drop (Z.to_nat (BitmapTrie.physicalIndex this t))
                      (default [] (_base this)))))).
Proof.
  intros Hplaced Hwf Ht Hfree Hslice.
  inversion Hplaced as [|? ? Hoffset Hslots Hdepths Hbelows]; subst hash_offset0 trie.
  assert (Hcases : forall t' child,
             0 <= t' < 32 ->
             BitmapTrie.logicalGet
               (mkBitmapTrie
                  (Z.lor (_bitmap this) (wrap32 (Z.shiftl 1 t))) capacity
                  (Some (take (Z.to_nat (BitmapTrie.physicalIndex this t))
                              (default [] (_base this))
                         ++ EntryNode entry
                         :: drop (Z.to_nat (BitmapTrie.physicalIndex this t))
                                 (default [] (_base this))))) t'
               = Some child ->
             BitmapTrie.logicalPositionTaken
               (mkBitmapTrie
                  (Z.lor (_bitmap this) (wrap32 (Z.shiftl 1 t))) capacity
                  (Some (take (Z.to_nat (BitmapTrie.physicalIndex this t))
                              (default [] (_base this))
                         ++ EntryNode entry
                         :: drop (Z.to_nat (BitmapTrie.physicalIndex this t))
                                 (default [] (_base this)))) : BitmapTrie) t' = true ->
             (t' = t /\ child = EntryNode entry) \/
             (BitmapTrie.logicalGet this t' = Some child /\
              BitmapTrie.logicalPositionTaken this t' = true)).
  { intros t' child Ht' Hget' Htaken'.
    destruct (Z.eq_dec t' t) as [->|Hne].
    - rewrite logicalGet_marked in Hget' by assumption. left. split; congruence.
    - rewrite taken_marked_ne in Htaken' by assumption.
      rewrite logicalGet_marked_ne in Hget' by assumption. right. auto. }
  constructor; [exact Hoffset| | |].
  - intros t' child e Ht' Hget' Htaken' Hin.
    destruct (Hcases t' child Ht' Hget' Htaken') as [[-> ->]|[Hold Htaken]].
    + destruct Hin as [<-|[]]. exact Hslice.
    + eapply Hslots; eassumption.
  - intros t' child Ht' Hget' Htaken' Htrie.
    destruct (Hcases t' child Ht' Hget' Htaken') as [[-> ->]|[Hold Htaken]]; [discriminate|].
    eapply Hdepths; eassumption.
  - intros t' child Ht' Hget' Htaken'.
    destruct (Hcases t' child Ht' Hget' Htaken') as [[-> ->]|[Hold Htaken]]; [constructor|].
    eapply Hbelows; eassumption.
Qed.

(** The keys below the node an insertion returns are the keys that were
    there and the new one. *)
Lemma insertEntry_returns_keys fuel allocator count trie_node new_entry
    seed hash hash_offset level leaf trie_node' allocator' :
  insertEntry_returns fuel allocator count trie_node new_entry seed hash hash_offset level
                      leaf trie_node' allocator' ->
  wf_node trie_node ->
  hash = HAMT.hash32 new_entry.1 seed ->
  forall entry', In entry' (leaves trie_node') ->
    entry'.1 = new_entry.1 \/
    exists entry, In entry (leaves trie_node) /\ entry.1 = entry'.1.
Proof.
  intros Hrun Hwf Hhash entry' Hin.
  destruct leaf as [p|].
  - destruct (insertEntry_returns_leaves _ _ _ _ _ _ _ _ _ _ _ _ Hrun Hwf Hhash p eq_refl)
      as [[_ Hadded]|(old_entry & pre & post & _ & _ & Hleaves & Hleaves')].
    + eapply Permutation_in in Hin; [|exact Hadded].
      destruct Hin as [<-|Hin]; [left; reflexivity|right; eauto].
    + rewrite Hleaves' in Hin. rewrite Hleaves.
      apply in_app_or in Hin as [Hin|[<-|Hin]].
      * right. exists entry'. split; [apply in_or_app; left; exact Hin|reflexivity].
      * right. exists old_entry. split; [apply in_elt|reflexivity].
      * right. exists entry'. split; [|reflexivity].
        apply in_or_app. right. right. exact Hin.
  - rewrite (insertEntry_returns_null_leaves _ _ _ _ _ _ _ _ _ _ _ _ Hrun eq_refl Hwf) in Hin.
    right. eauto.
Qed.

Lemma insertEntry_returns_placed fuel allocator count trie_node new_entry
    seed hash hash_offset level leaf trie_node' allocator' :
  insertEntry_returns fuel allocator count trie_node new_entry seed hash hash_offset level
                      leaf trie_node' allocator' ->
  wf_node trie_node ->
  hash = HAMT.hash32 new_entry.1 seed ->
  placed seed hash_offset trie_node ->
  (forall entry, In entry (leaves trie_node) ->
     forall n, 0 <= n < hash_offset ->
               Z.testbit (HAMT.hash32 entry.1 seed) n = Z.testbit hash n) ->
  placed seed hash_offset trie_node'.
Proof.
  induction 1 as
    [ fuel allocator count trie new_entry seed hash hash_offset level placed0 trie'
        allocator' Hfree Hinsert
    | fuel allocator count trie new_entry seed hash hash_offset level child seed' hash'
        hash_offset' leaf node' allocator' Htaken Hget Hdescend Hrun IH
    | fuel allocator count trie new_entry seed hash hash_offset level old_entry
        Htaken Hget Hequal
    | fuel allocator count trie new_entry seed hash hash_offset level old_entry
        Htaken Hget Hequal Hoffset Hsame
    | fuel allocator count trie new_entry seed hash hash_offset level old_entry seed' hash'
        hash_offset' trie_node allocator1 trie_node1 allocator2
        Htaken Hget Hequal Hdescend Hdiffer Hfresh Hold IHold
    | fuel allocator count trie new_entry seed hash hash_offset level old_entry seed' hash'
        hash_offset' trie_node allocator1 replaced_node trie_node1 allocator2 leaf
        trie_node2 allocator3
        Htaken Hget Hequal Hdescend Hdiffer Hfresh Hold IHold Hnew IHnew ];
    intros Hwf Hhash Hplaced Hagree;
    pose proof (slice_range hash hash_offset) as Ht;
    inversion Hplaced as [|? ? Hoffset' Hslots Hdepths Hbelows]; subst hash_offset0 trie0.
  - destruct (bitmap_insert_cases _ _ _ _ _ _ _ _ _ (wf_node_trie _ Hwf) Ht Hfree Hinsert)
      as [(_ & -> & _)|(capacity & Hcap & _ & ->)]; [exact Hplaced|].
    apply placed_marked; try assumption; [apply wf_node_trie; exact Hwf|].
    rewrite Hhash. reflexivity.
  - pose proof (Hdepths _ _ Ht Hget Htaken eq_refl) as Hbelow25.
    rewrite descend_lt in Hdescend by assumption. injection Hdescend as <- <- <-.
    pose proof (wf_node_logicalGet _ _ _ Hwf Hget) as Hwfc.
    assert (Hplaced' : placed seed (hash_offset + 5) node').
    { apply IH; try assumption.
      - eapply Hbelows; eassumption.
      - intros entry Hin. apply agree_extend.
        + apply offsets_range in Hoffset'. lia.
        + apply Hagree. eapply leaves_logicalGet; eassumption.
        + eapply Hslots; eassumption. }
    eapply placed_physicalSet; try eassumption.
    + intros entry' Hin.
      destruct (insertEntry_returns_keys _ _ _ _ _ _ _ _ _ _ _ _ Hrun Hwfc Hhash entry' Hin)
        as [Hnew|(entry & Hin' & Hkey)].
      * rewrite Hnew, <- Hhash. reflexivity.
      * rewrite <- Hkey. eapply Hslots; eassumption.
    + intros _. exact Hbelow25.
  - eapply placed_physicalSet; try eassumption.
    + intros entry' [<-|[]]. cbn [fst].
      eapply (Hslots _ _ old_entry); try eassumption. left. reflexivity.
    + discriminate.
    + constructor.
  - exact Hplaced.
  - pose proof (wf_split_trie _ _ _ _ _ _ _ _ _ _ _ _ _ Hfresh Hold) as ->.
    apply return_on_fresh in Hold as [[=] _].
  - pose proof (wf_split_trie _ _ _ _ _ _ _ _ _ _ _ _ _ Hfresh Hold) as ->.
    pose proof (insertEntry_returns_wf _ _ _ _ _ _ _ _ _ _ _ _ Hold
                  (wf_fresh 2 ltac:(lia))) as Hwf1.
    apply return_on_fresh in Hold as (_ & -> & _).
    assert (Hold_in : In old_entry (leaves (TrieNode trie))).
    { eapply leaves_logicalGet; [exact Hget|]. left. reflexivity. }
    assert (Hold_slot : Z.land (Z.shiftr (HAMT.hash32 old_entry.1 seed) hash_offset) 31 =
                        Z.land (Z.shiftr hash hash_offset) 31).
    { eapply (Hslots _ _ old_entry); try eassumption. left. reflexivity. }
    assert (Hextend : forall n, 0 <= n < hash_offset + 5 ->
                        Z.testbit (HAMT.hash32 old_entry.1 seed) n = Z.testbit hash n).
    { apply agree_extend; [apply offsets_range in Hoffset'; lia| |exact Hold_slot].
      apply Hagree. exact Hold_in. }
    destruct (Z.ltb_spec hash_offset 25) as [Hlt|Hge].
    + rewrite descend_lt in Hdescend by assumption. injection Hdescend as <- <- <-.
      assert (Hplaced2 : placed seed (hash_offset + 5) trie_node2).
      { apply IHnew; try assumption.
        - apply placed_single. apply offsets_next; assumption.
        - intros entry [<-|[]]. exact Hextend. }
      eapply placed_physicalSet; try eassumption.
      * intros entry' Hin.
        destruct (insertEntry_returns_keys _ _ _ _ _ _ _ _ _ _ _ _ Hnew Hwf1 Hhash entry' Hin)
          as [Hkey|(entry & [<-|[]] & Hkey)].
        -- rewrite Hkey, <- Hhash. reflexivity.
        -- rewrite <- Hkey. exact Hold_slot.
      * intros _. exact Hlt.
    + exfalso. rewrite descend_ge in Hdescend by assumption.
      injection Hdescend as <- <- <-.
      destruct Hdiffer as [?|Hdiffer]; [lia|].
      assert (Hoffset25 : hash_offset = 25) by (apply offsets_range in Hoffset'; lia).
      subst hash_offset. rewrite Hhash in Hextend.
      eapply (split_chain_never_returns fuel _ count old_entry new_entry
                (HAMT.next_seed seed) 0); [exact Hequal| | | |exact Hnew].
      * eapply agree_same_slices. exact Hextend.
      * intros Hcollide. apply Hdiffer. symmetry.
        apply (collide_hash32 _ _ (HAMT.next_seed seed)). exact Hcollide.
      * left. reflexivity.
Qed.
End PlacedFacts.

(** ** What the placement gives: height, lookups, and the split that
    cannot end *)

Section PlacedTheorems.
Context {Key T Allocator : Type}.
Context {Hasher : Hash Key} {Equal : KeyEqual Key} {Memory : Alloc.Ops Allocator} {Layout : NodeLayout}.
Local Abbreviation Entry := (Key * T)%type.
Local Abbreviation Node := (NodeTemplate (Key * T)).
Local Abbreviation BitmapTrie := (BitmapTrieTemplate (NodeTemplate (Key * T))).
Local Abbreviation HAMT := (HashArrayMappedTrie Key T Allocator).
Implicit Types (trie this : BitmapTrie) (node trie_node child : Node) (allocator : Allocator).
Implicit Types (new_entry old_entry entry : Entry) (leaf : option handle).
Implicit Types (key : Key) (found : option T) (h : HAMT) (m : list Entry).

Lemma built_placed h m : built h m -> placed (_seed h) 0 (_root h).
Proof.
  induction 1 as [n a h Hconstruct Hbase|fuel h m entry p h' Hbuilt IH Hinsert
                 |fuel h m entry h' Hbuilt IH Hinsert|h m h' Hbuilt IH Hclear].
  - destruct (construct_root _ _ _ Hconstruct) as (capacity & base & _ & -> & _).
    apply placed_empty.
  - pose proof (reachable_wf _ (reachable_built _ _ Hbuilt)) as Hwf.
    destruct (insert_cases _ _ _ _ _ Hinsert) as (leaf & root & allocator & Hrun & _ & ->).
    cbn [_root _seed].
    eapply insertEntry_returns_placed; try eassumption; [reflexivity|]. intros; lia.
  - pose proof (reachable_wf _ (reachable_built _ _ Hbuilt)) as Hwf.
    destruct (insert_cases _ _ _ _ _ Hinsert) as (leaf & root & allocator & Hrun & _ & ->).
    cbn [_root _seed].
    eapply insertEntry_returns_placed; try eassumption; [reflexivity|]. intros; lia.
  - unfold HAMT.clear, BitmapTrie.clear in Hclear.
    destruct (Node.asTrie (_root h)); [|discriminate].
    cbn [defined mbind result_bind] in Hclear. injection Hclear as <-.
    cbn [_root _seed]. apply placed_empty.
Qed.

Lemma built_trie h m : built h m -> exists trie, _root h = TrieNode trie.
Proof.
  destruct 1 as [n a h Hconstruct Hbase|fuel h m entry p h' Hbuilt Hinsert
                |fuel h m entry h' Hbuilt Hinsert|h m h' Hbuilt Hclear].
  - destruct (construct_root _ _ _ Hconstruct) as (capacity & base & _ & -> & _). eauto.
  - destruct (insert_cases _ _ _ _ _ Hinsert) as (leaf & root & allocator & Hrun & _ & ->).
    exact (returns_trie _ _ _ _ _ _ _ _ _ _ _ _ Hrun).
  - destruct (insert_cases _ _ _ _ _ Hinsert) as (leaf & root & allocator & Hrun & _ & ->).
    exact (returns_trie _ _ _ _ _ _ _ _ _ _ _ _ Hrun).
  - unfold HAMT.clear, BitmapTrie.clear in Hclear.
    destruct (Node.asTrie (_root h)); [|discriminate].
    cbn [defined mbind result_bind] in Hclear. injection Hclear as <-. cbn [_root]. eauto.
Qed.

Lemma foldr_max_height (base : list Node) (k : nat) :
  Forall (fun child => (height child <= k)%nat) base ->
  (foldr (fun child => Nat.max (height child)) 0%nat base <= k)%nat.
Proof. induction 1; cbn [foldr]; lia. Qed.

Lemma placed_height seed node :
  forall hash_offset trie,
    node = TrieNode trie -> wf_node node -> placed seed hash_offset node ->
    Z.of_nat (height node) * 5 <= 30 - hash_offset.
Proof.
  induction node as [entry|trie0 IH] using Node_children_ind;
    intros hash_offset trie [= ->] Hwf Hplaced.
  inversion Hplaced as [|? ? Hoffset Hslots Hdepths Hbelows]; subst.
  apply offsets_range in Hoffset as Hrange.
  cbn [height]. destruct (_base trie) as [base|] eqn:Hbase; [|lia].
  specialize (IH base eq_refl).
  assert (Hk : exists k : nat, Z.of_nat k * 5 = 25 - hash_offset).
  { cbn [In] in Hoffset.
    destruct Hoffset as [<-|[<-|[<-|[<-|[<-|[<-|[]]]]]]];
      [exists 5%nat|exists 4%nat|exists 3%nat|exists 2%nat|exists 1%nat|exists 0%nat];
      reflexivity. }
  destruct Hk as [k Hk].
  assert (Hchildren : Forall (fun child => (height child <= k)%nat) base).
  { apply Forall_lookup. intros i child Hget.
    destruct (physical_slot _ _ _ _ (wf_node_trie _ Hwf) Hbase Hget)
      as (t & Ht & Htaken & _ & Hlogical).
    destruct child as [entry|child]; [cbn [height]; lia|].
    pose proof (Hdepths _ _ Ht Hlogical Htaken eq_refl) as Hbelow25.
    pose proof (Forall_lookup_1 _ _ _ _ IH Hget (hash_offset + 5) child eq_refl
                  (wf_node_logicalGet _ _ _ Hwf Hlogical)
                  (Hbelows _ _ Ht Hlogical Htaken)) as Hheight.
    lia. }
  apply foldr_max_height in Hchildren. lia.
Qed.

Lemma placed_finds seed node :
  (forall a : Key, key_equal a a = true) ->
  forall hash_offset trie entry,
    node = TrieNode trie -> wf_node node -> placed seed hash_offset node ->
    In entry (leaves node) ->
    finds entry.1 node seed hash_offset (Some entry.2).
Proof.
  intros Hrefl.
  induction node as [entry0|trie0 IH] using Node_children_ind;
    intros hash_offset trie entry [= ->] Hwf Hplaced Hin.
  inversion Hplaced as [|? ? Hoffset Hslots Hdepths Hbelows]; subst.
  destruct (leaves_slot _ _ (wf_node_trie _ Hwf) Hin)
    as (t & child & Ht & Htaken & Hget & Hin').
  pose proof (Hslots _ _ _ Ht Hget Htaken Hin') as Hslice.
  apply finds_step. rewrite Hslice, Htaken, Hget.
  destruct child as [stored|child].
  - destruct Hin' as [->|[]]. rewrite Hrefl. reflexivity.
  - pose proof (Hdepths _ _ Ht Hget Htaken eq_refl) as Hbelow25.
    destruct (Z.ltb_spec hash_offset 25); [|lia].
    unfold BitmapTrie.logicalGet, BitmapTrie.physicalGet in Hget.
    destruct (_base trie) as [base|] eqn:Hbase; [|discriminate].
    cbn [mbind option_bind] in Hget.
    refine (Forall_lookup_1 _ _ _ _ (IH base eq_refl) Hget (hash_offset + 5) child entry
              eq_refl _ _ Hin').
    + eapply wf_node_children in Hwf; [|exact Hbase].
      exact (Forall_lookup_1 _ _ _ _ Hwf Hget).
    + eapply Hbelows; try eassumption.
      unfold BitmapTrie.logicalGet, BitmapTrie.physicalGet. rewrite Hbase. exact Hget.
Qed.

Lemma insertEntry_never_returns fuel allocator count trie_node new_entry
    seed hash hash_offset level leaf trie_node' allocator' old_entry :
  insertEntry_returns fuel allocator count trie_node new_entry seed hash hash_offset level
                      leaf trie_node' allocator' ->
  wf_node trie_node ->
  hash = HAMT.hash32 new_entry.1 seed ->
  placed seed hash_offset trie_node ->
  In old_entry (leaves trie_node) ->
  key_equal old_entry.1 new_entry.1 = false ->
  same_slices old_entry.1 new_entry.1 ->
  ~ collide old_entry.1 new_entry.1 ->
  False.
Proof.
  induction 1 as
    [ fuel allocator count trie new_entry seed hash hash_offset level placed0 trie'
        allocator' Hfree Hinsert
    | fuel allocator count trie new_entry seed hash hash_offset level child seed' hash'
        hash_offset' leaf node' allocator' Htaken Hget Hdescend Hrun IH
    | fuel allocator count trie new_entry seed hash hash_offset level stored
        Htaken Hget Hequal
    | fuel allocator count trie new_entry seed hash hash_offset level stored
        Htaken Hget Hequal Hoffset Hsame
    | fuel allocator count trie new_entry seed hash hash_offset level stored seed' hash'
        hash_offset' trie_node allocator1 trie_node1 allocator2
        Htaken Hget Hequal Hdescend Hdiffer Hfresh Hold IHold
    | fuel allocator count trie new_entry seed hash hash_offset level stored seed' hash'
        hash_offset' trie_node allocator1 replaced_node trie_node1 allocator2 leaf
        trie_node2 allocator3
        Htaken Hget Hequal Hdescend Hdiffer Hfresh Hold IHold Hnew IHnew ];
    intros Hwf Hhash Hplaced Hin Hother Hslices Hnocollide;
    inversion Hplaced as [|? ? Hoffset' Hslots Hdepths Hbelows]; subst hash_offset0 trie0;
    destruct (leaves_slot _ _ (wf_node_trie _ Hwf) Hin)
      as (t & child' & Ht & Htaken' & Hget' & Hin');
    pose proof (Hslots _ _ _ Ht Hget' Htaken' Hin') as Hslice;
    rewrite (same_slices_slice _ _ seed _ Hslices Hoffset'), <- Hhash in Hslice;
    subst t.
  - congruence.
  - assert (child' = TrieNode child) by congruence. subst child'.
    pose proof (Hdepths _ _ Ht Hget Htaken eq_refl) as Hbelow25.
    rewrite descend_lt in Hdescend by assumption. injection Hdescend as <- <- <-.
    apply IH; try assumption.
    + eapply wf_node_logicalGet; eassumption.
    + eapply Hbelows; eassumption.
  - assert (child' = EntryNode stored) by congruence. subst child'.
    destruct Hin' as [->|[]]. congruence.
  - assert (child' = EntryNode stored) by congruence. subst child'.
    destruct Hin' as [->|[]]. apply Hnocollide.
    apply (collide_hash32 _ _ (HAMT.next_seed seed)). symmetry. exact Hsame.
  - pose proof (wf_split_trie _ _ _ _ _ _ _ _ _ _ _ _ _ Hfresh Hold) as ->.
    apply return_on_fresh in Hold as [[=] _].
  - assert (child' = EntryNode stored) by congruence. subst child'.
    destruct Hin' as [->|[]].
    pose proof (wf_split_trie _ _ _ _ _ _ _ _ _ _ _ _ _ Hfresh Hold) as ->.
    apply return_on_fresh in Hold as (_ & -> & _).
    rewrite Hhash, descend_hash in Hdescend. cbv zeta in Hdescend.
    injection Hdescend as <- <- <-.
    eapply split_chain_never_returns; [exact Hother|exact Hslices|exact Hnocollide|
                                       |exact Hnew].
    destruct (Z.ltb_spec hash_offset 25); [apply offsets_next; assumption|].
    left. reflexivity.
Qed.

(** The trie of a container built through the public interface is at most
    six tries high, the six offsets 0 to 25 of one seed: no returning
    insertion ever creates a trie under a derived seed.  [find] therefore
    returns after at most six turns of its loop. *)
Theorem trie_height_at_most_six h m key :
  built h m ->
  (height (_root h) <= 6)%nat /\ exists found, HAMT.find 6 h key = Ret found.
Proof.
  intros Hbuilt.
  pose proof (reachable_wf _ (reachable_built _ _ Hbuilt)) as Hwf.
  pose proof (built_placed _ _ Hbuilt) as Hplaced.
  destruct (built_trie _ _ Hbuilt) as [trie Hroot].
  pose proof (placed_height _ _ 0 trie Hroot Hwf Hplaced) as Hheight.
  split; [lia|].
  rewrite find_find_in, Hroot. apply find_in_returns; [rewrite <- Hroot; exact Hwf|].
  rewrite <- Hroot. lia.
Qed.

(** Every entry of a leaf is found under its own key: in a container
    built through the public interface each leaf lies on the path that the
    slices of its hash select, so the lookup of its key ends at it. *)
Theorem stored_entries_are_found h m entry :
  (forall a : Key, key_equal a a = true) ->
  built h m ->
  In entry (leaves (_root h)) ->
  returns (fun fuel => HAMT.find fuel h entry.1) (Some entry.2).
Proof.
  intros Hrefl Hbuilt Hin.
  pose proof (reachable_wf _ (reachable_built _ _ Hbuilt)) as Hwf.
  pose proof (built_placed _ _ Hbuilt) as Hplaced.
  destruct (built_trie _ _ Hbuilt) as [trie Hroot].
  apply finds_find.
  exact (placed_finds _ _ Hrefl 0 trie entry Hroot Hwf Hplaced Hin).
Qed.

(** [insert] does not return when the container holds another key whose
    hash has the same 30 low bits as the hash of the new key and differs
    from it above: the slices of the two hashes agree at every offset
    under every seed, and the check made at the reseed finds the hashes
    different, so the split recurses without end. *)
Theorem insert_never_returns_on_equal_slices h m old_entry key (value : T) fuel :
  built h m ->
  In old_entry (leaves (_root h)) ->
  key_equal old_entry.1 key = false ->
  same_slices old_entry.1 key ->
  ~ collide old_entry.1 key ->
  forall result, HAMT.insert fuel h (key, value) <> Ret result.
Proof.
  intros Hbuilt Hin Hother Hslices Hnocollide [it h'] Hinsert.
  pose proof (reachable_wf _ (reachable_built _ _ Hbuilt)) as Hwf.
  pose proof (built_placed _ _ Hbuilt) as Hplaced.
  destruct (insert_cases _ _ _ _ _ Hinsert) as (leaf & root & allocator & Hrun & _).
  exact (insertEntry_never_returns _ _ _ _ _ _ _ _ _ _ _ _ old_entry Hrun Hwf eq_refl
           Hplaced Hin Hother Hslices Hnocollide).
Qed.
End PlacedTheorems.

(** ** Why an insertion returns null *)

Section NullCause.
Context {Key T Allocator : Type}.
Context {Hasher : Hash Key} {Equal : KeyEqual Key} {Memory : Alloc.Ops Allocator} {Layout : NodeLayout}.
Local Abbreviation Entry := (Key * T)%type.
Local Abbreviation Node := (NodeTemplate (Key * T)).
Local Abbreviation BitmapTrie := (BitmapTrieTemplate (NodeTemplate (Key * T))).
Local Abbreviation HAMT := (HashArrayMappedTrie Key T Allocator).
Implicit Types (trie this : BitmapTrie) (node trie_node child : Node) (allocator : Allocator).
Implicit Types (new_entry old_entry entry : Entry) (leaf : option handle).
Implicit Types (key : Key) (found : option T) (h : HAMT).

(** [BitmapTrie::insertEntry] returns null only from the growing branch,
    when the allocator, in the state it was passed in, returned null to the
    request for the capacity that the sizing oracle answered. *)
Lemma bitmap_insert_null allocator this t new_entry expected_hamt_size level
    this' allocator' :
  wf_trie this -> 0 <= t < 32 ->
  BitmapTrie.logicalPositionTaken this t = false ->
  BitmapTrie.insertEntry allocator this t new_entry expected_hamt_size level
    = Ret (None, this', allocator') ->
  this' = this /\ _capacity this < BitmapTrie.size this + 1 /\
  exists alloc_size,
    hamt_trie_allocation_size (BitmapTrie.size this + 1) expected_hamt_size level
      = Some alloc_size /\
    Alloc.allocate allocator (wrap64 (alloc_size * sizeof_Node)) alignof_Node
      = (false, allocator').
Proof.
  intros Hwf Ht Hfree Hrun.
  pose proof (insertEntry_spec allocator this t new_entry expected_hamt_size level
                Hwf Ht Hfree) as Hspec.
  cbv zeta in Hspec.
  destruct (_capacity this <? BitmapTrie.size this + 1) eqn:Hgrow.
  - apply Z.ltb_lt in Hgrow.
    destruct (Z.le_gt_cases expected_hamt_size 0) as [Hexpected|Hexpected].
    { rewrite (insertEntry_asserts_size _ _ _ _ _ _ Hfree Ht Hgrow Hexpected) in Hrun.
      discriminate. }
    destruct (Hspec ltac:(lia)) as (alloc_size & Horacle & _ & Hrun').
    rewrite Hrun' in Hrun.
    destruct (Alloc.allocate allocator (wrap64 (alloc_size * sizeof_Node)) alignof_Node)
      as [[|] allocator1] eqn:Halloc; [discriminate|].
    injection Hrun as <- <-. eauto.
  - rewrite Hspec in Hrun. discriminate.
Qed.

Lemma physicalSet_logicalGet trie t node :
  BitmapTrie.logicalGet trie t = Some node ->
  BitmapTrie.physicalSet trie (BitmapTrie.physicalIndex trie t) node = trie.
Proof.
  intros Hget. unfold BitmapTrie.logicalGet, BitmapTrie.physicalGet in Hget.
  unfold BitmapTrie.physicalSet. destruct trie as [bitmap capacity [base|]];
    cbn [_bitmap _capacity _base mbind option_bind] in *; [|discriminate].
  rewrite list_insert_id by exact Hget. reflexivity.
Qed.

(** The trie of a split holds one entry in an array of two cells. *)
Lemma wf_single (s : Z) entry :
  0 <= s < 32 ->
  wf_trie (mkBitmapTrie (wrap32 (Z.shiftl 1 s)) 2 (Some [EntryNode entry]) : BitmapTrie).
Proof.
  intros Hs.
  assert (Hroom : BitmapTrie.size (mkBitmapTrie 0 2 (Some []) : BitmapTrie) + 1 <= 2)
    by (unfold BitmapTrie.size; cbn [_bitmap]; change (popcount 0) with 0; lia).
  exact (wf_trie_marked (mkBitmapTrie 0 2 (Some [])) s 2 (EntryNode entry)
           (wf_node_trie _ (wf_fresh 2 ltac:(lia))) Hs (taken_empty _ _ _) Hroom).
Qed.

Lemma size_single (s : Z) entry :
  0 <= s < 32 ->
  BitmapTrie.size
    (mkBitmapTrie (wrap32 (Z.shiftl 1 s)) 2 (Some [EntryNode entry]) : BitmapTrie) = 1.
Proof.
  intros Hs. destruct (wf_single s entry Hs) as [_ [Hlen _]].
  unfold BitmapTrie.size. cbn [_bitmap _base length] in *. lia.
Qed.

(** An insertion into such a trie never asks the allocator for a larger
    array, and returns null only when it runs into a collision of hashes. *)
Lemma single_null_collision fuel :
  forall allocator count old_entry new_entry seed hash hash_offset level trie_node'
         allocator' (s : Z),
    0 <= s < 32 ->
    insertEntry_returns fuel allocator count
      (TrieNode (mkBitmapTrie (wrap32 (Z.shiftl 1 s)) 2 (Some [EntryNode old_entry])))
      new_entry seed hash hash_offset level None trie_node' allocator' ->
    key_equal old_entry.1 new_entry.1 = false /\
    exists n,
      HAMT.hash32 new_entry.1 (Nat.iter (S n) HAMT.next_seed seed) =
      HAMT.hash32 old_entry.1 (Nat.iter (S n) HAMT.next_seed seed).
Proof.
  induction fuel as [|fuel IH];
    intros allocator count old_entry new_entry seed hash hash_offset level trie_node'
           allocator' s Hs Hrun.
  { inversion Hrun. }
  pose proof (slice_range hash hash_offset) as Ht.
  pose proof (wf_single s old_entry Hs) as Hwf.
  pose proof (size_single s old_entry Hs) as Hsize.
  pose proof (taken_single s (Z.land (Z.shiftr hash hash_offset) 31) old_entry Hs Ht)
    as Htaken.
  case_bool_decide as Hslot.
  - pose proof (logicalGet_single s old_entry Hs) as Hget. subst s.
    destruct (key_equal old_entry.1 new_entry.1) eqn:Hother.
    + exfalso. inversion Hrun; subst; congruence.
    + split; [reflexivity|].
      destruct (returns_on_other_key _ _ _ _ _ _ _ _ _ _ _ _ old_entry Hrun Htaken Hget
                  Hother)
        as [(_ & Hsame & _)
           |(fuel' & seed' & hash' & hash_offset' & allocator1 & leaf1 & trie_node1
             & [= <-] & Hdescend & _ & Hinner & Hleaf & _)].
      * exists 0%nat. exact Hsame.
      * destruct leaf1; [discriminate|].
        destruct (IH _ _ _ _ _ _ _ _ _ _ _ (slice_range _ _) Hinner) as [_ [n Hsame]].
        unfold descend, schedule_step in Hdescend.
        destruct (hash_offset <? 25); injection Hdescend as <- <- <-.
        -- exists n. exact Hsame.
        -- exists (S n). rewrite Nat.iter_succ_r. exact Hsame.
  - exfalso. inversion Hrun; subst; try congruence.
    match goal with
    | Hinsert : BitmapTrie.insertEntry _ _ _ _ _ _ = Ret (?placed, _, _) |- _ =>
        destruct placed; [discriminate|];
        apply bitmap_insert_null in Hinsert as (_ & Hfull & _); try assumption
    end.
    rewrite Hsize in Hfull. cbn [_capacity] in Hfull. lia.
Qed.

(** A null return has one of two causes.  Either the run went down existing
    interior nodes to a free slot of a full trie and the allocator, in the
    state the run was started with, returned null to the request for the
    larger array: then the trie is untouched.  Or an entry of the trie with
    another key has the hash of the new key under a seed derived from the
    one in effect. *)
Lemma insertEntry_returns_null_request fuel allocator count trie_node new_entry
    seed hash hash_offset level leaf trie_node' allocator' :
  insertEntry_returns fuel allocator count trie_node new_entry seed hash hash_offset level
                      leaf trie_node' allocator' ->
  leaf = None -> wf_node trie_node ->
  (trie_node' = trie_node /\
   exists capacity,
     1 <= capacity <= 32 /\
     Alloc.allocate allocator (wrap64 (capacity * sizeof_Node)) alignof_Node
       = (false, allocator')) \/
  (exists old_entry n,
     In old_entry (leaves trie_node) /\
     key_equal old_entry.1 new_entry.1 = false /\
     HAMT.hash32 new_entry.1 (Nat.iter (S n) HAMT.next_seed seed) =
     HAMT.hash32 old_entry.1 (Nat.iter (S n) HAMT.next_seed seed)).
Proof.
  induction 1 as
    [ fuel allocator count trie new_entry seed hash hash_offset level placed trie'
        allocator' Hfree Hinsert
    | fuel allocator count trie new_entry seed hash hash_offset level child seed' hash'
        hash_offset' leaf node' allocator' Htaken Hget Hdescend Hrun IH
    | fuel allocator count trie new_entry seed hash hash_offset level old_entry
        Htaken Hget Hequal
    | fuel allocator count trie new_entry seed hash hash_offset level old_entry
        Htaken Hget Hequal Hoffset Hsame
    | fuel allocator count trie new_entry seed hash hash_offset level old_entry seed' hash'
        hash_offset' trie_node allocator1 trie_node1 allocator2
        Htaken Hget Hequal Hdescend Hdiffer Hfresh Hold IHold
    | fuel allocator count trie new_entry seed hash hash_offset level old_entry seed' hash'
        hash_offset' trie_node allocator1 replaced_node trie_node1 allocator2 leaf
        trie_node2 allocator3
        Htaken Hget Hequal Hdescend Hdiffer Hfresh Hold IHold Hnew IHnew ];
    intros Hleaf Hwf;
    pose proof (slice_range hash hash_offset) as Ht.
  - destruct placed; [discriminate|].
    pose proof (size_free_slot trie _ Ht Hfree) as Hsz31.
    pose proof (size_range trie) as Hsz.
    destruct (bitmap_insert_null _ _ _ _ _ _ _ _ (wf_node_trie _ Hwf) Ht Hfree Hinsert)
      as (-> & _ & alloc_size & Horacle & Hfail).
    left. split; [reflexivity|]. exists alloc_size. split; [|exact Hfail].
    destruct (Z.le_gt_cases (wrap64 (count + 1)) 0) as [Hexpected|Hexpected].
    { rewrite oracle_asserts_size in Horacle by assumption. discriminate. }
    destruct (oracle_total (BitmapTrie.size trie + 1) (wrap64 (count + 1)) level
                ltac:(lia) ltac:(lia)) as (c & Hc & Hrange).
    rewrite Hc in Horacle. injection Horacle as <-. lia.
  - destruct leaf; [discriminate|].
    destruct (IH eq_refl (wf_node_logicalGet _ _ _ Hwf Hget))
      as [[-> Hfail]|(old_entry & n & Hin & Hequal & Hsame)].
    + left. split; [|exact Hfail].
      rewrite (physicalSet_logicalGet _ _ _ Hget). reflexivity.
    + right. unfold descend, schedule_step in Hdescend.
      destruct (hash_offset <? 25); injection Hdescend as <- <- <-.
      * exists old_entry, n. split; [|split; assumption].
        eapply leaves_logicalGet; eassumption.
      * exists old_entry, (S n). split; [eapply leaves_logicalGet; eassumption|].
        split; [assumption|]. rewrite Nat.iter_succ_r. exact Hsame.
  - discriminate.
  - right. exists old_entry, 0%nat. split; [|split; assumption].
    eapply leaves_logicalGet; [exact Hget|]. left. reflexivity.
  - pose proof (wf_split_trie _ _ _ _ _ _ _ _ _ _ _ _ _ Hfresh Hold) as ->.
    apply return_on_fresh in Hold as [[=] _].
  - destruct leaf; [discriminate|].
    pose proof (wf_split_trie _ _ _ _ _ _ _ _ _ _ _ _ _ Hfresh Hold) as ->.
    apply return_on_fresh in Hold as (_ & -> & _).
    destruct (single_null_collision _ _ _ _ _ _ _ _ _ _ _ _ (slice_range _ _) Hnew)
      as [_ [n Hsame]].
    right. unfold descend, schedule_step in Hdescend.
    destruct (hash_offset <? 25); injection Hdescend as <- <- <-.
    + exists old_entry, n. split; [|split; assumption].
      eapply leaves_logicalGet; [exact Hget|]. left. reflexivity.
    + exists old_entry, (S n). split.
      { eapply leaves_logicalGet; [exact Hget|]. left. reflexivity. }
      split; [assumption|]. rewrite Nat.iter_succ_r. exact Hsame.
Qed.

(** [insert] returns null in two cases only.  Either the allocator of the
    container, in the state the container holds, returned null to the
    request for the larger array of a full trie on the path of the key, and
    then the trie is untouched and the container holds the state the
    allocator was left in; or a stored entry with another key has the
    32-bit hash of the new key under a seed derived from the seed of the
    container.  In both cases [size()] and the seed are unchanged, the
    entries of the trie are the same in the same order, and, for a hasher
    that agrees on equal keys, [find] returns for every key what it
    returned before. *)
Theorem insert_returns_null_only_on fuel (h : HAMT) key (value : T) (h' : HAMT) :
  (forall a b : Key, key_equal a b = true -> hasher a = hasher b) ->
  wf_node (_root h) ->
  HAMT.insert fuel h (key, value) = Ret (mkIterator None, h') ->
  ((_root h' = _root h /\
    exists capacity,
      1 <= capacity <= 32 /\
      Alloc.allocate (_allocator h) (wrap64 (capacity * sizeof_Node)) alignof_Node
        = (false, _allocator h')) \/
   (exists old_entry n,
      In old_entry (leaves (_root h)) /\
      key_equal old_entry.1 key = false /\
      HAMT.hash32 key (Nat.iter (S n) HAMT.next_seed (_seed h)) =
      HAMT.hash32 old_entry.1 (Nat.iter (S n) HAMT.next_seed (_seed h)))) /\
  HAMT.size h' = HAMT.size h /\
  _seed h' = _seed h /\
  leaves (_root h') = leaves (_root h) /\
  forall key' found,
    returns (fun fuel => HAMT.find fuel h key') found <->
    returns (fun fuel => HAMT.find fuel h' key') found.
Proof.
  intros Hhash Hwf Hinsert.
  unfold HAMT.insert in Hinsert. cbn [fst] in Hinsert.
  destruct (HAMT.insertEntry fuel (_allocator h) (_count h) (_root h)
              (key, value) (_seed h) (HAMT.hash32 key (_seed h)) 0 0)
    as [[[leaf root] allocator]| |] eqn:Hrun; try discriminate.
  cbn [mbind result_bind] in Hinsert.
  destruct leaf as [p0|]; [discriminate|]. injection Hinsert as <-.
  apply insertEntry_returns_intro in Hrun.
  split; [|split; [|split; [|split]]].
  - exact (insertEntry_returns_null_request _ _ _ _ _ _ _ _ _ _ _ _ Hrun eq_refl Hwf).
  - reflexivity.
  - reflexivity.
  - exact (insertEntry_returns_null_leaves _ _ _ _ _ _ _ _ _ _ _ _ Hrun eq_refl Hwf).
  - intros key' found.
    pose proof (insertEntry_returns_null_finds _ _ _ _ _ _ _ _ _ _ _ _ Hrun Hhash
                  eq_refl Hwf key' found) as Hfinds.
    unfold finds, returns in Hfinds. unfold returns. cbn [_root _seed].
    split; intros [fuel' Hfind].
    + rewrite find_find_in in Hfind. destruct (proj1 Hfinds (ex_intro _ fuel' Hfind))
        as [fuel'' Hfind'].
      exists fuel''. rewrite find_find_in. exact Hfind'.
    + rewrite find_find_in in Hfind. destruct (proj2 Hfinds (ex_intro _ fuel' Hfind))
        as [fuel'' Hfind'].
      exists fuel''. rewrite find_find_in. exact Hfind'.
Qed.
End NullCause.

(** ** Insertions that return *)

Section Progress.
Context {Key T Allocator : Type}.
Context {Hasher : Hash Key} {Equal : KeyEqual Key} {Memory : Alloc.Ops Allocator} {Layout : NodeLayout}.
Local Abbreviation Entry := (Key * T)%type.
Local Abbreviation Node := (NodeTemplate (Key * T)).
Local Abbreviation BitmapTrie := (BitmapTrieTemplate (NodeTemplate (Key * T))).
Local Abbreviation HAMT := (HashArrayMappedTrie Key T Allocator).
Implicit Types (trie this : BitmapTrie) (node trie_node child : Node) (allocator : Allocator).
Implicit Types (new_entry old_entry entry : Entry) (leaf : option handle).
Implicit Types (key : Key) (found : option T) (h : HAMT) (m : list Entry).

(** One step of [insertEntry], case by case. *)
Lemma insertEntry_free fuel allocator count trie new_entry seed hash hash_offset level :
  wf_trie trie ->
  BitmapTrie.logicalPositionTaken trie (Z.land (Z.shiftr hash hash_offset) 31) = false ->
  (_capacity trie < BitmapTrie.size trie + 1 -> 0 < wrap64 (count + 1)) ->
  exists result,
    HAMT.insertEntry (S fuel) allocator count (TrieNode trie) new_entry
                     seed hash hash_offset level = Ret result.
Proof.
  intros Hwf Hfree Hcount. pose proof (slice_range hash hash_offset) as Ht.
  pose proof (insertEntry_spec allocator trie _ new_entry (wrap64 (count + 1)) level
                Hwf Ht Hfree) as Hspec.
  cbv zeta in Hspec.
  cbn [HAMT.insertEntry Node.asTrie defined mbind result_bind].
  rewrite Hfree. cbn [negb].
  destruct (Z.ltb_spec (_capacity trie) (BitmapTrie.size trie + 1)) as [Hgrow|Hroom].
  - destruct (Hspec (Hcount Hgrow)) as (alloc_size & _ & _ & ->).
    destruct (Alloc.allocate allocator _ _) as [[|] allocator']; eauto.
  - rewrite Hspec. eauto.
Qed.

Lemma insertEntry_same_key fuel allocator count trie new_entry seed hash hash_offset level
    old_entry :
  BitmapTrie.logicalPositionTaken trie (Z.land (Z.shiftr hash hash_offset) 31) = true ->
  BitmapTrie.logicalGet trie (Z.land (Z.shiftr hash hash_offset) 31)
    = Some (EntryNode old_entry) ->
  key_equal old_entry.1 new_entry.1 = true ->
  exists result,
    HAMT.insertEntry (S fuel) allocator count (TrieNode trie) new_entry
                     seed hash hash_offset level = Ret result.
Proof.
  intros Htaken Hget Hequal.
  cbn [HAMT.insertEntry Node.asTrie defined mbind result_bind].
  rewrite Htaken. cbn [negb]. rewrite Hget. cbn [defined mbind result_bind].
  rewrite Hequal. eauto.
Qed.

Lemma insertEntry_collision fuel allocator count trie new_entry seed hash hash_offset level
    old_entry :
  BitmapTrie.logicalPositionTaken trie (Z.land (Z.shiftr hash hash_offset) 31) = true ->
  BitmapTrie.logicalGet trie (Z.land (Z.shiftr hash hash_offset) 31)
    = Some (EntryNode old_entry) ->
  key_equal old_entry.1 new_entry.1 = false ->
  25 <= hash_offset ->
  HAMT.hash32 new_entry.1 (HAMT.next_seed seed)
    = HAMT.hash32 old_entry.1 (HAMT.next_seed seed) ->
  HAMT.insertEntry (S fuel) allocator count (TrieNode trie) new_entry
                   seed hash hash_offset level = Ret (None, TrieNode trie, allocator).
Proof.
  intros Htaken Hget Hother Hoffset Hsame.
  cbn [HAMT.insertEntry Node.asTrie defined mbind result_bind].
  rewrite Htaken. cbn [negb]. rewrite Hget. cbn [defined mbind result_bind].
  rewrite Hother.
  destruct (Z.ltb_spec hash_offset 25); [lia|].
  rewrite Hsame, Z.eqb_refl. reflexivity.
Qed.

Section NeverNull.
Hypothesis allocate_succeeds :
  forall allocator bytes alignment, (Alloc.allocate allocator bytes alignment).1 = true.

Lemma Node_BitmapTrie_succeeds allocator :
  exists allocator',
    Node_BitmapTrie allocator 2 =
    (TrieNode (mkBitmapTrie 0 2 (Some [])) : Node, allocator').
Proof.
  unfold Node_BitmapTrie, BitmapTrie.allocate. cbn [Z.eqb].
  pose proof (allocate_succeeds allocator (wrap64 (2 * sizeof_Node)) alignof_Node) as Hok.
  destruct (Alloc.allocate allocator _ _) as [ok allocator']. cbn [fst] in Hok. subst ok.
  eauto.
Qed.

Lemma insertEntry_split fuel allocator count trie new_entry seed hash hash_offset level
    old_entry :
  BitmapTrie.logicalPositionTaken trie (Z.land (Z.shiftr hash hash_offset) 31) = true ->
  BitmapTrie.logicalGet trie (Z.land (Z.shiftr hash hash_offset) 31)
    = Some (EntryNode old_entry) ->
  key_equal old_entry.1 new_entry.1 = false ->
  hash_offset < 25 ->
  exists allocator',
    HAMT.insertEntry (S (S fuel)) allocator count (TrieNode trie) new_entry
                     seed hash hash_offset level =
    ('(leaf, node, allocator'') ←
       HAMT.insertEntry (S fuel) allocator' count
         (TrieNode (mkBitmapTrie
            (wrap32 (Z.shiftl 1
               (Z.land (Z.shiftr (HAMT.hash32 old_entry.1 seed) (hash_offset + 5)) 31)))
            2 (Some [EntryNode old_entry])))
         new_entry seed hash (hash_offset + 5) (wrap32 (level + 1));
     Ret (option_map
            (cons (Z.to_nat (BitmapTrie.physicalIndex trie
                     (Z.land (Z.shiftr hash hash_offset) 31)))) leaf,
          TrieNode (BitmapTrie.physicalSet trie
                      (BitmapTrie.physicalIndex trie
                         (Z.land (Z.shiftr hash hash_offset) 31)) node),
          allocator'')).
Proof.
  intros Htaken Hget Hother Hoffset.
  destruct (Node_BitmapTrie_succeeds allocator) as [allocator' Hfresh].
  exists allocator'.
  remember (S fuel) as fuel' eqn:Hfuel.
  cbn [HAMT.insertEntry Node.asTrie defined mbind result_bind].
  rewrite Htaken. cbn [negb]. rewrite Hget. cbn [defined mbind result_bind].
  rewrite Hother.
  destruct (Z.ltb_spec hash_offset 25); [|lia].
  rewrite Hfresh. subst fuel'.
  rewrite insertEntry_on_fresh. cbn [mbind result_bind]. reflexivity.
Qed.

(** The chain of splits ends where the slices of the two hashes differ,
    or at the reseed when the hashes are equal. *)
Lemma split_chain_returns fuel :
  forall allocator count old_entry new_entry seed hash_offset level,
    In hash_offset [0; 5; 10; 15; 20; 25] ->
    30 - hash_offset <= 5 * Z.of_nat fuel ->
    (forall n, 0 <= n < hash_offset ->
               Z.testbit (HAMT.hash32 old_entry.1 seed) n =
               Z.testbit (HAMT.hash32 new_entry.1 seed) n) ->
    key_equal old_entry.1 new_entry.1 = false ->
    (same_slices old_entry.1 new_entry.1 -> collide old_entry.1 new_entry.1) ->
    exists result,
      HAMT.insertEntry fuel allocator count
        (TrieNode (mkBitmapTrie
           (wrap32 (Z.shiftl 1
              (Z.land (Z.shiftr (HAMT.hash32 old_entry.1 seed) hash_offset) 31)))
           2 (Some [EntryNode old_entry])))
        new_entry seed (HAMT.hash32 new_entry.1 seed) hash_offset level = Ret result.
Proof.
  induction fuel as [|fuel IH];
    intros allocator count old_entry new_entry seed hash_offset level
           Hoffset Hfuel Hagree Hother Hstuck.
  { apply offsets_range in Hoffset. lia. }
  pose proof (offsets_range _ Hoffset) as Hrange.
  pose proof (slice_range (HAMT.hash32 old_entry.1 seed) hash_offset) as Hs.
  pose proof (slice_range (HAMT.hash32 new_entry.1 seed) hash_offset) as Hsn.
  destruct (Z.eq_dec (Z.land (Z.shiftr (HAMT.hash32 old_entry.1 seed) hash_offset) 31)
                     (Z.land (Z.shiftr (HAMT.hash32 new_entry.1 seed) hash_offset) 31))
    as [Hslot|Hslot].
  - assert (Htaken : BitmapTrie.logicalPositionTaken
                       (mkBitmapTrie
                          (wrap32 (Z.shiftl 1
                             (Z.land (Z.shiftr (HAMT.hash32 old_entry.1 seed) hash_offset) 31)))
                          2 (Some [EntryNode old_entry]) : BitmapTrie)
                       (Z.land (Z.shiftr (HAMT.hash32 new_entry.1 seed) hash_offset) 31)
                     = true).
    { rewrite taken_single by assumption. apply bool_decide_eq_true_2. exact Hslot. }
    assert (Hget : BitmapTrie.logicalGet
                     (mkBitmapTrie
                        (wrap32 (Z.shiftl 1
                           (Z.land (Z.shiftr (HAMT.hash32 old_entry.1 seed) hash_offset) 31)))
                        2 (Some [EntryNode old_entry]) : BitmapTrie)
                     (Z.land (Z.shiftr (HAMT.hash32 new_entry.1 seed) hash_offset) 31)
                   = Some (EntryNode old_entry)).
    { rewrite <- Hslot. apply logicalGet_single. assumption. }
    pose proof (agree_extend _ _ _ (proj1 Hrange) Hagree Hslot) as Hextend.
    destruct (Z.ltb_spec hash_offset 25) as [Hlt|Hge].
    + destruct fuel as [|fuel]; [lia|].
      destruct (insertEntry_split fuel allocator count _ new_entry seed _ hash_offset level
                  old_entry Htaken Hget Hother Hlt) as [allocator' ->].
      destruct (IH allocator' count old_entry new_entry seed (hash_offset + 5)
                  (wrap32 (level + 1))) as [[[leaf node] allocator''] ->];
        try assumption; [apply offsets_next; assumption|lia|].
      cbn [mbind result_bind]. eauto.
    + assert (hash_offset = 25) by lia. subst hash_offset.
      eexists. eapply insertEntry_collision; try eassumption.
      symmetry. apply collide_hash32, Hstuck. eapply agree_same_slices. exact Hextend.
  - apply insertEntry_free.
    + apply wf_single. assumption.
    + rewrite taken_single by assumption. apply bool_decide_eq_false_2. exact Hslot.
    + rewrite size_single by assumption. cbn [_capacity]. lia.
Qed.

Lemma insertEntry_progress fuel :
  forall allocator count trie new_entry seed hash_offset level,
    0 < wrap64 (count + 1) ->
    wf_node (TrieNode trie) ->
    placed seed hash_offset (TrieNode trie) ->
    30 - hash_offset <= 5 * Z.of_nat fuel ->
    (forall entry, In entry (leaves (TrieNode trie)) ->
       forall n, 0 <= n < hash_offset ->
                 Z.testbit (HAMT.hash32 entry.1 seed) n =
                 Z.testbit (HAMT.hash32 new_entry.1 seed) n) ->
    (forall old_entry, In old_entry (leaves (TrieNode trie)) ->
       key_equal old_entry.1 new_entry.1 = false ->
       same_slices old_entry.1 new_entry.1 -> collide old_entry.1 new_entry.1) ->
    exists result,
      HAMT.insertEntry fuel allocator count (TrieNode trie) new_entry seed
                       (HAMT.hash32 new_entry.1 seed) hash_offset level = Ret result.
Proof.
  induction fuel as [|fuel IH];
    intros allocator count trie new_entry seed hash_offset level
           Hcount Hwf Hplaced Hfuel Hagree Hstuck;
    inversion Hplaced as [|? ? Hoffset Hslots Hdepths Hbelows]; subst;
    pose proof (offsets_range _ Hoffset) as Hrange.
  { lia. }
  pose proof (slice_range (HAMT.hash32 new_entry.1 seed) hash_offset) as Ht.
  destruct (BitmapTrie.logicalPositionTaken trie
              (Z.land (Z.shiftr (HAMT.hash32 new_entry.1 seed) hash_offset) 31))
    eqn:Htaken;
    [|apply insertEntry_free; [apply wf_node_trie; exact Hwf|exact Htaken|auto]].
  destruct (logicalGet_defined trie _ (wf_node_trie _ Hwf) Ht Htaken) as [node Hget].
  destruct node as [old_entry|child].
  - assert (Hin : In old_entry (leaves (TrieNode trie))).
    { eapply leaves_logicalGet; [exact Hget|]. left. reflexivity. }
    destruct (key_equal old_entry.1 new_entry.1) eqn:Hequal;
      [eapply insertEntry_same_key; eassumption|].
    assert (Hslot : Z.land (Z.shiftr (HAMT.hash32 old_entry.1 seed) hash_offset) 31 =
                    Z.land (Z.shiftr (HAMT.hash32 new_entry.1 seed) hash_offset) 31).
    { eapply (Hslots _ _ old_entry); try eassumption. left. reflexivity. }
    pose proof (agree_extend _ _ _ (proj1 Hrange) (Hagree _ Hin) Hslot) as Hextend.
    destruct (Z.ltb_spec hash_offset 25) as [Hlt|Hge].
    + destruct fuel as [|fuel]; [lia|].
      destruct (insertEntry_split fuel allocator count _ new_entry seed _ hash_offset level
                  old_entry Htaken Hget Hequal Hlt) as [allocator' ->].
      destruct (split_chain_returns (S fuel) allocator' count old_entry new_entry seed
                  (hash_offset + 5) (wrap32 (level + 1)))
        as [[[leaf node] allocator''] ->]; try assumption;
        [apply offsets_next; assumption|lia|apply Hstuck; assumption|].
      cbn [mbind result_bind]. eauto.
    + assert (hash_offset = 25) by lia. subst hash_offset.
      eexists. eapply insertEntry_collision; try eassumption.
      symmetry. apply collide_hash32, Hstuck; try assumption.
      eapply agree_same_slices. exact Hextend.
  - pose proof (Hdepths _ _ Ht Hget Htaken eq_refl) as Hlt.
    rewrite (insertEntry_trie fuel allocator count trie new_entry seed _ hash_offset level
               child seed (HAMT.hash32 new_entry.1 seed) (hash_offset + 5) Htaken Hget
               (descend_lt _ _ _ _ Hlt)).
    destruct (IH allocator count child new_entry seed (hash_offset + 5)
                (wrap32 (level + 1))) as [[[leaf node] allocator'] ->].
    + exact Hcount.
    + eapply wf_node_logicalGet; eassumption.
    + eapply Hbelows; eassumption.
    + lia.
    + intros entry Hin. apply agree_extend; [lia| |].
      * apply Hagree. eapply leaves_logicalGet; eassumption.
      * eapply Hslots; eassumption.
    + intros old_entry Hin. apply Hstuck. eapply leaves_logicalGet; eassumption.
    + cbn [mbind result_bind]. eauto.
Qed.
End NeverNull.

(** [insert] returns, with a recursion no deeper than six calls, on every
    container built through the public interface, when the allocator
    never returns null, [size() + 1] does not wrap around to 0 (the sizing
    oracle asserts a size hint above 0) and no stored key with another key
    has a hash that agrees with the hash of the new key on the 30 low bits
    without being equal to it on all 32. *)
Theorem insert_returns h m key (value : T) :
  (forall allocator bytes alignment, (Alloc.allocate allocator bytes alignment).1 = true) ->
  built h m ->
  0 < wrap64 (HAMT.size h + 1) ->
  (forall old_entry, In old_entry (leaves (_root h)) ->
     key_equal old_entry.1 key = false ->
     same_slices old_entry.1 key -> collide old_entry.1 key) ->
  exists result, HAMT.insert 6 h (key, value) = Ret result.
Proof.
  intros Hmemory Hbuilt Hcount Hstuck.
  pose proof (reachable_wf _ (reachable_built _ _ Hbuilt)) as Hwf.
  pose proof (built_placed _ _ Hbuilt) as Hplaced.
  destruct (built_trie _ _ Hbuilt) as [trie Hroot]. rewrite Hroot in *.
  destruct (insertEntry_progress Hmemory 6 (_allocator h) (_count h) trie (key, value)
              (_seed h) 0 0 Hcount Hwf Hplaced ltac:(lia) ltac:(intros; lia) Hstuck)
    as [[[leaf root] allocator] Hrun].
  unfold HAMT.insert. cbn [fst] in *. rewrite Hroot, Hrun. cbn [mbind result_bind].
  destruct leaf; eauto.
Qed.
End Progress.

(** ** A split that gets no memory *)

Section RefusedSplit.
Context {Key T Allocator : Type}.
Context {Hasher : Hash Key} {Equal : KeyEqual Key} {Memory : Alloc.Ops Allocator} {Layout : NodeLayout}.
Local Abbreviation Entry := (Key * T)%type.
Local Abbreviation Node := (NodeTemplate (Key * T)).
Local Abbreviation BitmapTrie := (BitmapTrieTemplate (NodeTemplate (Key * T))).
Implicit Types (trie this : BitmapTrie) (node trie_node child : Node) (allocator : Allocator).
Implicit Types (new_entry old_entry entry : Entry) (leaf : option handle).

(** The insertion into the trie that a failed [allocate] leaves behind
    takes the branch of the array with room and writes to the null array. *)
Lemma insertEntry_on_null_base fuel allocator count new_entry seed hash hash_offset level :
  HAMT.insertEntry (S fuel) allocator count (TrieNode (mkBitmapTrie 0 2 None))
                   new_entry seed hash hash_offset level = Undefined.
Proof. reflexivity. Qed.

(** Where the slot of the new key holds an entry of another key, the entry
    is replaced by a new interior node with an array of two cells.  When the
    allocator returns null to the request for that array, the code goes on
    to re-insert the old entry into the node all the same, and the call has
    no defined result: it neither returns null nor restores the entry. *)
Theorem split_without_memory_is_undefined fuel allocator count trie new_entry seed hash
    hash_offset level old_entry :
  BitmapTrie.logicalPositionTaken trie (Z.land (Z.shiftr hash hash_offset) 31) = true ->
  BitmapTrie.logicalGet trie (Z.land (Z.shiftr hash hash_offset) 31)
    = Some (EntryNode old_entry) ->
  key_equal old_entry.1 new_entry.1 = false ->
  hash_offset < 25 \/
  HAMT.hash32 new_entry.1 (HAMT.next_seed seed)
    <> HAMT.hash32 old_entry.1 (HAMT.next_seed seed) ->
  (Alloc.allocate allocator (wrap64 (2 * sizeof_Node)) alignof_Node).1 = false ->
  HAMT.insertEntry (S (S fuel)) allocator count (TrieNode trie) new_entry
                   seed hash hash_offset level = Undefined.
Proof.
  intros Htaken Hget Hother Hsplit Hrefused.
  remember (S fuel) as fuel' eqn:Hfuel.
  cbn [HAMT.insertEntry Node.asTrie defined mbind result_bind].
  rewrite Htaken. cbn [negb]. rewrite Hget. cbn [defined mbind result_bind].
  rewrite Hother.
  assert (Hfresh : Node_BitmapTrie allocator 2 =
                   (TrieNode (mkBitmapTrie 0 2 None) : Node,
                    (Alloc.allocate allocator (wrap64 (2 * sizeof_Node)) alignof_Node).2)).
  { unfold Node_BitmapTrie, BitmapTrie.allocate. cbn [Z.eqb].
    destruct (Alloc.allocate allocator (wrap64 (2 * sizeof_Node)) alignof_Node)
      as [ok allocator']. cbn [fst snd] in *. subst ok. reflexivity. }
  destruct (Z.ltb_spec hash_offset 25) as [Hlt|Hge].
  - rewrite Hfresh. subst fuel'. rewrite insertEntry_on_null_base. reflexivity.
  - destruct Hsplit as [Hlt|Hdiffer]; [lia|].
    apply Z.eqb_neq in Hdiffer. rewrite Hdiffer.
    rewrite Hfresh. subst fuel'. rewrite insertEntry_on_null_base. reflexivity.
Qed.
End RefusedSplit.

(** ** Collisions, ranks, capacities, and the empty container *)

(** Whether two keys have the same 32-bit hash does not depend on the
    seed: [hash32] mixes the seed in by XOR, so the comparison made after a
    reseed in [insertEntry] compares the 32 low bits of the hasher's
    values, whatever the seed is. *)
Theorem collision_is_seed_independent {Key : Type} {Hasher : Hash Key}
    (a b : Key) (seed seed' : Z) :
  HAMT.hash32 a seed = HAMT.hash32 b seed ->
  HAMT.hash32 a seed' = HAMT.hash32 b seed' /\ collide a b.
Proof.
  intros Hsame. apply collide_hash32 in Hsame.
  split; [apply collide_hash32|]; exact Hsame.
Qed.

Section Ranks.
Context {Entry : Type}.
Local Abbreviation Node := (NodeTemplate Entry).
Local Abbreviation BitmapTrie := (BitmapTrieTemplate (NodeTemplate Entry)).
Implicit Types (this trie : BitmapTrie) (node child : Node).

(** [physicalIndex] ranks the taken slots: it maps them, in increasing
    order, one to one onto the indices [0 .. size() - 1] of the array. *)
Theorem physicalIndex_ranks_taken_slots trie :
  (forall t, 0 <= t < 32 -> BitmapTrie.logicalPositionTaken trie t = true ->
             0 <= BitmapTrie.physicalIndex trie t < BitmapTrie.size trie) /\
  (forall t t', 0 <= t < t' -> t' < 32 ->
                BitmapTrie.logicalPositionTaken trie t = true ->
                BitmapTrie.physicalIndex trie t < BitmapTrie.physicalIndex trie t') /\
  (forall i, 0 <= i < BitmapTrie.size trie ->
             exists t, 0 <= t < 32 /\ BitmapTrie.logicalPositionTaken trie t = true /\
                       BitmapTrie.physicalIndex trie t = i).
Proof.
  split; [|split].
  - intros t Ht Htaken. pose proof (physicalIndex_le_size trie t Ht).
    pose proof (physicalIndex_lt_size trie t Ht Htaken). lia.
  - intros t t' Ht Ht' Htaken. apply physicalIndex_taken_lt; try assumption; lia.
  - intros i Hi.
    destruct (count_bits_select 32 (_bitmap trie) i Hi) as (t & Ht & Hbit & Hcount).
    exists (Z.of_nat t). assert (Hrange : 0 <= Z.of_nat t < 32) by lia.
    split; [exact Hrange|]. split.
    + rewrite taken_testbit by assumption. exact Hbit.
    + rewrite physicalIndex_count, Nat2Z.id by assumption. exact Hcount.
Qed.
End Ranks.

Section Capacity.
Context {Entry Allocator : Type} {Memory : Alloc.Ops Allocator} {Layout : NodeLayout}.
Local Abbreviation Node := (NodeTemplate Entry).
Local Abbreviation BitmapTrie := (BitmapTrieTemplate (NodeTemplate Entry)).
Implicit Types (this : BitmapTrie) (allocator : Allocator).

(** [BitmapTrieTemplate::insertEntry] and the allocator.  While the array
    has a spare cell the entry is put in place: the allocator is not
    called and the capacity stays.  When the array is full, one array of
    the capacity that [hamt_trie_allocation_size] answers for [size() + 1]
    is requested (the size hint has to be above 0 for that); if the
    allocator returns it the old array, if there was one, is released with
    its capacity, and if the allocator returns null nothing is released and
    the trie is left as it was. *)
Theorem bitmap_trie_insertEntry_allocation allocator this logical_index
    (new_entry : Entry) expected_hamt_size level :
  wf_trie this -> 0 <= logical_index < 32 ->
  BitmapTrie.logicalPositionTaken this logical_index = false ->
  0 < expected_hamt_size ->
  (BitmapTrie.size this < _capacity this ->
   exists this',
     BitmapTrie.insertEntry allocator this logical_index new_entry expected_hamt_size level
       = Ret (Some (Z.to_nat (BitmapTrie.physicalIndex this logical_index)), this',
              allocator) /\
     _capacity this' = _capacity this) /\
  (_capacity this <= BitmapTrie.size this ->
   exists alloc_size,
     hamt_trie_allocation_size (BitmapTrie.size this + 1) expected_hamt_size level
       = Some alloc_size /\
     BitmapTrie.size this + 1 <= alloc_size <= 32 /\
     forall ok allocator',
       Alloc.allocate allocator (wrap64 (alloc_size * sizeof_Node)) alignof_Node
         = (ok, allocator') ->
       if ok then
         exists this',
           BitmapTrie.insertEntry allocator this logical_index new_entry
                                  expected_hamt_size level
             = Ret (Some (Z.to_nat (BitmapTrie.physicalIndex this logical_index)), this',
                    match _base this with
                    | Some _ => Alloc.deallocate allocator' (_capacity this)
                    | None => allocator'
                    end) /\
           _capacity this' = alloc_size
       else
         BitmapTrie.insertEntry allocator this logical_index new_entry
                                expected_hamt_size level
           = Ret (None, this, allocator')).
Proof.
  intros Hwf Ht Hfree Hexpected.
  pose proof (insertEntry_spec allocator this logical_index new_entry expected_hamt_size
                level Hwf Ht Hfree) as Hspec.
  cbv zeta in Hspec. split.
  - intros Hroom.
    destruct (Z.ltb_spec (_capacity this) (BitmapTrie.size this + 1)); [lia|].
    eexists. split; [exact Hspec|reflexivity].
  - intros Hfull.
    destruct (Z.ltb_spec (_capacity this) (BitmapTrie.size this + 1)); [|lia].
    destruct (Hspec Hexpected) as (alloc_size & Horacle & Hrange & Hinsert).
    exists alloc_size. split; [exact Horacle|]. split; [exact Hrange|].
    intros ok allocator' Hallocate. rewrite Hallocate in Hinsert.
    destruct ok; [|exact Hinsert].
    eexists. split; [exact Hinsert|reflexivity].
Qed.
End Capacity.

Section EmptyContainer.
Context {Key T Allocator : Type}.
Context {Hasher : Hash Key} {Equal : KeyEqual Key} {Memory : Alloc.Ops Allocator} {Layout : NodeLayout}.
Local Abbreviation Entry := (Key * T)%type.
Local Abbreviation Node := (NodeTemplate (Key * T)).
Local Abbreviation BitmapTrie := (BitmapTrieTemplate (NodeTemplate (Key * T))).
Local Abbreviation HAMT := (HashArrayMappedTrie Key T Allocator).
Implicit Types (key : Key) (h : HAMT).

Lemma clear_root h h' :
  HAMT.clear h = Ret h' ->
  _root h' = TrieNode (mkBitmapTrie 0 0 None) /\ _count h' = 0 /\ _seed h' = _seed h.
Proof.
  unfold HAMT.clear, BitmapTrie.clear.
  destruct (Node.asTrie (_root h)); [|discriminate].
  cbn [defined mbind result_bind]. intros [= <-]. auto.
Qed.

(** A container that was just constructed or cleared is empty: [size()]
    is 0, [empty()] holds, the trie has no leaf, and [find] returns null
    for every key after one test of its loop. *)
Theorem new_or_cleared_is_empty h' key fuel :
  (exists n a, HAMT.construct n a = Ret h') \/ (exists h, HAMT.clear h = Ret h') ->
  HAMT.size h' = 0 /\ HAMT.empty h' = true /\ leaves (_root h') = [] /\
  HAMT.find (S fuel) h' key = Ret None.
Proof.
  intros Hnew.
  assert (Hroot : exists capacity base,
             _root h' = TrieNode (mkBitmapTrie 0 capacity base) /\
             (base = None \/ base = Some []) /\ _count h' = 0).
  { destruct Hnew as [(n & a & Hconstruct)|(h & Hclear)].
    - destruct (construct_root _ _ _ Hconstruct)
        as (capacity & base & _ & Hroot & Hbase & Hcount & _). eauto 6.
    - destruct (clear_root _ _ Hclear) as (Hroot & Hcount & _). eauto 6. }
  destruct Hroot as (capacity & base & Hroot & Hbase & Hcount).
  unfold HAMT.size, HAMT.empty. rewrite Hcount, Hroot.
  split; [reflexivity|]. split; [reflexivity|]. split.
  - destruct Hbase as [-> | ->]; reflexivity.
  - rewrite find_find_in, Hroot, find_in_S, taken_empty. reflexivity.
Qed.

(** A cleared container can be used again.  Its root has no array, so the
    next [insert] requests one of two cells: when the allocator returns it
    the entry becomes the only leaf and [size()] is 1; when the allocator
    returns null, [insert] returns null and the container stays empty. *)
Theorem insert_after_clear h h0 (entry : Entry) fuel ok allocator' :
  HAMT.clear h0 = Ret h ->
  Alloc.allocate (_allocator h) (wrap64 (2 * sizeof_Node)) alignof_Node = (ok, allocator') ->
  HAMT.insert (S fuel) h entry =
  if ok then
    Ret (mkIterator (Some [0%nat]),
         mkHAMT 1
           (TrieNode (mkBitmapTrie
              (wrap32 (Z.shiftl 1 (Z.land (Z.shiftr (HAMT.hash32 entry.1 (_seed h)) 0) 31)))
              2 (Some [EntryNode entry])))
           (_seed h) allocator')
  else
    Ret (mkIterator None,
         mkHAMT 0 (TrieNode (mkBitmapTrie 0 0 None)) (_seed h) allocator').
Proof.
  intros Hclear Hallocate.
  destruct (clear_root _ _ Hclear) as (Hroot & Hcount & _).
  pose proof (slice_range (HAMT.hash32 entry.1 (_seed h)) 0) as Ht.
  assert (Hwf : wf_trie (mkBitmapTrie 0 0 None : BitmapTrie)).
  { split; cbn [_bitmap _base _capacity]; [lia|auto]. }
  pose proof (insertEntry_spec (_allocator h) (mkBitmapTrie 0 0 None) _ entry
                (wrap64 (_count h + 1)) 0 Hwf Ht (taken_empty _ _ _)) as Hspec.
  cbv zeta in Hspec. cbn [_capacity _base default from_option] in Hspec.
  change (BitmapTrie.size (mkBitmapTrie 0 0 None)) with 0 in Hspec.
  change (0 <? 0 + 1) with true in Hspec. cbv iota in Hspec.
  rewrite Hcount in Hspec.
  destruct (Hspec eq_refl) as (alloc_size & Horacle & _ & Hinsert). change (hamt_trie_allocation_size (0 + 1) (wrap64 (0 + 1)) 0)
    with (Some 2) in Horacle. injection Horacle as <-.
  rewrite Hallocate in Hinsert.
  unfold HAMT.insert. rewrite Hroot, Hcount.
  cbn [HAMT.insertEntry Node.asTrie defined mbind result_bind fst].
  rewrite taken_empty. cbn [negb].
  destruct ok; rewrite Hinsert; cbn [mbind result_bind option_map]; [|reflexivity].
  change (BitmapTrie.physicalIndex (mkBitmapTrie 0 0 None) _) with 0.
  reflexivity.
Qed.
End EmptyContainer.

(** ** The sizing oracle is monotone *)

Lemma steps_monotone (f : nat -> Z) (a b : nat) :
  (forall n, (a <= n < b)%nat -> f n <= f (S n)) ->
  forall n m, (a <= n)%nat -> (n <= m)%nat -> (m <= b)%nat -> f n <= f m.
Proof.
  intros Hstep n m Ha Hnm. induction Hnm as [|m Hnm IH]; intros Hb; [lia|].
  specialize (Hstep m ltac:(lia)). lia.
Qed.

Lemma oracle_cell_steps :
  forallb (fun r => forallb (fun l => forallb (fun g => oracle_cell_steps_ok (S r) l g)
                                              (seq 0 23)) (seq 0 5)) (seq 0 32) = true.
Proof. vm_compute. reflexivity. Qed.

Lemma oracle_cell_steps_at (required level generation : nat) :
  (1 <= required <= 32)%nat -> (level <= 4)%nat -> (generation <= 22)%nat ->
  ((required < 32)%nat ->
   oracle_cell required level generation <= oracle_cell (S required) level generation) /\
  ((generation < 22)%nat ->
   oracle_cell required level generation <= oracle_cell required level (S generation)) /\
  ((level < 4)%nat ->
   oracle_cell required (S level) generation <= oracle_cell required level generation) /\
  oracle_cell required 4 generation = oracle_cell required 4 0.
Proof.
  intros Hr Hl Hg.
  pose proof oracle_cell_steps as Hall.
  rewrite forallb_forall in Hall.
  destruct required as [|r]; [lia|].
  assert (Hin : In r (seq 0 32)) by (apply in_seq; lia).
  specialize (Hall r Hin). rewrite forallb_forall in Hall.
  assert (Hin' : In level (seq 0 5)) by (apply in_seq; lia).
  specialize (Hall level Hin'). rewrite forallb_forall in Hall.
  assert (Hin'' : In generation (seq 0 23)) by (apply in_seq; lia).
  specialize (Hall generation Hin''). unfold oracle_cell_steps_ok in Hall.
  apply andb_prop in Hall as [Hall Hrow]. apply andb_prop in Hall as [Hall Hlevel].
  apply andb_prop in Hall as [Hrequired Hgeneration].
  split; [|split; [|split]].
  - intros Hlt. destruct (Nat.ltb_spec (S r) 32); [|lia]. apply Z.leb_le. exact Hrequired.
  - intros Hlt. destruct (Nat.ltb_spec generation 22); [|lia].
    apply Z.leb_le. exact Hgeneration.
  - intros Hlt. destruct (Nat.ltb_spec level 4); [|lia]. apply Z.leb_le. exact Hlevel.
  - apply Z.eqb_eq. exact Hrow.
Qed.

Lemma oracle_cell_required (r r' l g : nat) :
  (1 <= r)%nat -> (r <= r')%nat -> (r' <= 32)%nat -> (l <= 4)%nat -> (g <= 22)%nat ->
  oracle_cell r l g <= oracle_cell r' l g.
Proof.
  intros Hr Hrr Hr' Hl Hg.
  apply (steps_monotone (fun r => oracle_cell r l g) 1 32); try assumption.
  intros n Hn. apply (oracle_cell_steps_at n l g); lia.
Qed.

Lemma oracle_cell_generation (r l g g' : nat) :
  (1 <= r <= 32)%nat -> (l <= 4)%nat -> (g <= g')%nat -> (g' <= 22)%nat ->
  oracle_cell r l g <= oracle_cell r l g'.
Proof.
  intros Hr Hl Hgg Hg'.
  apply (steps_monotone (fun g => oracle_cell r l g) 0 22); try assumption; [|lia].
  intros n Hn. apply (oracle_cell_steps_at r l n); lia.
Qed.

Lemma oracle_cell_level (r l l' g : nat) :
  (1 <= r <= 32)%nat -> (l' <= l)%nat -> (l <= 4)%nat -> (g <= 22)%nat ->
  oracle_cell r l g <= oracle_cell r l' g.
Proof.
  intros Hr Hll Hl Hg.
  pose proof (steps_monotone (fun n => - oracle_cell r n g) 0 4) as Hmono.
  cbv beta in Hmono.
  assert (Hstep : forall n, (0 <= n < 4)%nat -> - oracle_cell r n g <= - oracle_cell r (S n) g).
  { intros n Hn. pose proof (oracle_cell_steps_at r n g Hr ltac:(lia) Hg) as (_ & _ & H & _).
    specialize (H ltac:(lia)). lia. }
  specialize (Hmono Hstep l' l ltac:(lia) Hll Hl). lia.
Qed.

(** The cell that [hamt_trie_allocation_size] reads. *)
Lemma oracle_is_cell (required expected_size level : Z) :
  1 <= required <= 32 -> 1 <= expected_size < 2 ^ 64 -> 0 <= level ->
  hamt_trie_allocation_size required expected_size level =
  Some (oracle_cell (Z.to_nat required)
          (if 4 <? level then 4%nat else Z.to_nat level)
          (if 4 <? level then 0%nat
           else Z.to_nat (Z.min 22 (Z.log2_up expected_size)))).
Proof.
  intros Hr He Hl.
  destruct (oracle_total required expected_size level Hr ltac:(lia)) as (c & Horacle & _).
  rewrite Horacle. f_equal. unfold oracle_cell. rewrite Z2Nat.id by lia.
  assert (Hlog : 0 <= Z.log2_up expected_size) by apply Z.log2_up_nonneg.
  unfold hamt_trie_allocation_size in Horacle.
  destruct (oracle_asserts_pass required expected_size Hr ltac:(lia)) as [Hassert1 Hassert2].
  rewrite Hassert1, Hassert2 in Horacle.
  destruct (4 <? level) eqn:Hlevel.
  - change (Z.to_nat 4) with 4%nat in Horacle. change (Z.to_nat 0) with 0%nat in Horacle.
    rewrite Horacle. reflexivity.
  - unfold wrap64 in Horacle. rewrite (Z.mod_small (expected_size - 1)) in Horacle by lia.
    destruct (Z.eqb_spec (expected_size - 1) 0) as [H1|Hn1].
    + replace expected_size with 1 by lia.
      change (Z.to_nat (Z.min 22 (Z.log2_up 1))) with (Z.to_nat 0).
      rewrite Horacle. reflexivity.
    + rewrite generation_bits in Horacle by lia.
      destruct (Z.ltb_spec 22 (Z.log2_up expected_size)).
      * replace (Z.min 22 (Z.log2_up expected_size)) with 22 by lia.
        rewrite Horacle. reflexivity.
      * replace (Z.min 22 (Z.log2_up expected_size)) with (Z.log2_up expected_size) by lia.
        rewrite Horacle. reflexivity.
Qed.

(** The capacity that [hamt_trie_allocation_size] answers does not shrink
    when more cells are required or a larger container is expected, and
    does not grow with the level of the trie. *)
Theorem sizing_oracle_monotone (required required' expected_size expected_size'
    level level' c c' : Z) :
  1 <= required <= required' -> required' <= 32 ->
  1 <= expected_size <= expected_size' -> expected_size' < 2 ^ 64 ->
  0 <= level' <= level ->
  hamt_trie_allocation_size required expected_size level = Some c ->
  hamt_trie_allocation_size required' expected_size' level' = Some c' ->
  c <= c'.
Proof.
  intros Hr Hr' He He' Hl Hc Hc'.
  rewrite oracle_is_cell in Hc, Hc' by lia.
  injection Hc as <-. injection Hc' as <-.
  assert (Hlog : 0 <= Z.log2_up expected_size) by apply Z.log2_up_nonneg.
  assert (Hlog' : Z.log2_up expected_size <= Z.log2_up expected_size')
    by (apply Z.log2_up_le_mono; lia).
  destruct (Z.ltb_spec 4 level) as [Hdeep|Hshallow];
    destruct (Z.ltb_spec 4 level') as [Hdeep'|Hshallow']; try lia.
  - apply oracle_cell_required; lia.
  - etransitivity; [apply (oracle_cell_required _ (Z.to_nat required')); lia|].
    pose proof (oracle_cell_steps_at (Z.to_nat required') 4
                  (Z.to_nat (Z.min 22 (Z.log2_up expected_size')))
                  ltac:(lia) ltac:(lia) ltac:(lia)) as (_ & _ & _ & Hrow).
    rewrite <- Hrow. apply oracle_cell_level; lia.
  - etransitivity; [apply (oracle_cell_required _ (Z.to_nat required')); lia|].
    etransitivity;
      [apply (oracle_cell_generation _ _ _
                (Z.to_nat (Z.min 22 (Z.log2_up expected_size')))); lia|].
    apply oracle_cell_level; lia.
Qed.

(** ** The seed sequence *)

Lemma wrap32_testbit (x n : Z) :
  0 <= n -> Z.testbit (wrap32 x) n = Z.testbit x n && (n <? 32).
Proof.
  intros Hn. unfold wrap32. destruct (Z.ltb_spec n 32).
  - rewrite Z.mod_pow2_bits_low, andb_true_r by lia. reflexivity.
  - rewrite Z.mod_pow2_bits_high, andb_false_r by lia. reflexivity.
Qed.

Lemma range32_testbit (x n : Z) : 0 <= x < 2 ^ 32 -> 32 <= n -> Z.testbit x n = false.
Proof.
  intros Hx Hn. rewrite <- (Z.mod_small x (2 ^ 32)) by lia.
  apply Z.mod_pow2_bits_high. lia.
Qed.

Lemma testbit_range32 (x : Z) :
  0 <= x -> (forall n, 32 <= n -> Z.testbit x n = false) -> 0 <= x < 2 ^ 32.
Proof.
  intros Hx Hhigh. split; [exact Hx|].
  rewrite <- (Z.mod_small x (2 ^ 32)); [apply Z.mod_pos_bound; lia|].
  split; [exact Hx|]. destruct (Z.lt_ge_cases x (2 ^ 32)) as [|Hge]; [assumption|].
  exfalso. assert (Hpos : 0 < x) by lia.
  pose proof (Z.bit_log2 x Hpos) as Hbit.
  rewrite Hhigh in Hbit; [discriminate|].
  apply Z.log2_le_pow2; lia.
Qed.

(** [seed ^= seed << k] is one to one. *)
Lemma xor_shift_left_injective (k x y : Z) :
  0 < k -> 0 <= x -> 0 <= y ->
  Z.lxor x (wrap32 (Z.shiftl x k)) = Z.lxor y (wrap32 (Z.shiftl y k)) -> x = y.
Proof.
  intros Hk Hx Hy Hsame. apply Z.bits_inj'.
  assert (Hup : forall m : nat, forall n, 0 <= n < Z.of_nat m ->
                  Z.testbit x n = Z.testbit y n).
  { induction m as [|m IH]; intros n Hn; [lia|].
    pose proof (f_equal (fun z => Z.testbit z n) Hsame) as Hbit. cbv beta in Hbit.
    rewrite !Z.lxor_spec, !wrap32_testbit, !Z.shiftl_spec in Hbit by lia.
    destruct (Z.lt_ge_cases n k) as [Hlow|Hhigh].
    - rewrite !(Z.testbit_neg_r _ (n - k)) in Hbit by lia. cbn [andb] in Hbit.
      rewrite !xorb_false_r in Hbit. exact Hbit.
    - rewrite (IH (n - k)) in Hbit by lia.
      destruct (Z.testbit x n), (Z.testbit y n), (Z.testbit y (n - k) && (n <? 32));
        cbn in Hbit; congruence. }
  intros n Hn. apply (Hup (S (Z.to_nat n))). lia.
Qed.

(** [seed ^= seed >> k] is one to one on 32-bit values. *)
Lemma xor_shift_right_injective (k x y : Z) :
  0 < k -> 0 <= x < 2 ^ 32 -> 0 <= y < 2 ^ 32 ->
  Z.lxor x (Z.shiftr x k) = Z.lxor y (Z.shiftr y k) -> x = y.
Proof.
  intros Hk Hx Hy Hsame. apply Z.bits_inj'.
  assert (Hdown : forall m : nat, forall n, 32 - Z.of_nat m <= n ->
                    Z.testbit x n = Z.testbit y n).
  { induction m as [|m IH]; intros n Hn.
    - rewrite !range32_testbit by lia. reflexivity.
    - pose proof (f_equal (fun z => Z.testbit z n) Hsame) as Hbit. cbv beta in Hbit.
      destruct (Z.lt_ge_cases n 0) as [Hneg|Hnonneg];
        [rewrite !Z.testbit_neg_r by lia; reflexivity|].
      rewrite !Z.lxor_spec, !Z.shiftr_spec in Hbit by lia.
      rewrite (IH (n + k)) in Hbit by lia.
      destruct (Z.testbit x n), (Z.testbit y n), (Z.testbit y (n + k));
        cbn in Hbit; congruence. }
  intros n Hn. apply (Hdown 32%nat). lia.
Qed.

Lemma xor_range32 (x y : Z) :
  0 <= x < 2 ^ 32 -> 0 <= y < 2 ^ 32 -> 0 <= Z.lxor x y < 2 ^ 32.
Proof.
  intros Hx Hy. apply testbit_range32.
  - apply Z.lxor_nonneg. lia.
  - intros n Hn. rewrite Z.lxor_spec, !range32_testbit by lia. reflexivity.
Qed.

Lemma wrap32_range (x : Z) : 0 <= wrap32 x < 2 ^ 32.
Proof. apply Z.mod_pos_bound. lia. Qed.

Lemma shiftr_range32 (x k : Z) : 0 <= k -> 0 <= x < 2 ^ 32 -> 0 <= Z.shiftr x k < 2 ^ 32.
Proof.
  intros Hk Hx. apply testbit_range32.
  - apply Z.shiftr_nonneg. lia.
  - intros n Hn. rewrite Z.shiftr_spec by lia. apply range32_testbit; lia.
Qed.

(** [next_seed], the three xor-shifts of [insertEntry] and [findNode] at a
    reseed, keeps a 32-bit seed within 32 bits and is one to one on 32-bit
    seeds; 0 is the only seed it maps to 0. *)
Theorem next_seed_is_one_to_one (seed seed' : Z) :
  0 <= seed < 2 ^ 32 -> 0 <= seed' < 2 ^ 32 ->
  0 <= HAMT.next_seed seed < 2 ^ 32 /\
  (HAMT.next_seed seed = HAMT.next_seed seed' -> seed = seed') /\
  (HAMT.next_seed seed = 0 -> seed = 0).
Proof.
  intros Hseed Hseed'.
  assert (Hinj : forall x y, 0 <= x < 2 ^ 32 -> 0 <= y < 2 ^ 32 ->
                   HAMT.next_seed x = HAMT.next_seed y -> x = y).
  { intros x y Hx Hy. unfold HAMT.next_seed. cbv zeta. intros Hsame.
    pose proof (xor_range32 _ _ Hx (wrap32_range (Z.shiftl x 13))) as Hx1.
    pose proof (xor_range32 _ _ Hy (wrap32_range (Z.shiftl y 13))) as Hy1.
    pose proof (xor_range32 _ _ Hx1 (shiftr_range32 _ 17 ltac:(lia) Hx1)) as Hx2.
    pose proof (xor_range32 _ _ Hy1 (shiftr_range32 _ 17 ltac:(lia) Hy1)) as Hy2.
    apply xor_shift_left_injective in Hsame; [|lia..].
    apply xor_shift_right_injective in Hsame; [|lia|assumption..].
    apply xor_shift_left_injective in Hsame; [exact Hsame|lia..]. }
  split; [|split].
  - unfold HAMT.next_seed. cbv zeta.
    pose proof (xor_range32 _ _ Hseed (wrap32_range (Z.shiftl seed 13))) as H1.
    pose proof (xor_range32 _ _ H1 (shiftr_range32 _ 17 ltac:(lia) H1)) as H2.
    apply xor_range32; [exact H2|apply wrap32_range].
  - apply Hinj; assumption.
  - intros Hzero. apply Hinj; [assumption|lia|]. rewrite Hzero. reflexivity.
Qed.

(** ** The first entry *)

Section PopulatedFacts.
Context {Entry : Type}.
Local Abbreviation Node := (NodeTemplate Entry).
Local Abbreviation BitmapTrie := (BitmapTrieTemplate (NodeTemplate Entry)).
Implicit Types (trie this : BitmapTrie) (node child : Node).

Lemma size_taken trie t :
  0 <= t < 32 -> BitmapTrie.logicalPositionTaken trie t = true -> 0 < BitmapTrie.size trie.
Proof.
  intros Ht Htaken. pose proof (physicalIndex_le_size trie t Ht).
  pose proof (physicalIndex_lt_size trie t Ht Htaken). lia.
Qed.

Lemma populated_below_inv trie : populated (TrieNode trie) -> populated_below (TrieNode trie).
Proof.
  intros Hpopulated. inversion Hpopulated as [|? Hsize Hbelow]; subst.
  intros trie' base [= <-]. apply Hbelow.
Qed.

Lemma populated_intro trie :
  0 < BitmapTrie.size trie -> populated_below (TrieNode trie) -> populated (TrieNode trie).
Proof. intros Hsize Hbelow. constructor; [exact Hsize|]. intros base. apply Hbelow. reflexivity. Qed.

Lemma populated_logicalGet trie t child :
  populated_below (TrieNode trie) -> BitmapTrie.logicalGet trie t = Some child ->
  populated child.
Proof.
  intros Hbelow Hget. unfold BitmapTrie.logicalGet, BitmapTrie.physicalGet in Hget.
  destruct (_base trie) as [base|] eqn:Hbase; [|discriminate].
  cbn [mbind option_bind] in Hget.
  exact (Forall_lookup_1 _ _ _ _ (Hbelow trie base eq_refl Hbase) Hget).
Qed.

Lemma populated_below_physicalSet trie i node' :
  populated_below (TrieNode trie) -> populated node' ->
  populated_below (TrieNode (BitmapTrie.physicalSet trie i node')).
Proof.
  intros Hbelow Hnode trie' base' [= <-]. unfold BitmapTrie.physicalSet. cbn [_base].
  destruct (_base trie) as [base|] eqn:Hbase; [|discriminate].
  cbn [mbind option_bind]. intros [= <-].
  apply Forall_insert; [|exact Hnode]. exact (Hbelow trie base eq_refl Hbase).
Qed.

Lemma populated_below_marked this (i : nat) bitmap capacity (entry : Entry) :
  populated_below (TrieNode this) ->
  populated_below
    (TrieNode (mkBitmapTrie bitmap capacity
                 (Some (take i (default [] (_base this))
                        ++ EntryNode entry :: drop i (default [] (_base this)))))).
Proof.
  intros Hbelow trie' base' [= <-]. cbn [_base]. intros [= <-].
  assert (Hbase : Forall populated (default [] (_base this))).
  { destruct (_base this) as [base|] eqn:Hbase; cbn [default from_option id];
      [exact (Hbelow this base eq_refl Hbase)|constructor]. }
  apply Forall_app. split; [apply Forall_take; exact Hbase|].
  constructor; [constructor|apply Forall_drop; exact Hbase].
Qed.

(** The descent through the first cells ends at the first leaf. *)
Lemma firstEntryNode_first node :
  wf_node node -> populated node ->
  exists p entry rest,
    BitmapTrie.firstEntryNode node = Ret p /\
    follow node p = Some (EntryNode entry) /\
    leaves node = entry :: rest.
Proof.
  induction node as [entry|trie IH] using Node_children_ind; intros Hwf Hpopulated.
  - exists [], entry, []. auto.
  - inversion Hpopulated as [|? Hsize Hbelow]; subst.
    inversion Hwf as [|? [Hbits Hbase] Hwfs']; subst.
    destruct (_base trie) as [base|] eqn:Hbase'.
    2:{ destruct Hbase as [Hzero _]. unfold BitmapTrie.size in Hsize.
        rewrite Hzero in Hsize. cbv in Hsize. discriminate. }
    destruct base as [|child base].
    { destruct Hbase as [Hlen _]. unfold BitmapTrie.size in Hsize. cbn [length] in Hlen. lia. }
    pose proof (Hwfs' _ eq_refl) as Hwfs.
    specialize (IH _ eq_refl). specialize (Hbelow _ eq_refl).
    inversion IH as [|? ? IHchild _]; subst.
    inversion Hwfs as [|? ? Hwfc _]; subst.
    inversion Hbelow as [|? ? Hchild _]; subst.
    destruct (IHchild Hwfc Hchild) as (p & entry & rest & Hfirst & Hfollow & Hleaves).
    exists (0%nat :: p), entry, (rest ++ concat (map leaves base)).
    cbn [BitmapTrie.firstEntryNode follow Node.asTrie leaves mbind option_bind].
    rewrite Hbase', Hfirst. cbn [mbind result_bind option_bind lookup list_lookup].
    split; [reflexivity|]. split; [exact Hfollow|].
    cbn [map concat]. rewrite Hleaves. reflexivity.
Qed.
End PopulatedFacts.

Section PopulatedRuns.
Context {Key T Allocator : Type}.
Context {Hasher : Hash Key} {Equal : KeyEqual Key} {Memory : Alloc.Ops Allocator} {Layout : NodeLayout}.
Local Abbreviation Entry := (Key * T)%type.
Local Abbreviation Node := (NodeTemplate (Key * T)).
Local Abbreviation BitmapTrie := (BitmapTrieTemplate (NodeTemplate (Key * T))).
Local Abbreviation HAMT := (HashArrayMappedTrie Key T Allocator).
Implicit Types (trie this : BitmapTrie) (node trie_node child : Node) (allocator : Allocator).
Implicit Types (new_entry old_entry entry : Entry) (leaf : option handle).
Implicit Types (key : Key) (found : option T) (h : HAMT) (m : list Entry).

Lemma populated_single (s : Z) entry :
  0 <= s < 32 ->
  populated (TrieNode (mkBitmapTrie (wrap32 (Z.shiftl 1 s)) 2 (Some [EntryNode entry]))
             : Node).
Proof.
  intros Hs. constructor.
  - apply (size_taken _ s Hs). rewrite taken_single by assumption.
    apply bool_decide_eq_true_2. reflexivity.
  - cbn [_base]. intros base [= <-]. repeat constructor.
Qed.

(** No returning insertion leaves a trie without a taken slot below the
    node it was entered with. *)
Lemma insertEntry_returns_populated fuel allocator count trie_node new_entry
    seed hash hash_offset level leaf trie_node' allocator' :
  insertEntry_returns fuel allocator count trie_node new_entry seed hash hash_offset level
                      leaf trie_node' allocator' ->
  wf_node trie_node -> populated_below trie_node ->
  populated_below trie_node' /\
  (populated trie_node -> populated trie_node') /\
  (leaf <> None -> populated trie_node').
Proof.
  induction 1 as
    [ fuel allocator count trie new_entry seed hash hash_offset level placed0 trie'
        allocator' Hfree Hinsert
    | fuel allocator count trie new_entry seed hash hash_offset level child seed' hash'
        hash_offset' leaf node' allocator' Htaken Hget Hdescend Hrun IH
    | fuel allocator count trie new_entry seed hash hash_offset level old_entry
        Htaken Hget Hequal
    | fuel allocator count trie new_entry seed hash hash_offset level old_entry
        Htaken Hget Hequal Hoffset Hsame
    | fuel allocator count trie new_entry seed hash hash_offset level old_entry seed' hash'
        hash_offset' trie_node allocator1 trie_node1 allocator2
        Htaken Hget Hequal Hdescend Hdiffer Hfresh Hold IHold
    | fuel allocator count trie new_entry seed hash hash_offset level old_entry seed' hash'
        hash_offset' trie_node allocator1 replaced_node trie_node1 allocator2 leaf
        trie_node2 allocator3
        Htaken Hget Hequal Hdescend Hdiffer Hfresh Hold IHold Hnew IHnew ];
    intros Hwf Hbelow;
    pose proof (slice_range hash hash_offset) as Ht.
  - destruct (bitmap_insert_cases _ _ _ _ _ _ _ _ _ (wf_node_trie _ Hwf) Ht Hfree Hinsert)
      as [(-> & -> & _)|(capacity & Hcap & -> & ->)].
    + split; [exact Hbelow|]. split; [auto|]. intros []. reflexivity.
    + assert (Hbelow' := populated_below_marked trie
                (Z.to_nat (BitmapTrie.physicalIndex trie (Z.land (Z.shiftr hash hash_offset) 31)))
                (Z.lor (_bitmap trie)
                       (wrap32 (Z.shiftl 1 (Z.land (Z.shiftr hash hash_offset) 31))))
                capacity new_entry Hbelow).
      assert (Hpopulated : populated
                (TrieNode (mkBitmapTrie
                   (Z.lor (_bitmap trie)
                          (wrap32 (Z.shiftl 1 (Z.land (Z.shiftr hash hash_offset) 31))))
                   capacity
                   (Some (take (Z.to_nat (BitmapTrie.physicalIndex trie
                                  (Z.land (Z.shiftr hash hash_offset) 31)))
                               (default [] (_base trie))
                          ++ EntryNode new_entry
                          :: drop (Z.to_nat (BitmapTrie.physicalIndex trie
                                     (Z.land (Z.shiftr hash hash_offset) 31)))
                                  (default [] (_base trie))))))).
      { apply populated_intro; [|exact Hbelow'].
        apply (size_taken _ _ Ht). apply taken_mark. exact Ht. }
      auto.
  - pose proof (populated_logicalGet _ _ _ Hbelow Hget) as Hchild.
    destruct (IH (wf_node_logicalGet _ _ _ Hwf Hget) (populated_below_inv _ Hchild))
      as (_ & Hkeep & _).
    assert (Hbelow' := populated_below_physicalSet trie
              (BitmapTrie.physicalIndex trie (Z.land (Z.shiftr hash hash_offset) 31))
              node' Hbelow (Hkeep Hchild)).
    assert (Hpopulated : populated
              (TrieNode (BitmapTrie.physicalSet trie
                 (BitmapTrie.physicalIndex trie (Z.land (Z.shiftr hash hash_offset) 31))
                 node'))).
    { apply populated_intro; [|exact Hbelow'].
      apply (size_taken _ _ Ht). rewrite taken_physicalSet. exact Htaken. }
    auto.
  - assert (Hbelow' := populated_below_physicalSet trie
              (BitmapTrie.physicalIndex trie (Z.land (Z.shiftr hash hash_offset) 31))
              (EntryNode (old_entry.1, new_entry.2)) Hbelow (populated_entry _)).
    assert (Hpopulated : populated
              (TrieNode (BitmapTrie.physicalSet trie
                 (BitmapTrie.physicalIndex trie (Z.land (Z.shiftr hash hash_offset) 31))
                 (EntryNode (old_entry.1, new_entry.2))))).
    { apply populated_intro; [|exact Hbelow'].
      apply (size_taken _ _ Ht). rewrite taken_physicalSet. exact Htaken. }
    auto.
  - split; [exact Hbelow|]. split; [auto|]. intros []. reflexivity.
  - pose proof (wf_split_trie _ _ _ _ _ _ _ _ _ _ _ _ _ Hfresh Hold) as ->.
    apply return_on_fresh in Hold as [[=] _].
  - pose proof (wf_split_trie _ _ _ _ _ _ _ _ _ _ _ _ _ Hfresh Hold) as ->.
    pose proof (insertEntry_returns_wf _ _ _ _ _ _ _ _ _ _ _ _ Hold
                  (wf_fresh 2 ltac:(lia))) as Hwf1.
    apply return_on_fresh in Hold as (_ & -> & _).
    pose proof (populated_single _ old_entry
                  (slice_range (HAMT.hash32 old_entry.1 seed') hash_offset')) as Hsingle.
    destruct (IHnew Hwf1 (populated_below_inv _ Hsingle)) as (_ & Hkeep & _).
    assert (Hbelow' := populated_below_physicalSet trie
              (BitmapTrie.physicalIndex trie (Z.land (Z.shiftr hash hash_offset) 31))
              trie_node2 Hbelow (Hkeep Hsingle)).
    assert (Hpopulated : populated
              (TrieNode (BitmapTrie.physicalSet trie
                 (BitmapTrie.physicalIndex trie (Z.land (Z.shiftr hash hash_offset) 31))
                 trie_node2))).
    { apply populated_intro; [|exact Hbelow'].
      apply (size_taken _ _ Ht). rewrite taken_physicalSet. exact Htaken. }
    auto.
Qed.

Lemma built_populated_below h m : built h m -> populated_below (_root h).
Proof.
  induction 1 as [n a h Hconstruct Hbase|fuel h m entry p h' Hbuilt IH Hinsert
                 |fuel h m entry h' Hbuilt IH Hinsert|h m h' Hbuilt IH Hclear].
  - destruct (construct_root _ _ _ Hconstruct) as (capacity & base & _ & -> & Hnil & _).
    intros trie base' [= <-]. cbn [_base]. destruct Hnil as [-> | ->]; intros [= <-].
    constructor.
  - pose proof (reachable_wf _ (reachable_built _ _ Hbuilt)) as Hwf.
    destruct (insert_cases _ _ _ _ _ Hinsert) as (leaf & root & allocator & Hrun & _ & ->).
    exact (proj1 (insertEntry_returns_populated _ _ _ _ _ _ _ _ _ _ _ _ Hrun Hwf IH)).
  - pose proof (reachable_wf _ (reachable_built _ _ Hbuilt)) as Hwf.
    destruct (insert_cases _ _ _ _ _ Hinsert) as (leaf & root & allocator & Hrun & _ & ->).
    exact (proj1 (insertEntry_returns_populated _ _ _ _ _ _ _ _ _ _ _ _ Hrun Hwf IH)).
  - destruct (clear_root _ _ Hclear) as (-> & _).
    intros trie base [= <-]. discriminate.
Qed.

(** [firstEntryNodeRecursively] on the root of a container that holds an
    entry returns the first leaf of the trie: in a container built through
    the public interface every trie below the root has a taken slot, so
    the descent through the first cells ends at a leaf and reads no cell
    that holds no node. *)
Theorem first_entry_is_first_leaf h m trie :
  built h m -> _root h = TrieNode trie -> 0 < BitmapTrie.size trie ->
  exists p entry rest,
    BitmapTrie.firstEntryNodeRecursively trie = Ret p /\
    follow (_root h) p = Some (EntryNode entry) /\
    leaves (_root h) = entry :: rest.
Proof.
  intros Hbuilt Hroot Hsize.
  pose proof (reachable_wf _ (reachable_built _ _ Hbuilt)) as Hwf.
  pose proof (built_populated_below _ _ Hbuilt) as Hbelow.
  rewrite Hroot in *.
  destruct (firstEntryNode_first _ Hwf (populated_intro _ Hsize Hbelow))
    as (p & entry & rest & Hfirst & Hfollow & Hleaves).
  exists p, entry, rest. unfold BitmapTrie.firstEntryNodeRecursively.
  destruct (Z.ltb_spec 0 (BitmapTrie.size trie)); [auto|lia].
Qed.
End PopulatedRuns.

(** ** Arrays allocated and released *)

Section ArraysFacts.
Context {Entry : Type}.
Local Abbreviation Node := (NodeTemplate Entry).
Local Abbreviation BitmapTrie := (BitmapTrieTemplate (NodeTemplate Entry)).
Implicit Types (trie this : BitmapTrie) (node child : Node) (base : list Node).

Lemma arrays_app base base' :
  foldr (fun child => Z.add (arrays child)) 0 (base ++ base') =
  foldr (fun child => Z.add (arrays child)) 0 base
  + foldr (fun child => Z.add (arrays child)) 0 base'.
Proof. induction base as [|child base IH]; cbn [foldr app]; lia. Qed.

Lemma arrays_around trie t node node' :
  BitmapTrie.logicalGet trie t = Some node ->
  arrays (TrieNode (BitmapTrie.physicalSet trie (BitmapTrie.physicalIndex trie t) node')) =
  arrays (TrieNode trie) - arrays node + arrays node'.
Proof.
  unfold BitmapTrie.logicalGet, BitmapTrie.physicalGet, BitmapTrie.physicalSet.
  cbn [arrays _base].
  destruct (_base trie) as [base|]; [|discriminate]. cbn [mbind option_bind].
  generalize (Z.to_nat (BitmapTrie.physicalIndex trie t)). intros i Hget.
  rewrite insert_take_drop by (eapply lookup_lt_Some; exact Hget).
  rewrite <- (take_drop_middle base i node Hget) at 3.
  rewrite !arrays_app. cbn [foldr]. lia.
Qed.

Lemma arrays_marked this (i : nat) bitmap capacity (entry : Entry) :
  arrays (TrieNode (mkBitmapTrie bitmap capacity
                      (Some (take i (default [] (_base this))
                             ++ EntryNode entry :: drop i (default [] (_base this)))))) =
  1 + foldr (fun child => Z.add (arrays child)) 0 (default [] (_base this)).
Proof.
  cbn [arrays _base].
  rewrite <- (take_drop i (default [] (_base this))) at 3.
  rewrite !arrays_app. cbn [foldr arrays]. lia.
Qed.
End ArraysFacts.

Section MemoryBalance.
Context {Key T : Type}.
Context {Hasher : Hash Key} {Equal : KeyEqual Key} {Layout : NodeLayout}.
#[local] Existing Instance counting_allocator.
Local Abbreviation Entry := (Key * T)%type.
Local Abbreviation Node := (NodeTemplate (Key * T)).
Local Abbreviation BitmapTrie := (BitmapTrieTemplate (NodeTemplate (Key * T))).
Local Abbreviation HAMT := (HashArrayMappedTrie Key T Z).
Implicit Types (trie this : BitmapTrie) (node trie_node child : Node) (allocator : Z).
Implicit Types (new_entry old_entry entry : Entry) (leaf : option handle).
Implicit Types (key : Key) (found : option T) (h : HAMT) (m : list Entry).

(** Across a returning insertion the arrays handed out and not given back
    change by what the trie gained. *)
Lemma insertEntry_returns_balance fuel allocator count trie_node new_entry
    seed hash hash_offset level leaf trie_node' allocator' :
  insertEntry_returns fuel allocator count trie_node new_entry seed hash hash_offset level
                      leaf trie_node' allocator' ->
  wf_node trie_node ->
  allocator' - arrays trie_node' = allocator - arrays trie_node.
Proof.
  induction 1 as
    [ fuel allocator count trie new_entry seed hash hash_offset level placed0 trie'
        allocator' Hfree Hinsert
    | fuel allocator count trie new_entry seed hash hash_offset level child seed' hash'
        hash_offset' leaf node' allocator' Htaken Hget Hdescend Hrun IH
    | fuel allocator count trie new_entry seed hash hash_offset level old_entry
        Htaken Hget Hequal
    | fuel allocator count trie new_entry seed hash hash_offset level old_entry
        Htaken Hget Hequal Hoffset Hsame
    | fuel allocator count trie new_entry seed hash hash_offset level old_entry seed' hash'
        hash_offset' trie_node allocator1 trie_node1 allocator2
        Htaken Hget Hequal Hdescend Hdiffer Hfresh Hold IHold
    | fuel allocator count trie new_entry seed hash hash_offset level old_entry seed' hash'
        hash_offset' trie_node allocator1 replaced_node trie_node1 allocator2 leaf
        trie_node2 allocator3
        Htaken Hget Hequal Hdescend Hdiffer Hfresh Hold IHold Hnew IHnew ];
    intros Hwf;
    pose proof (slice_range hash hash_offset) as Ht.
  - pose proof (insertEntry_spec allocator trie _ new_entry (wrap64 (count + 1)) level
                  (wf_node_trie _ Hwf) Ht Hfree) as Hspec.
    cbv zeta in Hspec. pose proof (wf_node_trie _ Hwf) as [Hbits Hbase].
    pose proof (size_range trie) as Hsize.
    destruct (Z.ltb_spec (_capacity trie) (BitmapTrie.size trie + 1)) as [Hgrow|Hroom].
    + destruct (Z.le_gt_cases (wrap64 (count + 1)) 0) as [Hexpected|Hexpected].
      { rewrite (insertEntry_asserts_size _ _ _ _ _ _ Hfree Ht Hgrow Hexpected) in Hinsert.
        discriminate. }
      destruct (Hspec ltac:(lia)) as (alloc_size & _ & _ & Hgrown).
      cbn [Alloc.allocate counting_allocator] in Hgrown.
      rewrite Hgrown in Hinsert. injection Hinsert as _ <- <-.
      rewrite arrays_marked. cbn [arrays Alloc.deallocate counting_allocator].
      destruct (_base trie); cbn [default from_option id foldr]; lia.
    + rewrite Hspec in Hinsert. injection Hinsert as _ <- <-.
      rewrite arrays_marked. cbn [arrays].
      destruct (_base trie); cbn [default from_option id foldr]; [lia|].
      unfold BitmapTrie.size in *. destruct Hbase as [Hzero Hcap]. lia.
  - rewrite (arrays_around _ _ _ node' Hget).
    specialize (IH (wf_node_logicalGet _ _ _ Hwf Hget)). lia.
  - rewrite (arrays_around _ _ _ (EntryNode (old_entry.1, new_entry.2)) Hget).
    cbn [arrays]. lia.
  - reflexivity.
  - pose proof (wf_split_trie _ _ _ _ _ _ _ _ _ _ _ _ _ Hfresh Hold) as ->.
    apply return_on_fresh in Hold as [[=] _].
  - pose proof (wf_split_trie _ _ _ _ _ _ _ _ _ _ _ _ _ Hfresh Hold) as ->.
    pose proof (insertEntry_returns_wf _ _ _ _ _ _ _ _ _ _ _ _ Hold
                  (wf_fresh 2 ltac:(lia))) as Hwf1.
    apply return_on_fresh in Hold as (_ & -> & ->).
    specialize (IHnew Hwf1). cbn [arrays _base foldr] in IHnew.
    injection Hfresh as <-.
    rewrite (arrays_around _ _ _ trie_node2 Hget). cbn [arrays]. lia.
Qed.

(** [deallocateRecursively] gives back every array of the trie, once. *)
Lemma deallocateNode_balance node :
  forall allocator,
    wf_node node -> BitmapTrie.deallocateNode node allocator = allocator - arrays node.
Proof.
  induction node as [entry|trie IH] using Node_children_ind; intros allocator Hwf.
  - cbn [BitmapTrie.deallocateNode arrays]. lia.
  - pose proof (wf_node_trie _ Hwf) as [Hbits Hbase].
    cbn [BitmapTrie.deallocateNode arrays]. unfold BitmapTrie.deallocate.
    destruct (_base trie) as [base|] eqn:Hbase'; [|lia].
    destruct Hbase as [Hlen _]. unfold BitmapTrie.size. rewrite <- Hlen, Nat2Z.id.
    pose proof (wf_node_children _ _ Hwf Hbase') as Hwfs.
    specialize (IH base eq_refl).
    cbn [Alloc.deallocate counting_allocator].
    replace (allocator - (1 + foldr (fun child => Z.add (arrays child)) 0 base))
      with (allocator - 1 - foldr (fun child => Z.add (arrays child)) 0 base) by lia.
    generalize (allocator - 1). clear -IH Hwfs. induction base as [|child base IHbase]; intros a; cbn [length foldr].
    + lia.
    + inversion IH as [|? ? Hchild IH']; subst. inversion Hwfs as [|? ? Hwfc Hwfs']; subst.
      rewrite (Hchild a Hwfc), (IHbase IH' Hwfs'). lia.
Qed.

Lemma insert_all_balance fuel entries :
  forall h h',
    wf_node (_root h) ->
    HAMT.insert_all fuel h entries = Ret h' ->
    wf_node (_root h') /\
    _allocator h' - arrays (_root h') = _allocator h - arrays (_root h).
Proof.
  induction entries as [|entry entries IH]; intros h h' Hwf Hall;
    cbn [HAMT.insert_all] in Hall.
  - injection Hall as <-. auto.
  - destruct (HAMT.insert fuel h entry) as [[it h1]| |] eqn:Hinsert; try discriminate.
    cbn [mbind result_bind] in Hall.
    pose proof (insert_wf _ _ _ _ _ Hwf Hinsert) as Hwf1.
    destruct (IH _ _ Hwf1 Hall) as [Hwf' Hbalance]. split; [exact Hwf'|].
    destruct (insert_cases _ _ _ _ _ Hinsert) as (leaf & root & allocator & Hrun & _ & ->).
    cbn [_root _allocator] in *.
    pose proof (insertEntry_returns_balance _ _ _ _ _ _ _ _ _ _ _ _ Hrun Hwf). lia.
Qed.

Lemma insert_all_built fuel entries :
  forall h m h',
    built h m -> HAMT.insert_all fuel h entries = Ret h' -> exists m', built h' m'.
Proof.
  induction entries as [|entry entries IH]; intros h m h' Hbuilt Hall;
    cbn [HAMT.insert_all] in Hall.
  - injection Hall as <-. eauto.
  - destruct (HAMT.insert fuel h entry) as [[[[p|]] h1]| |] eqn:Hinsert; try discriminate;
      cbn [mbind result_bind] in Hall.
    + eapply IH; [|exact Hall]. eapply built_insert; eassumption.
    + eapply IH; [|exact Hall]. eapply built_insert_null; eassumption.
Qed.

Lemma construct_counting (n a0 : Z) h :
  HAMT.construct n a0 = Ret h ->
  exists capacity,
    1 <= capacity /\ _root h = TrieNode (mkBitmapTrie 0 capacity (Some [])) /\
    _allocator h = a0 + 1.
Proof.
  unfold HAMT.construct.
  destruct (oracle_total 1 (if 0 <? n then n else 1) 0 ltac:(lia)
              (size_hint_positive n))
    as (capacity & -> & Hrange).
  cbn [defined mbind result_bind]. unfold BitmapTrie.allocate.
  destruct (Z.eqb_spec capacity 0) as [?|_]; [lia|].
  cbn [Alloc.allocate counting_allocator]. intros [= <-]. exists capacity.
  cbn [_root _allocator]. split; [lia|]. auto.
Qed.

(** An allocator that counts shows the balance of the arrays: after a
    construction and any insertions, the arrays handed out and not given
    back are exactly the arrays of the trie, and the destructor, like
    [clear], gives every one of them back, once. *)
Theorem no_array_is_leaked fuel (n a0 : Z) h0 entries h :
  HAMT.construct n a0 = Ret h0 ->
  HAMT.insert_all fuel h0 entries = Ret h ->
  _allocator h = a0 + arrays (_root h) /\
  HAMT.destroy h = Ret a0 /\
  exists h', HAMT.clear h = Ret h' /\ _allocator h' = a0 /\ arrays (_root h') = 0.
Proof.
  intros Hconstruct Hall.
  destruct (construct_counting _ _ _ Hconstruct) as (capacity & Hcapacity & Hroot & Ha0).
  assert (Hwf0 : wf_node (_root h0)) by (rewrite Hroot; apply wf_fresh; lia).
  destruct (insert_all_balance _ _ _ _ Hwf0 Hall) as [Hwf Hbalance].
  rewrite Hroot, Ha0 in Hbalance. cbn [arrays _base foldr] in Hbalance.
  assert (Hbuilt0 : built h0 []).
  { eapply built_construct; [exact Hconstruct|]. rewrite Hroot.
    intros trie [= <-]. discriminate. }
  destruct (insert_all_built _ _ _ _ _ Hbuilt0 Hall) as [m Hbuilt].
  destruct (built_trie _ _ Hbuilt) as [trie Htrie].
  split; [lia|].
  unfold HAMT.destroy, HAMT.clear, BitmapTrie.clear, BitmapTrie.deallocateRecursively.
  rewrite Htrie in *. cbn [Node.asTrie defined mbind result_bind].
  rewrite (deallocateNode_balance _ _ Hwf).
  split; [f_equal; lia|].
  exists (mkHAMT 0 (TrieNode (mkBitmapTrie 0 0 None)) (_seed h)
                 (_allocator h - arrays (TrieNode trie))).
  split; [reflexivity|]. cbn [_allocator _root]. split; [lia|reflexivity].
Qed.

End MemoryBalance.

Section CountInnerNodes.
Context {Key T : Type}.
Context {Hasher : Hash Key} {Equal : KeyEqual Key} {Layout : NodeLayout}.
#[local] Existing Instance counting_allocator.
Local Abbreviation Entry := (Key * T)%type.
Local Abbreviation Node := (NodeTemplate (Key * T)).
Local Abbreviation BitmapTrie := (BitmapTrieTemplate (NodeTemplate (Key * T))).
Local Abbreviation HAMT := (HashArrayMappedTrie Key T Z).
Implicit Types (trie this : BitmapTrie) (node trie_node child : Node) (allocator : Z).
Implicit Types (new_entry old_entry entry : Entry) (leaf : option handle).
Implicit Types (key : Key) (found : option T) (h : HAMT) (m : list Entry).

Lemma wrap64_add_l (a b : Z) : wrap64 (wrap64 a + b) = wrap64 (a + b).
Proof. unfold wrap64. apply Zplus_mod_idemp_l. Qed.

Lemma wrap64_add_r (a b : Z) : wrap64 (a + wrap64 b) = wrap64 (a + b).
Proof. unfold wrap64. apply Zplus_mod_idemp_r. Qed.

Lemma wrap64_idem (a : Z) : wrap64 (wrap64 a) = wrap64 a.
Proof. unfold wrap64. apply Zmod_mod. Qed.

Lemma sum_cells_counts (l : list Node) :
  Forall (fun child => HAMT.countInnerNode child = Ret (wrap64 (arrays child))) l ->
  forall inner_nodes_count,
    0 <= inner_nodes_count < 2 ^ 64 ->
    HAMT.sum_cells HAMT.countInnerNode (length l) l inner_nodes_count =
    Ret (wrap64 (inner_nodes_count + foldr (fun child => Z.add (arrays child)) 0 l)).
Proof.
  induction 1 as [|child l Hchild _ IH]; intros inner_nodes_count Hrange;
    cbn [HAMT.sum_cells length foldr].
  - rewrite Z.add_0_r. unfold wrap64. rewrite Z.mod_small by exact Hrange. reflexivity.
  - rewrite Hchild. cbn [mbind result_bind].
    rewrite wrap64_add_r, IH by (unfold wrap64; apply Z.mod_pos_bound; lia).
    rewrite wrap64_add_l. f_equal. f_equal. lia.
Qed.

Lemma countInnerNode_counts node :
  wf_node node -> populated node ->
  HAMT.countInnerNode node = Ret (wrap64 (arrays node)).
Proof.
  induction node as [entry|trie IH] using Node_children_ind; intros Hwf Hpopulated;
    [reflexivity|].
  inversion Hpopulated as [|? Hsize Hbelow]; subst.
  pose proof (wf_node_trie _ Hwf) as [Hbits Hbase].
  cbn [HAMT.countInnerNode arrays].
  destruct (_base trie) as [base|] eqn:Hbase'.
  2:{ destruct Hbase as [Hzero _]. unfold BitmapTrie.size in Hsize.
      rewrite Hzero in Hsize. change (popcount 0) with 0 in Hsize. lia. }
  destruct Hbase as [Hlen _]. unfold BitmapTrie.size. rewrite <- Hlen, Nat2Z.id.
  pose proof (wf_node_children _ _ Hwf Hbase') as Hwfs.
  specialize (IH base eq_refl). specialize (Hbelow base eq_refl).
  rewrite (sum_cells_counts base); [| |lia].
  - cbn [mbind result_bind]. rewrite wrap64_add_r, Z.add_0_l. reflexivity.
  - clear -IH Hwfs Hbelow.
    induction base as [|child base IHbase]; constructor;
      inversion IH; inversion Hwfs; inversion Hbelow; subst; auto.
Qed.

Lemma insertEntry_returns_base fuel allocator count trie new_entry
    seed hash hash_offset level leaf trie_node' allocator' :
  insertEntry_returns fuel allocator count (TrieNode trie) new_entry seed hash hash_offset
                      level leaf trie_node' allocator' ->
  wf_trie trie -> _base trie <> None ->
  exists trie', trie_node' = TrieNode trie' /\ _base trie' <> None.
Proof.
  intros Hrun Hwf Hbase.
  pose proof (slice_range hash hash_offset) as Ht.
  inversion Hrun as
    [ ? ? ? ? ? ? ? ? ? placed0 trie' ? Hfree Hinsert | | | | | ]; subst;
    try (eexists; split; [reflexivity|]; unfold BitmapTrie.physicalSet; cbn [_base];
         destruct (_base trie); [discriminate|contradiction]).
  - destruct (bitmap_insert_cases _ _ _ _ _ _ _ _ _ Hwf Ht Hfree Hinsert)
      as [(_ & -> & _)|(capacity & _ & _ & ->)]; eexists; (split; [reflexivity|]);
      [exact Hbase|discriminate].
Qed.

Lemma insert_all_base fuel entries :
  forall h h',
    wf_node (_root h) ->
    (exists trie, _root h = TrieNode trie /\ _base trie <> None) ->
    HAMT.insert_all fuel h entries = Ret h' ->
    exists trie', _root h' = TrieNode trie' /\ _base trie' <> None.
Proof.
  induction entries as [|entry entries IH]; intros h h' Hwf Hbase Hall;
    cbn [HAMT.insert_all] in Hall.
  - injection Hall as <-. exact Hbase.
  - destruct (HAMT.insert fuel h entry) as [[it h1]| |] eqn:Hinsert; try discriminate.
    cbn [mbind result_bind] in Hall.
    pose proof (insert_wf _ _ _ _ _ Hwf Hinsert) as Hwf1.
    apply (IH _ _ Hwf1); [|exact Hall].
    destruct (insert_cases _ _ _ _ _ Hinsert) as (leaf & root & allocator & Hrun & _ & ->).
    destruct Hbase as (trie & Hroot & Hbase). rewrite Hroot in Hrun, Hwf. cbn [_root].
    exact (insertEntry_returns_base _ _ _ _ _ _ _ _ _ _ _ _ Hrun (wf_node_trie _ Hwf) Hbase).
Qed.

(** [countInnerNodes] of the root counts the arrays that the allocator has
    handed out for the tries below the root: after a construction and any
    insertions its answer is the allocator's count of arrays not given
    back, less the array of the root. *)
Theorem countInnerNodes_counts_allocated_arrays fuel (n a0 : Z) h0 entries h trie :
  HAMT.construct n a0 = Ret h0 ->
  HAMT.insert_all fuel h0 entries = Ret h ->
  _root h = TrieNode trie ->
  HAMT.countInnerNodes trie = Ret (wrap64 (_allocator h - a0 - 1)).
Proof.
  intros Hconstruct Hall Htrie.
  destruct (construct_counting _ _ _ Hconstruct) as (capacity & Hcapacity & Hroot & Ha0).
  assert (Hwf0 : wf_node (_root h0)) by (rewrite Hroot; apply wf_fresh; lia).
  destruct (insert_all_balance _ _ _ _ Hwf0 Hall) as [Hwf Hbalance].
  rewrite Hroot, Ha0 in Hbalance. cbn [arrays _base foldr] in Hbalance.
  assert (Hbuilt0 : built h0 []).
  { eapply built_construct; [exact Hconstruct|]. rewrite Hroot.
    intros trie0 [= <-]. discriminate. }
  destruct (insert_all_built _ _ _ _ _ Hbuilt0 Hall) as [m Hbuilt].
  pose proof (built_populated_below _ _ Hbuilt) as Hbelow.
  assert (Hbase0 : exists trie0, _root h0 = TrieNode trie0 /\ _base trie0 <> None).
  { eexists. split; [exact Hroot|]. cbn [_base]. discriminate. }
  destruct (insert_all_base _ _ _ _ Hwf0 Hbase0 Hall) as (trie' & Htrie' & Hbase).
  rewrite Htrie in *. injection Htrie' as <-.
  pose proof (wf_node_trie _ Hwf) as [Hbits Hlen].
  unfold HAMT.countInnerNodes. cbn [arrays] in Hbalance.
  destruct (_base trie) as [base|] eqn:Hbase'; [|contradiction].
  destruct Hlen as [Hlen _]. unfold BitmapTrie.size. rewrite <- Hlen, Nat2Z.id.
  pose proof (wf_node_children _ _ Hwf Hbase') as Hwfs.
  specialize (Hbelow trie base eq_refl Hbase').
  rewrite (sum_cells_counts base); [| |lia].
  - f_equal. f_equal. lia.
  - clear -Hwfs Hbelow.
    induction base as [|child base IHbase]; constructor;
      inversion Hwfs; inversion Hbelow; subst; auto using countInnerNode_counts.
Qed.
End CountInnerNodes.

(** * Further examples on [int64_t] keys *)

Section Int64Runs.
#[local] Existing Instance IdentityFunction.
#[local] Existing Instance int64_equal_to.
#[local] Existing Instance generous_allocator.
#[local] Existing Instance int64_layout.

Lemma int64_equal_sym (a b : Z) : key_equal a b = true -> key_equal b a = true.
Proof. intros Heq. apply Z.eqb_eq in Heq. apply Z.eqb_eq. congruence. Qed.

Lemma int64_equal_trans (a b c : Z) :
  key_equal a b = true -> key_equal b c = true -> key_equal a c = true.
Proof. intros H1 H2. apply Z.eqb_eq in H1, H2. apply Z.eqb_eq. congruence. Qed.

Lemma built_hamt_zero : built hamt_zero [(0, 1)].
Proof.
  apply (built_insert 1 hamt_empty [] (0, 1) [0%nat] hamt_zero); [|reflexivity].
  apply (built_construct 1 tt hamt_empty); [reflexivity|].
  intros trie [= <-]. discriminate.
Qed.

Lemma built_hamt_zero_32 : built hamt_zero_32 [(0, 1); (32, 5)].
Proof.
  change (built hamt_zero_32 (assoc_insert [(0, 1)] (32, 5))).
  apply (built_insert 2 hamt_zero [(0, 1)] (32, 5) [0%nat; 1%nat] hamt_zero_32);
    [exact built_hamt_zero|]. vm_compute. reflexivity.
Qed.

(** [insert((32, 5))] next to [(0, 1)] leaves the lookup of key 0 alone. *)
Lemma insert_keeps_other_keys_witness :
  returns (fun fuel => HAMT.find fuel hamt_zero 0) (Some 1) <->
  returns (fun fuel => HAMT.find fuel hamt_zero_32 0) (Some 1).
Proof.
  apply (insert_keeps_other_keys 2 hamt_zero 32 5 (mkIterator (Some [0%nat; 1%nat]))
           hamt_zero_32 0 (Some 1)).
  - exact identity_hasher_agrees.
  - exact int64_equal_sym.
  - exact int64_equal_trans.
  - exact wf_hamt_zero.
  - vm_compute. reflexivity.
  - reflexivity.
Defined.

Lemma find_agrees_with_stored_entries_witness :
  assoc_find [(0, 1); (32, 5)] 32 = Some 5 /\
  returns (fun fuel => HAMT.find fuel hamt_zero_32 32) (assoc_find [(0, 1); (32, 5)] 32).
Proof.
  split; [reflexivity|].
  apply (find_agrees_with_stored_entries hamt_zero_32 [(0, 1); (32, 5)] 32).
  - exact identity_hasher_agrees.
  - exact Z.eqb_refl.
  - exact int64_equal_sym.
  - exact int64_equal_trans.
  - exact built_hamt_zero_32.
Defined.

Lemma wf_hamt_zero_32 : wf_node (_root hamt_zero_32).
Proof. exact (reachable_wf _ (reachable_built _ _ built_hamt_zero_32)). Qed.

Lemma find_returns_witness : exists found, HAMT.find 2 hamt_zero_32 7 = Ret found.
Proof.
  apply (find_returns 2 hamt_zero_32 7).
  - exact wf_hamt_zero_32.
  - reflexivity.
  - vm_compute. lia.
Defined.

Lemma find_returns_stored_value_witness :
  exists entry,
    In entry (leaves (_root hamt_zero_32)) /\ key_equal entry.1 32 = true /\ entry.2 = 5.
Proof.
  apply (find_returns_stored_value 2 hamt_zero_32 32 5). vm_compute. reflexivity.
Defined.

Lemma insert_adds_or_overwrites_witness :
  (returns (fun fuel => HAMT.find fuel hamt_zero 32) None /\
   Permutation (leaves (_root hamt_zero_32)) ((32, 5) :: leaves (_root hamt_zero))) \/
  (exists old_entry pre post,
     returns (fun fuel => HAMT.find fuel hamt_zero 32) (Some old_entry.2) /\
     key_equal old_entry.1 32 = true /\
     leaves (_root hamt_zero) = pre ++ old_entry :: post /\
     leaves (_root hamt_zero_32) = pre ++ (old_entry.1, 5) :: post).
Proof.
  apply (insert_adds_or_overwrites 2 hamt_zero 32 5 [0%nat; 1%nat] hamt_zero_32).
  - exact wf_hamt_zero.
  - vm_compute. reflexivity.
Defined.

Lemma insert_iterator_dereferences_witness :
  exists stored,
    Iterator.operator_deref (_root hamt_seven_twice) (mkIterator (Some [0%nat]))
      = Ret (stored, 2) /\
    (stored = 7 \/ key_equal stored 7 = true).
Proof.
  apply (insert_iterator_dereferences 1 hamt_seven 7 2 (mkIterator (Some [0%nat]))
           hamt_seven_twice).
  - constructor.
    + split; [cbn; lia|]. split; [reflexivity|]. vm_compute. discriminate.
    + intros base [= <-]. repeat constructor.
  - vm_compute. reflexivity.
  - discriminate.
Defined.

Lemma leaves_are_stored_entries_witness :
  Permutation (leaves (_root hamt_zero_32)) [(0, 1); (32, 5)] /\
  distinct_keys [(0, 1); (32, 5)].
Proof.
  apply (leaves_are_stored_entries hamt_zero_32 [(0, 1); (32, 5)]).
  - exact identity_hasher_agrees.
  - exact Z.eqb_refl.
  - exact int64_equal_sym.
  - exact int64_equal_trans.
  - exact built_hamt_zero_32.
Defined.

Lemma size_counts_leaves_of_distinct_keys_witness :
  HAMT.size hamt_zero_32 = wrap64 (Z.of_nat (length (leaves (_root hamt_zero_32)))).
Proof.
  apply (size_counts_leaves_of_distinct_keys 2 1 tt hamt_empty [(0, 1); (32, 5)]
           hamt_zero_32).
  - reflexivity.
  - cbn [distinct_keys]. repeat split; repeat constructor.
  - vm_compute. reflexivity.
Defined.

Lemma trie_height_at_most_six_witness :
  (height (_root hamt_zero_pushed) <= 6)%nat /\
  exists found, HAMT.find 6 hamt_zero_pushed 4294967296 = Ret found.
Proof.
  apply (trie_height_at_most_six hamt_zero_pushed [(0, 1)] 4294967296).
  apply (built_insert_null 6 hamt_zero [(0, 1)] (4294967296, 5) hamt_zero_pushed);
    [exact built_hamt_zero|]. vm_compute. reflexivity.
Defined.

Lemma stored_entries_are_found_witness :
  returns (fun fuel => HAMT.find fuel hamt_zero_32 32) (Some 5).
Proof.
  apply (stored_entries_are_found hamt_zero_32 [(0, 1); (32, 5)] (32, 5)).
  - exact Z.eqb_refl.
  - exact built_hamt_zero_32.
  - cbn. auto.
Defined.

Lemma insert_never_returns_on_equal_slices_witness :
  ~ exists result, HAMT.insert 1000 hamt_zero (1073741824, 5) = Ret result.
Proof.
  intros [result Hinsert]. revert result Hinsert.
  apply (insert_never_returns_on_equal_slices hamt_zero [(0, 1)] (0, 1) 1073741824 5 1000).
  - exact built_hamt_zero.
  - cbn. auto.
  - reflexivity.
  - reflexivity.
  - vm_compute. discriminate.
Defined.
End Int64Runs.

(** * Further examples on an allocator that runs out *)

Section Int64BudgetRuns.
#[local] Existing Instance IdentityFunction.
#[local] Existing Instance int64_equal_to.
#[local] Existing Instance budget_allocator.
#[local] Existing Instance int64_layout.

Lemma wf_hamt_tight : wf_node (_root hamt_tight).
Proof.
  constructor.
  - split; [cbn; lia|]. split; [reflexivity|]. vm_compute. discriminate.
  - intros base [= <-]. repeat constructor.
Qed.

(** [insert((2, 3))] into the full root of [hamt_tight], the allocator
    having nothing left. *)
Lemma insert_returns_null_only_on_witness :
  HAMT.insert 1 hamt_tight (2, 3) = Ret (mkIterator None, hamt_tight) /\
  ((_root hamt_tight = _root hamt_tight /\
    exists capacity,
      1 <= capacity <= 32 /\
      Alloc.allocate (_allocator hamt_tight) (wrap64 (capacity * sizeof_Node)) alignof_Node
        = (false, _allocator hamt_tight)) \/
   (exists old_entry n,
      In old_entry (leaves (_root hamt_tight)) /\
      key_equal old_entry.1 2 = false /\
      HAMT.hash32 2 (Nat.iter (S n) HAMT.next_seed (_seed hamt_tight)) =
      HAMT.hash32 old_entry.1 (Nat.iter (S n) HAMT.next_seed (_seed hamt_tight)))) /\
  HAMT.size hamt_tight = HAMT.size hamt_tight /\
  _seed hamt_tight = _seed hamt_tight /\
  leaves (_root hamt_tight) = leaves (_root hamt_tight) /\
  forall key' found,
    returns (fun fuel => HAMT.find fuel hamt_tight key') found <->
    returns (fun fuel => HAMT.find fuel hamt_tight key') found.
Proof.
  assert (Hinsert : HAMT.insert 1 hamt_tight (2, 3) = Ret (mkIterator None, hamt_tight))
    by (vm_compute; reflexivity).
  split; [exact Hinsert|].
  exact (insert_returns_null_only_on 1 hamt_tight 2 3 hamt_tight identity_hasher_agrees
           wf_hamt_tight Hinsert).
Defined.

(** [insert((32, 5))] next to [(0, 1)], whose slot of the root key 32
    shares, the allocator having nothing left for the new interior node. *)
Lemma split_without_memory_is_undefined_witness :
  HAMT.insertEntry 2 (_allocator hamt_zero_exhausted) (_count hamt_zero_exhausted)
                   (TrieNode (mkBitmapTrie 8192 2 (Some [EntryNode (0, 1)]))) (32, 5)
                   default_seed (HAMT.hash32 32 default_seed) 0 0 = Undefined.
Proof.
  apply (split_without_memory_is_undefined 0 (_allocator hamt_zero_exhausted)
           (_count hamt_zero_exhausted)
           (mkBitmapTrie 8192 2 (Some [EntryNode (0, 1)])) (32, 5)
           default_seed (HAMT.hash32 32 default_seed) 0 0 (0, 1)).
  - reflexivity.
  - reflexivity.
  - reflexivity.
  - left. lia.
  - reflexivity.
Defined.
End Int64BudgetRuns.

(** * Examples for the allocation policy, the seeds and the first leaf *)

Section Int64Policy.
#[local] Existing Instance IdentityFunction.
#[local] Existing Instance int64_equal_to.
#[local] Existing Instance generous_allocator.
#[local] Existing Instance int64_layout.

(** [insert((32, 5))] next to [(0, 1)]: the hashes of the two keys differ
    within the 30 low bits. *)
Lemma insert_returns_witness :
  exists result, HAMT.insert 6 hamt_zero (32, 5) = Ret result.
Proof.
  apply (insert_returns hamt_zero [(0, 1)] 32 5).
  - intros allocator bytes alignment. reflexivity.
  - exact built_hamt_zero.
  - reflexivity.
  - intros old_entry Hin _ Hsame. destruct Hin as [<-|[]].
    vm_compute in Hsame. discriminate.
Defined.

(** The keys 0 and 2^32 under the default seed and under the seed 0. *)
Lemma collision_is_seed_independent_witness :
  HAMT.hash32 0 0 = HAMT.hash32 4294967296 0 /\ collide 0 4294967296.
Proof.
  apply (collision_is_seed_independent 0 4294967296 default_seed 0).
  reflexivity.
Defined.

(** The full array of [two_of_three] grows to the five cells that the
    sizing oracle answers for three cells in a container of three. *)
Lemma bitmap_trie_insertEntry_allocation_witness :
  exists this',
    BitmapTrie.insertEntry tt two_of_three 1 (1, 11) 3 0 = Ret (Some 1%nat, this', tt) /\
    _capacity this' = 5.
Proof.
  assert (Hwf : wf_trie two_of_three).
  { split; [cbn; lia|]. split; [reflexivity|]. vm_compute. discriminate. }
  assert (Hfull : _capacity two_of_three <= BitmapTrie.size two_of_three)
    by (vm_compute; discriminate).
  destruct (proj2 (bitmap_trie_insertEntry_allocation tt two_of_three 1 (1, 11) 3 0
                     Hwf ltac:(lia) eq_refl ltac:(lia)) Hfull)
    as (alloc_size & Horacle & _ & Hcases).
  vm_compute in Horacle. injection Horacle as <-.
  exact (Hcases true tt eq_refl).
Defined.

Lemma new_or_cleared_is_empty_witness :
  HAMT.size hamt_empty = 0 /\ HAMT.empty hamt_empty = true /\
  leaves (_root hamt_empty) = [] /\ HAMT.find 1 hamt_empty 7 = Ret None.
Proof.
  apply (new_or_cleared_is_empty hamt_empty 7 0).
  left. exists 1, tt. reflexivity.
Defined.

(** [clear()] on the container holding [(0, 1)], then [insert((7, 1))]. *)
Lemma insert_after_clear_witness :
  HAMT.clear hamt_zero = Ret hamt_cleared /\
  HAMT.insert 1 hamt_cleared (7, 1) = Ret (mkIterator (Some [0%nat]), hamt_seven).
Proof.
  split; [reflexivity|].
  exact (insert_after_clear hamt_cleared hamt_zero (7, 1) 0 true tt eq_refl eq_refl).
Defined.

Lemma sizing_oracle_monotone_witness :
  hamt_trie_allocation_size 3 100 1 = Some 5 /\
  hamt_trie_allocation_size 9 1000 0 = Some 32 /\
  5 <= 32.
Proof.
  split; [reflexivity|]. split; [reflexivity|].
  apply (sizing_oracle_monotone 3 9 100 1000 1 0 5 32); try lia; reflexivity.
Defined.

Lemma next_seed_is_one_to_one_witness :
  0 <= HAMT.next_seed default_seed < 2 ^ 32 /\
  (HAMT.next_seed default_seed = HAMT.next_seed 1 -> default_seed = 1) /\
  (HAMT.next_seed default_seed = 0 -> default_seed = 0).
Proof.
  apply (next_seed_is_one_to_one default_seed 1); unfold default_seed; lia.
Defined.

Lemma first_entry_is_first_leaf_witness :
  exists p entry rest,
    BitmapTrie.firstEntryNodeRecursively
      (mkBitmapTrie 8192 2
         (Some [TrieNode (mkBitmapTrie 192 2
                  (Some [EntryNode (0, 1); EntryNode (32, 5)]))])) = Ret p /\
    follow (_root hamt_zero_32) p = Some (EntryNode entry) /\
    leaves (_root hamt_zero_32) = entry :: rest.
Proof.
  apply (first_entry_is_first_leaf hamt_zero_32 [(0, 1); (32, 5)] _
           built_hamt_zero_32 eq_refl).
  reflexivity.
Defined.
End Int64Policy.

Section Int64Counting.
#[local] Existing Instance IdentityFunction.
#[local] Existing Instance int64_equal_to.
#[local] Existing Instance counting_allocator.
#[local] Existing Instance int64_layout.

(** [HashArrayMappedTrie()], [insert((0, 1))] and [insert((32, 5))] on the
    counting allocator: two arrays are out, the one of the root and the
    one of the interior node below it. *)
Lemma no_array_is_leaked_witness :
  exists h0 h,
    HAMT.construct 1 0 = Ret h0 /\
    HAMT.insert_all 2 h0 [(0, 1); (32, 5)] = Ret h /\
    _allocator h = 0 + arrays (_root h) /\
    HAMT.destroy h = Ret 0 /\
    exists h', HAMT.clear h = Ret h' /\ _allocator h' = 0 /\ arrays (_root h') = 0.
Proof.
  eexists _, _. split; [reflexivity|]. split; [vm_compute; reflexivity|].
  eapply (no_array_is_leaked 2 1 0 _ [(0, 1); (32, 5)] _);
    [reflexivity|vm_compute; reflexivity].
Defined.

Lemma countInnerNodes_counts_allocated_arrays_witness :
  exists h0 h trie,
    HAMT.construct 1 0 = Ret h0 /\
    HAMT.insert_all 2 h0 [(0, 1); (32, 5)] = Ret h /\
    _root h = TrieNode trie /\
    HAMT.countInnerNodes trie = Ret (wrap64 (_allocator h - 0 - 1)).
Proof.
  eexists _, _, _. split; [reflexivity|]. split; [vm_compute; reflexivity|].
  split; [reflexivity|].
  eapply (countInnerNodes_counts_allocated_arrays 2 1 0 _ [(0, 1); (32, 5)] _ _);
    [reflexivity|vm_compute; reflexivity|reflexivity].
Defined.
End Int64Counting.
